(** * dynamic-xuanfang: the constrained Top-K combination search

    A shallow embedding of the search engine of the repository
    (src/normalize.js, src/bisect.js, src/topk.js, src/solver.js in its two
    revisions, src/data.js for the two source names, and the request
    validation of server.js), followed by the properties of the
    specification that are about it.

    Conventions of the embedding.
    - A JavaScript number is a [JS.num]: NaN, the two infinities, or a finite
      double carried as the rational that is its value. A sum and a
      difference are rounded to the nearest double ([JS.number]), with the
      infinities from 2^1024 on; the sign of a zero is not kept. The
      comparisons follow JavaScript, NaN included. The properties hold of
      every rational input, the doubles among them; where a property needs
      an input to be a double, it says so ([JS.isDouble]).
    - A candidate of the collector holds a finite sum.
    - A JavaScript string is the list of its UTF-16 code units.
    - [Array.prototype.sort] is a stable sort (ECMAScript 2019).
    - A [Set] of strings is a [gset]; an array is a [list], read with the
      list lookup [!!].
    - Objects that the code updates in place (the result list and the key
      set) are passed through the functions as a state.

    The second part embeds what surrounds the search: the range helpers
    and the data layer of [solveTopK], the area filter of its first
    revision, the detection of the community column, the worker pool of
    server.js, the command line of src/cli.js and the lines of
    src/export.js, with the properties that the code shows of them. *)

From Stdlib Require Import ZArith QArith Qround Qabs Qpower Lqa Lia Bool List Ascii String Sorted Permutation.
From stdpp Require Import base gmap sets list strings sorting.
Import ListNotations.

Abbreviation jsstr := (list N) (only parsing).

(** ** The JavaScript runtime that the sources rely on *)
Module JS.

(** Number values. *)
Inductive num : Type :=
| NaN
| PInf
| NInf
| Fin (q : Q).

Definition isFinite (x : num) : bool :=
  match x with Fin _ => true | _ => false end.

Definition Qltb (a b : Q) : bool := negb (Qle_bool b a).

(** [x <= y] *)
Definition leb (x y : num) : bool :=
  match x, y with
  | NaN, _ | _, NaN => false
  | NInf, _ => true
  | _, PInf => true
  | Fin a, Fin b => Qle_bool a b
  | PInf, _ => false
  | Fin _, NInf => false
  end.

(** [x < y] *)
Definition ltb (x y : num) : bool :=
  match x, y with
  | NaN, _ | _, NaN => false
  | NInf, NInf => false
  | NInf, _ => true
  | PInf, _ => false
  | Fin _, PInf => true
  | Fin a, Fin b => Qltb a b
  | Fin _, NInf => false
  end.

(** [x > y] and [x >= y] *)
Definition gtb (x y : num) : bool := ltb y x.
Definition geb (x y : num) : bool := leb y x.

(** *** Rounding to a double

    The result of an operation is the double nearest to the exact result,
    the one with an even significand on a tie (IEEE 754, binary64): 53
    significant bits, the exponent of the last bit not below -1074, and
    an infinity from 2^1024 on. *)

Definition pow2 (e : Z) : Q := 2 ^ e.

(** [floor (log2 q)] for a positive [q]: the difference of the bit
    lengths of numerator and denominator, or one less. *)
Definition ilog2 (q : Q) : Z :=
  let k := (Z.log2 (Qnum q) - Z.log2 (Zpos (Qden q)))%Z in
  if Qle_bool (pow2 k) q then k else (k - 1)%Z.

(** The integer nearest to [y], the even one on a tie. *)
Definition roundEven (y : Q) : Z :=
  let f := Qfloor y in
  match ((y - inject_Z f) ?= (1 # 2))%Q with
  | Lt => f
  | Gt => (f + 1)%Z
  | Eq => if Z.even f then f else (f + 1)%Z
  end.

(** A positive [q] rounded to a multiple of [2^e], with [e] the exponent
    of the last of 53 bits, or -1074 among the subnormal numbers. *)
Definition roundPos (q : Q) : Q :=
  let e := Z.max (ilog2 q - 52) (-1074) in
  inject_Z (roundEven (q / pow2 e)) * pow2 e.

(** The nearest double when the exponent is not bounded above. The sign
    of a zero is not kept: no line of the sources tells -0 from 0. *)
Definition round (q : Q) : Q :=
  match (q ?= 0)%Q with
  | Eq => 0
  | Gt => Qred (roundPos q)
  | Lt => Qred (- roundPos (- q))
  end.

(** The number that an exact result [q] becomes. It is also [Number(s)]
    on a decimal literal [s] of value [q]. *)
Definition number (q : Q) : num :=
  let r := round q in
  if Qle_bool (pow2 1024) r then PInf
  else if Qle_bool r (- pow2 1024) then NInf
  else Fin r.

(** Whether a rational is the value of a finite double. *)
Definition isDouble (q : Q) : bool :=
  match number q with
  | Fin r => Qeq_bool r q
  | _ => false
  end.

(** [x + y] *)
Definition add (x y : num) : num :=
  match x, y with
  | NaN, _ | _, NaN => NaN
  | PInf, NInf | NInf, PInf => NaN
  | PInf, _ | _, PInf => PInf
  | NInf, _ | _, NInf => NInf
  | Fin a, Fin b => number (a + b)
  end.

(** [x - y] *)
Definition sub (x y : num) : num :=
  match x, y with
  | NaN, _ | _, NaN => NaN
  | PInf, PInf | NInf, NInf => NaN
  | PInf, _ | _, NInf => PInf
  | NInf, _ | _, PInf => NInf
  | Fin a, Fin b => number (a - b)
  end.

Definition ofNat (n : nat) : num := Fin (inject_Z (Z.of_nat n)).

(** [Math.floor] and [Math.max] *)
Definition floor (x : num) : num :=
  match x with Fin q => Fin (inject_Z (Qfloor q)) | _ => x end.

Definition max (x y : num) : num :=
  match x, y with
  | NaN, _ | _, NaN => NaN
  | _, _ => if leb x y then y else x
  end.

(** Truthiness of a number, and [x || y] on numbers. *)
Definition truthy (x : num) : bool :=
  match x with
  | NaN => false
  | Fin q => negb (Qeq_bool q 0)
  | _ => true
  end.

Definition or (x y : num) : num := if truthy x then x else y.

(** [Number(q.toFixed(6))] for a finite [q] below 1e21: the integer [n]
    for which [n / 10^6] is closest to the magnitude, the larger one on a
    tie, with the sign put back. The number is carried as the decimal that
    [toFixed] wrote; the double that the code holds is the [number] of it,
    and it is printed as that decimal again (up to 15 significant
    digits). *)
Definition roundHalfUp6 (q : Q) : Q :=
  Qred (inject_Z (Qfloor (q * 1000000 + (1 # 2))) / 1000000).

Definition toFixed6Q (q : Q) : Q :=
  if Qltb q 0 then Qred (- roundHalfUp6 (- q)) else roundHalfUp6 q.

Definition toFixed6 (x : num) : num :=
  match x with Fin q => Fin (toFixed6Q q) | _ => x end.

(** Values, as far as the sources inspect them. *)
Inductive value : Type :=
| VUndefined
| VNull
| VBool (b : bool)
| VNumber (n : num)
| VString (s : jsstr)
| VObject.

(** Code units of an ASCII literal. *)
Definition str (s : string) : jsstr :=
  map N_of_ascii (String.list_ascii_of_string s).

(** WhiteSpace and LineTerminator code points, those [trim] removes. *)
Definition isWhiteSpace (c : N) : bool :=
  ((9 <=? c) && (c <=? 13) || (c =? 32) || (c =? 160) || (c =? 5760)
   || (8192 <=? c) && (c <=? 8202) || (c =? 8232) || (c =? 8233)
   || (c =? 8239) || (c =? 8287) || (c =? 12288) || (c =? 65279))%N.

Fixpoint dropWhile {A} (p : A -> bool) (l : list A) : list A :=
  match l with
  | [] => []
  | x :: l' => if p x then dropWhile p l' else l
  end.

Definition trim (s : jsstr) : jsstr :=
  rev (dropWhile isWhiteSpace (rev (dropWhile isWhiteSpace s))).

(** [toUpperCase] on a Latin letter. *)
Definition toUpperCase1 (c : N) : N :=
  if ((97 <=? c) && (c <=? 122))%N then (c - 32)%N else c.

(** A stable sort: [le a b] says that [a] may stay before [b]. *)
Fixpoint insertSorted {A} (le : A -> A -> bool) (x : A) (l : list A) : list A :=
  match l with
  | [] => [x]
  | y :: l' => if le x y then x :: l else y :: insertSorted le x l'
  end.

Definition stableSort {A} (le : A -> A -> bool) (l : list A) : list A :=
  foldr (insertSorted le) [] l.

(** [arr.sort(cmp)] with a numeric comparator: [a] stays before [b] when
    [cmp a b <= 0]. A comparator that subtracts two doubles is given by
    the exact difference, whose sign the rounded difference has. *)
Definition sortBy {A} (cmp : A -> A -> Q) (l : list A) : list A :=
  stableSort (fun a b => Qle_bool (cmp a b) 0) l.

(** [arr.sort()] on strings: order of the code units. *)
Fixpoint strLeb (s t : jsstr) : bool :=
  match s, t with
  | [], _ => true
  | _ :: _, [] => false
  | a :: s', b :: t' => if (a <? b)%N then true else if (b <? a)%N then false else strLeb s' t'
  end.

Definition sortDefault (l : list jsstr) : list jsstr := stableSort strLeb l.

(** [arr.join(sep)] *)
Fixpoint join (sep : jsstr) (l : list jsstr) : jsstr :=
  match l with
  | [] => []
  | [s] => s
  | s :: l' => s ++ sep ++ join sep l'
  end.

(** Decimal digits of a natural number. *)
Fixpoint digitsAux (fuel : nat) (n : N) (acc : jsstr) : jsstr :=
  match fuel with
  | O => acc
  | S f =>
      let acc' := (48 + n mod 10)%N :: acc in
      if (n / 10 =? 0)%N then acc' else digitsAux f (n / 10)%N acc'
  end.

Definition digits (n : N) : jsstr := digitsAux (S (N.size_nat n)) n [].

Definition pow10 (e : Z) : Q := 10 ^ e.

(** [floor (log10 q)] for a positive [q]: an estimate from the bit
    lengths, two below at most, then counted up. *)
Fixpoint ilog10Up (fuel : nat) (q : Q) (k : Z) : Z :=
  match fuel with
  | O => k
  | S f => if Qle_bool (pow10 (k + 1)) q then ilog10Up f q (k + 1) else k
  end.

Definition ilog10 (q : Q) : Z :=
  let b := (Z.log2 (Qnum q) - Z.log2 (Zpos (Qden q)))%Z in
  ilog10Up 4 q (b * 1233 / 4096 - 1)%Z.

(** The [k]-digit decimals next to the double [d], below and above, when
    they denote [d], that is, when [d] is the double nearest to them: the
    closer one, the even one on a tie. *)
Definition digitsOf (d : Q) (e10 : Z) (k : nat) : option Z :=
  let scale := pow10 (e10 - Z.of_nat k + 1) in
  let lo := Qfloor (d / scale) in
  let hi := (lo + 1)%Z in
  let okLo := Qeq_bool (round (inject_Z lo * scale)) d in
  let okHi := Qeq_bool (round (inject_Z hi * scale)) d in
  match okLo, okHi with
  | true, false => Some lo
  | false, true => Some hi
  | false, false => None
  | true, true =>
      match ((d - inject_Z lo * scale) ?= (inject_Z hi * scale - d))%Q with
      | Lt => Some lo
      | Gt => Some hi
      | Eq => if Z.even lo then Some lo else Some hi
      end
  end.

(** The least number of digits that denote [d]; 17 digits tell any two
    doubles apart. *)
Fixpoint shortest (fuel : nat) (d : Q) (e10 : Z) (k : nat) : Z * nat :=
  match digitsOf d e10 k with
  | Some s => (s, k)
  | None =>
      match fuel with
      | O => (Qfloor (d / pow10 (e10 - Z.of_nat k + 1)), k)
      | S f => shortest f d e10 (S k)
      end
  end.

(** Number::toString on a positive double: the digits [s], their number
    [k] and the exponent [n] with [s * 10^(n - k)] denoting [d], then the
    four layouts: an integer, a decimal point inside the digits, zeros
    after the point, and the exponent notation. Digits that round up to a
    power of ten are the digit 1 with the next exponent. *)
Definition printPositive (d : Q) : jsstr :=
  let e10 := ilog10 d in
  let '(s, k) := shortest 16 d e10 1 in
  let carry := (s =? 10 ^ Z.of_nat k)%Z in
  let ds := if carry then str "1" else digits (Z.to_N s) in
  let k := if carry then 1%nat else k in
  let n := if carry then (e10 + 2)%Z else (e10 + 1)%Z in
  if ((Z.of_nat k <=? n) && (n <=? 21))%Z then
    ds ++ repeat 48%N (Z.to_nat n - k)
  else if ((0 <? n) && (n <=? 21))%Z then
    take (Z.to_nat n) ds ++ str "." ++ drop (Z.to_nat n) ds
  else if ((-6 <? n) && (n <=? 0))%Z then
    str "0." ++ repeat 48%N (Z.to_nat (- n)) ++ ds
  else
    let e := (n - 1)%Z in
    let expo := (if (e <? 0)%Z then str "-" else str "+") ++ digits (Z.abs_N e) in
    match ds with
    | [c] => [c] ++ str "e" ++ expo
    | c :: rest => [c] ++ str "." ++ rest ++ str "e" ++ expo
    | [] => []
    end.

(** [String(x)] for the number [x] of value [q]: the shortest decimal
    that denotes the double. *)
Definition numToString (q : Q) : jsstr :=
  match number q with
  | Fin d =>
      match (d ?= 0)%Q with
      | Eq => str "0"
      | Gt => printPositive d
      | Lt => str "-" ++ printPositive (- d)
      end
  | PInf => str "Infinity"
  | NInf => str "-Infinity"
  | NaN => str "NaN"
  end.

End JS.

(** ** Data model *)

(** An item as solver.js builds it: [{ area, type, srcFile, community,
    buildingNo, roomNo, doorNo }]. The four descriptive fields are either
    absent ([None], JavaScript [undefined]) or a string. *)
Record item : Type := Item {
  area : Q;
  type : jsstr;
  srcFile : jsstr;
  community : option jsstr;
  buildingNo : option jsstr;
  roomNo : option jsstr;
  doorNo : option jsstr
}.

(** A candidate solution of topk.js: [{ sum, picked }]. *)
Record candidate : Type := Candidate {
  sum : Q;
  picked : list item
}.

(** ** src/normalize.js *)
Module Normalize.
Import JS.

(** The class [[ABCD]] under the [i] flag. *)
Definition isABCD (c : N) : bool :=
  ((65 <=? c) && (c <=? 68) || (97 <=? c) && (c <=? 100))%N.

(** The suffix marker, U+7C7B. *)
Definition lei : N := 31867%N.

(** [m[1]] of [s.match(/^([ABCD])(?:lei)?$/i)], when the match succeeds. *)
Definition matchType (s : jsstr) : option N :=
  match s with
  | [c] => if isABCD c then Some c else None
  | [c; d] => if isABCD c && (d =? lei)%N then Some c else None
  | _ => None
  end.

Definition normalizeType (t : value) : option jsstr :=
  match t with
  | VString s =>
      match matchType (trim s) with
      | Some c => Some [toUpperCase1 c]
      | None => None
      end
  | _ => None
  end.

End Normalize.

(** ** src/bisect.js *)
Module Bisect.
Import JS.

(** The [while (lo < hi)] loop. Every round shrinks [hi - lo], so [fuel]
    rounds are enough when [hi - lo <= fuel]; [None] stands for fuel that
    ran out or a read outside the array, and [bisectLoop_total] shows that
    neither happens. [(lo + hi) >> 1] is the halving shift: the indices of
    an array stay far below 2^30, so the 32-bit conversion does not wrap. *)
Fixpoint bisectLoop (fuel : nat) (arr : list item) (maxArea : num) (lo hi : nat)
  : option nat :=
  if (lo <? hi)%nat then
    match fuel with
    | O => None
    | S fuel' =>
        let mid := Nat.shiftr (lo + hi) 1 in
        match arr !! mid with
        | Some x =>
            if leb (Fin (area x)) maxArea
            then bisectLoop fuel' arr maxArea (mid + 1) hi
            else bisectLoop fuel' arr maxArea lo mid
        | None => None
        end
    end
  else Some lo.

Definition bisectRightByArea (arr : list item) (maxArea : num) : option nat :=
  bisectLoop (length arr) arr maxArea 0 (length arr).

(** [idx >= 0 ? arr[idx] : null] with [idx] the insertion point minus one. *)
Definition pickBestUnderOrEqual (arr : list item) (maxArea : num) : option item :=
  match bisectRightByArea arr maxArea with
  | Some (S idx) => arr !! idx
  | _ => None
  end.

End Bisect.

(** ** src/topk.js *)
Module TopK.
Import JS.

(** [`${x.area}-${x.type}-${x.srcFile}`] *)
Definition itemKey (x : item) : jsstr :=
  numToString (area x) ++ str "-" ++ type x ++ str "-" ++ srcFile x.

Definition makeKey (picked : list item) : jsstr :=
  join (str "|") (sortDefault (map itemKey picked)).

(** The two objects that [pushTopK] updates in place. *)
Record state : Type := State {
  topList : list candidate;
  seenKeys : gset (list N)
}.

Definition empty : state := State [] ∅.

(** [arr.pop()]: the last element and the array without it. *)
Fixpoint pop {A} (l : list A) : option (A * list A) :=
  match l with
  | [] => None
  | [x] => Some (x, [])
  | x :: l' =>
      match pop l' with
      | Some (y, r) => Some (y, x :: r)
      | None => None
      end
  end.

Definition pushTopK (st : state) (c : candidate) (topK : num) : state :=
  let key := makeKey (picked c) in
  if bool_decide (key ∈ seenKeys st) then st
  else
    let seen1 := {[ key ]} ∪ seenKeys st in
    let list1 := sortBy (fun a b => sum b - sum a)%Q (topList st ++ [c]) in
    if gtb (ofNat (length list1)) topK then
      match pop list1 with
      | Some (removed, list2) =>
          State list2 (seen1 ∖ {[ makeKey (picked removed) ]})
      | None => State list1 seen1
      end
    else State list1 seen1.

End TopK.

(** ** Inputs and outputs of the solver *)

(** An element [it] of [candidates]. The area is carried as the number that
    [Number(it[0])] or [Number(it.area)] yields. *)
Inductive rawCandidate : Type :=
| RawArray (area : JS.num) (type srcFile : JS.value)
    (* an array [[x, type, srcFile, ...]] of length at least 3 *)
| RawShortArray
    (* an array of length below 3 *)
| RawObject (area : JS.num) (type srcFile : JS.value)
    (community buildingNo roomNo doorNo : option jsstr)
    (* a non-null object that is no array *)
| RawOther.
    (* anything else *)

(** [byType = { A: [], B: [], C: [] }] *)
Record groups : Type := Groups {
  gA : list item;
  gB : list item;
  gC : list item
}.

(** One entry of the returned array: the labelled picks, the rounded sum,
    the target and the rounded gap. *)
Record resultEntry : Type := ResultEntry {
  result : list (Q * jsstr);
  兑换面积 : Q;
  目标面积 : JS.num;
  浪费面积 : JS.num
}.

(** What solver.js does in both of its revisions. *)
Module SolverCommon.
Import JS Normalize Bisect TopK.

Definition isABC (t : jsstr) : bool :=
  bool_decide (t = str "A") || bool_decide (t = str "B") || bool_decide (t = str "C").

(** The three [continue] guards on area, type and source, then
    [items.push]. *)
Definition buildItem (fileAName fileBName : jsstr) (a : num) (t s : value)
    (community buildingNo roomNo doorNo : option jsstr) : option item :=
  match a with
  | Fin q =>
      if Qle_bool q 0 then None
      else
        match normalizeType t with
        | Some ty =>
            if negb (isABC ty) then None
            else
              match s with
              | VString src =>
                  if negb (bool_decide (src = fileAName)) && negb (bool_decide (src = fileBName))
                  then None
                  else Some (Item q ty src community buildingNo roomNo doorNo)
              | _ => None
              end
        | None => None
        end
  | _ => None
  end.

(** [byType[x.type].push(x)] *)
Definition pushByType (g : groups) (x : item) : groups :=
  if bool_decide (type x = str "A") then Groups (gA g ++ [x]) (gB g) (gC g)
  else if bool_decide (type x = str "B") then Groups (gA g) (gB g ++ [x]) (gC g)
  else Groups (gA g) (gB g) (gC g ++ [x]).

Definition sortByArea (l : list item) : list item :=
  sortBy (fun p q => area p - area q)%Q l.

Definition groupAndSort (items : list item) : groups :=
  let g := fold_left pushByType items (Groups [] [] []) in
  Groups (sortByArea (gA g)) (sortByArea (gB g)) (sortByArea (gC g)).

Definition anyEmpty (g : groups) : bool :=
  match gA g, gB g, gC g with
  | _ :: _, _ :: _, _ :: _ => false
  | _, _, _ => true
  end.

(** [topK = Math.max(1, Math.floor(Number(topK) || 1))] *)
Definition normalizeTopK (topK : num) : num :=
  max (Fin 1) (floor (or topK (Fin 1))).

Definition hasAtLeastOneFromB (fileBName : jsstr) (picked : list item) : bool :=
  existsb (fun x => bool_decide (srcFile x = fileBName)) picked.

(** The anti-dominance rule: [true] when the combination is to be dropped. *)
Definition dominantWithSmallOthers (disallowDominant : bool)
    (dominantMoreThan othersLessThan : num) (picked : list item) : bool :=
  if disallowDominant && isFinite dominantMoreThan && isFinite othersLessThan then
    let areas := map area picked in
    let dominantCount :=
      length (List.filter (fun a => gtb (Fin a) dominantMoreThan) areas) in
    if (dominantCount =? 1)%nat then
      let others := List.filter (fun a => leb (Fin a) dominantMoreThan) areas in
      forallb (fun a => ltb (Fin a) othersLessThan) others
    else false
  else false.

(** JavaScript truthiness of a descriptive field. *)
Definition present (f : option jsstr) : bool :=
  match f with
  | Some (_ :: _) => true
  | _ => false
  end.

Definition text (f : option jsstr) : jsstr :=
  match f with Some s => trim s | None => [] end.

End SolverCommon.

(** ** src/solver.js, first revision: exhaustive enumeration in ascending
    order *)
Module SolverV1.
Import JS Normalize Bisect TopK SolverCommon.

Section bestTopKCombos.
(** [topK] is the parameter after its first-line reassignment
    [topK = Math.max(1, ...)], [targetNum] is [Number(target)]. *)
Variables (candidates : list rawCandidate) (targetNum : num)
  (fileAName fileBName : jsstr) (topK : num)
  (disallowDominant : bool) (dominantMoreThan othersLessThan : num).

(** Only arrays of length 3 or more are read. *)
Definition toItem (it : rawCandidate) : option item :=
  match it with
  | RawArray a t s => buildItem fileAName fileBName a t s None None None None
  | _ => None
  end.

Definition items : list item := omap toItem candidates.

Definition byType : groups := groupAndSort items.

(** A candidate holds a finite sum. A sum that is Infinity gets past the
    first test only under the target Infinity, with areas that add up
    beyond the largest double; that candidate is left out here. *)
Definition tryCollect (st : state) (picked : list item) (sum : num) : state :=
  if gtb sum targetNum then st
  else if negb (hasAtLeastOneFromB fileBName picked) then st
  else if dominantWithSmallOthers disallowDominant dominantMoreThan othersLessThan picked
  then st
  else
    match sum with
    | Fin s => pushTopK st (Candidate s picked) topK
    | _ => st
    end.

(** Body of [for (const b of byType.B)]. *)
Definition closeThree (a b : item) (st : state) : state :=
  let partial := add (Fin (area a)) (Fin (area b)) in
  if gtb partial targetNum then st
  else
    match pickBestUnderOrEqual (gC byType) (sub targetNum partial) with
    | Some c => tryCollect st [a; b; c] (add partial (Fin (area c)))
    | None => st
    end.

Definition enumThree (st : state) : state :=
  fold_left (fun st a => fold_left (fun st b => closeThree a b st) (gB byType) st)
    (gA byType) st.

(** Body of [for (const y of Y)]. *)
Definition closeFour (Z : list item) (xi xj : item) (sumXX : num) (y : item)
    (st : state) : state :=
  let partial := add sumXX (Fin (area y)) in
  if gtb partial targetNum then st
  else
    match pickBestUnderOrEqual Z (sub targetNum partial) with
    | Some z => tryCollect st [xi; xj; y; z] (add partial (Fin (area z)))
    | None => st
    end.

(** Body of [for (let j = i + 1; j < X.length; j++)]. *)
Definition pairThen (Y Z : list item) (xi xj : item) (st : state) : state :=
  let sumXX := add (Fin (area xi)) (Fin (area xj)) in
  if gtb sumXX targetNum then st
  else fold_left (fun st y => closeFour Z xi xj sumXX y st) Y st.

(** [for (let i = 0; ...) for (let j = i + 1; ...)]: [X[i]] is the head of
    the remaining array and [X[j]] runs over what follows it. *)
Fixpoint enumFour (X Y Z : list item) (st : state) : state :=
  match X with
  | [] => st
  | xi :: rest =>
      enumFour rest Y Z (fold_left (fun st xj => pairThen Y Z xi xj st) rest st)
  end.

Definition search : state :=
  let st0 := enumThree empty in
  let st1 := enumFour (gA byType) (gB byType) (gC byType) st0 in
  let st2 := enumFour (gB byType) (gA byType) (gC byType) st1 in
  enumFour (gC byType) (gA byType) (gB byType) st2.

(** [`${x.type}(现房)`] for the must-include source, [`${x.type}(期房)`]
    otherwise. *)
Definition label (x : item) : jsstr :=
  if bool_decide (srcFile x = fileBName)
  then type x ++ str "(" ++ [29616; 25151]%N ++ str ")"
  else type x ++ str "(" ++ [26399; 25151]%N ++ str ")".

(** [sumFixed] is read back from its six decimals: the subtraction works
    on the double nearest to them. *)
Definition format (c : candidate) : resultEntry :=
  let sumFixed := toFixed6Q (sum c) in
  ResultEntry (map (fun x => (area x, label x)) (picked c))
    sumFixed targetNum (toFixed6 (sub targetNum (number sumFixed))).

Definition searchResults : list resultEntry :=
  if anyEmpty byType then [] else map format (topList search).

End bestTopKCombos.

Definition bestTopKCombos (candidates : list rawCandidate) (target : num)
    (fileAName fileBName : jsstr) (topK : num)
    (disallowDominant : bool) (dominantMoreThan othersLessThan : num) : list resultEntry :=
  searchResults candidates target fileAName fileBName (normalizeTopK topK)
    disallowDominant dominantMoreThan othersLessThan.

End SolverV1.

(** ** src/solver.js, current revision: descending enumeration with the
    upper-bound cut *)
Module Solver.
Import JS Normalize Bisect TopK SolverCommon.

Section bestTopKCombos.
(** [prune] is [true] in the source. With [false] the two blocks
    [if (topList.length >= topK) { ... break; }] are left out: that is
    the same enumeration without the cut, kept to state what the cut
    preserves. *)
Variable prune : bool.
(** [topK] is the parameter after its first-line reassignment
    [topK = Math.max(1, ...)], [targetNum] is [Number(target)]. *)
Variables (candidates : list rawCandidate) (targetNum : num)
  (fileAName fileBName : jsstr) (topK : num)
  (disallowDominant : bool) (dominantMoreThan othersLessThan : num).

Definition toItem (it : rawCandidate) : option item :=
  match it with
  | RawArray a t s => buildItem fileAName fileBName a t s None None None None
  | RawObject a t s community buildingNo roomNo doorNo =>
      buildItem fileAName fileBName a t s community buildingNo roomNo doorNo
  | _ => None
  end.

Definition items : list item := omap toItem candidates.

Definition underTarget (l : list item) : list item :=
  List.filter (fun x => leb (Fin (area x)) targetNum) l.

Definition byType : groups :=
  let g := groupAndSort items in
  Groups (underTarget (gA g)) (underTarget (gB g)) (underTarget (gC g)).

(** [picked.reduce(...)]: the picks from file A whose area exceeds 100. *)
Definition largeQCount (picked : list item) : nat :=
  fold_left
    (fun acc x =>
       (acc + if bool_decide (srcFile x = fileAName) && Qltb 100 (area x)
              then 1 else 0)%nat)
    picked O.

(** A candidate holds a finite sum; see the first revision. *)
Definition tryCollect (st : state) (picked : list item) (sum : num) : state :=
  if gtb sum targetNum then st
  else if negb (hasAtLeastOneFromB fileBName picked) then st
  else if (2 <=? largeQCount picked)%nat then st
  else if dominantWithSmallOthers disallowDominant dominantMoreThan othersLessThan picked
  then st
  else
    match sum with
    | Fin s => pushTopK st (Candidate s picked) topK
    | _ => st
    end.

(** [Z.length ? Z[Z.length - 1].area : -Infinity] *)
Definition maxAreaOf (Z : list item) : num :=
  match last Z with
  | Some z => Fin (area z)
  | None => NInf
  end.

(** The test of the cut: the list is full and
    [partial + maxArea <= minKeep], with [minKeep] the sum of its last
    entry. A full list has a last entry, [topK] being 1 at least. *)
Definition cannotImprove (st : state) (partial : num) (maxArea : num) : bool :=
  if geb (ofNat (length (topList st))) topK then
    match last (topList st) with
    | Some worst => leb (add partial maxArea) (Fin (sum worst))
    | None => false
    end
  else false.

(** [for (let ib = n - 1; ib >= 0; ib--)] *)
Fixpoint loopB (a : item) (n : nat) (st : state) : state :=
  match n with
  | O => st
  | S ib =>
      match gB byType !! ib with
      | None => st
      | Some b =>
          let partial := add (Fin (area a)) (Fin (area b)) in
          if gtb partial targetNum then loopB a ib st
          else if prune && cannotImprove st partial (maxAreaOf (gC byType)) then st
          else
            loopB a ib
              match pickBestUnderOrEqual (gC byType) (sub targetNum partial) with
              | Some c => tryCollect st [a; b; c] (add partial (Fin (area c)))
              | None => st
              end
      end
  end.

(** [for (let ia = n - 1; ia >= 0; ia--)] *)
Fixpoint loopA (n : nat) (st : state) : state :=
  match n with
  | O => st
  | S ia =>
      match gA byType !! ia with
      | None => st
      | Some a => loopA ia (loopB a (length (gB byType)) st)
      end
  end.

Definition enumThree (st : state) : state := loopA (length (gA byType)) st.

(** [for (let iy = n - 1; iy >= 0; iy--)] *)
Fixpoint loopY (Y Z : list item) (xi xj : item) (sumXX : num) (n : nat) (st : state)
  : state :=
  match n with
  | O => st
  | S iy =>
      match Y !! iy with
      | None => st
      | Some y =>
          let partial := add sumXX (Fin (area y)) in
          if gtb partial targetNum then loopY Y Z xi xj sumXX iy st
          else if prune && cannotImprove st partial (maxAreaOf Z) then st
          else
            loopY Y Z xi xj sumXX iy
              match pickBestUnderOrEqual Z (sub targetNum partial) with
              | Some z => tryCollect st [xi; xj; y; z] (add partial (Fin (area z)))
              | None => st
              end
      end
  end.

(** [for (let j = n - 1; j >= 0; j--)] *)
Fixpoint loopJ (X Y Z : list item) (xi : item) (n : nat) (st : state) : state :=
  match n with
  | O => st
  | S j =>
      match X !! j with
      | None => st
      | Some xj =>
          let sumXX := add (Fin (area xi)) (Fin (area xj)) in
          if gtb sumXX targetNum then loopJ X Y Z xi j st
          else loopJ X Y Z xi j (loopY Y Z xi xj sumXX (length Y) st)
      end
  end.

(** [for (let i = n; i >= 1; i--)], the loop on [j] starting at [i - 1]. *)
Fixpoint loopI (X Y Z : list item) (n : nat) (st : state) : state :=
  match n with
  | O => st
  | S i' =>
      match X !! n with
      | None => st
      | Some xi => loopI X Y Z i' (loopJ X Y Z xi n st)
      end
  end.

Definition enumFour (X Y Z : list item) (st : state) : state :=
  loopI X Y Z (length X - 1) st.

Definition search : state :=
  let st0 := enumThree empty in
  let st1 := enumFour (gA byType) (gB byType) (gC byType) st0 in
  let st2 := enumFour (gB byType) (gA byType) (gC byType) st1 in
  enumFour (gC byType) (gA byType) (gB byType) st2.

(** The label of a pick. U+5E62, U+53F7 and U+5BA4 are the unit words put
    after the building, door and room numbers. *)
Definition labelB (x : item) : jsstr :=
  let parts :=
    (if present (community x) then [text (community x)] else []) ++
    (if present (buildingNo x) then [text (buildingNo x) ++ [24162%N]] else []) ++
    (if present (doorNo x) then [text (doorNo x) ++ [21495%N]] else []) ++
    (if present (roomNo x) then [text (roomNo x) ++ [23460%N]] else []) in
  match parts with
  | [] => type x ++ str "(" ++ [29616; 25151]%N ++ str ")"
  | _ => str "(" ++ join (str " ") parts ++ str ")"
  end.

Definition labelA (x : item) : jsstr :=
  let extra :=
    if present (buildingNo x) || present (doorNo x) || present (roomNo x) then
      (if present (buildingNo x) then str " " ++ text (buildingNo x) ++ [24162%N] else []) ++
      (if present (doorNo x) then str " " ++ text (doorNo x) ++ [21495%N] else []) ++
      (if present (roomNo x) then str " " ++ text (roomNo x) ++ [23460%N] else [])
    else [] in
  type x ++ str "(" ++ [26399; 25151]%N ++ str ")" ++ extra.

Definition label (x : item) : jsstr :=
  if bool_decide (srcFile x = fileBName) then labelB x else labelA x.

(** [sumFixed] is read back from its six decimals: the subtraction works
    on the double nearest to them. *)
Definition format (c : candidate) : resultEntry :=
  let sumFixed := toFixed6Q (sum c) in
  ResultEntry (map (fun x => (area x, label x)) (picked c))
    sumFixed targetNum (toFixed6 (sub targetNum (number sumFixed))).

Definition searchResults : list resultEntry :=
  if anyEmpty byType then [] else map format (topList search).

End bestTopKCombos.

(** The function of the source. *)
Definition bestTopKCombos (candidates : list rawCandidate) (target : num)
    (fileAName fileBName : jsstr) (topK : num)
    (disallowDominant : bool) (dominantMoreThan othersLessThan : num) : list resultEntry :=
  searchResults true candidates target fileAName fileBName (normalizeTopK topK)
    disallowDominant dominantMoreThan othersLessThan.

(** The same enumeration with the cut left out. *)
Definition bestTopKCombosExhaustive (candidates : list rawCandidate) (target : num)
    (fileAName fileBName : jsstr) (topK : num)
    (disallowDominant : bool) (dominantMoreThan othersLessThan : num) : list resultEntry :=
  searchResults false candidates target fileAName fileBName (normalizeTopK topK)
    disallowDominant dominantMoreThan othersLessThan.

End Solver.

(** ** src/data.js, the two source names *)
Module Data.
(** U+671F U+623F and U+73B0 U+623F *)
Definition FILE_A_NAME : jsstr := [26399; 25151]%N.
Definition FILE_B_NAME : jsstr := [29616; 25151]%N.
End Data.

(** ** server.js: the /solve handler *)
Module Server.
Import JS.

Inductive body : Type :=
| ErrorBody (error : jsstr)
| ResultsBody (results : list resultEntry).

(** [sendJson(res, obj, status)] *)
Record response : Type := Response {
  status : nat;
  sent : body
}.

(** The text of the 400 answer. *)
Definition invalidTarget : jsstr :=
  str "target " ++
  [21442; 25968; 26080; 25928; 65288; 38656; 20026; 27491; 25968; 65289]%N.

(** [[0, 15, 30].includes(giftArea)] *)
Definition isGift (g : num) : bool :=
  match g with
  | Fin q => Qeq_bool q 0 || Qeq_bool q 15 || Qeq_bool q 30
  | _ => false
  end.

(** How the promise of [POOL.runTask] is settled: fulfilled with the
    results that the worker found, or rejected (a failure that the worker
    reported, an error or an exit of the worker); [message] is the text
    [e.message], or [String(e)] without one. *)
Inductive settlement : Type :=
| Fulfilled
| Rejected (message : jsstr).

Section handleSolve.
(** The options that the handler passes through unread: source, area
    bounds and community selection. *)
Variable passed : Type.

(** The data layer of [solveTopK]: the rows selected for a target and
    these options, and the rule configuration of config.json. *)
Variable loadCandidates : num -> passed -> list rawCandidate.
Variables (disallowDominant : bool) (dominantMoreThan othersLessThan : num).

Definition solveTopK (target : num) (topK : num) (opts : passed) : list resultEntry :=
  Solver.bestTopKCombos (loadCandidates target opts) target
    Data.FILE_A_NAME Data.FILE_B_NAME topK
    disallowDominant dominantMoreThan othersLessThan.

(** [target] and [giftArea] are [Number(q.target)] and
    [Number(q.giftArea)]; [qTopK] and [cfgTopK] are the numbers of
    [q.topK] and [cfg.topK] when these are defined. A worker of the pool
    runs [solveTopK] on the request; the answer is sent when the promise
    of [runTask] is settled, and [settled] says how: [.then] sends the
    results, [.catch] the error with status 500. *)
Definition handleSolve (target giftArea : num) (qTopK cfgTopK : option num)
    (opts : passed) (settled : settlement) : response :=
  if negb (isFinite target) || leb target (Fin 0) then
    Response 400 (ErrorBody invalidTarget)
  else
    let giftArea := if negb (isFinite giftArea) then Fin 0 else giftArea in
    let giftArea := if negb (isGift giftArea) then Fin 0 else giftArea in
    let effectiveTarget := add target giftArea in
    let topK :=
      match qTopK, cfgTopK with
      | Some k, _ => k
      | None, Some k => k
      | None, None => Fin 10
      end in
    match settled with
    | Fulfilled => Response 200 (ResultsBody (solveTopK effectiveTarget topK opts))
    | Rejected message => Response 500 (ErrorBody message)
    end.

End handleSolve.
End Server.

(** ** Vocabulary of the properties *)
Module Vocabulary.
Import JS Normalize Bisect TopK.

(** *** Doubles *)

(** The values of binary64 when the exponent is not bounded above: an
    integer of at most 53 bits times a power of two not below 2^-1074. *)
Definition representable (q : Q) : Prop :=
  exists m e : Z, (-1074 <= e)%Z /\ (Z.abs m <= 2 ^ 53)%Z /\ (q == inject_Z m * pow2 e)%Q.

(** The total of a list of areas as the loops build it: from the left,
    every addition rounded. *)
Definition total (areas : list Q) : num :=
  match areas with
  | [] => Fin 0
  | a :: rest => fold_left (fun acc x => add acc (Fin x)) rest (Fin a)
  end.

(** *** Order *)

(** Ascending by area. *)
Definition ascending (arr : list item) : Prop :=
  forall i j x y, arr !! i = Some x -> arr !! j = Some y -> (i <= j)%nat ->
    (area x <= area y)%Q.

(** A checker for [ascending], to evaluate on given arrays. *)
Fixpoint ascendingb (arr : list item) : bool :=
  match arr with
  | x :: (y :: _) as rest => Qle_bool (area x) (area y) && ascendingb rest
  | _ => true
  end.

(** Descending by sum. *)
Definition descending (l : list candidate) : Prop :=
  forall i j x y, l !! i = Some x -> l !! j = Some y -> (i <= j)%nat ->
    (sum y <= sum x)%Q.

(** [p] may stay before [q] under the comparator [(p, q) => p.area - q.area]. *)
Definition byAreaAsc (p q : item) : bool := Qle_bool (area p - area q) 0.

(** [a] may stay before [b] under the comparator [(a, b) => b.sum - a.sum]. *)
Definition bySumDesc (a b : candidate) : bool := Qle_bool (sum b - sum a) 0.

(** *** The type normalizer *)

(** The canonical letter of a code unit of the alphabet, either case. *)
Definition letterOf (c : N) : option jsstr :=
  if ((c =? 65) || (c =? 97))%N then Some (str "A")
  else if ((c =? 66) || (c =? 98))%N then Some (str "B")
  else if ((c =? 67) || (c =? 99))%N then Some (str "C")
  else if ((c =? 68) || (c =? 100))%N then Some (str "D")
  else None.

(** *** The collector *)

(** The identity key of a candidate. *)
Definition keyOf (c : candidate) : jsstr := makeKey (picked c).

(** A sequence of offers with a bound [K], from the empty collector. *)
Definition offerAll (K : nat) (cands : list candidate) : state :=
  fold_left (fun st c => pushTopK st c (ofNat K)) cands empty.

(** The list holds the highest-sum distinct candidates among [cands]:
    every entry was offered, and a candidate of [cands] has its key in the
    list, or the list is full and none of its entries has a smaller sum. *)
Definition holdsHighest (K : nat) (cands : list candidate) (st : state) : Prop :=
  (forall e, e ∈ topList st -> e ∈ cands) /\
  (forall c, c ∈ cands ->
     (exists e, e ∈ topList st /\ makeKey (picked e) = makeKey (picked c)) \/
     (length (topList st) = K /\ forall e, e ∈ topList st -> (sum c <= sum e)%Q)).

(** What one offer may do to the collector: nothing (duplicate key), an
    insertion, or an insertion followed by the eviction of the entry that
    is last in descending order, whose key leaves the set. *)
Definition stepShape (st : state) (c : candidate) (st' : state) : Prop :=
  let sorted := sortBy (fun a b => sum b - sum a)%Q (topList st ++ [c]) in
  let key := makeKey (picked c) in
  ((key ∈ seenKeys st) /\ st' = st) \/
  ((key ∉ seenKeys st) /\ topList st' = sorted /\ seenKeys st' = {[ key ]} ∪ seenKeys st) \/
  ((key ∉ seenKeys st) /\ exists removed,
      sorted = topList st' ++ [removed] /\
      (forall e, e ∈ topList st' -> (sum removed <= sum e)%Q) /\
      (makeKey (picked removed) ∉ seenKeys st') /\
      seenKeys st' = ({[ key ]} ∪ seenKeys st) ∖ {[ makeKey (picked removed) ]}).

(** Candidates with the same key carry the same sum. *)
Definition keyDeterminesSum (cands : list candidate) : Prop :=
  forall c d, c ∈ cands -> d ∈ cands ->
    makeKey (picked c) = makeKey (picked d) -> (sum c == sum d)%Q.

(** A checker for [keyDeterminesSum], to evaluate on given offers. *)
Definition keyDeterminesSumb (cands : list candidate) : bool :=
  forallb (fun c =>
    forallb (fun d =>
      implb (bool_decide (keyOf c = keyOf d)) (Qeq_bool (sum c) (sum d))) cands) cands.

(** The collector between two offers: the set holds the keys of the list,
    the keys of the list are pairwise distinct, the list is in the order of
    the comparator. *)
Record collectorOK (st : state) : Prop := CollectorOK {
  ok_seen : forall k, k ∈ seenKeys st <-> k ∈ map keyOf (topList st);
  ok_nodup : NoDup (map keyOf (topList st));
  ok_sorted : StronglySorted (fun a b => bySumDesc a b = true) (topList st)
}.

(** *** The solver *)

(** Membership in one of the three groups. *)
Definition inGroups (g : groups) (x : item) : Prop :=
  x ∈ gA g \/ x ∈ gB g \/ x ∈ gC g.

(** Exactly one pick is above [d], and every other pick is below [o]. *)
Definition oneDominant (d o : Q) (picked : list item) : Prop :=
  exists before x after,
    picked = before ++ x :: after /\ (d < area x)%Q /\
    forall y, y ∈ before ++ after -> (area y <= d)%Q /\ (area y < o)%Q.

(** The guards of the current [tryCollect], on an entry of the list. *)
Definition passedGuards (targetNum : num) (fileAName fileBName : jsstr)
    (disallowDominant : bool) (dominantMoreThan othersLessThan : num)
    (e : candidate) : Prop :=
  gtb (Fin (sum e)) targetNum = false /\
  SolverCommon.hasAtLeastOneFromB fileBName (picked e) = true /\
  (Solver.largeQCount fileAName (picked e) < 2)%nat /\
  SolverCommon.dominantWithSmallOthers
    disallowDominant dominantMoreThan othersLessThan (picked e) = false.

(** What a result shows of a combination: areas, rounded sum, rounded gap. *)
Definition outline (r : resultEntry) : list Q * Q * num :=
  (map fst (result r), 兑换面积 r, 浪费面积 r).

(** *** Inputs used in examples *)

(** An item without descriptive fields. *)
Definition plain (a : Q) (t src : string) : item :=
  Item a (str t) (str src) None None None None.

(** A raw row [[area, type, srcFile]]. *)
Definition row (a : Q) (t : string) (src : jsstr) : rawCandidate :=
  RawArray (Fin a) (VString (str t)) (VString src).

(** The source of a row: the must-include one or the other one. *)
Definition sourceOf (fromB : bool) : jsstr :=
  if fromB then Data.FILE_B_NAME else Data.FILE_A_NAME.

(** An ascending group of two items. *)
Definition sampleGroup : list item := [ plain 8 "C" "q"; plain 30 "C" "q" ].

(** Three offers, the first two with the same picks under different sums. *)
Definition pickP : list item := [ plain 10 "A" "q" ].
Definition pickQ : list item := [ plain 20 "A" "q" ].
Definition sameKeyOffers : list candidate :=
  [ Candidate 10 pickP; Candidate 30 pickP; Candidate 20 pickQ ].
Definition plainOffers : list candidate :=
  [ Candidate 10 pickP; Candidate 20 pickQ ].

(** Three offers whose sums are the totals of their picked areas. The
    source name of the single pick of the first contains the separators of
    the key, so that the first two offers have the same key. *)
Definition separatorOffers : list candidate :=
  [ Candidate 1 [ plain 1 "A" "x|2-B-y" ];
    Candidate 3 [ plain 1 "A" "x"; plain 2 "B" "y" ];
    Candidate 2 [ plain 2 "C" "z" ] ].

(** Scenario A: A-items 10 and 20, one B-item 5 from the must-include
    source, C-items 8 and 30; the sources of the other four rows are left
    open. *)
Definition scenarioA (b1 b2 b4 b5 : bool) : list rawCandidate :=
  [ row 10 "A" (sourceOf b1); row 20 "A" (sourceOf b2);
    row 5 "B" Data.FILE_B_NAME;
    row 8 "C" (sourceOf b4); row 30 "C" (sourceOf b5) ].

(** Scenario D: picks of areas 120, 30 and 20, the largest one from the
    must-include source. *)
Definition scenarioD : list item :=
  [ plain 120 "A" "xf"; plain 30 "B" "qf"; plain 20 "C" "qf" ].

(** Two large picks from file A and a small one from file B. *)
Definition twoLargeFromA : list item :=
  [ plain 120 "A" "qf"; plain 110 "B" "qf"; plain 20 "C" "xf" ].

(** Three rows whose areas add up to the target 3.0078125 exactly; the sum
    lies halfway between two multiples of 10^-6. All values are binary
    fractions, so that floating-point arithmetic is exact on them. *)
Definition halfwayRows : list rawCandidate :=
  [ row 1.0078125 "A" Data.FILE_B_NAME; row 1 "B" Data.FILE_B_NAME;
    row 1 "C" Data.FILE_B_NAME ].

(** Two A-items and two B-items of areas 10 and 20 and one C-item of area 5:
    under the target 35 two combinations reach the sum 35. *)
Definition tiedRows : list rawCandidate :=
  [ row 10 "A" Data.FILE_A_NAME; row 20 "A" Data.FILE_A_NAME;
    row 10 "B" Data.FILE_A_NAME; row 20 "B" Data.FILE_A_NAME;
    row 5 "C" Data.FILE_B_NAME ].

(** Two rows only: no C-item. *)
Definition noCRows : list rawCandidate :=
  [ row 10 "A" Data.FILE_A_NAME; row 5 "B" Data.FILE_B_NAME ].

End Vocabulary.

(** ** src/solver.js: the range helpers of solveTopK *)
Module Ranges.
Import JS.

Section ranges.
(** The arrays hold objects with an [area] field; [T] is their type. *)
Context {T : Type} (area : T -> Q).

(** The loop of [lowerBound] and of [upperBound], which differ in the test
    on [arr[m]] only:
    [while (l < r) { m = (l + r) >> 1; if (test) l = m + 1; else r = m; }].
    [None] stands for fuel that ran out or a read outside the array. *)
Fixpoint boundLoop (fuel : nat) (test : T -> bool) (arr : list T) (l r : nat)
  : option nat :=
  if (l <? r)%nat then
    match fuel with
    | O => None
    | S fuel' =>
        let m := Nat.shiftr (l + r) 1 in
        match arr !! m with
        | Some x =>
            if test x then boundLoop fuel' test arr (m + 1) r
            else boundLoop fuel' test arr l m
        | None => None
        end
    end
  else Some l.

(** [min] and [max] are [undefined] ([None]) or a number. *)
Definition lowerBound (arr : list T) (min : option num) : option nat :=
  match min with
  | None => Some O
  | Some min => boundLoop (length arr) (fun x => ltb (Fin (area x)) min) arr 0 (length arr)
  end.

Definition upperBound (arr : list T) (max : option num) : option nat :=
  match max with
  | None => Some (length arr)
  | Some max => boundLoop (length arr) (fun x => leb (Fin (area x)) max) arr 0 (length arr)
  end.

(** [arr.slice(start, end)] is [take (end - start) (drop start arr)]. *)
Definition sliceRange (arr : list T) (min max : option num) : option (list T) :=
  match lowerBound arr min, upperBound arr max with
  | Some start, Some end_ =>
      if (end_ <=? start)%nat then Some []
      else Some (take (end_ - start) (drop start arr))
  | _, _ => None
  end.

End ranges.
End Ranges.

(** ** src/solver.js: the data layer of solveTopK *)
Module DataLayer.
Import JS Normalize SolverCommon.

(** [String(v)] on the value of a cell. *)
Definition toString (v : value) : jsstr :=
  match v with
  | VUndefined => str "undefined"
  | VNull => str "null"
  | VBool true => str "true"
  | VBool false => str "false"
  | VNumber NaN => str "NaN"
  | VNumber PInf => str "Infinity"
  | VNumber NInf => str "-Infinity"
  | VNumber (Fin q) => numToString q
  | VString s => s
  | VObject => str "[object Object]"
  end.

(** [v != null ? String(v).trim() : ''] *)
Definition cellText (v : value) : jsstr :=
  match v with
  | VUndefined | VNull => []
  | _ => trim (toString v)
  end.

(** A row of a sheet, as far as the solver reads it: the number that
    [Number(r["建筑面积"])] yields, the cell [r[typeKey]], the cell
    [r[communityKey]] of the column that holds the community names, and
    the three address cells. *)
Record sheetRow : Type := SheetRow {
  建筑面积 : num;
  类别 : value;
  小区 : value;
  幢号 : value;
  门牌号 : value;
  室号 : value
}.

(** [{ area, type, community, buildingNo, roomNo, doorNo }]; [community]
    is absent without a community column. *)
Record areaTypeRow : Type := AreaTypeRow {
  area : Q;
  type : jsstr;
  community : option jsstr;
  buildingNo : jsstr;
  roomNo : jsstr;
  doorNo : jsstr
}.

(** The body of the loop of [extractAreaTypeRowsWithCommunity]; without a
    community key it is the body of [extractAreaTypeRows]. *)
Definition extractRow (communityKey : bool) (r : sheetRow) : option areaTypeRow :=
  match 建筑面积 r with
  | Fin a =>
      if Qle_bool a 0 then None
      else
        match normalizeType (类别 r) with
        | Some ty =>
            if negb (isABC ty) then None
            else Some (AreaTypeRow a ty
                         (if communityKey then Some (cellText (小区 r)) else None)
                         (cellText (幢号 r)) (cellText (室号 r)) (cellText (门牌号 r)))
        | None => None
        end
  | _ => None
  end.

Definition extractAreaTypeRows (rows : list sheetRow) : list areaTypeRow :=
  omap (extractRow false) rows.

Definition extractAreaTypeRowsWithCommunity (rows : list sheetRow) (communityKey : bool)
  : list areaTypeRow :=
  omap (extractRow communityKey) rows.

(** [{ A: [], B: [], C: [] }] of rows. *)
Record rowGroups : Type := RowGroups {
  A : list areaTypeRow;
  B : list areaTypeRow;
  C : list areaTypeRow
}.

(** [byType[x.type].push(x)]; the rows that reach it have the type A, B
    or C. *)
Definition pushRow (g : rowGroups) (x : areaTypeRow) : rowGroups :=
  if bool_decide (type x = str "A") then RowGroups (A g ++ [x]) (B g) (C g)
  else if bool_decide (type x = str "B") then RowGroups (A g) (B g ++ [x]) (C g)
  else RowGroups (A g) (B g) (C g ++ [x]).

Definition sortRows (l : list areaTypeRow) : list areaTypeRow :=
  sortBy (fun p q => area p - area q)%Q l.

Definition groupAndSortByType (areaTypeRows : list areaTypeRow) : rowGroups :=
  let byType := fold_left pushRow areaTypeRows (RowGroups [] [] []) in
  RowGroups (sortRows (A byType)) (sortRows (B byType)) (sortRows (C byType)).

(** The cache of [getDerivedGroupedSorted] holds, under the key of a
    sheet, what the same computation gave on the same rows. *)
Definition getDerivedGroupedSorted (rows : list sheetRow) : rowGroups :=
  groupAndSortByType (extractAreaTypeRows rows).

(** The two sheets, and whether [detectCommunityKeyForB] finds a
    community column in the second. *)
Record dataset : Type := Dataset {
  qifangRows : list sheetRow;
  xianfangRows : list sheetRow;
  communityKey : bool
}.

(** The options after their defaults: [finalSource], the numbers of
    [minArea] and [maxArea] when these are neither [undefined] nor [null],
    and the array [xfCommunities]. *)
Record options : Type := Options {
  source : jsstr;
  minArea : option num;
  maxArea : option num;
  xfCommunities : list jsstr
}.

(** [(raw === undefined || raw === null || !Number.isFinite(n)) ? undefined : n] *)
Definition finalBound (raw : option num) : option num :=
  match raw with
  | Some (Fin q) => Some (Fin q)
  | _ => None
  end.

(** [Math.min] *)
Definition min (x y : num) : num :=
  match x, y with
  | NaN, _ | _, NaN => NaN
  | _, _ => if leb x y then x else y
  end.

Definition nonEmpty (s : jsstr) : bool :=
  match s with [] => false | _ => true end.

(** [xfCommunities.filter(Boolean).map((s) => String(s).trim()).filter(Boolean)] *)
Definition xfSel (xfCommunities : list jsstr) : list jsstr :=
  List.filter nonEmpty (map trim (List.filter nonEmpty xfCommunities)).

(** The test of [srcBrows.filter]. *)
Definition inSelection (sel : list jsstr) (r : sheetRow) : bool :=
  match 小区 r with
  | VUndefined | VNull => false
  | v => let name := trim (toString v) in nonEmpty name && bool_decide (name ∈ sel)
  end.

Definition Bgroup (data : dataset) (opts : options) : rowGroups :=
  let sel := xfSel (xfCommunities opts) in
  match sel with
  | _ :: _ =>
      if communityKey data then
        groupAndSortByType
          (extractAreaTypeRowsWithCommunity
             (List.filter (inSelection sel) (xianfangRows data)) true)
      else getDerivedGroupedSorted (xianfangRows data)
  | [] =>
      if communityKey data then
        groupAndSortByType (extractAreaTypeRowsWithCommunity (xianfangRows data) true)
      else getDerivedGroupedSorted (xianfangRows data)
  end.

(** [upperA]: the target caps the upper bound of the range. *)
Definition upperA (targetNum : num) (finalMaxArea : option num) : option num :=
  if isFinite targetNum then
    match finalMaxArea with
    | Some m => Some (min targetNum m)
    | None => Some targetNum
    end
  else finalMaxArea.

(** The three slices of a sheet, merged: [[...fltA, ...fltB, ...fltC]]. *)
Definition slices (g : rowGroups) (lower upper : option num) : option (list areaTypeRow) :=
  match Ranges.sliceRange area (A g) lower upper,
        Ranges.sliceRange area (B g) lower upper,
        Ranges.sliceRange area (C g) lower upper with
  | Some fltA, Some fltB, Some fltC => Some (fltA ++ fltB ++ fltC)
  | _, _, _ => None
  end.

(** The objects handed to [bestTopKCombos]. The rows of the first sheet
    lose their community field. *)
Definition fromA (x : areaTypeRow) : rawCandidate :=
  RawObject (Fin (area x)) (VString (type x)) (VString Data.FILE_A_NAME)
    None (Some (buildingNo x)) (Some (roomNo x)) (Some (doorNo x)).

Definition fromB (x : areaTypeRow) : rawCandidate :=
  RawObject (Fin (area x)) (VString (type x)) (VString Data.FILE_B_NAME)
    (community x) (Some (buildingNo x)) (Some (roomNo x)) (Some (doorNo x)).

(** The candidates of a request. [None] stands for a binary search that
    did not end; [selectCandidates_spec] shows that it ends. *)
Definition selectCandidates (data : dataset) (targetNum : num) (opts : options)
  : option (list rawCandidate) :=
  let finalMinArea := finalBound (minArea opts) in
  let finalMaxArea := finalBound (maxArea opts) in
  let Agroup := getDerivedGroupedSorted (qifangRows data) in
  let upper := upperA targetNum finalMaxArea in
  match slices Agroup finalMinArea upper, slices (Bgroup data opts) finalMinArea upper with
  | Some fltA, Some fltB =>
      let candA := map fromA fltA in
      let candB := map fromB fltB in
      Some (if bool_decide (source opts = str "A") then candA
            else if bool_decide (source opts = str "B") then candB
            else candA ++ candB)
  | _, _ => None
  end.

(** [solveTopK], from the sheets on: [finalTopK] and the three values of
    the rule are those read from the request and the configuration. *)
Definition solveTopK (data : dataset) (target : num) (finalTopK : num) (opts : options)
    (disallowDominant : bool) (dominantMoreThan othersLessThan : num)
  : option (list resultEntry) :=
  match selectCandidates data target opts with
  | Some candidates =>
      Some (Solver.bestTopKCombos candidates target Data.FILE_A_NAME Data.FILE_B_NAME
              finalTopK disallowDominant dominantMoreThan othersLessThan)
  | None => None
  end.

End DataLayer.

(** ** server.js: the worker pool *)
Module WorkerPool.

Section pool.
(** What [runTask] sends to a worker and what a worker sends back. *)
Variables (payload results : Type).

(** A message of a worker: [{ ok: true, results }], or anything else. *)
Inductive message : Type :=
| Done (r : results)
| Failed.

(** How a promise of [runTask] is settled: [resolve(msg.results)], or
    [reject] after a failure message, an error event or an exit event. *)
Inductive outcome : Type :=
| Resolved (r : results)
| RejectedFailed
| RejectedError
| RejectedExit (code : Z).

(** The pool. A worker is named by its rank among the workers created, a
    promise (the pair [{ resolve, reject }]) by its rank among the
    promises created. [posted] and [settled] record the calls of
    [postMessage] and of [resolve] and [reject], in order. *)
Record pool : Type := Pool {
  idle : list nat;
  queue : list (payload * nat);
  currentTasks : gmap nat nat;
  workers : nat;
  promises : nat;
  posted : list (nat * payload);
  settled : list (nat * outcome)
}.

(** [new Worker(...)], the three handlers put on it, [this.idle.push(worker)] *)
Definition _spawn (st : pool) : pool :=
  Pool (idle st ++ [workers st]) (queue st) (currentTasks st)
    (S (workers st)) (promises st) (posted st) (settled st).

(** [this.currentTasks.set(worker, { resolve, reject }); worker.postMessage(payload)] *)
Definition _run (worker : nat) (p : payload) (promise : nat) (st : pool) : pool :=
  Pool (idle st) (queue st) (<[ worker := promise ]> (currentTasks st))
    (workers st) (promises st) (posted st ++ [(worker, p)]) (settled st).

(** [idle.pop()] takes the last worker, [queue.shift()] the first job. *)
Definition _dequeue (st : pool) : pool :=
  match queue st, TopK.pop (idle st) with
  | (p, promise) :: rest, Some (worker, idle') =>
      _run worker p promise
        (Pool idle' rest (currentTasks st) (workers st) (promises st)
           (posted st) (settled st))
  | _, _ => st
  end.

(** [const i = idle.indexOf(w); if (i >= 0) idle.splice(i, 1)] *)
Fixpoint removeFirst (w : nat) (l : list nat) : list nat :=
  match l with
  | [] => []
  | x :: l' => if (x =? w)%nat then l' else x :: removeFirst w l'
  end.

Definition _replace (oldWorker : nat) (st : pool) : pool :=
  _dequeue
    (_spawn
       (Pool (removeFirst oldWorker (idle st)) (queue st) (currentTasks st)
          (workers st) (promises st) (posted st) (settled st))).

(** The promise that [runTask] returns is the one of rank [promises st]. *)
Definition runTask (p : payload) (st : pool) : pool :=
  let promise := promises st in
  match TopK.pop (idle st) with
  | Some (worker, idle') =>
      _run worker p promise
        (Pool idle' (queue st) (currentTasks st) (workers st) (S (promises st))
           (posted st) (settled st))
  | None =>
      Pool (idle st) (queue st ++ [(p, promise)]) (currentTasks st)
        (workers st) (S (promises st)) (posted st) (settled st)
  end.

(** [const task = currentTasks.get(worker); if (task) { currentTasks.delete(worker); ... }] *)
Definition settle (worker : nat) (o : outcome) (st : pool) : pool :=
  match currentTasks st !! worker with
  | Some promise =>
      Pool (idle st) (queue st) (delete worker (currentTasks st))
        (workers st) (promises st) (posted st) (settled st ++ [(promise, o)])
  | None => st
  end.

(** The handler of ["message"]. *)
Definition onMessage (worker : nat) (msg : message) (st : pool) : pool :=
  let st1 :=
    settle worker (match msg with Done r => Resolved r | Failed => RejectedFailed end) st in
  _dequeue
    (Pool (idle st1 ++ [worker]) (queue st1) (currentTasks st1)
       (workers st1) (promises st1) (posted st1) (settled st1)).

(** The handlers of ["error"] and ["exit"]. *)
Definition onError (worker : nat) (st : pool) : pool :=
  _replace worker (settle worker RejectedError st).

Definition onExit (worker : nat) (code : Z) (st : pool) : pool :=
  _replace worker (settle worker (RejectedExit code) st).

(** [new WorkerPool(path, size)] with [size] the number of rounds of the
    constructor's loop, one at least. *)
Definition create (size : nat) : pool :=
  Nat.iter (Nat.max 1 size) _spawn (Pool [] [] ∅ 0 0 [] []).

(** What happens to a pool: a call of [runTask] or an event of a worker. *)
Inductive event : Type :=
| RunTask (p : payload)
| Message (worker : nat) (msg : message)
| Error (worker : nat)
| Exit (worker : nat) (code : Z).

Definition handle (st : pool) (ev : event) : pool :=
  match ev with
  | RunTask p => runTask p st
  | Message w msg => onMessage w msg st
  | Error w => onError w st
  | Exit w code => onExit w code st
  end.

Definition after (size : nat) (events : list event) : pool :=
  fold_left handle events (create size).

(** The number of error and exit events. *)
Definition failures (events : list event) : nat :=
  length (List.filter (fun ev => match ev with Error _ | Exit _ _ => true | _ => false end)
            events).

(** The payloads handed to [runTask], in order. *)
Definition submitted (events : list event) : list payload :=
  omap (fun ev => match ev with RunTask p => Some p | _ => None end) events.

End pool.

Arguments Done {results} r.
Arguments Failed {results}.
Arguments Resolved {results} r.
Arguments RejectedFailed {results}.
Arguments RejectedError {results}.
Arguments RejectedExit {results} code.
Arguments Pool {payload results} idle queue currentTasks workers promises posted settled.
Arguments idle {payload results} p.
Arguments queue {payload results} p.
Arguments currentTasks {payload results} p.
Arguments workers {payload results} p.
Arguments promises {payload results} p.
Arguments posted {payload results} p.
Arguments settled {payload results} p.
Arguments _spawn {payload results} st.
Arguments _run {payload results} worker p promise st.
Arguments _dequeue {payload results} st.
Arguments _replace {payload results} oldWorker st.
Arguments runTask {payload results} p st.
Arguments settle {payload results} worker o st.
Arguments onMessage {payload results} worker msg st.
Arguments onError {payload results} worker st.
Arguments onExit {payload results} worker code st.
Arguments create {payload results} size.
Arguments RunTask {payload results} p.
Arguments Message {payload results} worker msg.
Arguments Error {payload results} worker.
Arguments Exit {payload results} worker code.
Arguments handle {payload results} st ev.
Arguments after {payload results} size events.
Arguments failures {payload results} events.
Arguments submitted {payload results} events.

End WorkerPool.

(** ** src/cli.js: the command line *)
Module Cli.
Import JS.

(** The value of an argument: [true] or the string that follows it. *)
Inductive arg : Type :=
| Flag
| Text (s : jsstr).

(** [k.startsWith("--")] *)
Definition startsWithDashes (k : jsstr) : bool :=
  match k with
  | 45%N :: 45%N :: _ => true
  | _ => false
  end.

(** [args[key] = v] on a plain object: the key [__proto__] names the
    setter of the prototype, which ignores a string and a boolean, and
    every other key becomes a property of the object. *)
Definition assign (key : jsstr) (v : arg) (args : gmap (list N) arg) : gmap (list N) arg :=
  if bool_decide (key = str "__proto__") then args else <[ key := v ]> args.

(** The loop of [parseArgs] on the tokens from [argv[i]] on. A token that
    is empty or absent is falsy. *)
Fixpoint parseFrom (rest : list jsstr) (args : gmap (list N) arg) : gmap (list N) arg :=
  match rest with
  | [] => args
  | k :: rest' =>
      if negb (startsWithDashes k) then parseFrom rest' args
      else
        match rest' with
        | val :: rest'' =>
            match val with
            | _ :: _ =>
                if negb (startsWithDashes val)
                then parseFrom rest'' (assign (drop 2 k) (Text val) args)
                else parseFrom rest' (assign (drop 2 k) Flag args)
            | [] => parseFrom rest' (assign (drop 2 k) Flag args)
            end
        | [] => assign (drop 2 k) Flag args
        end
  end.

(** [for (let i = 2; i < argv.length; i++)] *)
Definition parseArgs (argv : list jsstr) : gmap (list N) arg :=
  parseFrom (drop 2 argv) ∅.

End Cli.

(** ** src/export.js: the lines of the sheet *)
Module ExcelExport.
Import JS.

(** A cell of the sheet: the empty string, a number or a text. *)
Inductive cell : Type :=
| Blank
| Num (n : num)
| Str (s : jsstr).

(** The two cells of the slot [i]: [item ? item[0] : ""] and
    [item ? item[1] : ""] with [item = items[i]]. *)
Definition slot (items : list (Q * jsstr)) (i : nat) : list cell :=
  match items !! i with
  | Some (a, label) => [Num (Fin a); Str label]
  | None => [Blank; Blank]
  end.

(** The line of a result, its cells in the order of the headers: four
    slots, then the sum, the target and the gap. *)
Definition toRow (r : resultEntry) : list cell :=
  flat_map (slot (result r)) (seq 0 4) ++
  [Num (Fin (兑换面积 r)); Num (目标面积 r); Num (浪费面积 r)].

(** [results.map(...)], the argument of [json_to_sheet]. *)
Definition rows (results : list resultEntry) : list (list cell) := map toRow results.

End ExcelExport.

(** ** src/solver.js, first revision: the area filter of solveTopK *)
Module AreaFilter.
Import JS.

Section applyAreaFilter.
(** The rows are arrays [[area, ...]]; [areaOf] gives [Number(area)]. *)
Context {T : Type} (areaOf : T -> num).
Variables (finalMinArea finalMaxArea : option num).

(** The test of [arr.filter]. *)
Definition keeps (row : T) : bool :=
  let a := areaOf row in
  if negb (isFinite a) then false
  else if match finalMinArea with Some m => ltb a m | None => false end then false
  else if match finalMaxArea with Some m => gtb a m | None => false end then false
  else true.

Definition applyAreaFilter (arr : list T) : list T := List.filter keeps arr.

End applyAreaFilter.
End AreaFilter.

(** ** server.js and src/solver.js: the community column *)
Module Community.
Import JS.

(** [["小区名称", "小区", "小区名", "项目名称", "楼盘名称"]] *)
Definition preferred : list jsstr :=
  [ [23567; 21306; 21517; 31216]; [23567; 21306]; [23567; 21306; 21517];
    [39033; 30446; 21517; 31216]; [27004; 30424; 21517; 31216] ]%N.

(** The three words of the regular expression [/小区|项目|楼盘/]. *)
Definition words : list jsstr :=
  [ [23567; 21306]; [39033; 30446]; [27004; 30424] ]%N.

Fixpoint startsWith (w s : jsstr) : bool :=
  match w, s with
  | [], _ => true
  | _ :: _, [] => false
  | a :: w', b :: s' => (a =? b)%N && startsWith w' s'
  end.

(** [w] occurs somewhere in [s]. *)
Fixpoint occursIn (w s : jsstr) : bool :=
  startsWith w s ||
  match s with
  | [] => false
  | _ :: s' => occursIn w s'
  end.

(** [/小区|项目|楼盘/.test(String(k))] *)
Definition fuzzyTest (k : jsstr) : bool := existsb (fun w => occursIn w k) words.

(** [keys] is [Object.keys(first)], the columns of the first row in their
    order; [None] is [undefined]. *)
Definition detectCommunityKey (keys : list jsstr) : option jsstr :=
  match List.find (fun k => bool_decide (k ∈ keys)) preferred with
  | Some k => Some k
  | None => List.find fuzzyTest keys
  end.

End Community.

(** ** src/cli.js: the target of a run *)
Module CliRun.
Import JS.

Section run.
(** [Number(s)] on a string. *)
Variable toNumber : jsstr -> num.

(** [Number(v)] on the value of an argument; [Number(true)] is 1 and
    [Number(undefined)] is NaN. *)
Definition numberOf (v : option Cli.arg) : num :=
  match v with
  | Some Cli.Flag => Fin 1
  | Some (Cli.Text s) => toNumber s
  | None => NaN
  end.

(** [args.target ?? args.t] *)
Definition targetArg (args : gmap (list N) Cli.arg) : option Cli.arg :=
  match args !! str "target" with
  | Some v => Some v
  | None => args !! str "t"
  end.

(** The first step of [run]: the target of the search, or the exit with
    code 1 after the usage text. *)
Definition targetOf (argv : list jsstr) : num + nat :=
  let target := numberOf (targetArg (Cli.parseArgs argv)) in
  if negb (isFinite target) || leb target (Fin 0) then inr 1%nat else inl target.

End run.
End CliRun.

(** ** The combinations that the search offers, as a list

    A description of the enumeration of [bestTopKCombos], to state what
    the search keeps; [search_fold] compares it with the loops. *)
Module Offers.
Import JS Bisect TopK SolverCommon Vocabulary.

Section offers.
Variables (candidates : list rawCandidate) (targetNum : num)
  (fileAName fileBName : jsstr)
  (disallowDominant : bool) (dominantMoreThan othersLessThan : num).

Local Abbreviation byType := (Solver.byType candidates targetNum fileAName fileBName).

(** The picks [front] of total [partial], closed by the best-fit row of
    [Z]: nothing when [partial] is above the target or no row of [Z]
    fits. *)
Definition closing (Z : list item) (front : list item) (partial : num) : list candidate :=
  if gtb partial targetNum then []
  else
    match pickBestUnderOrEqual Z (sub targetNum partial) with
    | Some z =>
        match add partial (Fin (area z)) with
        | Fin s => [Candidate s (front ++ [z])]
        | _ => []
        end
    | None => []
    end.

(** The 3-item combinations, in the order of the loops: [a] and [b] run
    from the largest row down. *)
Definition three : list candidate :=
  flat_map
    (fun a => flat_map (fun b => closing (gC byType) [a; b] (total [area a; area b]))
                (rev (gB byType)))
    (rev (gA byType)).

(** The 4-item combinations with two rows of [X]: [i] runs from the last
    index down to 1, [j] from [i - 1] down to 0, [y] from the largest row
    down; a pair above the target is skipped. *)
Definition four (X Y Z : list item) : list candidate :=
  flat_map
    (fun i =>
       match X !! i with
       | Some xi =>
           flat_map
             (fun xj =>
                if gtb (total [area xi; area xj]) targetNum then []
                else flat_map
                       (fun y => closing Z [xi; xj; y] (total [area xi; area xj; area y]))
                       (rev Y))
             (rev (take i X))
       | None => []
       end)
    (rev (seq 1 (length X - 1))).

Definition attempts : list candidate :=
  three ++ four (gA byType) (gB byType) (gC byType)
        ++ four (gB byType) (gA byType) (gC byType)
        ++ four (gC byType) (gA byType) (gB byType).

(** The four guards of [tryCollect]. *)
Definition guardsPass (c : candidate) : bool :=
  negb (gtb (Fin (sum c)) targetNum) &&
  hasAtLeastOneFromB fileBName (picked c) &&
  negb (2 <=? Solver.largeQCount fileAName (picked c))%nat &&
  negb (dominantWithSmallOthers disallowDominant dominantMoreThan othersLessThan
          (picked c)).

(** What reaches the collector when the enumeration runs to the end. *)
Definition offers : list candidate := List.filter guardsPass attempts.

End offers.
End Offers.

(** ** The combinations that the first revision offers, as a list

    A description of the enumeration of the first [bestTopKCombos], to
    compare what the two revisions keep; [search1_offers] compares it with
    the loops. *)
Module OffersV1.
Import JS Bisect TopK SolverCommon Vocabulary.

Section offers.
Variables (candidates : list rawCandidate) (targetNum : num)
  (fileAName fileBName : jsstr)
  (disallowDominant : bool) (dominantMoreThan othersLessThan : num).

Local Abbreviation byType := (SolverV1.byType candidates fileAName fileBName).

(** The 3-item combinations, in the order of the loops: [a] and [b] run
    from the smallest row up. *)
Definition three : list candidate :=
  flat_map
    (fun a => flat_map (fun b => Offers.closing targetNum (gC byType) [a; b]
                                   (total [area a; area b]))
                (gB byType))
    (gA byType).

(** The 4-item combinations with two rows of [X]: [X[i]] is the head of
    the remaining array and [X[j]] runs over what follows it; a pair above
    the target is skipped. *)
Fixpoint four (X Y Z : list item) : list candidate :=
  match X with
  | [] => []
  | xi :: rest =>
      flat_map
        (fun xj =>
           if gtb (total [area xi; area xj]) targetNum then []
           else flat_map
                  (fun y => Offers.closing targetNum Z [xi; xj; y]
                              (total [area xi; area xj; area y]))
                  Y)
        rest
      ++ four rest Y Z
  end.

Definition attempts : list candidate :=
  three ++ four (gA byType) (gB byType) (gC byType)
        ++ four (gB byType) (gA byType) (gC byType)
        ++ four (gC byType) (gA byType) (gB byType).

(** The three guards of the first [tryCollect]. *)
Definition guardsPass (c : candidate) : bool :=
  negb (gtb (Fin (sum c)) targetNum) &&
  hasAtLeastOneFromB fileBName (picked c) &&
  negb (dominantWithSmallOthers disallowDominant dominantMoreThan othersLessThan
          (picked c)).

(** What reaches the collector of the first revision. *)
Definition offers : list candidate := List.filter guardsPass attempts.

End offers.
End OffersV1.

(** ** Vocabulary of the further properties *)
Module Notions.
Import JS Vocabulary.

(** *** Ranges *)

(** Ascending by the [area] field, for any kind of row. *)
Definition ascendingBy {T} (area : T -> Q) (arr : list T) : Prop :=
  forall i j x y, arr !! i = Some x -> arr !! j = Some y -> (i <= j)%nat ->
    (area x <= area y)%Q.

(** [a] lies in the closed range from [min] to [max]; a bound that is
    [undefined] does not restrict. *)
Definition withinRange (min max : option num) (a : Q) : bool :=
  match min with Some m => negb (ltb (Fin a) m) | None => true end &&
  match max with Some m => leb (Fin a) m | None => true end.

(** *** Combinations *)

(** The group that gives two picks and the two groups that give one:
    the three calls of [enumFour]. *)
Definition doubled (g : groups) (X Y Z : list item) : Prop :=
  (X = gA g /\ Y = gB g /\ Z = gC g) \/
  (X = gB g /\ Y = gA g /\ Z = gC g) \/
  (X = gC g /\ Y = gA g /\ Z = gB g).

(** The pick lists that the search may offer, with the sum it offers them
    under, the total of the areas in the order of the picks: one row of
    each group, or two rows at different places of one group and one row
    of each other group. *)
Inductive combination (g : groups) : list item -> Q -> Prop :=
| threeRows (a b c : item) (s : Q) :
    a ∈ gA g -> b ∈ gB g -> c ∈ gC g ->
    total [area a; area b; area c] = Fin s ->
    combination g [a; b; c] s
| fourRows (X Y Z : list item) (i j : nat) (xi xj y z : item) (s : Q) :
    doubled g X Y Z ->
    X !! i = Some xi -> X !! j = Some xj -> (j < i)%nat -> y ∈ Y -> z ∈ Z ->
    total [area xi; area xj; area y; area z] = Fin s ->
    combination g [xi; xj; y; z] s.

(** The categories of the picks of a combination, in the order of the
    picks. *)
Definition shapes : list (list jsstr) :=
  [ [str "A"; str "B"; str "C"];
    [str "A"; str "A"; str "B"; str "C"];
    [str "B"; str "B"; str "A"; str "C"];
    [str "C"; str "C"; str "A"; str "B"] ].

(** The tests of [byType[x.type].push(x)] on an item. *)
Definition isA (x : item) : bool := bool_decide (type x = str "A").
Definition isB (x : item) : bool := bool_decide (type x = str "B").
Definition isOther (x : item) : bool := negb (isA x) && negb (isB x).

(** The number of entries that a requested [topK] allows:
    [Math.max(1, Math.floor(topK))] on a finite number, 1 on NaN. *)
Definition allowed (topK : num) : option nat :=
  match topK with
  | Fin q => Some (Z.to_nat (Z.max 1 (Qfloor q)))
  | PInf => None
  | _ => Some 1%nat
  end.

(** *** The two revisions *)

(** A row that the first revision reads as well: not an object. *)
Definition isArrayRow (it : rawCandidate) : bool :=
  match it with
  | RawObject _ _ _ _ _ _ _ => false
  | _ => true
  end.

(** The area of the row, when it is a finite number, is the value of a
    double. *)
Definition hasDoubleArea (it : rawCandidate) : bool :=
  match it with
  | RawArray (Fin a) _ _ => isDouble a
  | RawObject (Fin a) _ _ _ _ _ _ => isDouble a
  | _ => true
  end.

(** A group as the first revision builds it from such rows: ascending,
    of positive doubles. *)
Definition positiveDoubles (l : list item) : Prop :=
  ascending l /\ forall x, x ∈ l -> (0 < area x)%Q /\ isDouble (area x) = true.

(** One combination listed in two ways: the same sum, and the first two
    picks in either order. *)
Definition swapped (c d : candidate) : Prop :=
  sum c = sum d /\
  exists x1 x2 rest, picked c = x1 :: x2 :: rest /\ picked d = x2 :: x1 :: rest.

(** Two lists of offers hold the same combinations: every offer of one
    has an offer of the other with its key and its sum. *)
Definition sameOffers (o1 o2 : list candidate) : Prop :=
  (forall c, c ∈ o1 -> exists d, d ∈ o2 /\ keyOf c = keyOf d /\ (sum c == sum d)%Q) /\
  (forall d, d ∈ o2 -> exists c, c ∈ o1 /\ keyOf c = keyOf d /\ (sum c == sum d)%Q).

(** The three numbers that a result reports. *)
Definition figures (r : resultEntry) : Q * num * num :=
  (兑换面积 r, 目标面积 r, 浪费面积 r).

(** *** The command line *)

(** An option as one writes it on the command line: [--key value], or
    [--key] alone. *)
Definition written (o : jsstr * option jsstr) : list jsstr :=
  match o with
  | (key, Some v) => [str "--" ++ key; v]
  | (key, None) => [str "--" ++ key]
  end.

(** What the option stands for. *)
Definition meaning (o : jsstr * option jsstr) : Cli.arg :=
  match snd o with Some v => Cli.Text v | None => Cli.Flag end.

(** What may follow a key as its value: a non-empty string that does not
    start with two dashes. *)
Definition isValue (v : jsstr) : bool :=
  match v with [] => false | _ => negb (Cli.startsWithDashes v) end.

(** The key is not [__proto__], and the value, if there is one, may
    follow a key. *)
Definition wellWritten (o : jsstr * option jsstr) : bool :=
  negb (bool_decide (fst o = str "__proto__")) &&
  match snd o with Some v => isValue v | None => true end.

(** *** The worker pool *)

Section pool.
Context {payload results : Type}.

(** No job waits while a worker is idle, and the payloads posted to the
    workers followed by those waiting are the payloads [subs]. *)
Definition dispatched (subs : list payload) (st : WorkerPool.pool payload results)
  : Prop :=
  (WorkerPool.queue st <> [] -> WorkerPool.idle st = []) /\
  map snd (WorkerPool.posted st) ++ map fst (WorkerPool.queue st) = subs.

(** The promises of the pool: those of the waiting jobs, those of the
    running tasks and those settled are pairwise different, and all were
    handed out by [runTask]. *)
Record ledger (st : WorkerPool.pool payload results) : Prop := Ledger {
  led_nodup :
    NoDup (map snd (WorkerPool.queue st) ++ map fst (WorkerPool.settled st));
  led_running : forall w p, WorkerPool.currentTasks st !! w = Some p ->
    p ∉ map snd (WorkerPool.queue st) ++ map fst (WorkerPool.settled st);
  led_one_worker : forall w w' p,
    WorkerPool.currentTasks st !! w = Some p ->
    WorkerPool.currentTasks st !! w' = Some p -> w = w';
  led_known : forall p,
    p ∈ map snd (WorkerPool.queue st) ++ map fst (WorkerPool.settled st) \/
    (exists w, WorkerPool.currentTasks st !! w = Some p) ->
    (p < WorkerPool.promises st)%nat
}.

End pool.

(** *** Inputs used in examples *)

(** A row of the input as the search keeps it. *)
Definition kept (a : Q) (t : string) (fromB : bool) : item :=
  Item a (str t) (sourceOf fromB) None None None None.

(** The best result of scenario A at the target 40, the open sources
    being the first file: the picks 20, 5 and 8. *)
Definition bestOfScenarioA : candidate :=
  Candidate 33 [ kept 20 "A" false; kept 5 "B" true; kept 8 "C" false ].

Definition resultOfScenarioA : resultEntry :=
  Solver.format (Fin 40) Data.FILE_B_NAME bestOfScenarioA.

(** Three rows of the second file whose exact total, 3.0078125 - 2^-52,
    lies below the halfway point 3.0078125 of the sixth decimal. The first
    addition is rounded up to 2.0078125, so that the loops arrive at
    3.0078125. *)
Definition nearTieRows : list rawCandidate :=
  [ row (1.0078125 - (1 # 4503599627370496)) "A" Data.FILE_B_NAME;
    row 1 "B" Data.FILE_B_NAME; row 1 "C" Data.FILE_B_NAME ].

Definition resultOfNearTie : resultEntry :=
  Solver.format (Fin 4) Data.FILE_B_NAME
    (Candidate 3.0078125
       [ kept (1.0078125 - (1 # 4503599627370496)) "A" true; kept 1 "B" true;
         kept 1 "C" true ]).

(** Three rows of the second file of areas 100, 20 and 7.530894 (the
    double written so), for the target 304.3001185 (the double written
    so). *)
Definition gapRows : list rawCandidate :=
  [ row 100 "A" Data.FILE_B_NAME; row 20 "B" Data.FILE_B_NAME;
    row (round 7.530894) "C" Data.FILE_B_NAME ].

Definition gapTarget : Q := round 304.3001185.

Definition resultOfGapRows : resultEntry :=
  Solver.format (Fin gapTarget) Data.FILE_B_NAME
    (Candidate 127.530894
       [ kept 100 "A" true; kept 20 "B" true; kept (round 7.530894) "C" true ]).

(** Rows of areas 81.79, 59.31 and 121.17 (the doubles written so), for
    the target 262.27: as decimals the three areas add up to the target. *)
Definition exactFitRows : list rawCandidate :=
  [ row (round 81.79) "A" Data.FILE_B_NAME; row (round 59.31) "B" Data.FILE_B_NAME;
    row (round 121.17) "C" Data.FILE_B_NAME ].

(** Six rows of areas 81.79 and 20.1 (A), 59.31 and 10.2 (B), 121.17 and
    30.3 (C), the doubles written so; the B-rows are of the second file. *)
Definition decimalRows : list rawCandidate :=
  [ row (round 81.79) "A" Data.FILE_A_NAME; row (round 20.1) "A" Data.FILE_A_NAME;
    row (round 59.31) "B" Data.FILE_B_NAME; row (round 10.2) "B" Data.FILE_B_NAME;
    row (round 121.17) "C" Data.FILE_A_NAME; row (round 30.3) "C" Data.FILE_A_NAME ].

(** Two A-rows, one B-row of the second file and one C-row: under the
    target 43 the best combination takes both A-rows. *)
Definition pairRows : list rawCandidate :=
  [ row 10 "A" Data.FILE_A_NAME; row 20 "A" Data.FILE_A_NAME;
    row 5 "B" Data.FILE_B_NAME; row 8 "C" Data.FILE_A_NAME ].

(** Two rows above 100 of the first file and a row of the second. *)
Definition largeRows : list rawCandidate :=
  [ row 120 "A" Data.FILE_A_NAME; row 110 "B" Data.FILE_A_NAME;
    row 20 "C" Data.FILE_B_NAME ].

(** Three rows given as objects. *)
Definition objectRows : list rawCandidate :=
  [ RawObject (Fin 10) (VString (str "A")) (VString Data.FILE_A_NAME)
      None None None None;
    RawObject (Fin 5) (VString (str "B")) (VString Data.FILE_B_NAME)
      None None None None;
    RawObject (Fin 8) (VString (str "C")) (VString Data.FILE_A_NAME)
      None None None None ].

(** Three rows of the first file only. *)
Definition rowsOfFileA : list rawCandidate :=
  [ row 10 "A" Data.FILE_A_NAME; row 5 "B" Data.FILE_A_NAME;
    row 8 "C" Data.FILE_A_NAME ].

(** Two sheets: four rows of the first, and two rows of the second in the
    communities U+7532 and U+4E59. *)
Definition sheetRowOf (a : Q) (t : string) (community : jsstr) : DataLayer.sheetRow :=
  DataLayer.SheetRow (Fin a) (VString (str t)) (VString community) VNull VNull VNull.

Definition sampleSheets : DataLayer.dataset :=
  DataLayer.Dataset
    [ sheetRowOf 10 "A" []; sheetRowOf 20 "A" []; sheetRowOf 8 "C" [];
      sheetRowOf 30 "C" [] ]
    [ sheetRowOf 5 "B" [30002%N]; sheetRowOf 6 "B" [20057%N] ]
    true.

(** A request for a source, with areas up to 25 and the first community
    selected. *)
Definition sampleRequest (source : string) : DataLayer.options :=
  DataLayer.Options (str source) None (Some (Fin 25)) [ [30002%N] ].

(** The columns of a sheet: U+7C7B U+578B, then two of the preferred
    names, the fifth and the second. *)
Definition sampleColumns : list jsstr :=
  [ [31867; 22411]; [27004; 30424; 21517; 31216]; [23567; 21306] ]%N.

(** The options [--target --topK 10]: the target has no value. *)
Definition lineWithoutTarget : list (jsstr * option jsstr) :=
  [ (str "target", None); (str "topK", Some (str "10")) ].

(** The options [--target 318.64 --excel --topK 10]. *)
Definition sampleLine : list (jsstr * option jsstr) :=
  [ (str "target", Some (str "318.64")); (str "excel", None);
    (str "topK", Some (str "10")) ].

End Notions.

(** * Properties *)

(** ** The runtime model on small inputs *)
Section RuntimeExamples.
Import JS Normalize Bisect TopK Vocabulary.

Example numToString_decimal : numToString 62.65 = str "62.65".
Proof. reflexivity. Qed.

Example numToString_integer : numToString (33 # 1) = str "33".
Proof. reflexivity. Qed.

Example numToString_of_a_sum :
  numToString (round 81.79) = str "81.79" /\
  add (Fin (round 81.79)) (Fin (round 59.31)) = Fin (round 141.10000000000002) /\
  numToString (round 141.10000000000002) = str "141.10000000000002" /\
  sub (Fin (round 262.27)) (Fin (round 141.10000000000002)) =
    Fin (round 121.16999999999996).
Proof. repeat split; vm_compute; reflexivity. Qed.

Example numToString_layouts :
  numToString 1000000000000000000000 = str "1e+21" /\
  numToString 123456789012345680000 = str "123456789012345680000" /\
  numToString 0.000123456 = str "0.000123456" /\
  numToString (1 # 10000000) = str "1e-7" /\
  numToString (-2.5) = str "-2.5".
Proof. repeat split; vm_compute; reflexivity. Qed.

Example toFixed6Q_tie_up : toFixed6Q 3.0078125 = 3.007813%Q.
Proof. reflexivity. Qed.

Example toFixed6Q_tie_away_from_zero : toFixed6Q (-0.0000005) = (-0.000001)%Q.
Proof. reflexivity. Qed.

Example toFixed6Q_noise : (toFixed6Q 318.6400000000004 == 318.64)%Q.
Proof. reflexivity. Qed.

Example sortBy_is_stable :
  map sum (sortBy (fun a b => sum b - sum a)%Q
             [ Candidate 10 pickP; Candidate 20 pickQ; Candidate 10 pickQ;
               Candidate 20 pickP ]) = [ 20; 20; 10; 10 ]%Q /\
  map picked (sortBy (fun a b => sum b - sum a)%Q
             [ Candidate 10 pickP; Candidate 20 pickQ; Candidate 10 pickQ;
               Candidate 20 pickP ]) = [ pickQ; pickP; pickP; pickQ ].
Proof. split; reflexivity. Qed.

Example makeKey_ignores_order :
  makeKey [ plain 20 "A" "q"; plain 5 "B" "x"; plain 8 "C" "q" ] =
  str "20-A-q|5-B-x|8-C-q" /\
  makeKey [ plain 8 "C" "q"; plain 20 "A" "q"; plain 5 "B" "x" ] =
  str "20-A-q|5-B-x|8-C-q".
Proof. split; reflexivity. Qed.

Example normalizeType_letter_and_suffix :
  normalizeType (VString (str "b" ++ [lei])) = Some (str "B") /\
  normalizeType (VString (str "D")) = Some (str "D") /\
  normalizeType (VString (str "E")) = None /\
  normalizeType (VString (str "AB")) = None /\
  normalizeType (VNumber (Fin 1)) = None.
Proof. repeat split; reflexivity. Qed.

Example pickBestUnderOrEqual_sample :
  pickBestUnderOrEqual sampleGroup (Fin 15) = Some (plain 8 "C" "q") /\
  pickBestUnderOrEqual sampleGroup (Fin 30) = Some (plain 30 "C" "q") /\
  pickBestUnderOrEqual sampleGroup (Fin 5) = None.
Proof. repeat split; reflexivity. Qed.

End RuntimeExamples.

(** ** Numbers *)
Section NumFacts.
Import JS.

Lemma Qltb_lt (a b : Q) : Qltb a b = true <-> (a < b)%Q.
Proof.
  unfold Qltb. rewrite negb_true_iff. split.
  - intros H. apply Qnot_le_lt. intros Hle.
    apply Qle_bool_iff in Hle. congruence.
  - intros H. destruct (Qle_bool b a) eqn:E; [|reflexivity].
    apply Qle_bool_iff in E. lra.
Qed.

Lemma Qltb_ge (a b : Q) : Qltb a b = false <-> (b <= a)%Q.
Proof.
  unfold Qltb. rewrite negb_false_iff. apply Qle_bool_iff.
Qed.

Lemma Qle_bool_gt (a b : Q) : Qle_bool a b = false <-> (b < a)%Q.
Proof.
  split.
  - intros H. apply Qnot_le_lt. intros Hle.
    apply Qle_bool_iff in Hle. congruence.
  - intros H. destruct (Qle_bool a b) eqn:E; [|reflexivity].
    apply Qle_bool_iff in E. lra.
Qed.

Lemma leb_Fin (a b : Q) : leb (Fin a) (Fin b) = true <-> (a <= b)%Q.
Proof. apply Qle_bool_iff. Qed.

Lemma gtb_Fin (a b : Q) : gtb (Fin a) (Fin b) = true <-> (b < a)%Q.
Proof. apply Qltb_lt. Qed.

(** [x <= r] is downward closed in [x]. *)
Lemma leb_Fin_mono (a b : Q) (r : num) :
  (a <= b)%Q -> leb (Fin b) r = true -> leb (Fin a) r = true.
Proof.
  destruct r as [| | |q]; simpl; try congruence.
  intros Hab Hb. apply Qle_bool_iff in Hb. apply Qle_bool_iff. lra.
Qed.

Lemma ofNat_ltb (n m : nat) : gtb (ofNat n) (ofNat m) = true <-> (m < n)%nat.
Proof.
  unfold gtb, ofNat. simpl. rewrite Qltb_lt. rewrite <- Zlt_Qlt. lia.
Qed.

Lemma ofNat_gtb_false (n m : nat) : gtb (ofNat n) (ofNat m) = false <-> (n <= m)%nat.
Proof.
  unfold gtb, ofNat. simpl. rewrite Qltb_ge. rewrite <- Zle_Qle. lia.
Qed.

End NumFacts.

(** ** Doubles *)
Section DoubleFacts.
Import JS Vocabulary.

Lemma pow2_pos (e : Z) : (0 < pow2 e)%Q.
Proof. apply Qpower_0_lt. reflexivity. Qed.

Lemma pow2_plus (a b : Z) : (pow2 (a + b) == pow2 a * pow2 b)%Q.
Proof. apply Qpower_plus. discriminate. Qed.

Lemma pow2_le (a b : Z) : (a <= b)%Z -> (pow2 a <= pow2 b)%Q.
Proof. intros H. apply Qpower_le_compat_l; [exact H|]. discriminate. Qed.

Lemma pow2_lt (a b : Z) : (a < b)%Z -> (pow2 a < pow2 b)%Q.
Proof. intros H. apply Qpower_lt_compat_l; [exact H|]. reflexivity. Qed.

Lemma pow2_Z (n : Z) : (0 <= n)%Z -> (inject_Z (2 ^ n) == pow2 n)%Q.
Proof. intros H. apply (Zpower_Qpower 2 n H). Qed.

Lemma pow2_succ (a : Z) : (pow2 (a + 1) == 2 * pow2 a)%Q.
Proof. rewrite pow2_plus. change (pow2 1) with 2%Q. ring. Qed.

(** A positive integer between two powers of two. *)
Lemma log2_bounds (n : Z) :
  (0 < n)%Z -> (pow2 (Z.log2 n) <= inject_Z n < pow2 (Z.log2 n + 1))%Q.
Proof.
  intros Hn. destruct (Z.log2_spec n Hn) as [Hlo Hhi].
  pose proof (Z.log2_nonneg n) as H0.
  rewrite <- !pow2_Z by lia. rewrite <- Zle_Qle, <- Zlt_Qlt.
  replace (Z.log2 n + 1)%Z with (Z.succ (Z.log2 n)) by lia. split; assumption.
Qed.

Lemma Qmake_decomp (q : Q) : (q == inject_Z (Qnum q) / inject_Z (Zpos (Qden q)))%Q.
Proof. destruct q as [n d]. cbn [Qnum Qden]. rewrite (Qmake_Qdiv n d). reflexivity. Qed.

Lemma ilog2_spec (q : Q) :
  (0 < q)%Q -> (pow2 (ilog2 q) <= q < pow2 (ilog2 q + 1))%Q.
Proof.
  intros Hq. unfold ilog2. cbv zeta.
  set (n := Qnum q). set (d := Zpos (Qden q)).
  assert (Hn : (0 < n)%Z).
  { subst n. destruct q as [a b]. unfold Qlt in Hq. cbn in *. lia. }
  assert (Hd : (0 < d)%Z) by (subst d; lia).
  destruct (log2_bounds n Hn) as [Hn1 Hn2].
  destruct (log2_bounds d Hd) as [Hd1 Hd2].
  set (a := Z.log2 n) in *. set (b := Z.log2 d) in *.
  assert (Eq : (q * inject_Z d == inject_Z n)%Q).
  { rewrite (Qmake_decomp q) at 1. fold n d. field.
    intros E. rewrite E in Hd1. pose proof (pow2_pos b). lra. }
  assert (Hdq : (0 < inject_Z d)%Q) by (pose proof (pow2_pos b); lra).
  assert (Eab : (pow2 a == pow2 (a - b) * pow2 b)%Q).
  { rewrite <- pow2_plus. replace (a - b + b)%Z with a by lia. reflexivity. }
  assert (Eab1 : (pow2 (a + 1) == pow2 (a - b - 1 + 1) * pow2 (b + 1))%Q).
  { rewrite <- pow2_plus. replace (a - b - 1 + 1 + (b + 1))%Z with (a + 1)%Z by lia.
    reflexivity. }
  pose proof (pow2_pos (a - b)) as Pk. pose proof (pow2_pos (a - b - 1)) as Pk1.
  pose proof (pow2_succ (a - b)) as Sk. pose proof (pow2_succ (a - b - 1)) as Sk1.
  replace (a - b - 1 + 1)%Z with (a - b)%Z in * by lia.
  pose proof (pow2_succ b) as Sb.
  set (dq := inject_Z d) in *. set (nq := inject_Z n) in *.
  clearbody dq nq. clear Hn Hd.
  destruct (Qle_bool (pow2 (a - b)) q) eqn:E.
  - apply Qle_bool_iff in E. split; [exact E|].
    (* q * d = n < 2^(a+1) = 2^(k+1) * 2^b <= 2^(k+1) * d *)
    apply Qnot_le_lt. intros Hc.
    assert (pow2 (a - b + 1) * dq <= q * dq)%Q.
    { apply Qmult_le_compat_r; lra. }
    assert (pow2 (a - b + 1) * pow2 b <= pow2 (a - b + 1) * dq)%Q.
    { rewrite !(Qmult_comm (pow2 (a - b + 1))). apply Qmult_le_compat_r; [lra|].
      pose proof (pow2_pos (a - b + 1)). lra. }
    assert (pow2 (a + 1) == pow2 (a - b + 1) * pow2 b)%Q.
    { rewrite <- pow2_plus. replace (a - b + 1 + b)%Z with (a + 1)%Z by lia. reflexivity. }
    lra.
  - assert (Hlt : (q < pow2 (a - b))%Q).
    { apply Qnot_le_lt. intros Hc. apply Qle_bool_iff in Hc. congruence. }
    replace (a - b - 1 + 1)%Z with (a - b)%Z by lia.
    split; [|lra].
    (* 2^(k-1) * d < 2^(k-1) * 2^(b+1) = 2^a <= n = q * d *)
    apply Qnot_lt_le. intros Hc.
    assert (q * dq < pow2 (a - b - 1) * dq)%Q
      by (apply Qmult_lt_compat_r; lra).
    assert (pow2 (a - b - 1) * dq < pow2 (a - b - 1) * pow2 (b + 1))%Q.
    { rewrite !(Qmult_comm (pow2 (a - b - 1))). apply Qmult_lt_compat_r; lra. }
    assert (pow2 a == pow2 (a - b - 1) * pow2 (b + 1))%Q.
    { rewrite <- pow2_plus. replace (a - b - 1 + (b + 1))%Z with a by lia. reflexivity. }
    lra.
Qed.

Lemma ilog2_unique (q : Q) (k : Z) :
  (pow2 k <= q < pow2 (k + 1))%Q -> (0 < q)%Q -> ilog2 q = k.
Proof.
  intros [H1 H2] Hq. destruct (ilog2_spec q Hq) as [G1 G2].
  assert (A : (k < ilog2 q + 1)%Z).
  { apply (Qpower_lt_compat_l_inv 2); [|reflexivity]. fold (pow2 k) (pow2 (ilog2 q + 1)). lra. }
  assert (B : (ilog2 q < k + 1)%Z).
  { apply (Qpower_lt_compat_l_inv 2); [|reflexivity]. fold (pow2 (ilog2 q)) (pow2 (k + 1)). lra. }
  lia.
Qed.

Lemma ilog2_comp (p q : Q) : (p == q)%Q -> (0 < p)%Q -> ilog2 p = ilog2 q.
Proof.
  intros E Hp. symmetry. apply ilog2_unique; [|lra].
  destruct (ilog2_spec p Hp). lra.
Qed.


(** *** The nearest integer *)

Lemma roundEven_cases (y : Q) :
  (roundEven y = Qfloor y /\ (y - inject_Z (Qfloor y) <= 1 # 2)%Q) \/
  (roundEven y = (Qfloor y + 1)%Z /\ (1 # 2 <= y - inject_Z (Qfloor y))%Q).
Proof.
  unfold roundEven. cbv zeta.
  destruct (Qcompare_spec (y - inject_Z (Qfloor y)) (1 # 2)) as [E|E|E].
  - destruct (Z.even (Qfloor y)); [left|right]; split; auto; lra.
  - left. split; [reflexivity|lra].
  - right. split; [reflexivity|lra].
Qed.

Lemma Qfloor_bounds (y : Q) :
  (inject_Z (Qfloor y) <= y < inject_Z (Qfloor y) + 1)%Q.
Proof.
  split; [apply Qfloor_le|].
  pose proof (Qlt_floor y) as H. rewrite inject_Z_plus in H. exact H.
Qed.

Lemma roundEven_nearest (y : Q) (n : Z) :
  (Qabs (inject_Z (roundEven y) - y) <= Qabs (inject_Z n - y))%Q.
Proof.
  destruct (Qfloor_bounds y) as [Hlo Hhi].
  assert (Hn : (inject_Z n <= inject_Z (Qfloor y) \/
                inject_Z (Qfloor y) + 1 <= inject_Z n)%Q).
  { destruct (Z_le_gt_dec n (Qfloor y)) as [H|H].
    - left. now rewrite <- Zle_Qle.
    - right. change 1%Q with (inject_Z 1). rewrite <- inject_Z_plus, <- Zle_Qle. lia. }
  destruct (roundEven_cases y) as [[-> H]|[-> H]];
    rewrite ?inject_Z_plus; change (inject_Z 1) with 1%Q;
    apply Qabs_case; intros; apply Qabs_case; intros; destruct Hn; lra.
Qed.

Lemma roundEven_comp (y z : Q) : (y == z)%Q -> roundEven y = roundEven z.
Proof.
  intros E. unfold roundEven. cbv zeta.
  rewrite (Qfloor_comp y z E).
  assert (C : ((y - inject_Z (Qfloor z)) ?= (1 # 2))%Q =
              ((z - inject_Z (Qfloor z)) ?= (1 # 2))%Q).
  { apply Qcompare_comp; [now rewrite E|reflexivity]. }
  now rewrite C.
Qed.

Lemma roundEven_nonneg (y : Q) : (0 <= y)%Q -> (0 <= roundEven y)%Z.
Proof.
  intros H. assert (0 <= Qfloor y)%Z.
  { change 0%Z with (Qfloor 0). now apply Qfloor_resp_le. }
  destruct (roundEven_cases y) as [[-> _]|[-> _]]; lia.
Qed.

(** An integer is within [b] as soon as the rounded real is. *)
Lemma roundEven_le (y : Q) (b : Z) : (y <= inject_Z b)%Q -> (roundEven y <= b)%Z.
Proof.
  intros H. pose proof (roundEven_nearest y b) as N.
  rewrite Zle_Qle. revert N.
  apply Qabs_case; intros; revert N; apply Qabs_case; intros; lra.
Qed.

Lemma roundEven_ge (y : Q) (b : Z) : (inject_Z b <= y)%Q -> (b <= roundEven y)%Z.
Proof.
  intros H. pose proof (roundEven_nearest y b) as N.
  rewrite Zle_Qle. revert N.
  apply Qabs_case; intros; revert N; apply Qabs_case; intros; lra.
Qed.


(** *** Doubles *)

Lemma representable_opp (q : Q) : representable q -> representable (- q).
Proof.
  intros (m & e & He & Hm & E). exists (- m)%Z, e. split; [exact He|].
  split; [lia|]. rewrite E, inject_Z_opp. ring.
Qed.

Lemma representable_comp (p q : Q) : (p == q)%Q -> representable p -> representable q.
Proof. intros E (m & e & He & Hm & Ep). exists m, e. now rewrite <- E. Qed.

Lemma Qdiv_pow2 (q : Q) (e : Z) : (q / pow2 e * pow2 e == q)%Q.
Proof. field. pose proof (pow2_pos e). lra. Qed.

(** Nearest among the multiples of [p]. *)
Lemma nearest_multiple (y p q : Q) (n : Z) :
  (0 < p)%Q -> (q == y * p)%Q ->
  (Qabs (inject_Z (roundEven y) * p - q) <= Qabs (inject_Z n * p - q))%Q.
Proof.
  intros Hp Hq. pose proof (roundEven_nearest y n) as N.
  assert (E1 : (inject_Z (roundEven y) * p - q == (inject_Z (roundEven y) - y) * p)%Q)
    by (rewrite Hq; ring).
  assert (E2 : (inject_Z n * p - q == (inject_Z n - y) * p)%Q) by (rewrite Hq; ring).
  rewrite E1, E2, !Qabs_Qmult, (Qabs_pos p) by lra.
  apply Qmult_le_compat_r; [exact N|lra].
Qed.

Section Positive.
Variable q : Q.
Hypothesis q_pos : (0 < q)%Q.

Local Abbreviation e := (Z.max (ilog2 q - 52) (-1074)).

Lemma scaled_bounds :
  (0 < q / pow2 e < inject_Z (2 ^ 53))%Q /\
  ((-1074 < e)%Z -> (inject_Z (2 ^ 52) <= q / pow2 e)%Q).
Proof.
  destruct (ilog2_spec q q_pos) as [Hlo Hhi].
  pose proof (pow2_pos e) as Pe.
  assert (Hq : (q == q / pow2 e * pow2 e)%Q) by (now rewrite Qdiv_pow2).
  set (y := (q / pow2 e)%Q) in *.
  rewrite !pow2_Z by lia.
  assert (U : (pow2 (ilog2 q + 1) <= pow2 53 * pow2 e)%Q).
  { rewrite <- pow2_plus. apply pow2_le. lia. }
  split; [split|].
  - apply Qnot_le_lt. intros Hc.
    assert (y * pow2 e <= 0 * pow2 e)%Q by (apply Qmult_le_compat_r; lra). lra.
  - apply Qnot_le_lt. intros Hc.
    assert (pow2 53 * pow2 e <= y * pow2 e)%Q by (apply Qmult_le_compat_r; lra). lra.
  - intros He.
    assert (L : (pow2 52 * pow2 e == pow2 (ilog2 q))%Q).
    { rewrite <- pow2_plus. replace (52 + e)%Z with (ilog2 q) by lia. reflexivity. }
    apply Qnot_lt_le. intros Hc.
    assert (y * pow2 e < pow2 52 * pow2 e)%Q by (apply Qmult_lt_compat_r; lra). lra.
Qed.

Lemma roundPos_representable : representable (roundPos q).
Proof.
  destruct scaled_bounds as [[Hlo Hhi] _].
  exists (roundEven (q / pow2 e)), e. split; [lia|]. split; [|reflexivity].
  pose proof (roundEven_nonneg (q / pow2 e)) as H0.
  pose proof (roundEven_le (q / pow2 e) (2 ^ 53)) as H1.
  rewrite Z.abs_eq by (apply H0; lra). apply H1. lra.
Qed.

Lemma roundPos_nonneg : (0 <= roundPos q)%Q.
Proof.
  destruct scaled_bounds as [[Hlo Hhi] _]. unfold roundPos. cbv zeta.
  pose proof (roundEven_nonneg (q / pow2 e)) as H0.
  apply Qmult_le_0_compat; [|pose proof (pow2_pos e); lra].
  change 0%Q with (inject_Z 0). rewrite <- Zle_Qle. apply H0. lra.
Qed.

(** No double is nearer to [q] than [roundPos q]. *)
Lemma roundPos_nearest (d : Q) :
  representable d -> (Qabs (roundPos q - q) <= Qabs (d - q))%Q.
Proof.
  intros (m & e' & He' & Hm & Ed).
  destruct scaled_bounds as [[Hlo Hhi] Hnormal].
  pose proof (pow2_pos e) as Pe.
  unfold roundPos. cbv zeta. set (y := (q / pow2 e)%Q) in *.
  assert (Hq : (q == y * pow2 e)%Q) by (subst y; now rewrite Qdiv_pow2).
  (* nearest among the multiples of [2^e] *)
  assert (Hmult : forall n : Z,
            (Qabs (inject_Z (roundEven y) * pow2 e - q) <=
             Qabs (inject_Z n * pow2 e - q))%Q).
  { intros n. now apply nearest_multiple. }
  destruct (Z_le_gt_dec e e') as [Hee|Hee].
  - (* [d] is a multiple of [2^e] *)
    assert (Ed' : (d == inject_Z (m * 2 ^ (e' - e)) * pow2 e)%Q).
    { rewrite Ed, inject_Z_mult, pow2_Z by lia.
      rewrite <- Qmult_assoc, <- pow2_plus.
      replace (e' - e + e)%Z with e' by lia. reflexivity. }
    rewrite Ed'. apply Hmult.
  - (* [d] is below [2^(52+e)], which is not above [q] *)
    assert (He : (-1074 < e)%Z) by lia.
    specialize (Hnormal He).
    pose proof (Hmult (2 ^ 52)%Z) as N.
    assert (Hd : (d <= inject_Z (2 ^ 52) * pow2 e)%Q).
    { rewrite Ed.
      assert (inject_Z m <= inject_Z (2 ^ 53))%Q by (rewrite <- Zle_Qle; lia).
      assert (inject_Z m * pow2 e' <= inject_Z (2 ^ 53) * pow2 e')%Q
        by (apply Qmult_le_compat_r; [assumption|pose proof (pow2_pos e'); lra]).
      assert (inject_Z (2 ^ 53) * pow2 e' <= inject_Z (2 ^ 52) * pow2 e)%Q.
      { rewrite !pow2_Z by lia. rewrite <- !pow2_plus. apply pow2_le. lia. }
      lra. }
    assert (Hb : (inject_Z (2 ^ 52) * pow2 e <= q)%Q).
    { assert (inject_Z (2 ^ 52) * pow2 e <= y * pow2 e)%Q
        by (apply Qmult_le_compat_r; lra).
      lra. }
    revert N. set (r := (inject_Z (roundEven y) * pow2 e)%Q).
    set (b := (inject_Z (2 ^ 52) * pow2 e)%Q) in *. clearbody r b.
    apply Qabs_case; intros; revert N; apply Qabs_case; intros;
      apply Qabs_case; intros; lra.
Qed.

End Positive.

Lemma round_zero (q : Q) : (q == 0)%Q -> round q = 0%Q.
Proof.
  intros E. unfold round. rewrite (proj1 (Qeq_alt q 0) E). reflexivity.
Qed.

Lemma round_pos (q : Q) : (0 < q)%Q -> round q = Qred (roundPos q).
Proof.
  intros H. unfold round. rewrite (proj1 (Qgt_alt q 0) H). reflexivity.
Qed.

Lemma round_neg (q : Q) : (q < 0)%Q -> round q = Qred (- roundPos (- q)).
Proof.
  intros H. unfold round. rewrite (proj1 (Qlt_alt q 0) H). reflexivity.
Qed.

Lemma representable_zero : representable 0.
Proof. exists 0%Z, 0%Z. split; [lia|]. split; [cbn; lia|]. reflexivity. Qed.

Lemma round_representable (q : Q) : representable (round q).
Proof.
  destruct (Q_dec q 0) as [[H|H]|H].
  - rewrite round_neg by exact H.
    apply (representable_comp (- roundPos (- q))); [now rewrite Qred_correct|].
    apply representable_opp, roundPos_representable. lra.
  - rewrite round_pos by exact H.
    apply (representable_comp (roundPos q)); [now rewrite Qred_correct|].
    now apply roundPos_representable.
  - rewrite round_zero by exact H. apply representable_zero.
Qed.

(** Rounding is to nearest: no double is nearer to [q] than [round q]. *)
Lemma round_nearest (q d : Q) :
  representable d -> (Qabs (round q - q) <= Qabs (d - q))%Q.
Proof.
  intros Hd. destruct (Q_dec q 0) as [[H|H]|H].
  - rewrite round_neg by exact H. rewrite Qred_correct.
    assert (Hq : (0 < - q)%Q) by lra.
    pose proof (roundPos_nearest (- q) Hq (- d) (representable_opp d Hd)) as N.
    revert N. set (r := roundPos (- q)). clearbody r.
    apply Qabs_case; intros; revert N; apply Qabs_case; intros;
      apply Qabs_case; intros; apply Qabs_case; intros; lra.
  - rewrite round_pos by exact H. rewrite Qred_correct.
    now apply roundPos_nearest.
  - rewrite round_zero by exact H.
    apply Qabs_case; intros; apply Qabs_case; intros; lra.
Qed.

Lemma roundPos_comp (p q : Q) : (p == q)%Q -> (0 < p)%Q -> roundPos p = roundPos q.
Proof.
  intros E Hp. unfold roundPos. cbv zeta. rewrite (ilog2_comp p q E Hp).
  rewrite (roundEven_comp (p / pow2 (Z.max (ilog2 q - 52) (-1074)))
             (q / pow2 (Z.max (ilog2 q - 52) (-1074)))) by (now rewrite E).
  reflexivity.
Qed.

(** Rounding does not look at the fraction that carries a value. *)
Lemma round_comp (p q : Q) : (p == q)%Q -> round p = round q.
Proof.
  intros E. destruct (Q_dec p 0) as [[H|H]|H].
  - rewrite !round_neg by lra. f_equal. f_equal. apply roundPos_comp; [now rewrite E|lra].
  - rewrite !round_pos by lra. f_equal. now apply roundPos_comp.
  - rewrite !round_zero; [reflexivity| |exact H]. now rewrite <- E.
Qed.

(** A double is its own rounding. *)
Lemma round_id (d : Q) : representable d -> (round d == d)%Q.
Proof.
  intros Hd. pose proof (round_nearest d d Hd) as N. revert N.
  apply Qabs_case; intros; revert N; apply Qabs_case; intros; lra.
Qed.

(** A double within [q] is within [round q], and one not below [q] is not
    below [round q]. *)
Lemma round_ge (q d : Q) : representable d -> (d <= q)%Q -> (d <= round q)%Q.
Proof.
  intros Hd H. pose proof (round_nearest q d Hd) as N. revert N.
  apply Qabs_case; intros; revert N; apply Qabs_case; intros; lra.
Qed.

Lemma round_le (q d : Q) : representable d -> (q <= d)%Q -> (round q <= d)%Q.
Proof.
  intros Hd H. pose proof (round_nearest q d Hd) as N. revert N.
  apply Qabs_case; intros; revert N; apply Qabs_case; intros; lra.
Qed.

(** Rounding keeps the order. *)
Lemma round_mono (p q : Q) : (p <= q)%Q -> (round p <= round q)%Q.
Proof.
  intros H.
  destruct (Qlt_le_dec q (round p)) as [H1|H1];
    [|apply round_ge; [apply round_representable|exact H1]].
  destruct (Qlt_le_dec (round q) p) as [H2|H2];
    [|apply round_le; [apply round_representable|exact H2]].
  (* round q < p <= q < round p: both lie halfway *)
  pose proof (round_nearest p (round q) (round_representable q)) as N1.
  pose proof (round_nearest q (round p) (round_representable p)) as N2.
  assert (E : (p == q)%Q).
  { revert N1 N2.
    apply Qabs_case; intros; revert N1; apply Qabs_case; intros; revert N2;
      apply Qabs_case; intros; revert N2; apply Qabs_case; intros; lra. }
  rewrite (round_comp p q E). lra.
Qed.

(** *** Numbers that an operation yields *)

Lemma number_cases (q : Q) :
  (number q = PInf /\ (pow2 1024 <= round q)%Q) \/
  (number q = NInf /\ (round q <= - pow2 1024)%Q) \/
  (number q = Fin (round q) /\ (- pow2 1024 < round q < pow2 1024)%Q).
Proof.
  unfold number. cbv zeta.
  destruct (Qle_bool (pow2 1024) (round q)) eqn:E1.
  - left. apply Qle_bool_iff in E1. auto.
  - apply Qle_bool_gt in E1.
    destruct (Qle_bool (round q) (- pow2 1024)) eqn:E2.
    + right; left. apply Qle_bool_iff in E2. auto.
    + apply Qle_bool_gt in E2. right; right. auto.
Qed.

Lemma round_0 : round 0 = 0%Q.
Proof. reflexivity. Qed.

Lemma round_nonneg (q : Q) : (0 <= q)%Q -> (0 <= round q)%Q.
Proof. intros H. rewrite <- round_0. now apply round_mono. Qed.

Lemma round_nonpos (q : Q) : (q <= 0)%Q -> (round q <= 0)%Q.
Proof. intros H. rewrite <- round_0. now apply round_mono. Qed.

Lemma number_comp (p q : Q) : (p == q)%Q -> number p = number q.
Proof. intros E. unfold number. now rewrite (round_comp p q E). Qed.

(** The order of the numbers that are not NaN. *)
Lemma leb_refl (x : num) : x <> NaN -> leb x x = true.
Proof. destruct x; try reflexivity; [congruence|]. intros _. apply Qle_bool_iff. lra. Qed.

Lemma leb_trans (x y z : num) : leb x y = true -> leb y z = true -> leb x z = true.
Proof.
  destruct x, y, z; simpl; try congruence.
  intros H1 H2. apply Qle_bool_iff in H1, H2. apply Qle_bool_iff. lra.
Qed.

Lemma gtb_leb (x y : num) : gtb x y = false -> x <> NaN -> y <> NaN -> leb x y = true.
Proof.
  destruct x, y; simpl; try congruence.
  intros H _ _. apply Qltb_ge in H. now apply Qle_bool_iff.
Qed.

Lemma leb_gtb (x y : num) : leb x y = true -> gtb x y = false.
Proof.
  destruct x, y; simpl; try congruence.
  intros H. apply Qle_bool_iff in H. now apply Qltb_ge.
Qed.

Lemma number_mono (p q : Q) : (p <= q)%Q -> leb (number p) (number q) = true.
Proof.
  intros H. pose proof (round_mono p q H) as M.
  pose proof (pow2_pos 1024) as P.
  destruct (number_cases p) as [[-> B]|[[-> B]|[-> B]]];
    destruct (number_cases q) as [[-> C]|[[-> C]|[-> C]]];
    try reflexivity; simpl; try (apply Qle_bool_iff); lra.
Qed.

Lemma number_not_NaN (q : Q) : number q <> NaN.
Proof. destruct (number_cases q) as [[-> _]|[[-> _]|[-> _]]]; discriminate. Qed.

Lemma number_nonneg (q : Q) : (0 <= q)%Q -> leb (Fin 0) (number q) = true.
Proof. intros H. change (Fin 0) with (number 0). now apply number_mono. Qed.

Lemma number_nonpos (q : Q) : (q <= 0)%Q -> leb (number q) (Fin 0) = true.
Proof. intros H. change (Fin 0) with (number 0). now apply number_mono. Qed.

(** What [isDouble] checks. *)
Lemma isDouble_spec (q : Q) :
  isDouble q = true ->
  representable q /\ (round q == q)%Q /\ number q = Fin (round q) /\
  (- pow2 1024 < q < pow2 1024)%Q.
Proof.
  unfold isDouble. intros H.
  destruct (number_cases q) as [[E _]|[[E _]|[E B]]]; rewrite E in H; try discriminate.
  apply Qeq_bool_eq in H.
  split; [apply (representable_comp (round q)); [exact H|apply round_representable]|].
  split; [exact H|]. split; [exact E|]. lra.
Qed.

(** A double below 2^1024 is at least one below it. *)
Lemma double_below_top (q : Q) :
  representable q -> (q < pow2 1024)%Q -> (q <= pow2 1024 - 1)%Q.
Proof.
  intros (m & e & He & Hm & E) H.
  destruct (Z_le_gt_dec 0 e) as [H0|H0].
  - assert (Eq : (q == inject_Z (m * 2 ^ e))%Q)
      by (rewrite E, inject_Z_mult, pow2_Z by lia; reflexivity).
    rewrite Eq in *. rewrite <- (pow2_Z 1024) in * by lia.
    rewrite <- Zlt_Qlt in H.
    assert (Hz : (m * 2 ^ e + 1 <= 2 ^ 1024)%Z) by lia.
    rewrite Zle_Qle, inject_Z_plus in Hz. change (inject_Z 1) with 1%Q in Hz. lra.
  - assert (inject_Z m <= inject_Z (2 ^ 53))%Q by (rewrite <- Zle_Qle; lia).
    assert (inject_Z m * pow2 e <= inject_Z (2 ^ 53) * pow2 e)%Q
      by (apply Qmult_le_compat_r; [assumption|pose proof (pow2_pos e); lra]).
    assert (inject_Z (2 ^ 53) * pow2 e <= pow2 52)%Q.
    { rewrite pow2_Z by lia. rewrite <- pow2_plus. apply pow2_le. lia. }
    assert (pow2 52 <= pow2 1024 - 1)%Q by (vm_compute; discriminate).
    lra.
Qed.

(** Rounding to six decimals and subtraction from a number keep, resp.
    reverse, the order. *)
Lemma toFixed6_mono (x y : num) : leb x y = true -> leb (toFixed6 x) (toFixed6 y) = true.
Proof.
  destruct x, y; simpl; try congruence.
  intros H. apply Qle_bool_iff in H. apply Qle_bool_iff.
  unfold toFixed6Q.
  assert (M : forall a b, (a <= b)%Q -> (roundHalfUp6 a <= roundHalfUp6 b)%Q).
  { intros a b Hab. unfold roundHalfUp6. rewrite !Qred_correct.
    assert (Hf : (Qfloor (a * 1000000 + (1 # 2)) <= Qfloor (b * 1000000 + (1 # 2)))%Z)
      by (apply Qfloor_resp_le; lra).
    rewrite Zle_Qle in Hf.
    unfold Qdiv. change (/ 1000000)%Q with (1 # 1000000)%Q. lra. }
  assert (N : forall a, (0 <= a)%Q -> (0 <= roundHalfUp6 a)%Q).
  { intros a Ha. assert (E0 : (roundHalfUp6 0 == 0)%Q) by reflexivity.
    rewrite <- E0. now apply M. }
  destruct (Qltb q 0) eqn:Ea; destruct (Qltb q0 0) eqn:Eb;
    rewrite ?Qred_correct;
    try apply Qltb_lt in Ea; try apply Qltb_lt in Eb;
    try apply Qltb_ge in Ea; try apply Qltb_ge in Eb.
  - assert (roundHalfUp6 (- q0) <= roundHalfUp6 (- q))%Q by (apply M; lra). lra.
  - assert (0 <= roundHalfUp6 (- q))%Q by (apply N; lra).
    assert (0 <= roundHalfUp6 q0)%Q by (apply N; lra). lra.
  - lra.
  - now apply M.
Qed.

Lemma sub_antitone (t : Q) (x y : num) :
  leb x y = true -> leb (sub (Fin t) y) (sub (Fin t) x) = true.
Proof.
  destruct x, y; simpl; try congruence; try reflexivity.
  - intros _. destruct (number_cases (t - q)) as [[-> _]|[[-> _]|[-> _]]]; reflexivity.
  - intros _. destruct (number_cases (t - q)) as [[-> _]|[[-> _]|[-> _]]]; reflexivity.
  - intros H. apply Qle_bool_iff in H. apply number_mono. lra.
Qed.

(** A sum with a positive area stays at or above zero. *)
Lemma add_nonneg (p : num) (a : Q) :
  leb (Fin 0) p = true -> (0 <= a)%Q -> leb (Fin 0) (add p (Fin a)) = true.
Proof.
  destruct p as [| | |r]; simpl; try congruence.
  intros H Ha. apply Qle_bool_iff in H. apply number_nonneg. lra.
Qed.

(** Under a target that is not above zero, a partial sum that is not
    below zero is above the target, or leaves nothing to spend. *)
Lemma nothing_to_spend (t p : num) :
  t = NaN \/ leb t (Fin 0) = true -> leb (Fin 0) p = true ->
  gtb p t = true \/ sub t p = NaN \/ leb (sub t p) (Fin 0) = true.
Proof.
  intros [-> | Ht] Hp.
  - right; left. now destruct p.
  - destruct t as [| | |q]; try discriminate.
    + left. destruct p; try discriminate; reflexivity.
    + destruct p as [| | |r]; try discriminate; [left; reflexivity|].
      simpl in Ht, Hp. apply Qle_bool_iff in Ht, Hp.
      right; right. apply number_nonpos. lra.
Qed.

End DoubleFacts.

(** ** The best-fit locator *)
Section BisectFacts.
Import JS Bisect Vocabulary.

Lemma shiftr1_bounds (lo hi : nat) :
  (lo < hi)%nat -> (lo <= Nat.shiftr (lo + hi) 1 < hi)%nat.
Proof.
  intros H. rewrite Nat.shiftr_div_pow2. change (2 ^ 1)%nat with 2%nat.
  split.
  - apply Nat.div_le_lower_bound; lia.
  - apply Nat.Div0.div_lt_upper_bound; lia.
Qed.

Lemma bisectLoop_O (arr : list item) (r : num) (lo hi : nat) :
  bisectLoop 0 arr r lo hi = if (lo <? hi)%nat then None else Some lo.
Proof. reflexivity. Qed.

Lemma bisectLoop_S (fuel : nat) (arr : list item) (r : num) (lo hi : nat) :
  bisectLoop (S fuel) arr r lo hi =
  if (lo <? hi)%nat then
    match arr !! Nat.shiftr (lo + hi) 1 with
    | Some x =>
        if leb (Fin (area x)) r
        then bisectLoop fuel arr r (Nat.shiftr (lo + hi) 1 + 1) hi
        else bisectLoop fuel arr r lo (Nat.shiftr (lo + hi) 1)
    | None => None
    end
  else Some lo.
Proof. reflexivity. Qed.

(** The loop ends within its fuel, never reads outside the array, and
    stops at the boundary between the areas within [r] and the others. *)
Lemma bisectLoop_spec (arr : list item) (r : num) :
  ascending arr ->
  forall fuel lo hi,
    (lo <= hi <= length arr)%nat -> (hi - lo <= fuel)%nat ->
    (forall i x, (i < lo)%nat -> arr !! i = Some x -> leb (Fin (area x)) r = true) ->
    (forall i x, (hi <= i)%nat -> arr !! i = Some x -> leb (Fin (area x)) r = false) ->
    exists pos, bisectLoop fuel arr r lo hi = Some pos /\
      (pos <= length arr)%nat /\
      (forall i x, (i < pos)%nat -> arr !! i = Some x -> leb (Fin (area x)) r = true) /\
      (forall i x, (pos <= i)%nat -> arr !! i = Some x -> leb (Fin (area x)) r = false).
Proof.
  intros Hasc fuel. induction fuel as [|fuel IH]; intros lo hi Hb Hf Hlo Hhi.
  - assert (lo = hi) by lia. subst hi. rewrite bisectLoop_O.
    rewrite Nat.ltb_irrefl. exists lo. repeat split; auto; lia.
  - rewrite bisectLoop_S. destruct (lo <? hi)%nat eqn:E.
    + apply Nat.ltb_lt in E.
      pose proof (shiftr1_bounds lo hi E) as Hm.
      set (mid := Nat.shiftr (lo + hi) 1) in *.
      destruct (arr !! mid) as [x|] eqn:Hx.
      2:{ apply lookup_ge_None in Hx. lia. }
      destruct (leb (Fin (area x)) r) eqn:Hle.
      * apply IH; [lia | lia | | assumption].
        intros i y Hi Hy.
        apply leb_Fin_mono with (b := area x); [|assumption].
        apply (Hasc i mid y x); [assumption | assumption | lia].
      * apply IH; [lia | lia | assumption |].
        intros i y Hi Hy.
        destruct (leb (Fin (area y)) r) eqn:Hy'; [|reflexivity].
        rewrite (leb_Fin_mono (area x) (area y) r) in Hle; [discriminate | | assumption].
        apply (Hasc mid i x y); [assumption | assumption | lia].
    + apply Nat.ltb_ge in E. assert (lo = hi) by lia. subst hi.
      exists lo. repeat split; auto; lia.
Qed.

(** The search ends and yields an index of the array or its length, for
    every array, sorted or not. *)
Lemma bisectLoop_total (arr : list item) (r : num) :
  forall fuel lo hi,
    (lo <= hi <= length arr)%nat -> (hi - lo <= fuel)%nat ->
    exists pos, bisectLoop fuel arr r lo hi = Some pos /\ (lo <= pos <= hi)%nat.
Proof.
  intros fuel. induction fuel as [|fuel IH]; intros lo hi Hb Hf.
  - assert (lo = hi) by lia. subst hi. rewrite bisectLoop_O.
    rewrite Nat.ltb_irrefl. exists lo. split; [reflexivity | lia].
  - rewrite bisectLoop_S. destruct (lo <? hi)%nat eqn:E.
    + apply Nat.ltb_lt in E.
      pose proof (shiftr1_bounds lo hi E) as Hm.
      set (mid := Nat.shiftr (lo + hi) 1) in *.
      destruct (arr !! mid) as [x|] eqn:Hx.
      2:{ apply lookup_ge_None in Hx. lia. }
      destruct (leb (Fin (area x)) r).
      * destruct (IH (mid + 1)%nat hi) as (pos & Hp & Hr); [lia | lia |].
        exists pos. split; [assumption | lia].
      * destruct (IH lo mid) as (pos & Hp & Hr); [lia | lia |].
        exists pos. split; [assumption | lia].
    + exists lo. split; [reflexivity | apply Nat.ltb_ge in E; lia].
Qed.

Lemma bisectRightByArea_total (arr : list item) (r : num) :
  exists pos, bisectRightByArea arr r = Some pos /\ (pos <= length arr)%nat.
Proof.
  destruct (bisectLoop_total arr r (length arr) 0 (length arr)) as (pos & Hp & Hr);
    [lia | lia |].
  exists pos. split; [exact Hp | lia].
Qed.

Lemma bisectRightByArea_spec (arr : list item) (r : num) :
  ascending arr ->
  exists pos, bisectRightByArea arr r = Some pos /\
    (pos <= length arr)%nat /\
    (forall i x, (i < pos)%nat -> arr !! i = Some x -> leb (Fin (area x)) r = true) /\
    (forall i x, (pos <= i)%nat -> arr !! i = Some x -> leb (Fin (area x)) r = false).
Proof.
  intros Hasc. apply bisectLoop_spec; [assumption | lia | lia | |].
  - intros i x Hi. lia.
  - intros i x Hi Hx. apply lookup_lt_Some in Hx. lia.
Qed.

(** What the pick is, for an ascending array. *)
Lemma pickBestUnderOrEqual_cases (arr : list item) (r : num) :
  ascending arr ->
  match pickBestUnderOrEqual arr r with
  | Some x =>
      x ∈ arr /\ leb (Fin (area x)) r = true /\
      forall y, y ∈ arr -> leb (Fin (area y)) r = true -> (area y <= area x)%Q
  | None => forall y, y ∈ arr -> leb (Fin (area y)) r = false
  end.
Proof.
  intros Hasc. unfold pickBestUnderOrEqual.
  destruct (bisectRightByArea_spec arr r Hasc) as (pos & Hp & Hlen & Hlt & Hge).
  rewrite Hp. destruct pos as [|idx].
  - intros y Hy. apply list_elem_of_lookup in Hy as [i Hi].
    apply (Hge i y); [lia | assumption].
  - destruct (arr !! idx) as [x|] eqn:Hx.
    2:{ apply lookup_ge_None in Hx. lia. }
    split; [apply list_elem_of_lookup; eauto |].
    split; [apply (Hlt idx x); [lia | assumption] |].
    intros y Hy Hyr. apply list_elem_of_lookup in Hy as [i Hi].
    destruct (le_lt_dec (S idx) i) as [Hbig|Hsmall].
    + rewrite (Hge i y Hbig Hi) in Hyr. discriminate.
    + apply (Hasc i idx y x); [assumption | assumption | lia].
Qed.

End BisectFacts.

Section BisectContract.
Import JS Bisect Vocabulary.


Lemma ascendingb_head (x : item) (arr : list item) :
  ascendingb (x :: arr) = true ->
  forall j y, arr !! j = Some y -> (area x <= area y)%Q.
Proof.
  revert x. induction arr as [|z arr IH]; intros x H j y Hy.
  - destruct j; discriminate.
  - cbn [ascendingb] in H. apply andb_true_iff in H as [Hxz Hrest].
    apply Qle_bool_iff in Hxz. destruct j as [|j].
    + injection Hy as <-. exact Hxz.
    + pose proof (IH z Hrest j y Hy). lra.
Qed.

Lemma ascendingb_sound (arr : list item) : ascendingb arr = true -> ascending arr.
Proof.
  induction arr as [|x arr IH]; intros H i j a b Ha Hb Hij.
  - destruct i; discriminate.
  - destruct i as [|i], j as [|j]; try lia.
    + injection Ha as <-. injection Hb as <-. lra.
    + injection Ha as <-. apply (ascendingb_head _ _ H j b Hb).
    + apply (IH) with (i := i) (j := j); try assumption; try lia.
      destruct arr; [reflexivity|].
      cbn [ascendingb] in H. apply andb_true_iff in H. tauto.
Qed.

(** C3. On an array sorted ascending by area and for every residual budget
    [r], the search loop ends, [pickBestUnderOrEqual] returns an element of
    the array whose area is within [r] and is the largest such area, it
    returns null exactly when no area is within [r]; an element whose area
    equals [r] makes the pick an element of that area; a negative [r] over
    positive areas and the empty array give null. *)
Theorem pickBestUnderOrEqual_largest_within (arr : list item) (r : num) :
  ascending arr ->
  (exists pos, bisectRightByArea arr r = Some pos /\ (pos <= length arr)%nat) /\
  (forall x, pickBestUnderOrEqual arr r = Some x ->
     x ∈ arr /\ leb (Fin (area x)) r = true /\
     forall y, y ∈ arr -> leb (Fin (area y)) r = true -> (area y <= area x)%Q) /\
  (pickBestUnderOrEqual arr r = None <->
     forall y, y ∈ arr -> leb (Fin (area y)) r = false) /\
  (forall y, y ∈ arr -> r = Fin (area y) ->
     exists x, pickBestUnderOrEqual arr r = Some x /\ (area x == area y)%Q) /\
  ((forall y, y ∈ arr -> (0 < area y)%Q) -> ltb r (Fin 0) = true ->
     pickBestUnderOrEqual arr r = None) /\
  (arr = [] -> pickBestUnderOrEqual arr r = None).
Proof.
  intros Hasc.
  pose proof (pickBestUnderOrEqual_cases arr r Hasc) as Hc.
  assert (Hnone : pickBestUnderOrEqual arr r = None <->
                  forall y, y ∈ arr -> leb (Fin (area y)) r = false).
  { split.
    - intros E. rewrite E in Hc. exact Hc.
    - intros Hall. destruct (pickBestUnderOrEqual arr r) as [x|]; [|reflexivity].
      destruct Hc as (Hin & Hle & _). rewrite (Hall x Hin) in Hle. discriminate. }
  split; [apply bisectRightByArea_total |].
  split.
  { intros x E. rewrite E in Hc. exact Hc. }
  split; [exact Hnone |].
  split.
  { intros y Hy ->.
    destruct (pickBestUnderOrEqual arr (Fin (area y))) as [x|] eqn:E.
    - exists x. split; [reflexivity |].
      destruct Hc as (_ & Hle & Hmax).
      apply leb_Fin in Hle.
      assert (area y <= area x)%Q by (apply Hmax; [assumption | apply leb_Fin; lra]).
      lra.
    - exfalso. assert (leb (Fin (area y)) (Fin (area y)) = false) as Hn by (apply Hc; assumption).
      assert (leb (Fin (area y)) (Fin (area y)) = true) by (apply leb_Fin; lra).
      congruence. }
  split.
  { intros Hpos Hneg. apply Hnone. intros y Hy.
    specialize (Hpos y Hy).
    destruct r as [| | |q]; simpl in *; try reflexivity; try discriminate.
    apply Qltb_lt in Hneg. apply Qle_bool_gt. lra. }
  intros ->. reflexivity.
Qed.


(** An instance: the group of areas 8 and 30 searched with the budget 15. *)
Lemma pickBestUnderOrEqual_largest_within_witness :
  ascending sampleGroup /\
  exists pos, bisectRightByArea sampleGroup (Fin 15) = Some pos /\
    (pos <= length sampleGroup)%nat.
Proof.
  split.
  - apply ascendingb_sound. reflexivity.
  - apply (pickBestUnderOrEqual_largest_within sampleGroup (Fin 15)).
    apply ascendingb_sound. reflexivity.
Defined.

End BisectContract.

(** ** The type normalizer *)
Section NormalizeFacts.
Import JS Normalize Vocabulary.


Lemma isABCD_letterOf (c : N) :
  (if isABCD c then Some [toUpperCase1 c] else None) = letterOf c.
Proof.
  unfold isABCD, letterOf, toUpperCase1.
  destruct (N.le_gt_cases c 100) as [Hle|Hgt].
  - assert (Hc : (c < 65 \/ c = 65 \/ c = 66 \/ c = 67 \/ c = 68 \/ (68 < c < 97) \/
                  c = 97 \/ c = 98 \/ c = 99 \/ c = 100)%N) by lia.
    destruct Hc as [H|[H|[H|[H|[H|[H|[H|[H|[H|H]]]]]]]]]; subst; try reflexivity.
    + replace (65 <=? c)%N with false by (symmetry; apply N.leb_gt; lia).
      replace (97 <=? c)%N with false by (symmetry; apply N.leb_gt; lia).
      replace (c =? 65)%N with false by (symmetry; apply N.eqb_neq; lia).
      replace (c =? 97)%N with false by (symmetry; apply N.eqb_neq; lia).
      replace (c =? 66)%N with false by (symmetry; apply N.eqb_neq; lia).
      replace (c =? 98)%N with false by (symmetry; apply N.eqb_neq; lia).
      replace (c =? 67)%N with false by (symmetry; apply N.eqb_neq; lia).
      replace (c =? 99)%N with false by (symmetry; apply N.eqb_neq; lia).
      replace (c =? 68)%N with false by (symmetry; apply N.eqb_neq; lia).
      replace (c =? 100)%N with false by (symmetry; apply N.eqb_neq; lia).
      reflexivity.
    + replace (c <=? 68)%N with false by (symmetry; apply N.leb_gt; lia).
      replace (97 <=? c)%N with false by (symmetry; apply N.leb_gt; lia).
      replace (c =? 65)%N with false by (symmetry; apply N.eqb_neq; lia).
      replace (c =? 97)%N with false by (symmetry; apply N.eqb_neq; lia).
      replace (c =? 66)%N with false by (symmetry; apply N.eqb_neq; lia).
      replace (c =? 98)%N with false by (symmetry; apply N.eqb_neq; lia).
      replace (c =? 67)%N with false by (symmetry; apply N.eqb_neq; lia).
      replace (c =? 99)%N with false by (symmetry; apply N.eqb_neq; lia).
      replace (c =? 68)%N with false by (symmetry; apply N.eqb_neq; lia).
      replace (c =? 100)%N with false by (symmetry; apply N.eqb_neq; lia).
      rewrite andb_false_r. reflexivity.
  - replace (c <=? 68)%N with false by (symmetry; apply N.leb_gt; lia).
    replace (c <=? 100)%N with false by (symmetry; apply N.leb_gt; lia).
    replace (c =? 65)%N with false by (symmetry; apply N.eqb_neq; lia).
    replace (c =? 97)%N with false by (symmetry; apply N.eqb_neq; lia).
    replace (c =? 66)%N with false by (symmetry; apply N.eqb_neq; lia).
    replace (c =? 98)%N with false by (symmetry; apply N.eqb_neq; lia).
    replace (c =? 67)%N with false by (symmetry; apply N.eqb_neq; lia).
    replace (c =? 99)%N with false by (symmetry; apply N.eqb_neq; lia).
    replace (c =? 68)%N with false by (symmetry; apply N.eqb_neq; lia).
    replace (c =? 100)%N with false by (symmetry; apply N.eqb_neq; lia).
    rewrite !andb_false_r. reflexivity.
Qed.

Lemma letterOf_isABCD (c : N) : isABCD c = false -> letterOf c = None.
Proof. intros H. rewrite <- isABCD_letterOf, H. reflexivity. Qed.

(** C9, as the code has it. [normalizeType] is a total function of its
    argument alone. It answers with a letter exactly when the argument is
    a string that, once its leading and trailing white space is trimmed,
    is one letter of A, B, C, D in either case, alone or followed by the
    suffix marker; the answer is then that letter in upper case. Every
    other argument, a string or not, gives null. *)
Theorem normalizeType_trimmed_letter (t : value) (L : jsstr) :
  normalizeType t = Some L <->
  exists s c, t = VString s /\ (trim s = [c] \/ trim s = [c; lei]) /\
              letterOf c = Some L.
Proof.
  split.
  - destruct t as [| | | |s|]; simpl; try discriminate.
    unfold matchType.
    destruct (trim s) as [|c [|d [|e rest]]] eqn:E; try discriminate.
    + intros H. exists s, c. split; [reflexivity|]. split; [left; exact E|].
      rewrite <- isABCD_letterOf. destruct (isABCD c); [exact H | discriminate].
    + intros H. destruct (isABCD c) eqn:Hc; simpl in H; [|discriminate].
      destruct (d =? lei)%N eqn:Hd; [|discriminate].
      apply N.eqb_eq in Hd. subst d.
      exists s, c. split; [reflexivity|]. split; [right; exact E|].
      rewrite <- isABCD_letterOf, Hc. exact H.
  - intros (s & c & -> & Htrim & Hl). simpl. unfold matchType.
    rewrite <- isABCD_letterOf in Hl.
    destruct (isABCD c) eqn:Hc; [|discriminate].
    destruct Htrim as [-> | ->].
    + rewrite Hc. exact Hl.
    + rewrite Hc, N.eqb_refl. exact Hl.
Qed.

(** C9, against the claim as stated: the three-unit string made of a
    space, the letter A and a space is not a single letter with an
    optional suffix, yet it is recognized as A. *)
Lemma normalizeType_padded_letter_recognized :
  normalizeType (VString (str " A ")) = Some (str "A") /\
  str " A " <> str "A" /\ str " A " <> str "A" ++ [lei].
Proof.
  split; [reflexivity |]. split; discriminate.
Qed.

End NormalizeFacts.

(** ** Arrays: sort and pop *)
Section SortFacts.
Import JS.
Context {A : Type} (le : A -> A -> bool).

Lemma elem_of_map {B : Type} (f : A -> B) (l : list A) (y : B) :
  y ∈ map f l <-> exists x, y = f x /\ x ∈ l.
Proof.
  rewrite list_elem_of_In, in_map_iff. split.
  - intros (x & <- & Hx). exists x. split; [reflexivity | apply list_elem_of_In, Hx].
  - intros (x & -> & Hx). exists x. split; [reflexivity | apply list_elem_of_In, Hx].
Qed.

Lemma insertSorted_perm (x : A) (l : list A) : insertSorted le x l ≡ₚ x :: l.
Proof.
  induction l as [|y l IH]; simpl; [reflexivity|].
  destruct (le x y); [reflexivity|].
  rewrite IH. apply perm_swap.
Qed.

Lemma stableSort_perm (l : list A) : stableSort le l ≡ₚ l.
Proof.
  induction l as [|x l IH]; simpl; [reflexivity|].
  rewrite insertSorted_perm. rewrite <- IH at 2. reflexivity.
Qed.

Lemma stableSort_elem (l : list A) (x : A) : x ∈ stableSort le l <-> x ∈ l.
Proof. rewrite (stableSort_perm l). reflexivity. Qed.

Lemma stableSort_length (l : list A) : length (stableSort le l) = length l.
Proof. apply Permutation_length, stableSort_perm. Qed.

Lemma stableSort_snoc (l : list A) (x : A) :
  stableSort le (l ++ [x]) = foldr (insertSorted le) [x] l.
Proof. unfold stableSort. rewrite foldr_app. reflexivity. Qed.

Hypothesis le_total : forall a b, le a b = true \/ le b a = true.
Hypothesis le_trans : forall a b c, le a b = true -> le b c = true -> le a c = true.

Lemma insertSorted_sorted (x : A) (l : list A) :
  StronglySorted (fun a b => le a b = true) l ->
  StronglySorted (fun a b => le a b = true) (insertSorted le x l).
Proof.
  induction l as [|y l IH]; intros Hs; simpl.
  - constructor; constructor.
  - apply StronglySorted_inv in Hs as [Hl Hy].
    destruct (le x y) eqn:E.
    + constructor; [constructor; assumption |].
      constructor; [assumption |].
      eapply Forall_impl; [exact Hy |]. intros z Hz. simpl in Hz. eauto.
    + constructor; [apply IH; assumption |].
      rewrite insertSorted_perm. constructor; [|assumption].
      destruct (le_total x y); congruence.
Qed.

Lemma stableSort_sorted (l : list A) :
  StronglySorted (fun a b => le a b = true) (stableSort le l).
Proof.
  induction l as [|x l IH]; simpl; [constructor|].
  apply insertSorted_sorted, IH.
Qed.

End SortFacts.

Section SortedFacts.
Import JS.
Context {A : Type} (le : A -> A -> bool).

(** Sorting a sorted array changes nothing. *)
Lemma stableSort_id (l : list A) :
  StronglySorted (fun a b => le a b = true) l -> stableSort le l = l.
Proof.
  induction l as [|x l IH]; intros Hs; simpl; [reflexivity|].
  apply StronglySorted_inv in Hs as [Hl Hx].
  rewrite (IH Hl). destruct l as [|y l]; [reflexivity|].
  simpl. apply Forall_inv in Hx. rewrite Hx. reflexivity.
Qed.

Lemma pop_snoc (l : list A) (x : A) : TopK.pop (l ++ [x]) = Some (x, l).
Proof.
  induction l as [|y l IH]; [reflexivity|].
  simpl. rewrite IH. destruct (l ++ [x]) eqn:E; [|reflexivity].
  destruct l; discriminate.
Qed.

Lemma pop_Some (l r : list A) (x : A) : TopK.pop l = Some (x, r) <-> l = r ++ [x].
Proof.
  split.
  - revert r. induction l as [|y l IH]; intros r H; [discriminate|].
    simpl in H. destruct l as [|z l].
    + injection H as <- <-. reflexivity.
    + destruct (TopK.pop (z :: l)) as [[w r']|] eqn:E; [|discriminate].
      injection H as <- <-. rewrite (IH r' eq_refl). reflexivity.
  - intros ->. apply pop_snoc.
Qed.

Lemma pop_None (l : list A) : TopK.pop l = None <-> l = [].
Proof.
  split; [|intros ->; reflexivity].
  destruct l as [|x l] using rev_ind; [reflexivity|].
  rewrite pop_snoc. discriminate.
Qed.

Lemma last_snoc_inv (l : list A) (x : A) : last l = Some x -> exists r, l = r ++ [x].
Proof.
  destruct l as [|y l] using rev_ind; [discriminate|].
  rewrite last_snoc. intros [= ->]. eauto.
Qed.

End SortedFacts.

(** ** The bounded collector *)
Section TopKFacts.
Import JS TopK Vocabulary.

Lemma bySumDesc_le (a b : candidate) : bySumDesc a b = true <-> (sum b <= sum a)%Q.
Proof. unfold bySumDesc. rewrite Qle_bool_iff. split; intros; lra. Qed.

Lemma bySumDesc_total (a b : candidate) : bySumDesc a b = true \/ bySumDesc b a = true.
Proof.
  rewrite !bySumDesc_le. destruct (Qlt_le_dec (sum a) (sum b)); [right | left]; lra.
Qed.

Lemma bySumDesc_trans (a b c : candidate) :
  bySumDesc a b = true -> bySumDesc b c = true -> bySumDesc a c = true.
Proof. rewrite !bySumDesc_le. intros; lra. Qed.

Lemma sortBy_sum (l : list candidate) :
  sortBy (fun a b => sum b - sum a)%Q l = stableSort bySumDesc l.
Proof. reflexivity. Qed.

Lemma StronglySorted_lookup {A} (R : A -> A -> Prop) (l : list A) :
  StronglySorted R l ->
  forall i j x y, l !! i = Some x -> l !! j = Some y -> (i < j)%nat -> R x y.
Proof.
  induction 1 as [|a l Hs IH Ha]; intros i j x y Hi Hj Hlt.
  - destruct i; discriminate.
  - destruct j as [|j]; [lia|]. destruct i as [|i].
    + injection Hi as <-. rewrite Forall_forall in Ha. apply Ha.
      apply list_elem_of_lookup. exists j. exact Hj.
    + apply (IH i j); [assumption | assumption | lia].
Qed.

Lemma sorted_descending (l : list candidate) :
  StronglySorted (fun a b => bySumDesc a b = true) l -> descending l.
Proof.
  intros Hs i j x y Hi Hj Hij.
  destruct (decide (i = j)) as [->|Hne].
  - rewrite Hi in Hj. injection Hj as <-. lra.
  - apply bySumDesc_le.
    apply (StronglySorted_lookup _ l Hs i j); [assumption | assumption | lia].
Qed.

Lemma empty_ok : collectorOK empty.
Proof.
  constructor; simpl.
  - intros k. split; intros H; [set_solver | inversion H].
  - constructor.
  - constructor.
Qed.

Lemma pushTopK_dup (st : state) (c : candidate) (topK : num) :
  keyOf c ∈ seenKeys st -> pushTopK st c topK = st.
Proof.
  intros H. unfold pushTopK. fold (keyOf c).
  rewrite bool_decide_eq_true_2 by exact H. reflexivity.
Qed.

Lemma pushTopK_fresh (st : state) (c : candidate) (topK : num) :
  keyOf c ∉ seenKeys st ->
  pushTopK st c topK =
    let list1 := stableSort bySumDesc (topList st ++ [c]) in
    if gtb (ofNat (length list1)) topK then
      match pop list1 with
      | Some (removed, list2) =>
          State list2 (({[ keyOf c ]} ∪ seenKeys st) ∖ {[ keyOf removed ]})
      | None => State list1 ({[ keyOf c ]} ∪ seenKeys st)
      end
    else State list1 ({[ keyOf c ]} ∪ seenKeys st).
Proof.
  intros H. unfold pushTopK. fold (keyOf c).
  rewrite bool_decide_eq_false_2 by exact H. reflexivity.
Qed.

(** The sorted array after the push of a fresh candidate. *)
Lemma pushed_sorted (st : state) (c : candidate) :
  collectorOK st -> keyOf c ∉ seenKeys st ->
  let list1 := stableSort bySumDesc (topList st ++ [c]) in
  list1 ≡ₚ topList st ++ [c] /\
  NoDup (map keyOf list1) /\
  StronglySorted (fun a b => bySumDesc a b = true) list1 /\
  (forall k, k ∈ map keyOf list1 <-> k = keyOf c \/ k ∈ seenKeys st).
Proof.
  intros [Hseen Hnd Hs] Hfresh list1.
  assert (Hp : list1 ≡ₚ topList st ++ [c]) by apply stableSort_perm.
  assert (Hpk : map keyOf list1 ≡ₚ map keyOf (topList st) ++ [keyOf c]).
  { rewrite (Permutation_map keyOf Hp), map_app. reflexivity. }
  split; [exact Hp|]. split.
  - rewrite Hpk. apply NoDup_app. split; [exact Hnd|]. split.
    + intros k Hk Hk'. apply list_elem_of_singleton in Hk'. subst k.
      apply Hfresh, Hseen, Hk.
    + apply NoDup_singleton.
  - split.
    + apply stableSort_sorted; [apply bySumDesc_total | apply bySumDesc_trans].
    + intros k. rewrite Hpk, elem_of_app, list_elem_of_singleton, Hseen. tauto.
Qed.

(** One offer keeps the collector in order and does one of three things,
    told apart by the key and by the length after the push. *)
Lemma pushTopK_cases (st : state) (c : candidate) (topK : num) :
  collectorOK st ->
  let st' := pushTopK st c topK in
  let list1 := stableSort bySumDesc (topList st ++ [c]) in
  collectorOK st' /\
  ((keyOf c ∈ seenKeys st) /\ st' = st \/
   (keyOf c ∉ seenKeys st) /\ gtb (ofNat (S (length (topList st)))) topK = false /\
     st' = State list1 ({[ keyOf c ]} ∪ seenKeys st) \/
   (keyOf c ∉ seenKeys st) /\ gtb (ofNat (S (length (topList st)))) topK = true /\
     exists removed list2,
       list1 = list2 ++ [removed] /\
       (forall e, e ∈ list2 -> (sum removed <= sum e)%Q) /\
       st' = State list2 (({[ keyOf c ]} ∪ seenKeys st) ∖ {[ keyOf removed ]})).
Proof.
  intros Hok. cbv zeta.
  destruct (decide (keyOf c ∈ seenKeys st)) as [Hin|Hfresh].
  { rewrite pushTopK_dup by exact Hin. split; [exact Hok | left; auto]. }
  rewrite pushTopK_fresh by exact Hfresh. cbv zeta.
  destruct (pushed_sorted st c Hok Hfresh) as (Hp & Hnd & Hs & Hk).
  set (list1 := stableSort bySumDesc (topList st ++ [c])) in *.
  assert (Hlen : length list1 = S (length (topList st))).
  { rewrite (Permutation_length Hp), length_app. simpl. lia. }
  rewrite Hlen.
  assert (Hplain : collectorOK (State list1 ({[ keyOf c ]} ∪ seenKeys st))).
  { constructor; simpl; [|exact Hnd|exact Hs].
    intros k. rewrite Hk, elem_of_union, elem_of_singleton. reflexivity. }
  destruct (gtb (ofNat (S (length (topList st)))) topK) eqn:Egt.
  2:{ split; [exact Hplain|]. right; left. auto. }
  destruct (pop list1) as [[removed list2]|] eqn:Epop.
  2:{ apply pop_None in Epop. rewrite Epop in Hlen. discriminate. }
  apply pop_Some in Epop.
  rewrite Epop in Hnd, Hs, Hk. rewrite map_app in Hnd, Hk. simpl in Hnd, Hk.
  apply NoDup_app in Hnd as (Hnd2 & Hdisj & _).
  apply StronglySorted_app in Hs as (Hrel & Hs2 & _).
  split.
  - constructor; simpl; [|exact Hnd2|exact Hs2].
    intros k. rewrite elem_of_difference, elem_of_union, !elem_of_singleton.
    specialize (Hk k). rewrite elem_of_app, list_elem_of_singleton in Hk.
    split.
    + intros [Hin Hne]. assert (k = keyOf c \/ k ∈ seenKeys st) as Hor by tauto.
      apply Hk in Hor. tauto.
    + intros Hin. split.
      * apply Hk. left. exact Hin.
      * intros ->. apply (Hdisj _ Hin). apply list_elem_of_singleton. reflexivity.
  - right; right. split; [exact Hfresh|]. split; [reflexivity|].
    exists removed, list2.
    split; [exact Epop|]. split; [|reflexivity].
    intros e He. apply bySumDesc_le. apply Hrel; [exact He|].
    apply list_elem_of_singleton. reflexivity.
Qed.

Lemma pushTopK_step (st : state) (c : candidate) (topK : num) :
  collectorOK st -> stepShape st c (pushTopK st c topK).
Proof.
  intros Hok. unfold stepShape. fold (keyOf c). rewrite sortBy_sum.
  destruct (pushTopK_cases st c topK Hok) as
    (_ & [(Hin & E) | [(Hf & _ & E) | (Hf & _ & removed & list2 & E1 & Hmin & E)]]).
  - left. auto.
  - right; left. rewrite E. simpl. auto.
  - right; right. split; [exact Hf|]. exists removed. rewrite E. simpl.
    split; [exact E1|]. split; [exact Hmin|].
    split; [|reflexivity].
    rewrite elem_of_difference, elem_of_singleton. tauto.
Qed.

Lemma pushTopK_ok (st : state) (c : candidate) (topK : num) :
  collectorOK st -> collectorOK (pushTopK st c topK).
Proof. intros H. apply (pushTopK_cases st c topK H). Qed.

(** The length never grows beyond a bound that it respected. *)
Lemma pushTopK_length (st : state) (c : candidate) (topK : num) :
  gtb (ofNat (length (topList st))) topK = false ->
  gtb (ofNat (length (topList (pushTopK st c topK)))) topK = false.
Proof.
  intros Hlen. unfold pushTopK.
  destruct (bool_decide _); [exact Hlen|]. cbv zeta.
  set (list1 := sortBy _ _).
  destruct (gtb (ofNat (length list1)) topK) eqn:E; [|exact E].
  assert (length list1 = S (length (topList st))) as Hl.
  { unfold list1, sortBy. rewrite stableSort_length, length_app. simpl. lia. }
  destruct (pop list1) as [[removed list2]|] eqn:Epop.
  - simpl. apply pop_Some in Epop.
    rewrite Epop, length_app in Hl. simpl in Hl.
    replace (length list2) with (length (topList st)) by lia. exact Hlen.
  - apply pop_None in Epop. rewrite Epop in Hl. discriminate.
Qed.

Lemma offerAll_snoc (K : nat) (pre : list candidate) (c : candidate) :
  offerAll K (pre ++ [c]) = pushTopK (offerAll K pre) c (ofNat K).
Proof. unfold offerAll. rewrite fold_left_app. reflexivity. Qed.

Lemma offerAll_ok (K : nat) (cands : list candidate) :
  collectorOK (offerAll K cands) /\ (length (topList (offerAll K cands)) <= K)%nat.
Proof.
  induction cands as [|c pre [IHok IHlen]] using rev_ind.
  - split; [apply empty_ok | simpl; lia].
  - rewrite offerAll_snoc. split; [apply pushTopK_ok, IHok|].
    apply ofNat_gtb_false, pushTopK_length, ofNat_gtb_false, IHlen.
Qed.

Lemma keyDeterminesSum_prefix (pre : list candidate) (c : candidate) :
  keyDeterminesSum (pre ++ [c]) -> keyDeterminesSum pre.
Proof.
  intros H a b Ha Hb. apply H; apply elem_of_app; left; assumption.
Qed.

(** One more offer keeps the list the best of what was offered. *)
Lemma holdsHighest_step (K : nat) (pre : list candidate) (c : candidate) (st : state) :
  keyDeterminesSum (pre ++ [c]) ->
  collectorOK st -> (length (topList st) <= K)%nat ->
  holdsHighest K pre st ->
  holdsHighest K (pre ++ [c]) (pushTopK st c (ofNat K)).
Proof.
  intros Hkey Hok Hlen [Hfrom Hbest].
  assert (Hc : c ∈ pre ++ [c]) by (apply elem_of_app; right; apply list_elem_of_singleton; reflexivity).
  assert (Hpre : forall d, d ∈ pre -> d ∈ pre ++ [c]) by (intros d Hd; apply elem_of_app; left; exact Hd).
  destruct (pushTopK_cases st c (ofNat K) Hok) as
    (_ & [(Hin & E) | [(Hf & Hgt & E) | (Hf & Hgt & removed & list2 & E1 & Hmin & E)]]);
    rewrite E; clear E.
  - (* a duplicate key *)
    split; [intros e He; apply Hpre, Hfrom, He|].
    intros d Hd. apply elem_of_app in Hd as [Hd|Hd]; [apply Hbest, Hd|].
    apply list_elem_of_singleton in Hd. subst d. left.
    apply (ok_seen st Hok) in Hin. apply elem_of_map in Hin as (e & He & Hein).
    exists e. split; [exact Hein | symmetry; exact He].
  - (* room for one more *)
    apply ofNat_gtb_false in Hgt. simpl.
    split.
    + intros e He. apply stableSort_elem, elem_of_app in He as [He|He].
      * apply Hpre, Hfrom, He.
      * apply list_elem_of_singleton in He. subst e. exact Hc.
    + intros d Hd. left. apply elem_of_app in Hd as [Hd|Hd].
      * destruct (Hbest d Hd) as [(e & He & Hk) | (Hfull & _)]; [|lia].
        exists e. split; [|exact Hk]. apply stableSort_elem, elem_of_app. left. exact He.
      * apply list_elem_of_singleton in Hd. subst d. exists c.
        split; [|reflexivity]. apply stableSort_elem, elem_of_app. right.
        apply list_elem_of_singleton. reflexivity.
  - (* the list was full: the last entry in order leaves *)
    apply ofNat_ltb in Hgt. simpl.
    assert (Hall : forall e, e ∈ list2 ++ [removed] <-> e ∈ topList st \/ e = c).
    { intros e. rewrite <- E1, stableSort_elem, elem_of_app, list_elem_of_singleton.
      reflexivity. }
    assert (Hl2 : length list2 = K).
    { assert (length (list2 ++ [removed]) = S (length (topList st))) as Hl.
      { rewrite <- E1, stableSort_length, length_app. simpl. lia. }
      rewrite length_app in Hl. simpl in Hl. lia. }
    assert (Hoffered : forall e, e ∈ list2 ++ [removed] -> e ∈ pre ++ [c]).
    { intros e He. apply Hall in He as [He| ->]; [apply Hpre, Hfrom, He | exact Hc]. }
    assert (Hrem : removed ∈ list2 ++ [removed])
      by (apply elem_of_app; right; apply list_elem_of_singleton; reflexivity).
    split.
    + intros e He. apply Hoffered, elem_of_app. left. exact He.
    + intros d Hd.
      destruct (decide (keyOf d = keyOf removed)) as [Hsame|Hdiff].
      { right. split; [exact Hl2|]. intros e He.
        assert (sum d == sum removed)%Q as Heq
          by (apply Hkey; [exact Hd | apply Hoffered, Hrem | exact Hsame]).
        specialize (Hmin e He). lra. }
      assert (Hcase : (exists e, e ∈ list2 ++ [removed] /\ keyOf e = keyOf d) \/
                      (length (topList st) = K /\
                       forall e, e ∈ topList st -> (sum d <= sum e)%Q)).
      { apply elem_of_app in Hd as [Hd|Hd].
        - destruct (Hbest d Hd) as [(e & He & Hk) | Hfull]; [left | right; exact Hfull].
          exists e. split; [apply Hall; left; exact He | exact Hk].
        - apply list_elem_of_singleton in Hd. subst d. left. exists c.
          split; [apply Hall; right; reflexivity | reflexivity]. }
      destruct Hcase as [(e & He & Hk) | (Hfull & Hle)].
      * left. exists e. split; [|exact Hk].
        apply elem_of_app in He as [He|He]; [exact He|].
        apply list_elem_of_singleton in He. subst e. congruence.
      * right. split; [exact Hl2|]. intros e He.
        assert (e ∈ topList st \/ e = c) as [Hold| ->]
          by (apply Hall, elem_of_app; left; exact He).
        { apply Hle, Hold. }
        (* the new candidate stays: the one that leaves was in the list *)
        assert (removed ∈ topList st \/ removed = c) as [Hr|Hr] by (apply Hall, Hrem).
        { specialize (Hle removed Hr). specialize (Hmin c He). lra. }
        { subst removed. specialize (Hmin c He).
          (* [c] occurs twice in the sorted array: not with distinct keys *)
          exfalso.
          destruct (pushed_sorted st c Hok Hf) as (_ & Hnd & _ & _).
          rewrite E1, map_app in Hnd. apply NoDup_app in Hnd as (_ & Hdisj & _).
          apply (Hdisj (keyOf c)).
          - apply elem_of_map. exists c. split; [reflexivity | exact He].
          - simpl. apply list_elem_of_singleton. reflexivity. }
Qed.

End TopKFacts.

Section TopKContract.
Import JS TopK Vocabulary.

Lemma keyDeterminesSumb_sound (cands : list candidate) :
  keyDeterminesSumb cands = true -> keyDeterminesSum cands.
Proof.
  unfold keyDeterminesSumb. rewrite forallb_forall.
  intros H c d Hc Hd Hk.
  apply list_elem_of_In in Hc, Hd.
  specialize (H c Hc). rewrite forallb_forall in H. specialize (H d Hd).
  unfold keyOf in H. rewrite bool_decide_eq_true_2 in H by exact Hk.
  simpl in H. apply Qeq_bool_iff. exact H.
Qed.

(** C1, as the code has it. After any sequence of offers with bound [K],
    starting from the empty list and the empty key set: the list holds at
    most [K] entries; no two entries have the same key; the entries are in
    descending order of sum; provided that offers with the same key carry
    the same sum, the entries are offers, and every offer has its key in the
    list unless the list is full with entries of sums at least as large;
    and each single offer either leaves the collector as it is (key already
    seen), or inserts the candidate, or inserts it and then removes the
    entry that is last in descending order, whose key it deletes from the
    set. *)
Theorem offerAll_keeps_highest_distinct (K : nat) (cands : list candidate) :
  let st := offerAll K cands in
  (length (topList st) <= K)%nat /\
  NoDup (map (fun e => makeKey (picked e)) (topList st)) /\
  descending (topList st) /\
  (keyDeterminesSum cands -> holdsHighest K cands st) /\
  (forall pre c post, cands = pre ++ c :: post ->
     stepShape (offerAll K pre) c (offerAll K (pre ++ [c]))).
Proof.
  intros st.
  destruct (offerAll_ok K cands) as [Hok Hlen].
  split; [exact Hlen|].
  split; [exact (ok_nodup _ Hok)|].
  split; [apply sorted_descending, (ok_sorted _ Hok)|].
  split.
  - subst st. clear Hok Hlen.
    induction cands as [|c pre IH] using rev_ind; intros Hkey.
    + split; intros e He; inversion He.
    + rewrite offerAll_snoc.
      destruct (offerAll_ok K pre) as [Hok' Hlen'].
      apply holdsHighest_step; [exact Hkey | exact Hok' | exact Hlen' |].
      apply IH. eapply keyDeterminesSum_prefix, Hkey.
  - intros pre c post _. rewrite offerAll_snoc.
    apply pushTopK_step, offerAll_ok.
Qed.

(** An instance of the fourth part: two offers with distinct keys under the
    bound 1. *)
Lemma offerAll_keeps_highest_distinct_witness :
  keyDeterminesSum plainOffers /\
  holdsHighest 1 plainOffers (offerAll 1 plainOffers).
Proof.
  split.
  - apply keyDeterminesSumb_sound. vm_compute. reflexivity.
  - apply (offerAll_keeps_highest_distinct 1 plainOffers).
    apply keyDeterminesSumb_sound. vm_compute. reflexivity.
Defined.

(** C1, against the claim as stated, on two sequences of offers with
    bound 1. First: the picks P with sum 10, the same picks P with sum 30,
    then the picks Q with sum 20. The second offer is dropped as a duplicate
    and the third evicts the first: the list ends as the single entry of sum
    20, although a candidate of sum 30 was offered and its key is not in the
    list. Second, with sums that are the totals of the picked areas: a
    single pick whose source name contains the separators of the key (sum
    1), two picks that give the same key (sum 3), then another pick (sum 2);
    the list ends as the single entry of sum 2. *)
Lemma offerAll_misses_higher_duplicate :
  (topList (offerAll 1 sameKeyOffers) = [ Candidate 20 pickQ ] /\
   ~ holdsHighest 1 sameKeyOffers (offerAll 1 sameKeyOffers)) /\
  (topList (offerAll 1 separatorOffers) = [ Candidate 2 [ plain 2 "C" "z" ] ] /\
   ~ holdsHighest 1 separatorOffers (offerAll 1 separatorOffers)).
Proof.
  split.
  - assert (E : topList (offerAll 1 sameKeyOffers) = [ Candidate 20 pickQ ])
      by (vm_compute; reflexivity).
    split; [exact E|].
    intros [_ Hbest]. rewrite E in Hbest.
    destruct (Hbest (Candidate 30 pickP)) as [(e & He & Hk) | (_ & Hle)].
    + unfold sameKeyOffers. apply list_elem_of_In. simpl. tauto.
    + apply list_elem_of_singleton in He. subst e. vm_compute in Hk. discriminate.
    + specialize (Hle (Candidate 20 pickQ)).
      assert (30 <= 20)%Q as Habs
        by (apply Hle, list_elem_of_singleton; reflexivity).
      revert Habs. apply Qlt_not_le. reflexivity.
  - assert (E : topList (offerAll 1 separatorOffers) =
                [ Candidate 2 [ plain 2 "C" "z" ] ])
      by (vm_compute; reflexivity).
    split; [exact E|].
    intros [_ Hbest]. rewrite E in Hbest.
    destruct (Hbest (Candidate 3 [ plain 1 "A" "x"; plain 2 "B" "y" ]))
      as [(e & He & Hk) | (_ & Hle)].
    + unfold separatorOffers. apply list_elem_of_In. simpl. tauto.
    + apply list_elem_of_singleton in He. subst e. vm_compute in Hk. discriminate.
    + specialize (Hle (Candidate 2 [ plain 2 "C" "z" ])).
      assert (3 <= 2)%Q as Habs
        by (apply Hle, list_elem_of_singleton; reflexivity).
      revert Habs. apply Qlt_not_le. reflexivity.
Qed.

End TopKContract.

(** ** The business rules of [tryCollect] *)
Section RuleFacts.
Import JS TopK SolverCommon Vocabulary.

Lemma filter_all_false {A} (f : A -> bool) (l : list A) :
  (forall x, x ∈ l -> f x = false) -> List.filter f l = [].
Proof.
  induction l as [|x l IH]; intros H; [reflexivity|].
  simpl. rewrite (H x) by (left). apply IH. intros y Hy. apply H. right. exact Hy.
Qed.

Lemma filter_all_true {A} (f : A -> bool) (l : list A) :
  (forall x, x ∈ l -> f x = true) -> List.filter f l = l.
Proof.
  induction l as [|x l IH]; intros H; [reflexivity|].
  simpl. rewrite (H x) by (left). f_equal. apply IH. intros y Hy. apply H. right. exact Hy.
Qed.

Lemma oneDominant_rejected (d o : Q) (picked : list item) :
  oneDominant d o picked ->
  dominantWithSmallOthers true (Fin d) (Fin o) picked = true.
Proof.
  intros (before & x & after & -> & Hx & Hrest).
  unfold dominantWithSmallOthers.
  assert (Hb : forall y, y ∈ before ++ after ->
               gtb (Fin (area y)) (Fin d) = false /\ leb (Fin (area y)) (Fin d) = true /\
               ltb (Fin (area y)) (Fin o) = true).
  { intros y Hy. destruct (Hrest y Hy) as [H1 H2].
    split; [apply Qltb_ge; exact H1|]. split; [apply leb_Fin; exact H1|].
    apply Qltb_lt; exact H2. }
  assert (Hgx : gtb (Fin (area x)) (Fin d) = true) by (apply gtb_Fin; exact Hx).
  assert (Hlx : leb (Fin (area x)) (Fin d) = false) by (apply Qle_bool_gt; exact Hx).
  assert (Hparts : forall l, (forall y, y ∈ l -> y ∈ before ++ after) ->
            List.filter (fun a => gtb (Fin a) (Fin d)) (map area l) = [] /\
            List.filter (fun a => leb (Fin a) (Fin d)) (map area l) = map area l /\
            forallb (fun a => ltb (Fin a) (Fin o)) (map area l) = true).
  { intros l Hl. split; [|split].
    - apply filter_all_false. intros a Ha. apply elem_of_map in Ha as (y & -> & Hy).
      apply Hb, Hl, Hy.
    - apply filter_all_true. intros a Ha. apply elem_of_map in Ha as (y & -> & Hy).
      apply Hb, Hl, Hy.
    - apply forallb_forall. intros a Ha. apply list_elem_of_In in Ha.
      apply elem_of_map in Ha as (y & -> & Hy). apply Hb, Hl, Hy. }
  destruct (Hparts before) as (B1 & B2 & B3);
    [intros y Hy; apply elem_of_app; left; exact Hy|].
  destruct (Hparts after) as (A1 & A2 & A3);
    [intros y Hy; apply elem_of_app; right; exact Hy|].
  assert (F1 : List.filter (fun a => gtb (Fin a) (Fin d)) (map area (x :: after))
               = [area x])
    by (cbn [List.filter map]; rewrite Hgx, A1; reflexivity).
  assert (F2 : List.filter (fun a => leb (Fin a) (Fin d)) (map area (x :: after))
               = map area after)
    by (cbn [List.filter map]; rewrite Hlx, A2; reflexivity).
  unfold isFinite. cbn [andb].
  rewrite map_app, !List.filter_app, F1, F2, B1, B2.
  cbn [app length Nat.eqb]. rewrite forallb_app, B3, A3. reflexivity.
Qed.

Lemma rule_off (disallowDominant : bool) (dominantMoreThan othersLessThan : num)
    (picked : list item) :
  disallowDominant = false \/ isFinite dominantMoreThan = false \/
  isFinite othersLessThan = false ->
  dominantWithSmallOthers disallowDominant dominantMoreThan othersLessThan picked = false.
Proof.
  unfold dominantWithSmallOthers.
  intros [-> | [-> | ->]]; [reflexivity | |].
  - rewrite andb_false_r. reflexivity.
  - rewrite andb_false_r. reflexivity.
Qed.

(** C7. With the rule enabled and two finite thresholds [d] and [o], a
    combination in which exactly one pick has an area above [d] while every
    other pick has an area below [o] leaves the collector untouched, in both
    revisions of the solver, whatever its sum and sources; so do the picks
    of areas 120, 30 and 20 under the thresholds 100 and 70. With the rule
    disabled, or with a threshold that is no finite number, the rule drops
    no combination: [tryCollect] then acts as it does with the rule off. *)
Theorem anti_dominance_rule :
  (forall targetNum fileAName fileBName topK (d o : Q) st picked sum,
     oneDominant d o picked ->
     Solver.tryCollect targetNum fileAName fileBName topK true (Fin d) (Fin o)
       st picked sum = st /\
     SolverV1.tryCollect targetNum fileBName topK true (Fin d) (Fin o)
       st picked sum = st) /\
  (forall targetNum fileAName fileBName topK st sum,
     Solver.tryCollect targetNum fileAName fileBName topK true (Fin 100) (Fin 70)
       st scenarioD sum = st /\
     SolverV1.tryCollect targetNum fileBName topK true (Fin 100) (Fin 70)
       st scenarioD sum = st) /\
  (forall targetNum fileAName fileBName topK disallowDominant dominantMoreThan
          othersLessThan st picked sum,
     disallowDominant = false \/ isFinite dominantMoreThan = false \/
     isFinite othersLessThan = false ->
     dominantWithSmallOthers disallowDominant dominantMoreThan othersLessThan picked
       = false /\
     Solver.tryCollect targetNum fileAName fileBName topK
       disallowDominant dominantMoreThan othersLessThan st picked sum =
     Solver.tryCollect targetNum fileAName fileBName topK false NaN NaN st picked sum /\
     SolverV1.tryCollect targetNum fileBName topK
       disallowDominant dominantMoreThan othersLessThan st picked sum =
     SolverV1.tryCollect targetNum fileBName topK false NaN NaN st picked sum).
Proof.
  assert (Hrej : forall targetNum fileAName fileBName topK (d o : Q) st picked sum,
     oneDominant d o picked ->
     Solver.tryCollect targetNum fileAName fileBName topK true (Fin d) (Fin o)
       st picked sum = st /\
     SolverV1.tryCollect targetNum fileBName topK true (Fin d) (Fin o)
       st picked sum = st).
  { intros targetNum fileAName fileBName topK d o st picked sum H.
    unfold Solver.tryCollect, SolverV1.tryCollect.
    rewrite (oneDominant_rejected d o picked H).
    split.
    - destruct (gtb _ _); [reflexivity|]. destruct (negb _); [reflexivity|].
      destruct (_ <=? _)%nat; reflexivity.
    - destruct (gtb _ _); [reflexivity|]. destruct (negb _); reflexivity. }
  split; [exact Hrej|]. split.
  - intros. apply Hrej.
    exists [], (plain 120 "A" "xf"), [ plain 30 "B" "qf"; plain 20 "C" "qf" ].
    split; [reflexivity|]. split; [reflexivity|].
    intros y Hy. simpl in Hy.
    apply list_elem_of_In in Hy. simpl in Hy.
    destruct Hy as [<- | [<- | []]]; simpl; split; reflexivity || discriminate.
  - intros targetNum fileAName fileBName topK dd dm ol st picked sum H.
    unfold Solver.tryCollect, SolverV1.tryCollect.
    rewrite (rule_off dd dm ol picked H).
    rewrite (rule_off false NaN NaN picked) by (left; reflexivity).
    auto.
Qed.

(** An instance of the first part: Scenario D offered to the empty
    collector. *)
Lemma anti_dominance_rule_witness :
  oneDominant 100 70 scenarioD /\
  Solver.tryCollect (Fin 200) (str "qf") (str "xf") (Fin 5) true (Fin 100) (Fin 70)
    empty scenarioD (Fin 170) = empty.
Proof.
  assert (H : oneDominant 100 70 scenarioD).
  { exists [], (plain 120 "A" "xf"), [ plain 30 "B" "qf"; plain 20 "C" "qf" ].
    split; [reflexivity|]. split; [reflexivity|].
    intros y Hy. apply list_elem_of_In in Hy. simpl in Hy.
    destruct Hy as [<- | [<- | []]]; simpl; split; reflexivity || discriminate. }
  split; [exact H|].
  apply (proj1 anti_dominance_rule (Fin 200) (str "qf") (str "xf") (Fin 5)
           100%Q 70%Q empty scenarioD (Fin 170) H).
Defined.

End RuleFacts.

(** ** What the enumeration keeps *)
Section SearchInvariant.
Import JS TopK SolverCommon Vocabulary.

Lemma pushTopK_elem (st : state) (c : candidate) (topK : num) (e : candidate) :
  e ∈ topList (pushTopK st c topK) -> e ∈ topList st \/ e = c.
Proof.
  unfold pushTopK. destruct (bool_decide _); [tauto|]. cbv zeta.
  set (list1 := sortBy _ _).
  assert (Hin : forall x, x ∈ list1 -> x ∈ topList st \/ x = c).
  { intros x Hx. apply stableSort_elem, elem_of_app in Hx as [Hx|Hx]; [tauto|].
    apply list_elem_of_singleton in Hx. tauto. }
  destruct (gtb _ _); [|apply Hin].
  destruct (pop list1) as [[removed list2]|] eqn:E; [|apply Hin].
  apply pop_Some in E. simpl. intros He. apply Hin. rewrite E.
  apply elem_of_app. left. exact He.
Qed.

Variable prune : bool.
Variables (candidates : list rawCandidate) (targetNum : num)
  (fileAName fileBName : jsstr) (topK : num)
  (disallowDominant : bool) (dominantMoreThan othersLessThan : num).

Local Abbreviation tryCollect :=
  (Solver.tryCollect targetNum fileAName fileBName topK
     disallowDominant dominantMoreThan othersLessThan).
Local Abbreviation loopB :=
  (Solver.loopB prune candidates targetNum fileAName fileBName topK
     disallowDominant dominantMoreThan othersLessThan).
Local Abbreviation loopA :=
  (Solver.loopA prune candidates targetNum fileAName fileBName topK
     disallowDominant dominantMoreThan othersLessThan).
Local Abbreviation loopY :=
  (Solver.loopY prune targetNum fileAName fileBName topK
     disallowDominant dominantMoreThan othersLessThan).
Local Abbreviation loopJ :=
  (Solver.loopJ prune targetNum fileAName fileBName topK
     disallowDominant dominantMoreThan othersLessThan).
Local Abbreviation loopI :=
  (Solver.loopI prune targetNum fileAName fileBName topK
     disallowDominant dominantMoreThan othersLessThan).
Local Abbreviation enumFour :=
  (Solver.enumFour prune targetNum fileAName fileBName topK
     disallowDominant dominantMoreThan othersLessThan).
Local Abbreviation search :=
  (Solver.search prune candidates targetNum fileAName fileBName topK
     disallowDominant dominantMoreThan othersLessThan).

(** A property of the collector that every call of [tryCollect] keeps is
    kept by the loops, which touch the collector through [tryCollect] only. *)
Section Kept.
Variable P : state -> Prop.
Hypothesis P_collect : forall st picked sum, P st -> P (tryCollect st picked sum).

Lemma loopB_kept (a : item) (n : nat) (st : state) : P st -> P (loopB a n st).
Proof.
  revert st. induction n as [|ib IH]; intros st H; [exact H|].
  cbn [Solver.loopB]. destruct (_ !! ib) as [b|]; [|exact H].
  destruct (gtb _ _); [apply IH, H|].
  destruct (prune && _); [exact H|].
  apply IH. destruct (Bisect.pickBestUnderOrEqual _ _); [apply P_collect, H | exact H].
Qed.

Lemma loopA_kept (n : nat) (st : state) : P st -> P (loopA n st).
Proof.
  revert st. induction n as [|ia IH]; intros st H; [exact H|].
  cbn [Solver.loopA]. destruct (_ !! ia) as [a|]; [|exact H].
  apply IH, loopB_kept, H.
Qed.

Lemma loopY_kept (Y Z : list item) (xi xj : item) (sumXX : num) (n : nat) (st : state) :
  P st -> P (loopY Y Z xi xj sumXX n st).
Proof.
  revert st. induction n as [|iy IH]; intros st H; [exact H|].
  cbn [Solver.loopY]. destruct (_ !! iy) as [y|]; [|exact H].
  destruct (gtb _ _); [apply IH, H|].
  destruct (prune && _); [exact H|].
  apply IH. destruct (Bisect.pickBestUnderOrEqual _ _); [apply P_collect, H | exact H].
Qed.

Lemma loopJ_kept (X Y Z : list item) (xi : item) (n : nat) (st : state) :
  P st -> P (loopJ X Y Z xi n st).
Proof.
  revert st. induction n as [|j IH]; intros st H; [exact H|].
  cbn [Solver.loopJ]. destruct (_ !! j) as [xj|]; [|exact H].
  destruct (gtb _ _); [apply IH, H|].
  apply IH, loopY_kept, H.
Qed.

Lemma loopI_kept (X Y Z : list item) (n : nat) (st : state) :
  P st -> P (loopI X Y Z n st).
Proof.
  revert st. induction n as [|i IH]; intros st H; [exact H|].
  cbn [Solver.loopI]. destruct (_ !! S i) as [xi|]; [|exact H].
  apply IH, loopJ_kept, H.
Qed.

Lemma enumFour_kept (X Y Z : list item) (st : state) : P st -> P (enumFour X Y Z st).
Proof. apply loopI_kept. Qed.

Lemma search_kept : P empty -> P search.
Proof.
  intros H. unfold Solver.search. cbv zeta.
  repeat apply enumFour_kept. unfold Solver.enumThree. apply loopA_kept, H.
Qed.

End Kept.

(** A candidate enters the collector only past the guards of [tryCollect]. *)
Lemma tryCollect_cases (st : state) (picked : list item) (sum : num) :
  tryCollect st picked sum = st \/
  (exists s, sum = Fin s /\
   gtb (Fin s) targetNum = false /\
   hasAtLeastOneFromB fileBName picked = true /\
   (Solver.largeQCount fileAName picked < 2)%nat /\
   dominantWithSmallOthers disallowDominant dominantMoreThan othersLessThan picked
     = false /\
   tryCollect st picked sum = pushTopK st (Candidate s picked) topK).
Proof.
  unfold Solver.tryCollect.
  destruct (gtb _ _) eqn:G; [tauto|].
  destruct (hasAtLeastOneFromB _ _); [|tauto]. simpl negb. cbv iota.
  destruct (2 <=? _)%nat eqn:E; [tauto|]. apply Nat.leb_gt in E.
  destruct (dominantWithSmallOthers _ _ _ _); [tauto|].
  destruct sum as [| | |s]; try (left; reflexivity).
  right. exists s. repeat split; auto.
Qed.

Lemma tryCollect_ok (st : state) (picked : list item) (sum : num) :
  collectorOK st -> collectorOK (tryCollect st picked sum).
Proof.
  intros H.
  destruct (tryCollect_cases st picked sum) as [-> | (s & _ & _ & _ & _ & _ & ->)];
    [exact H | apply pushTopK_ok, H].
Qed.

Lemma search_ok : collectorOK search.
Proof. apply search_kept; [apply tryCollect_ok | apply empty_ok]. Qed.

(** Every entry of the list passed the guards. *)
Lemma search_passedGuards (e : candidate) :
  e ∈ topList search ->
  passedGuards targetNum fileAName fileBName
    disallowDominant dominantMoreThan othersLessThan e.
Proof.
  revert e.
  apply (search_kept (fun st => forall e, e ∈ topList st ->
           passedGuards targetNum fileAName fileBName
             disallowDominant dominantMoreThan othersLessThan e)).
  - intros st picked sum H e He.
    destruct (tryCollect_cases st picked sum) as [E | (s & _ & G1 & G2 & G3 & G4 & E)];
      rewrite E in He; [apply H, He|].
    apply pushTopK_elem in He as [He | ->]; [apply H, He|].
    unfold passedGuards. simpl. auto.
  - intros e He. inversion He.
Qed.

End SearchInvariant.

(** ** Results of the search *)
Section ResultFacts.
Import JS TopK SolverCommon Vocabulary.

Lemma largeQCount_from (fileAName : jsstr) (picked : list item) (acc : nat) :
  fold_left
    (fun acc x =>
       (acc + if bool_decide (srcFile x = fileAName) && Qltb 100 (area x)
              then 1 else 0)%nat) picked acc =
  (acc + length (List.filter
           (fun x => bool_decide (srcFile x = fileAName) && Qltb 100 (area x))
           picked))%nat.
Proof.
  revert acc. induction picked as [|x picked IH]; intros acc; simpl; [lia|].
  rewrite IH. destruct (bool_decide _ && Qltb 100 (area x)); simpl; lia.
Qed.

(** C10. In the current revision, [largeQCount] counts the picks that come
    from file A with an area above 100; a combination with two or more of
    them leaves the collector untouched; hence every result of
    [bestTopKCombos] is the formatted image of a retained candidate in which
    at most one pick is of that kind. The rule has no switch: it is applied
    for every configuration. *)
Theorem at_most_one_large_pick_from_file_A
    (candidates : list rawCandidate) (target : num) (fileAName fileBName : jsstr)
    (topK : num) (disallowDominant : bool) (dominantMoreThan othersLessThan : num) :
  (forall picked,
     Solver.largeQCount fileAName picked =
     length (List.filter
               (fun x => bool_decide (srcFile x = fileAName) && Qltb 100 (area x))
               picked)) /\
  (forall st picked sum,
     (2 <= Solver.largeQCount fileAName picked)%nat ->
     Solver.tryCollect target fileAName fileBName (normalizeTopK topK)
       disallowDominant dominantMoreThan othersLessThan st picked sum = st) /\
  (forall r,
     r ∈ Solver.bestTopKCombos candidates target fileAName fileBName topK
           disallowDominant dominantMoreThan othersLessThan ->
     exists e,
       e ∈ topList (Solver.search true candidates target fileAName fileBName
                      (normalizeTopK topK)
                      disallowDominant dominantMoreThan othersLessThan) /\
       r = Solver.format target fileBName e /\
       (Solver.largeQCount fileAName (picked e) <= 1)%nat).
Proof.
  split; [intros picked; apply (largeQCount_from fileAName picked 0)|].
  split.
  - intros st picked sum H. unfold Solver.tryCollect.
    destruct (gtb _ _); [reflexivity|]. destruct (negb _); [reflexivity|].
    apply Nat.leb_le in H. rewrite H. reflexivity.
  - intros r Hr. unfold Solver.bestTopKCombos, Solver.searchResults in Hr.
    destruct (anyEmpty _); [inversion Hr|].
    apply elem_of_map in Hr as (e & -> & He).
    exists e. split; [exact He|]. split; [reflexivity|].
    pose proof (search_passedGuards _ _ _ _ _ _ _ _ _ e He) as (_ & _ & Hq & _).
    lia.
Qed.

(** An instance of the second part: two picks above 100 from file A. *)
Lemma at_most_one_large_pick_from_file_A_witness :
  (2 <= Solver.largeQCount (str "qf") twoLargeFromA)%nat /\
  Solver.tryCollect (Fin 300) (str "qf") (str "xf") (normalizeTopK (Fin 5))
    false NaN NaN empty twoLargeFromA (Fin 250) = empty.
Proof.
  split; [vm_compute; lia|].
  apply (at_most_one_large_pick_from_file_A [] (Fin 300) (str "qf") (str "xf") (Fin 5)
           false NaN NaN).
  vm_compute. lia.
Defined.

Lemma anyEmpty_true (g : groups) :
  gA g = [] \/ gB g = [] \/ gC g = [] -> anyEmpty g = true.
Proof.
  unfold anyEmpty. intros [-> | [-> | ->]]; [reflexivity | |].
  - destruct (gA g); reflexivity.
  - destruct (gA g); [reflexivity|]. destruct (gB g); reflexivity.
Qed.

(** C5. For every input: when one of the three groups is empty, be it
    before or after the items above the target are removed, the current
    [bestTopKCombos] returns the empty array; so does the first revision
    when one of its groups is empty. The function has no error exit, and the
    empty array is returned ahead of the enumeration, whose collector is not
    consulted. *)
Theorem empty_group_gives_empty_result
    (candidates : list rawCandidate) (target : num) (fileAName fileBName : jsstr)
    (topK : num) (disallowDominant : bool) (dominantMoreThan othersLessThan : num) :
  (let g := Solver.byType candidates target fileAName fileBName in
   gA g = [] \/ gB g = [] \/ gC g = [] ->
   Solver.bestTopKCombos candidates target fileAName fileBName topK
     disallowDominant dominantMoreThan othersLessThan = []) /\
  (let g := groupAndSort (Solver.items candidates fileAName fileBName) in
   gA g = [] \/ gB g = [] \/ gC g = [] ->
   Solver.bestTopKCombos candidates target fileAName fileBName topK
     disallowDominant dominantMoreThan othersLessThan = []) /\
  (let g := SolverV1.byType candidates fileAName fileBName in
   gA g = [] \/ gB g = [] \/ gC g = [] ->
   SolverV1.bestTopKCombos candidates target fileAName fileBName topK
     disallowDominant dominantMoreThan othersLessThan = []).
Proof.
  split; [|split]; cbv zeta; intros H.
  - unfold Solver.bestTopKCombos, Solver.searchResults.
    rewrite (anyEmpty_true _ H). reflexivity.
  - unfold Solver.bestTopKCombos, Solver.searchResults.
    rewrite anyEmpty_true; [reflexivity|].
    unfold Solver.byType. cbv zeta. cbn [gA gB gC].
    destruct H as [H | [H | H]]; rewrite H; auto.
  - unfold SolverV1.bestTopKCombos, SolverV1.searchResults.
    rewrite (anyEmpty_true _ H). reflexivity.
Qed.

(** An instance of the first part: a pool without C-item. *)
Lemma empty_group_gives_empty_result_witness :
  (let g := Solver.byType noCRows (Fin 40) Data.FILE_A_NAME Data.FILE_B_NAME in
   gA g = [] \/ gB g = [] \/ gC g = []) /\
  Solver.bestTopKCombos noCRows
    (Fin 40) Data.FILE_A_NAME Data.FILE_B_NAME (Fin 5) false NaN NaN = [].
Proof.
  split.
  - right; right. reflexivity.
  - apply (empty_group_gives_empty_result noCRows
             (Fin 40) Data.FILE_A_NAME Data.FILE_B_NAME (Fin 5) false NaN NaN).
    right; right. reflexivity.
Defined.

(** C8, as the code has it. On Scenario A (target 40, bound 5, rule off),
    whatever the sources of the four rows other than the B-item, the search
    returns two results: the combination of areas 20, 5, 8 with sum 33 and
    gap 7, then the combination of areas 10, 5, 8 with sum 23 and gap 17. *)
Theorem scenarioA_two_results (b1 b2 b4 b5 : bool) :
  map outline
    (Solver.bestTopKCombos (scenarioA b1 b2 b4 b5) (Fin 40)
       Data.FILE_A_NAME Data.FILE_B_NAME (Fin 5) false NaN NaN) =
  [ ([20; 5; 8], 33, Fin 7); ([10; 5; 8], 23, Fin 17) ]%Q.
Proof.
  destruct b1, b2, b4, b5; vm_compute; reflexivity.
Qed.

(** C8, against the claim as stated: with the four other rows from file A
    the search returns two results, not one. *)
Lemma scenarioA_not_a_single_result :
  length (Solver.bestTopKCombos (scenarioA false false false false) (Fin 40)
            Data.FILE_A_NAME Data.FILE_B_NAME (Fin 5) false NaN NaN) = 2%nat /\
  map outline
    (Solver.bestTopKCombos (scenarioA false false false false) (Fin 40)
       Data.FILE_A_NAME Data.FILE_B_NAME (Fin 5) false NaN NaN) <>
  [ ([20; 5; 8], 33, Fin 7) ]%Q.
Proof.
  split; [vm_compute; reflexivity|]. vm_compute. discriminate.
Qed.

(** C2, at the failing input. The three rows add up to the target
    3.0078125; the combination is retained, its sum is reported as 3.007813,
    above the target, and its gap as -0.000001. *)
Theorem halfway_sum_negative_gap :
  map outline
    (Solver.bestTopKCombos halfwayRows (Fin 3.0078125)
       Data.FILE_A_NAME Data.FILE_B_NAME (Fin 10) false NaN NaN) =
  [ ([1.0078125; 1; 1], 3.007813, Fin (-0.000001)) ]%Q /\
  ltb (Fin (-0.000001)) (Fin 0) = true.
Proof.
  split; vm_compute; reflexivity.
Qed.

End ResultFacts.

(** ** Groups *)
Section GroupFacts.
Import JS TopK SolverCommon Vocabulary.

Lemma buildItem_positive (fileAName fileBName : jsstr) (a : num) (t s : value)
    (c b r d : option jsstr) (x : item) :
  buildItem fileAName fileBName a t s c b r d = Some x -> (0 < area x)%Q.
Proof.
  unfold buildItem. destruct a as [| | |q]; try discriminate.
  destruct (Qle_bool q 0) eqn:E; [discriminate|]. apply Qle_bool_gt in E.
  destruct (Normalize.normalizeType t) as [ty|]; [|discriminate].
  destruct (negb (isABC ty)); [discriminate|].
  destruct s; try discriminate.
  destruct (_ && _); [discriminate|].
  intros [= <-]. exact E.
Qed.

Lemma items_positive (candidates : list rawCandidate) (fileAName fileBName : jsstr)
    (x : item) :
  x ∈ Solver.items candidates fileAName fileBName -> (0 < area x)%Q.
Proof.
  unfold Solver.items. intros H. apply list_elem_of_omap in H as (it & _ & H).
  destruct it; try discriminate; simpl in H; eapply buildItem_positive; exact H.
Qed.


Lemma pushByType_elem (items : list item) (g : groups) (x : item) :
  inGroups (fold_left pushByType items g) x -> x ∈ items \/ inGroups g x.
Proof.
  revert g. induction items as [|y items IH]; intros g H; [right; exact H|].
  simpl in H. apply IH in H as [H|H]; [left; right; exact H|].
  unfold pushByType, inGroups in H.
  destruct (bool_decide (type y = str "A")); [|destruct (bool_decide (type y = str "B"))];
    simpl in H; rewrite elem_of_app, list_elem_of_singleton in H;
    unfold inGroups; destruct H as [H | [H | H]];
    try (right; tauto); try (destruct H as [H | ->]; [right; tauto | left; left]).
Qed.

Lemma groupAndSort_elem (items : list item) (x : item) :
  inGroups (groupAndSort items) x -> x ∈ items.
Proof.
  unfold groupAndSort, inGroups, sortByArea, sortBy. cbv zeta. cbn [gA gB gC].
  rewrite !stableSort_elem. intros H.
  apply pushByType_elem in H as [H|H]; [exact H|].
  unfold inGroups in H. simpl in H.
  destruct H as [H | [H | H]]; inversion H.
Qed.


Lemma byAreaAsc_le (p q : item) : byAreaAsc p q = true <-> (area p <= area q)%Q.
Proof. unfold byAreaAsc. rewrite Qle_bool_iff. split; intros; lra. Qed.

Lemma sortByArea_sorted (l : list item) :
  StronglySorted (fun p q => byAreaAsc p q = true) (sortByArea l).
Proof.
  change (sortByArea l) with (stableSort byAreaAsc l).
  apply (stableSort_sorted byAreaAsc).
  - intros p q. rewrite !byAreaAsc_le.
    destruct (Qlt_le_dec (area q) (area p)); [right | left]; lra.
  - intros p q r. rewrite !byAreaAsc_le. intros; lra.
Qed.

Lemma StronglySorted_filter_list {A} (R : A -> A -> Prop) (f : A -> bool) (l : list A) :
  StronglySorted R l -> StronglySorted R (List.filter f l).
Proof.
  induction 1 as [|a l Hs IH Ha]; simpl; [constructor|].
  destruct (f a); [|exact IH]. constructor; [exact IH|].
  rewrite Forall_forall in *. intros x Hx. apply Ha.
  apply list_elem_of_In. apply list_elem_of_In in Hx.
  apply filter_In in Hx. tauto.
Qed.

Lemma sorted_ascending (l : list item) :
  StronglySorted (fun p q => byAreaAsc p q = true) l -> ascending l.
Proof.
  intros Hs i j x y Hi Hj Hij.
  destruct (decide (i = j)) as [->|Hne].
  - rewrite Hi in Hj. injection Hj as <-. lra.
  - apply byAreaAsc_le.
    apply (StronglySorted_lookup _ l Hs i j); [assumption | assumption | lia].
Qed.

(** The groups of both revisions are ascending by area. *)
Lemma byType_ascending (candidates : list rawCandidate) (targetNum : num)
    (fileAName fileBName : jsstr) :
  let g := Solver.byType candidates targetNum fileAName fileBName in
  ascending (gA g) /\ ascending (gB g) /\ ascending (gC g).
Proof.
  unfold Solver.byType, Solver.underTarget, groupAndSort. cbv zeta. cbn [gA gB gC].
  repeat split; apply sorted_ascending, StronglySorted_filter_list, sortByArea_sorted.
Qed.

Lemma byType_positive (candidates : list rawCandidate) (targetNum : num)
    (fileAName fileBName : jsstr) (x : item) :
  inGroups (Solver.byType candidates targetNum fileAName fileBName) x ->
  (0 < area x)%Q /\ leb (Fin (area x)) targetNum = true.
Proof.
  unfold Solver.byType, inGroups, Solver.underTarget. cbv zeta. cbn [gA gB gC].
  rewrite !list_elem_of_In, !filter_In, <- !list_elem_of_In. intros H.
  split; [|tauto].
  apply (items_positive candidates fileAName fileBName), groupAndSort_elem.
  unfold inGroups. tauto.
Qed.

End GroupFacts.

(** ** The first revision under a target that admits nothing *)
Section FirstRevisionFacts.
Import JS TopK SolverCommon Vocabulary.

Variables (candidates : list rawCandidate) (targetNum : num)
  (fileAName fileBName : jsstr) (topK : num)
  (disallowDominant : bool) (dominantMoreThan othersLessThan : num).

Local Abbreviation byType1 := (SolverV1.byType candidates fileAName fileBName).

Lemma items1_positive (x : item) :
  x ∈ SolverV1.items candidates fileAName fileBName -> (0 < area x)%Q.
Proof.
  unfold SolverV1.items. intros H. apply list_elem_of_omap in H as (it & _ & H).
  destruct it; try discriminate; simpl in H; eapply buildItem_positive; exact H.
Qed.

Lemma byType1_positive (x : item) : inGroups byType1 x -> (0 < area x)%Q.
Proof. intros H. apply items1_positive, groupAndSort_elem, H. Qed.

Lemma byType1_ascending :
  ascending (gA byType1) /\ ascending (gB byType1) /\ ascending (gC byType1).
Proof.
  unfold SolverV1.byType, groupAndSort. cbv zeta. cbn [gA gB gC].
  repeat split; apply sorted_ascending, sortByArea_sorted.
Qed.

Lemma pick_NaN (arr : list item) (r : num) :
  ascending arr -> Bisect.pickBestUnderOrEqual arr (sub NaN r) = None.
Proof.
  intros Hasc. pose proof (pickBestUnderOrEqual_cases arr (sub NaN r) Hasc) as H.
  destruct (Bisect.pickBestUnderOrEqual arr (sub NaN r)); [|reflexivity].
  destruct H as (_ & H & _). discriminate.
Qed.

(** Nothing fits a budget that is NaN or not above zero. *)
Lemma pick_nothing (arr : list item) (r : num) :
  ascending arr -> (forall x, x ∈ arr -> (0 < area x)%Q) ->
  r = NaN \/ leb r (Fin 0) = true ->
  Bisect.pickBestUnderOrEqual arr r = None.
Proof.
  intros Hasc Hpos Hr.
  pose proof (pickBestUnderOrEqual_cases arr r Hasc) as H.
  destruct (Bisect.pickBestUnderOrEqual arr r) as [x|]; [|reflexivity].
  destruct H as (Hx & Hle & _). exfalso.
  destruct Hr as [-> | Hr]; [discriminate|].
  pose proof (leb_trans _ _ _ Hle Hr) as H0. simpl in H0.
  apply Qle_bool_iff in H0. specialize (Hpos x Hx). lra.
Qed.

(** What a partial sum that is not below zero leads to under a target
    that admits nothing. *)
Lemma closing_idle (A : Type) (Z : list item) (p : num) (st : A) (collect : item -> A) :
  ascending Z -> (forall x, x ∈ Z -> (0 < area x)%Q) ->
  targetNum = NaN \/ leb targetNum (Fin 0) = true ->
  leb (Fin 0) p = true ->
  (if gtb p targetNum then st
   else match Bisect.pickBestUnderOrEqual Z (sub targetNum p) with
        | Some z => collect z
        | None => st
        end) = st.
Proof.
  intros HZ HP Hbad Hp.
  destruct (nothing_to_spend targetNum p Hbad Hp) as [-> | Hr]; [reflexivity|].
  destruct (gtb p targetNum); [reflexivity|].
  now rewrite (pick_nothing Z _ HZ HP Hr).
Qed.

Lemma fold_left_idle {A B} (f : A -> B -> A) (l : list B) (a : A) :
  (forall x, x ∈ l -> f a x = a) -> fold_left f l a = a.
Proof.
  induction l as [|y l IH]; intros H; [reflexivity|].
  simpl. rewrite (H y) by left. apply IH. intros x Hx. apply H. right. exact Hx.
Qed.

Hypothesis bad_target : targetNum = NaN \/ leb targetNum (Fin 0) = true.

Lemma closeThree_idle (a b : item) (st : state) :
  (0 < area a)%Q -> (0 < area b)%Q ->
  SolverV1.closeThree candidates targetNum fileAName fileBName topK
    disallowDominant dominantMoreThan othersLessThan a b st = st.
Proof.
  intros Ha Hb. unfold SolverV1.closeThree. cbv zeta.
  apply closing_idle; [apply byType1_ascending| |exact bad_target|].
  - intros x Hx. apply byType1_positive. right; right. exact Hx.
  - apply number_nonneg. lra.
Qed.

Lemma closeFour_idle (Z : list item) (xi xj y : item) (sumXX : num) (st : state) :
  ascending Z -> (forall x, x ∈ Z -> (0 < area x)%Q) ->
  leb (Fin 0) sumXX = true -> (0 < area y)%Q ->
  SolverV1.closeFour targetNum fileBName topK
    disallowDominant dominantMoreThan othersLessThan Z xi xj sumXX y st = st.
Proof.
  intros HZ HP Hs Hy. unfold SolverV1.closeFour. cbv zeta.
  apply closing_idle; [exact HZ|exact HP|exact bad_target|].
  apply add_nonneg; [exact Hs|lra].
Qed.

Lemma enumFour1_idle (X Y Z : list item) (st : state) :
  (forall x, x ∈ X -> (0 < area x)%Q) -> (forall y, y ∈ Y -> (0 < area y)%Q) ->
  ascending Z -> (forall x, x ∈ Z -> (0 < area x)%Q) ->
  SolverV1.enumFour targetNum fileBName topK
    disallowDominant dominantMoreThan othersLessThan X Y Z st = st.
Proof.
  intros HX HY HZ PZ. induction X as [|xi rest IH]; [reflexivity|].
  cbn [SolverV1.enumFour].
  rewrite fold_left_idle.
  - apply IH. intros x Hx. apply HX. right. exact Hx.
  - intros xj Hxj. unfold SolverV1.pairThen. cbv zeta.
    destruct (gtb _ _); [reflexivity|].
    apply fold_left_idle. intros y Hy.
    apply closeFour_idle; [exact HZ | exact PZ | | apply HY, Hy].
    assert (0 < area xi)%Q by (apply HX; left).
    assert (0 < area xj)%Q by (apply HX; right; exact Hxj).
    apply number_nonneg. lra.
Qed.

Lemma search1_idle :
  SolverV1.search candidates targetNum fileAName fileBName topK
    disallowDominant dominantMoreThan othersLessThan = empty.
Proof.
  destruct byType1_ascending as (HA & HB & HC).
  assert (PA : forall x, x ∈ gA byType1 -> (0 < area x)%Q)
    by (intros x Hx; apply byType1_positive; left; exact Hx).
  assert (PB : forall x, x ∈ gB byType1 -> (0 < area x)%Q)
    by (intros x Hx; apply byType1_positive; right; left; exact Hx).
  assert (PC : forall x, x ∈ gC byType1 -> (0 < area x)%Q)
    by (intros x Hx; apply byType1_positive; right; right; exact Hx).
  unfold SolverV1.search. cbv zeta.
  assert (E3 : SolverV1.enumThree candidates targetNum fileAName fileBName topK
                 disallowDominant dominantMoreThan othersLessThan empty = empty).
  { unfold SolverV1.enumThree. apply fold_left_idle. intros a Ha.
    apply fold_left_idle. intros b Hb. apply closeThree_idle; [apply PA, Ha | apply PB, Hb]. }
  rewrite E3. rewrite !enumFour1_idle; auto.
Qed.

End FirstRevisionFacts.

(** ** Input validation *)
Section ValidationFacts.
Import JS TopK SolverCommon Vocabulary Server.

Lemma normalizeTopK_clamp (topK : num) :
  topK = NaN \/ ltb topK (Fin 1) = true -> normalizeTopK topK = Fin 1.
Proof.
  intros [-> | H]; [reflexivity|].
  destruct topK as [| | |q]; try discriminate; [reflexivity|].
  simpl in H. apply Qltb_lt in H.
  unfold normalizeTopK, or, truthy.
  destruct (Qeq_bool q 0); [reflexivity|]. cbn [negb floor max].
  replace (leb (Fin 1) (Fin (inject_Z (Qfloor q)))) with false; [reflexivity|].
  symmetry. apply Qle_bool_gt.
  pose proof (Qfloor_le q). lra.
Qed.

(** C6, as the code has it. The /solve handler answers a target that is no
    finite number or is not above zero with status 400 and the error text,
    whatever the data layer would load and whatever a worker would do: no
    search is started. The bound is
    not validated anywhere: a [topK] that is NaN or below 1 makes both
    revisions of [bestTopKCombos] search with the bound 1. Called directly
    with a target that is NaN or not above zero, the current
    [bestTopKCombos] returns the empty array. *)
Theorem invalid_target_rejected_topK_clamped :
  (forall (passed : Type) (loadCandidates : num -> passed -> list rawCandidate)
          disallowDominant dominantMoreThan othersLessThan
          target giftArea qTopK cfgTopK (opts : passed) settled,
     isFinite target = false \/ leb target (Fin 0) = true ->
     handleSolve passed loadCandidates disallowDominant dominantMoreThan othersLessThan
       target giftArea qTopK cfgTopK opts settled =
     Response 400 (ErrorBody invalidTarget)) /\
  (forall candidates target fileAName fileBName topK
          disallowDominant dominantMoreThan othersLessThan,
     topK = NaN \/ ltb topK (Fin 1) = true ->
     Solver.bestTopKCombos candidates target fileAName fileBName topK
       disallowDominant dominantMoreThan othersLessThan =
     Solver.bestTopKCombos candidates target fileAName fileBName (Fin 1)
       disallowDominant dominantMoreThan othersLessThan /\
     SolverV1.bestTopKCombos candidates target fileAName fileBName topK
       disallowDominant dominantMoreThan othersLessThan =
     SolverV1.bestTopKCombos candidates target fileAName fileBName (Fin 1)
       disallowDominant dominantMoreThan othersLessThan) /\
  (forall candidates target fileAName fileBName topK
          disallowDominant dominantMoreThan othersLessThan,
     target = NaN \/ leb target (Fin 0) = true ->
     Solver.bestTopKCombos candidates target fileAName fileBName topK
       disallowDominant dominantMoreThan othersLessThan = [] /\
     SolverV1.bestTopKCombos candidates target fileAName fileBName topK
       disallowDominant dominantMoreThan othersLessThan = []).
Proof.
  split; [|split].
  - intros passed load dd dm ol target gift qTopK cfgTopK opts settled H.
    unfold handleSolve.
    destruct H as [H | H]; rewrite H; [reflexivity|].
    rewrite orb_true_r. reflexivity.
  - intros candidates target fileAName fileBName topK dd dm ol H.
    unfold Solver.bestTopKCombos, SolverV1.bestTopKCombos.
    rewrite (normalizeTopK_clamp topK H). split; reflexivity.
  - intros candidates target fileAName fileBName topK dd dm ol H.
    split.
    2:{ unfold SolverV1.bestTopKCombos, SolverV1.searchResults.
        rewrite search1_idle by exact H. destruct (anyEmpty _); reflexivity. }
    unfold Solver.bestTopKCombos, Solver.searchResults.
    rewrite anyEmpty_true; [reflexivity|]. left.
    destruct (gA (Solver.byType candidates target fileAName fileBName)) as [|x l] eqn:E;
      [reflexivity|]. exfalso.
    destruct (byType_positive candidates target fileAName fileBName x) as [Hpos Hle].
    { left. rewrite E. left. }
    destruct H as [-> | H]; [discriminate|].
    destruct target as [| | |q]; try discriminate.
    simpl in Hle, H. apply Qle_bool_iff in Hle, H. lra.
Qed.

(** An instance of the first part: a request whose target is NaN. *)
Lemma invalid_target_rejected_topK_clamped_witness :
  (isFinite NaN = false \/ leb NaN (Fin 0) = true) /\
  handleSolve unit (fun _ _ => scenarioA false false false false) false NaN NaN
    NaN (Fin 0) (Some (Fin 5)) None tt Fulfilled =
  Response 400 (ErrorBody invalidTarget).
Proof.
  split; [left; reflexivity|].
  apply (proj1 invalid_target_rejected_topK_clamped unit
           (fun _ _ => scenarioA false false false false) false NaN NaN
           NaN (Fin 0) (Some (Fin 5)) None tt Fulfilled).
  left. reflexivity.
Defined.

(** C6, against the claim as stated: a request with target 40 and bound 0
    is not refused. When the worker delivers, it is answered with status
    200 and the best combination of Scenario A, as the search with bound 1
    finds it. *)
Lemma topK_zero_is_served :
  exists results,
    handleSolve unit (fun _ _ => scenarioA false false false false) false NaN NaN
      (Fin 40) (Fin 0) (Some (Fin 0)) None tt Fulfilled =
    Response 200 (ResultsBody results) /\
    map outline results = [ ([20; 5; 8], 33, Fin 7) ]%Q.
Proof.
  eexists. split; [reflexivity|]. vm_compute. reflexivity.
Qed.

End ValidationFacts.

(** ** The upper-bound cut *)
Section CutFacts.
Import JS TopK SolverCommon Vocabulary.

Lemma full_then_over (topK : num) (n : nat) :
  geb (ofNat n) topK = true -> gtb (ofNat (S n)) topK = true.
Proof.
  unfold geb, gtb, ofNat. destruct topK as [| | |q]; simpl; try discriminate; [reflexivity|].
  intros H. apply Qle_bool_iff in H. apply Qltb_lt.
  assert (inject_Z (Z.of_nat n) < inject_Z (Z.of_nat (S n)))%Q
    by (rewrite <- Zlt_Qlt; lia).
  lra.
Qed.

(** Rounded addition keeps the order, in either operand. *)
Lemma add_mono_r (p : num) (a b : Q) :
  (a <= b)%Q -> p <> NaN -> leb (add p (Fin a)) (add p (Fin b)) = true.
Proof.
  intros H Hp. destruct p as [| | |r]; try reflexivity; [congruence|].
  simpl. apply number_mono. lra.
Qed.

Lemma leb_add_mono (p p' m : num) (w : Q) :
  leb p' p = true -> leb (add p m) (Fin w) = true ->
  leb (add p' m) (Fin w) = true.
Proof.
  destruct p as [| | |a], p' as [| | |a'], m as [| | |c]; simpl;
    intros H1 H2; try discriminate; try reflexivity.
  apply Qle_bool_iff in H1.
  apply (leb_trans _ (number (a + c))); [|exact H2].
  apply number_mono. lra.
Qed.

(** When the test of the cut holds for a row, it holds for a smaller row
    in its place. *)
Lemma cut_carries (p : num) (a a' : Q) (m : num) (w : Q) :
  (a' <= a)%Q ->
  leb (add (add p (Fin a)) m) (Fin w) = true ->
  leb (add (add p (Fin a')) m) (Fin w) = true.
Proof.
  intros Ha H. apply (leb_add_mono (add p (Fin a))); [|exact H].
  apply add_mono_r; [exact Ha|]. intros ->. discriminate.
Qed.

(** The last entry of an ordered list has the least sum. *)
Lemma worst_is_least (l : list candidate) (worst e : candidate) :
  StronglySorted (fun a b => bySumDesc a b = true) l ->
  last l = Some worst -> e ∈ l -> (sum worst <= sum e)%Q.
Proof.
  intros Hs Hl He. apply last_snoc_inv in Hl as [r ->].
  apply elem_of_app in He as [He|He].
  - apply bySumDesc_le.
    apply (StronglySorted_app_1_elem_of (fun a b => bySumDesc a b = true)
             r [worst] e worst Hs He).
    apply list_elem_of_singleton. reflexivity.
  - apply list_elem_of_singleton in He. subst e. lra.
Qed.

(** On a full list, a candidate whose sum does not exceed the sum of the
    last entry changes nothing: it is a duplicate, or it is pushed, stays
    last in the stable order and is removed again together with its key. *)
Lemma pushTopK_no_gain (st : state) (c worst : candidate) (topK : num) :
  collectorOK st ->
  geb (ofNat (length (topList st))) topK = true ->
  last (topList st) = Some worst ->
  (sum c <= sum worst)%Q ->
  pushTopK st c topK = st.
Proof.
  intros Hok Hfull Hlast Hle.
  destruct (decide (keyOf c ∈ seenKeys st)) as [Hin|Hfresh];
    [apply pushTopK_dup, Hin|].
  rewrite pushTopK_fresh by exact Hfresh. cbv zeta.
  assert (Hsorted : StronglySorted (fun a b => bySumDesc a b = true) (topList st ++ [c])).
  { apply StronglySorted_app_2.
    - intros e x He Hx. apply list_elem_of_singleton in Hx. subst x.
      apply bySumDesc_le.
      pose proof (worst_is_least _ worst e (ok_sorted _ Hok) Hlast He). lra.
    - apply (ok_sorted _ Hok).
    - constructor; constructor. }
  rewrite (stableSort_id bySumDesc _ Hsorted).
  rewrite length_app. simpl length.
  replace (length (topList st) + 1)%nat with (S (length (topList st))) by lia.
  rewrite (full_then_over topK _ Hfull), pop_snoc.
  destruct st as [l seen]. simpl in *. f_equal.
  apply set_eq. intros k.
  rewrite elem_of_difference, elem_of_union, !elem_of_singleton.
  split; [tauto|]. intros Hk. split; [tauto|]. intros ->. contradiction.
Qed.

Variables (candidates : list rawCandidate) (targetNum : num)
  (fileAName fileBName : jsstr) (topK : num)
  (disallowDominant : bool) (dominantMoreThan othersLessThan : num).

Local Abbreviation tryCollect :=
  (Solver.tryCollect targetNum fileAName fileBName topK
     disallowDominant dominantMoreThan othersLessThan).
Local Abbreviation byType := (Solver.byType candidates targetNum fileAName fileBName).
Local Abbreviation loopB prune :=
  (Solver.loopB prune candidates targetNum fileAName fileBName topK
     disallowDominant dominantMoreThan othersLessThan).
Local Abbreviation loopA prune :=
  (Solver.loopA prune candidates targetNum fileAName fileBName topK
     disallowDominant dominantMoreThan othersLessThan).
Local Abbreviation loopY prune :=
  (Solver.loopY prune targetNum fileAName fileBName topK
     disallowDominant dominantMoreThan othersLessThan).
Local Abbreviation loopJ prune :=
  (Solver.loopJ prune targetNum fileAName fileBName topK
     disallowDominant dominantMoreThan othersLessThan).
Local Abbreviation loopI prune :=
  (Solver.loopI prune targetNum fileAName fileBName topK
     disallowDominant dominantMoreThan othersLessThan).
Local Abbreviation enumFour prune :=
  (Solver.enumFour prune targetNum fileAName fileBName topK
     disallowDominant dominantMoreThan othersLessThan).
Local Abbreviation search prune :=
  (Solver.search prune candidates targetNum fileAName fileBName topK
     disallowDominant dominantMoreThan othersLessThan).

Lemma tryCollect_no_gain (st : state) (picked : list item) (sum0 : num)
    (worst : candidate) :
  collectorOK st ->
  geb (ofNat (length (topList st))) topK = true ->
  last (topList st) = Some worst ->
  leb sum0 (Fin (sum worst)) = true ->
  tryCollect st picked sum0 = st.
Proof.
  intros Hok Hfull Hlast Hle.
  destruct (tryCollect_cases targetNum fileAName fileBName topK
              disallowDominant dominantMoreThan othersLessThan st picked sum0)
    as [E | (s & -> & _ & _ & _ & _ & E)]; [exact E|].
  rewrite E. apply (pushTopK_no_gain st _ worst topK); try assumption.
  now apply Qle_bool_iff.
Qed.

Lemma cannotImprove_true (st : state) (partial : num) (maxArea : num) :
  Solver.cannotImprove topK st partial maxArea = true ->
  exists worst,
    geb (ofNat (length (topList st))) topK = true /\
    last (topList st) = Some worst /\
    leb (add partial maxArea) (Fin (sum worst)) = true.
Proof.
  unfold Solver.cannotImprove.
  destruct (geb _ _); [|discriminate].
  destruct (last (topList st)) as [worst|]; [|discriminate].
  intros H. exists worst. auto.
Qed.

(** No pick of an ascending group has a larger area than its last item. *)
Lemma closing_within_max (Z : list item) (r : num) (z : item) (p : num) (w : Q) :
  ascending Z ->
  Bisect.pickBestUnderOrEqual Z r = Some z ->
  leb (add p (Solver.maxAreaOf Z)) (Fin w) = true ->
  leb (add p (Fin (area z))) (Fin w) = true.
Proof.
  intros Hasc Hpick Hle.
  pose proof (pickBestUnderOrEqual_cases Z r Hasc) as Hc. rewrite Hpick in Hc.
  destruct Hc as (Hin & _ & _).
  apply list_elem_of_lookup in Hin as [i Hi].
  unfold Solver.maxAreaOf in Hle. rewrite last_lookup in Hle.
  destruct (Z !! Nat.pred (length Z)) as [zl|] eqn:El.
  - assert (area z <= area zl)%Q.
    { apply (Hasc i (Nat.pred (length Z)) z zl Hi El).
      apply lookup_lt_Some in Hi. lia. }
    apply (leb_trans _ (add p (Fin (area zl)))); [|exact Hle].
    apply add_mono_r; [assumption|]. intros ->. discriminate.
  - apply lookup_ge_None in El. apply lookup_lt_Some in Hi. lia.
Qed.

(** After the test of the cut has held, the rest of the loop on [b], run
    without the cut, leaves the collector as it is. *)
Lemma loopB_rest_idle (a : item) (n : nat) (st : state) (worst : candidate) :
  collectorOK st ->
  geb (ofNat (length (topList st))) topK = true ->
  last (topList st) = Some worst ->
  (forall i b, (i < n)%nat -> gB byType !! i = Some b ->
     leb (add (add (Fin (area a)) (Fin (area b))) (Solver.maxAreaOf (gC byType)))
       (Fin (sum worst)) = true) ->
  loopB false a n st = st.
Proof.
  intros Hok Hfull Hlast. induction n as [|ib IH]; intros Hbound; [reflexivity|].
  cbn [Solver.loopB]. destruct (gB byType !! ib) as [b|] eqn:Eb; [|reflexivity].
  assert (IH' : loopB false a ib st = st) by (apply IH; intros i b' Hi; apply Hbound; lia).
  destruct (gtb _ _); [exact IH'|]. cbn [andb].
  destruct (Bisect.pickBestUnderOrEqual _ _) as [c|] eqn:Ec; [|exact IH'].
  rewrite (tryCollect_no_gain st _ _ worst Hok Hfull Hlast); [exact IH'|].
  eapply closing_within_max; [|exact Ec|].
  - apply (byType_ascending candidates targetNum fileAName fileBName).
  - apply (Hbound ib b); [lia | exact Eb].
Qed.

Lemma loopB_cut (a : item) (n : nat) (st : state) :
  collectorOK st -> loopB true a n st = loopB false a n st.
Proof.
  revert st. induction n as [|ib IH]; intros st Hok; [reflexivity|].
  cbn [Solver.loopB]. destruct (gB byType !! ib) as [b|] eqn:Eb; [|reflexivity].
  destruct (gtb _ _); [apply IH, Hok|]. cbn [andb].
  destruct (Solver.cannotImprove topK st (add (Fin (area a)) (Fin (area b)))
              (Solver.maxAreaOf (gC byType))) eqn:Ecut.
  - apply cannotImprove_true in Ecut as (worst & Hfull & Hlast & Hle).
    symmetry.
    assert (Hidle : loopB false a ib st = st).
    { apply (loopB_rest_idle a ib st worst Hok Hfull Hlast).
      intros i b' Hi Hb'. apply (cut_carries _ (area b)); [|exact Hle].
      destruct (byType_ascending candidates targetNum fileAName fileBName)
        as (_ & HB & _).
      apply (HB i ib b' b Hb' Eb). lia. }
    destruct (Bisect.pickBestUnderOrEqual _ _) as [c|] eqn:Ec; [|exact Hidle].
    rewrite (tryCollect_no_gain st _ _ worst Hok Hfull Hlast); [exact Hidle|].
    eapply closing_within_max; [|exact Ec|exact Hle].
    apply (byType_ascending candidates targetNum fileAName fileBName).
  - apply IH. destruct (Bisect.pickBestUnderOrEqual _ _); [|exact Hok].
    apply tryCollect_ok, Hok.
Qed.

Lemma loopB_ok (prune : bool) (a : item) (n : nat) (st : state) :
  collectorOK st -> collectorOK (loopB prune a n st).
Proof. apply loopB_kept. intros. apply tryCollect_ok. assumption. Qed.

Lemma loopA_cut (n : nat) (st : state) :
  collectorOK st -> loopA true n st = loopA false n st.
Proof.
  revert st. induction n as [|ia IH]; intros st Hok; [reflexivity|].
  cbn [Solver.loopA]. destruct (gA byType !! ia) as [a|]; [|reflexivity].
  rewrite IH by (apply loopB_ok, Hok). rewrite loopB_cut by exact Hok. reflexivity.
Qed.

Section Four.
Variables (X Y Z : list item).
Hypothesis Y_ascending : ascending Y.
Hypothesis Z_ascending : ascending Z.

Lemma loopY_rest_idle (xi xj : item) (sumXX : num) (n : nat) (st : state)
    (worst : candidate) :
  collectorOK st ->
  geb (ofNat (length (topList st))) topK = true ->
  last (topList st) = Some worst ->
  (forall i y, (i < n)%nat -> Y !! i = Some y ->
     leb (add (add sumXX (Fin (area y))) (Solver.maxAreaOf Z)) (Fin (sum worst)) = true) ->
  loopY false Y Z xi xj sumXX n st = st.
Proof.
  intros Hok Hfull Hlast. induction n as [|iy IH]; intros Hbound; [reflexivity|].
  cbn [Solver.loopY]. destruct (Y !! iy) as [y|] eqn:Ey; [|reflexivity].
  assert (IH' : loopY false Y Z xi xj sumXX iy st = st)
    by (apply IH; intros i y' Hi; apply Hbound; lia).
  destruct (gtb _ _); [exact IH'|]. cbn [andb].
  destruct (Bisect.pickBestUnderOrEqual _ _) as [z|] eqn:Ez; [|exact IH'].
  rewrite (tryCollect_no_gain st _ _ worst Hok Hfull Hlast); [exact IH'|].
  eapply closing_within_max; [exact Z_ascending | exact Ez |].
  apply (Hbound iy y); [lia | exact Ey].
Qed.

Lemma loopY_cut (xi xj : item) (sumXX : num) (n : nat) (st : state) :
  collectorOK st ->
  loopY true Y Z xi xj sumXX n st = loopY false Y Z xi xj sumXX n st.
Proof.
  revert st. induction n as [|iy IH]; intros st Hok; [reflexivity|].
  cbn [Solver.loopY]. destruct (Y !! iy) as [y|] eqn:Ey; [|reflexivity].
  destruct (gtb _ _); [apply IH, Hok|]. cbn [andb].
  destruct (Solver.cannotImprove topK st (add sumXX (Fin (area y)))
              (Solver.maxAreaOf Z)) eqn:Ecut.
  - apply cannotImprove_true in Ecut as (worst & Hfull & Hlast & Hle).
    symmetry.
    assert (Hidle : loopY false Y Z xi xj sumXX iy st = st).
    { apply (loopY_rest_idle xi xj sumXX iy st worst Hok Hfull Hlast).
      intros i y' Hi Hy'. apply (cut_carries _ (area y)); [|exact Hle].
      apply (Y_ascending i iy y' y Hy' Ey). lia. }
    destruct (Bisect.pickBestUnderOrEqual _ _) as [z|] eqn:Ez; [|exact Hidle].
    rewrite (tryCollect_no_gain st _ _ worst Hok Hfull Hlast); [exact Hidle|].
    eapply closing_within_max; [exact Z_ascending | exact Ez | exact Hle].
  - apply IH. destruct (Bisect.pickBestUnderOrEqual _ _); [|exact Hok].
    apply tryCollect_ok, Hok.
Qed.

Lemma loopY_ok (prune : bool) (xi xj : item) (sumXX : num) (n : nat) (st : state) :
  collectorOK st -> collectorOK (loopY prune Y Z xi xj sumXX n st).
Proof. apply loopY_kept. intros. apply tryCollect_ok. assumption. Qed.

Lemma loopJ_cut (xi : item) (n : nat) (st : state) :
  collectorOK st -> loopJ true X Y Z xi n st = loopJ false X Y Z xi n st.
Proof.
  revert st. induction n as [|j IH]; intros st Hok; [reflexivity|].
  cbn [Solver.loopJ]. destruct (X !! j) as [xj|]; [|reflexivity].
  destruct (gtb _ _); [apply IH, Hok|].
  rewrite IH by (apply loopY_ok, Hok). rewrite loopY_cut by exact Hok. reflexivity.
Qed.

Lemma loopJ_ok (prune : bool) (xi : item) (n : nat) (st : state) :
  collectorOK st -> collectorOK (loopJ prune X Y Z xi n st).
Proof. apply loopJ_kept. intros. apply tryCollect_ok. assumption. Qed.

Lemma loopI_cut (n : nat) (st : state) :
  collectorOK st -> loopI true X Y Z n st = loopI false X Y Z n st.
Proof.
  revert st. induction n as [|i IH]; intros st Hok; [reflexivity|].
  cbn [Solver.loopI]. destruct (X !! S i) as [xi|]; [|reflexivity].
  rewrite IH by (apply loopJ_ok, Hok). rewrite loopJ_cut by exact Hok. reflexivity.
Qed.

Lemma enumFour_cut (st : state) :
  collectorOK st -> enumFour true X Y Z st = enumFour false X Y Z st.
Proof. apply loopI_cut. Qed.

End Four.

Lemma enumFour_ok (prune : bool) (X Y Z : list item) (st : state) :
  collectorOK st -> collectorOK (enumFour prune X Y Z st).
Proof. apply enumFour_kept. intros. apply tryCollect_ok. assumption. Qed.

Lemma search_cut : search true = search false.
Proof.
  destruct (byType_ascending candidates targetNum fileAName fileBName)
    as (HA & HB & HC).
  assert (H0 : Solver.enumThree true candidates targetNum fileAName fileBName topK
                 disallowDominant dominantMoreThan othersLessThan empty =
               Solver.enumThree false candidates targetNum fileAName fileBName topK
                 disallowDominant dominantMoreThan othersLessThan empty)
    by (unfold Solver.enumThree; apply loopA_cut, empty_ok).
  assert (Hok0 : collectorOK
            (Solver.enumThree false candidates targetNum fileAName fileBName topK
               disallowDominant dominantMoreThan othersLessThan empty)).
  { unfold Solver.enumThree. apply loopA_kept; [|apply empty_ok].
    intros. apply tryCollect_ok. assumption. }
  unfold Solver.search. cbv zeta. rewrite H0.
  rewrite (enumFour_cut (gA byType) (gB byType) (gC byType) HB HC) by exact Hok0.
  rewrite (enumFour_cut (gB byType) (gA byType) (gC byType) HA HC)
    by (apply enumFour_ok, Hok0).
  rewrite (enumFour_cut (gC byType) (gA byType) (gB byType) HA HB)
    by (apply enumFour_ok, enumFour_ok, Hok0).
  reflexivity.
Qed.

End CutFacts.

(** ** The budget, before and after rounding *)
Section BudgetFacts.
Import JS TopK SolverCommon Vocabulary.

Lemma roundHalfUp6_near (q : Q) :
  (q - (1 # 2000000) < roundHalfUp6 q)%Q /\ (roundHalfUp6 q <= q + (1 # 2000000))%Q.
Proof.
  unfold roundHalfUp6. rewrite Qred_correct.
  set (y := (q * 1000000 + (1 # 2))%Q).
  pose proof (Qfloor_le y) as Hlo. pose proof (Qlt_floor y) as Hhi.
  rewrite inject_Z_plus in Hhi. change (inject_Z 1) with 1%Q in Hhi.
  set (f := inject_Z (Qfloor y)) in *.
  unfold Qdiv. change (/ 1000000)%Q with (1 # 1000000)%Q.
  subst y. split; lra.
Qed.

Lemma toFixed6Q_near (q : Q) :
  (q - (1 # 2000000) <= toFixed6Q q)%Q /\ (toFixed6Q q <= q + (1 # 2000000))%Q.
Proof.
  unfold toFixed6Q. destruct (Qltb q 0).
  - rewrite Qred_correct. destruct (roundHalfUp6_near (- q)). split; lra.
  - destruct (roundHalfUp6_near q). split; lra.
Qed.

End BudgetFacts.

(** * Further properties *)

Section InsertionPoint.
Import JS Bisect Vocabulary.

Lemma filter_split_at {A} (f : A -> bool) (l : list A) (pos : nat) :
  (forall i x, (i < pos)%nat -> l !! i = Some x -> f x = true) ->
  (forall i x, (pos <= i)%nat -> l !! i = Some x -> f x = false) ->
  List.filter f l = take pos l /\ List.filter (fun x => negb (f x)) l = drop pos l.
Proof.
  revert pos. induction l as [|x l IH]; intros pos Hlo Hhi.
  - now rewrite take_nil, drop_nil.
  - destruct pos as [|pos]; cbn [List.filter take drop].
    + rewrite (Hhi 0%nat x); [|lia|reflexivity]. cbn [negb].
      destruct (IH 0%nat) as [E1 E2].
      * intros; lia.
      * intros i y _ Hy. apply (Hhi (S i) y); [lia|exact Hy].
      * rewrite E1, E2. now rewrite take_0, drop_0.
    + rewrite (Hlo 0%nat x); [|lia|reflexivity]. cbn [negb].
      destruct (IH pos) as [E1 E2].
      * intros i y Hi Hy. apply (Hlo (S i) y); [lia|exact Hy].
      * intros i y Hi Hy. apply (Hhi (S i) y); [lia|exact Hy].
      * now rewrite E1, E2.
Qed.

(** X1 (bisectRightByArea). On an array in ascending order of area the
    binary search ends, and the index it returns is the insertion point on
    the right of [maxArea]: the rows before it are exactly the rows whose
    area is within [maxArea], the rows from it on are exactly the rows
    above, so the index is the number of rows within [maxArea]. *)
Theorem bisectRightByArea_insertion_point (arr : list item) (maxArea : num) :
  ascending arr ->
  exists pos, bisectRightByArea arr maxArea = Some pos /\
    take pos arr = List.filter (fun x => leb (Fin (area x)) maxArea) arr /\
    drop pos arr = List.filter (fun x => negb (leb (Fin (area x)) maxArea)) arr /\
    pos = length (List.filter (fun x => leb (Fin (area x)) maxArea) arr).
Proof.
  intros Hasc.
  destruct (bisectRightByArea_spec arr maxArea Hasc) as (pos & Hpos & Hlen & Hlo & Hhi).
  exists pos. split; [exact Hpos|].
  destruct (filter_split_at (fun x => leb (Fin (area x)) maxArea) arr pos Hlo Hhi)
    as [E1 E2].
  rewrite E1, E2. repeat split.
  rewrite length_take. lia.
Qed.

Lemma bisectRightByArea_insertion_point_witness :
  ascending sampleGroup /\
  exists pos, bisectRightByArea sampleGroup (Fin 15) = Some pos /\
    take pos sampleGroup =
      List.filter (fun x => leb (Fin (area x)) (Fin 15)) sampleGroup /\
    drop pos sampleGroup =
      List.filter (fun x => negb (leb (Fin (area x)) (Fin 15))) sampleGroup /\
    pos = length (List.filter (fun x => leb (Fin (area x)) (Fin 15)) sampleGroup).
Proof.
  assert (H : ascending sampleGroup) by (apply ascendingb_sound; reflexivity).
  split; [exact H|].
  exact (bisectRightByArea_insertion_point sampleGroup (Fin 15) H).
Defined.

End InsertionPoint.

Section KeyFacts.
Import JS TopK Vocabulary.

Lemma strLeb_refl (s : jsstr) : strLeb s s = true.
Proof.
  induction s as [|a s IH]; [reflexivity|].
  cbn [strLeb]. now rewrite N.ltb_irrefl.
Qed.

Lemma strLeb_total (s t : jsstr) : strLeb s t = true \/ strLeb t s = true.
Proof.
  revert t. induction s as [|a s IH]; intros [|b t]; cbn [strLeb]; auto.
  destruct (N.ltb_spec a b) as [Hab|Hab]; [now left|].
  destruct (N.ltb_spec b a) as [Hba|Hba]; [now right|].
  apply IH.
Qed.

Lemma strLeb_antisym (s t : jsstr) : strLeb s t = true -> strLeb t s = true -> s = t.
Proof.
  revert t. induction s as [|a s IH]; intros [|b t]; cbn [strLeb]; try discriminate;
    [reflexivity|].
  destruct (N.ltb_spec a b) as [Hab|Hab].
  - destruct (N.ltb_spec b a); [lia|discriminate].
  - destruct (N.ltb_spec b a) as [Hba|Hba]; [discriminate|].
    intros H1 H2. assert (a = b) by lia. subst. f_equal. now apply IH.
Qed.

Lemma strLeb_trans (s t u : jsstr) :
  strLeb s t = true -> strLeb t u = true -> strLeb s u = true.
Proof.
  revert t u. induction s as [|a s IH]; intros [|b t] [|c u]; cbn [strLeb];
    try discriminate; auto.
  destruct (N.ltb_spec a b) as [Hab|Hab].
  - intros _. destruct (N.ltb_spec b c) as [Hbc|Hbc].
    + intros _. destruct (N.ltb_spec a c); [reflexivity|lia].
    + destruct (N.ltb_spec c b) as [Hcb|Hcb]; [discriminate|].
      intros _. destruct (N.ltb_spec a c); [reflexivity|lia].
  - destruct (N.ltb_spec b a) as [Hba|Hba]; [discriminate|].
    intros Hst. destruct (N.ltb_spec b c) as [Hbc|Hbc].
    + intros _. destruct (N.ltb_spec a c); [reflexivity|lia].
    + destruct (N.ltb_spec c b) as [Hcb|Hcb]; [discriminate|].
      intros Htu. destruct (N.ltb_spec a c); [reflexivity|].
      destruct (N.ltb_spec c a); [lia|].
      exact (IH t u Hst Htu).
Qed.

(** Two arrays in the order of an antisymmetric comparison that hold the
    same elements are the same array. *)
Lemma sorted_perm_eq {A} (le : A -> A -> bool) (l1 l2 : list A) :
  (forall a b, le a b = true -> le b a = true -> a = b) ->
  StronglySorted (fun a b => le a b = true) l1 ->
  StronglySorted (fun a b => le a b = true) l2 ->
  l1 ≡ₚ l2 -> l1 = l2.
Proof.
  intros Hanti. revert l2. induction l1 as [|x l1 IH]; intros l2 H1 H2 Hp.
  - now apply Permutation_nil in Hp.
  - destruct l2 as [|y l2]; [now apply Permutation_sym, Permutation_nil in Hp|].
    apply StronglySorted_inv in H1 as [H1 Hx].
    apply StronglySorted_inv in H2 as [H2 Hy].
    rewrite Forall_forall in Hx, Hy.
    assert (x = y) as ->.
    { assert (Hxin : x ∈ y :: l2) by (rewrite <- Hp; apply elem_of_cons; now left).
      assert (Hyin : y ∈ x :: l1) by (rewrite Hp; apply elem_of_cons; now left).
      apply elem_of_cons in Hxin as [->|Hxin]; [reflexivity|].
      apply elem_of_cons in Hyin as [->|Hyin]; [reflexivity|].
      apply Hanti; [apply Hx|apply Hy]; assumption. }
    f_equal. apply IH; auto. now apply Permutation_cons_inv in Hp.
Qed.

Lemma sortDefault_perm (l1 l2 : list jsstr) :
  l1 ≡ₚ l2 -> sortDefault l1 = sortDefault l2.
Proof.
  intros Hp. apply (sorted_perm_eq strLeb).
  - exact strLeb_antisym.
  - apply stableSort_sorted; [exact strLeb_total|exact strLeb_trans].
  - apply stableSort_sorted; [exact strLeb_total|exact strLeb_trans].
  - unfold sortDefault. now rewrite !stableSort_perm.
Qed.

(** X2 (makeKey). The identity key does not depend on the order of the
    picks: two pick lists that are rearrangements of each other have the
    same key. *)
Theorem makeKey_ignores_pick_order (picked1 picked2 : list item) :
  picked1 ≡ₚ picked2 -> makeKey picked1 = makeKey picked2.
Proof.
  intros Hp. unfold makeKey. f_equal. apply sortDefault_perm.
  now apply Permutation_map.
Qed.

Lemma makeKey_ignores_pick_order_witness :
  [ plain 20 "A" "q"; plain 5 "B" "x"; plain 8 "C" "q" ] ≡ₚ
  [ plain 8 "C" "q"; plain 20 "A" "q"; plain 5 "B" "x" ] /\
  makeKey [ plain 20 "A" "q"; plain 5 "B" "x"; plain 8 "C" "q" ] =
  makeKey [ plain 8 "C" "q"; plain 20 "A" "q"; plain 5 "B" "x" ].
Proof.
  assert (H : [ plain 20 "A" "q"; plain 5 "B" "x"; plain 8 "C" "q" ] ≡ₚ
              [ plain 8 "C" "q"; plain 20 "A" "q"; plain 5 "B" "x" ]).
  { apply Permutation_sym. apply (Permutation_cons_app [_; _] []). reflexivity. }
  split; [exact H|].
  exact (makeKey_ignores_pick_order _ _ H).
Defined.

End KeyFacts.

Section CanonicalType.
Import JS Normalize Vocabulary.

Lemma letterOf_values (c : N) (L : jsstr) :
  letterOf c = Some L -> L = str "A" \/ L = str "B" \/ L = str "C" \/ L = str "D".
Proof.
  unfold letterOf.
  repeat match goal with |- context [if ?b then _ else _] => destruct b end;
    intros [= <-]; auto.
Qed.

(** X3 (normalizeType). What the normalizer returns is canonical: it is
    one of the four letters A, B, C, D, and the normalizer maps it to
    itself. *)
Theorem normalizeType_result_is_canonical (t : value) (L : jsstr) :
  normalizeType t = Some L ->
  (L = str "A" \/ L = str "B" \/ L = str "C" \/ L = str "D") /\
  normalizeType (VString L) = Some L.
Proof.
  intros H.
  assert (HL : L = str "A" \/ L = str "B" \/ L = str "C" \/ L = str "D").
  { unfold normalizeType in H. destruct t as [| | | |s|]; try discriminate.
    unfold matchType in H.
    destruct (trim s) as [|c [|d [|? ?]]]; try discriminate.
    - pose proof (isABCD_letterOf c) as E. destruct (isABCD c); [|discriminate].
      injection H as <-. now apply (letterOf_values c).
    - pose proof (isABCD_letterOf c) as E.
      destruct (isABCD c); [|discriminate]. cbn [andb] in H.
      destruct (d =? lei)%N; [|discriminate].
      injection H as <-. now apply (letterOf_values c). }
  split; [exact HL|].
  destruct HL as [ -> | [ -> | [ -> | -> ] ] ]; reflexivity.
Qed.

Lemma normalizeType_result_is_canonical_witness :
  normalizeType (VString (str " b" ++ [lei])) = Some (str "B") /\
  normalizeType (VString (str "B")) = Some (str "B").
Proof.
  assert (H : normalizeType (VString (str " b" ++ [lei])) = Some (str "B"))
    by reflexivity.
  split; [exact H|].
  exact (proj2 (normalizeType_result_is_canonical _ _ H)).
Defined.

End CanonicalType.

Section StableInsertion.
Import JS.
Context {A : Type} (le : A -> A -> bool).
Hypothesis le_trans : forall a b c, le a b = true -> le b c = true -> le a c = true.

Local Abbreviation sorted := (StronglySorted (fun a b => le a b = true)).

Lemma insertSorted_least (y : A) (l : list A) :
  (forall z, z ∈ l -> le y z = true) -> insertSorted le y l = y :: l.
Proof.
  destruct l as [|z l]; [reflexivity|]. intros H. cbn [insertSorted].
  rewrite H; [reflexivity|]. apply elem_of_cons. now left.
Qed.

Lemma sorted_head_least (y : A) (l : list A) :
  sorted (y :: l) -> forall z, z ∈ l -> le y z = true.
Proof.
  intros H z Hz. apply StronglySorted_inv in H as [_ H].
  rewrite Forall_forall in H. now apply H.
Qed.

(** An element that goes before none of the array is put in front. *)
Lemma stableSort_snoc_front (l : list A) (c : A) :
  sorted l -> (forall z, z ∈ l -> le z c = false) ->
  stableSort le (l ++ [c]) = c :: l.
Proof.
  induction l as [|z l IH]; intros Hs Hc; [reflexivity|].
  change (stableSort le ((z :: l) ++ [c]))
    with (insertSorted le z (stableSort le (l ++ [c]))).
  rewrite IH.
  - cbn [insertSorted]. rewrite Hc by (apply elem_of_cons; now left).
    f_equal. apply insertSorted_least. now apply sorted_head_least.
  - now apply StronglySorted_inv in Hs.
  - intros w Hw. apply Hc. apply elem_of_cons. now right.
Qed.

(** Where [sort] puts an element pushed at the end of a sorted array. *)
Lemma stableSort_snoc_cons (y : A) (l : list A) (c : A) :
  sorted (y :: l) ->
  stableSort le ((y :: l) ++ [c]) =
  if le y c then y :: stableSort le (l ++ [c]) else c :: y :: l.
Proof.
  intros Hs.
  change (stableSort le ((y :: l) ++ [c]))
    with (insertSorted le y (stableSort le (l ++ [c]))).
  destruct (le y c) eqn:Hyc.
  - apply insertSorted_least. intros z Hz.
    apply stableSort_elem, elem_of_app in Hz as [Hz|Hz].
    + now apply (sorted_head_least y l).
    + apply list_elem_of_singleton in Hz. now subst.
  - rewrite stableSort_snoc_front.
    + cbn [insertSorted]. rewrite Hyc. f_equal.
      apply insertSorted_least. now apply sorted_head_least.
    + now apply StronglySorted_inv in Hs.
    + intros z Hz. destruct (le z c) eqn:Hzc; [|reflexivity].
      rewrite (le_trans y z c) in Hyc; [discriminate| |exact Hzc].
      now apply (sorted_head_least y l).
Qed.

(** The sort is stable: the array keeps its order around the new element. *)
Lemma stableSort_snoc_split (l : list A) (c : A) :
  sorted l ->
  exists l1 l2, l = l1 ++ l2 /\ stableSort le (l ++ [c]) = l1 ++ c :: l2.
Proof.
  induction l as [|y l IH]; intros Hs.
  - exists [], []. split; reflexivity.
  - rewrite (stableSort_snoc_cons y l c Hs). destruct (le y c).
    + destruct IH as (l1 & l2 & E1 & E2); [now apply StronglySorted_inv in Hs|].
      exists (y :: l1), l2. rewrite E2. split; [now rewrite E1|reflexivity].
    + exists [], (y :: l). split; reflexivity.
Qed.

Lemma sorted_take (l : list A) (n : nat) : sorted l -> sorted (take n l).
Proof.
  intros H. rewrite <- (take_drop n l) in H.
  now apply StronglySorted_app in H as (_ & H & _).
Qed.

(** The first [K] places after a push depend on the first [K] places
    before it only. *)
Lemma take_stableSort_snoc (l : list A) (c : A) :
  sorted l ->
  forall K, take K (stableSort le (take K l ++ [c])) = take K (stableSort le (l ++ [c])).
Proof.
  induction l as [|y l IH]; intros Hs K.
  - now rewrite take_nil.
  - destruct K as [|K]; [reflexivity|].
    cbn [take].
    change (((y :: take K l) ++ [c])) with ((y :: take K l) ++ [c]).
    rewrite (stableSort_snoc_cons y (take K l) c).
    2:{ apply (sorted_take (y :: l) (S K)) in Hs. exact Hs. }
    rewrite (stableSort_snoc_cons y l c Hs).
    destruct (le y c).
    + cbn [take]. f_equal. apply IH. now apply StronglySorted_inv in Hs.
    + cbn [take]. f_equal. destruct K as [|K]; [reflexivity|].
      cbn [take]. f_equal. rewrite take_take. f_equal. lia.
Qed.

End StableInsertion.

Section CollectorLaws.
Import JS TopK Vocabulary.

Lemma keyOf_inj_in (l : list candidate) (a b : candidate) :
  NoDup (map keyOf l) -> a ∈ l -> b ∈ l -> keyOf a = keyOf b -> a = b.
Proof.
  induction l as [|x l IH]; intros Hnd Ha Hb E; [inversion Ha|].
  cbn [map] in Hnd. apply NoDup_cons in Hnd as [Hx Hnd].
  apply elem_of_cons in Ha as [->|Ha]; apply elem_of_cons in Hb as [->|Hb].
  - reflexivity.
  - exfalso. apply Hx. rewrite E. apply elem_of_map. now exists b.
  - exfalso. apply Hx. rewrite <- E. apply elem_of_map. now exists a.
  - now apply IH.
Qed.

Lemma state_eta (st : state) : State (topList st) (seenKeys st) = st.
Proof. now destruct st. Qed.

Lemma put_and_take_out (k : list N) (seen : gset (list N)) :
  k ∉ seen -> ({[ k ]} ∪ seen) ∖ {[ k ]} = seen.
Proof.
  intros Hk. apply set_eq. intros x.
  rewrite elem_of_difference, elem_of_union, !elem_of_singleton.
  split; [tauto|]. intros Hx. split; [tauto|]. intros ->. contradiction.
Qed.

(** A candidate that is pushed and evicted at once leaves the collector
    as it was. *)
Lemma evicted_at_once (st : state) (c : candidate) (list2 : list candidate) :
  collectorOK st -> keyOf c ∉ seenKeys st ->
  stableSort bySumDesc (topList st ++ [c]) = list2 ++ [c] ->
  list2 = topList st.
Proof.
  intros Hok Hfresh E.
  destruct (pushed_sorted st c Hok Hfresh) as (_ & Hnd & _ & _).
  destruct (stableSort_snoc_split bySumDesc bySumDesc_trans (topList st) c
              (ok_sorted st Hok)) as (l1 & l2 & E1 & E2).
  rewrite E2 in E, Hnd.
  apply NoDup_fmap_1 in Hnd.
  destruct l2 as [|w l2] using rev_ind.
  - apply app_inj_tail in E as [-> _]. now rewrite E1, app_nil_r.
  - exfalso. clear IHl2.
    change (l1 ++ c :: l2 ++ [w]) with (l1 ++ (c :: l2) ++ [w]) in E.
    rewrite app_assoc in E. apply app_inj_tail in E as [_ ->].
    apply NoDup_app in Hnd as (_ & _ & Hnd).
    apply NoDup_cons in Hnd as [Hc _]. apply Hc.
    apply elem_of_app. right. now apply list_elem_of_singleton.
Qed.

(** X4 (pushTopK). Offering a candidate a second time right after the
    first changes nothing, whether the first offer was dropped as a
    duplicate, kept, or pushed and evicted at once. *)
Theorem pushTopK_second_offer_is_idle (st : state) (c : candidate) (topK : num) :
  collectorOK st ->
  pushTopK (pushTopK st c topK) c topK = pushTopK st c topK.
Proof.
  intros Hok.
  destruct (pushTopK_cases st c topK Hok) as
    (_ & [(Hin & E) | [(Hf & _ & E) | (Hf & _ & removed & list2 & E1 & _ & E)]]).
  - rewrite E. exact E.
  - rewrite E. apply pushTopK_dup. cbn [seenKeys].
    apply elem_of_union. left. now apply elem_of_singleton.
  - destruct (decide (keyOf removed = keyOf c)) as [Ek|Hne].
    + assert (removed = c) as ->.
      { destruct (pushed_sorted st c Hok Hf) as (Hp & Hnd & _ & _).
        apply (keyOf_inj_in _ _ _ Hnd); [| |exact Ek].
        - rewrite E1. apply elem_of_app. right. now apply list_elem_of_singleton.
        - rewrite Hp. apply elem_of_app. right. now apply list_elem_of_singleton. }
      assert (pushTopK st c topK = st) as Est.
      { rewrite E, (evicted_at_once st c list2 Hok Hf E1), put_and_take_out by exact Hf.
        apply state_eta. }
      rewrite Est. exact Est.
    + rewrite E. apply pushTopK_dup. cbn [seenKeys].
      rewrite elem_of_difference, elem_of_union, !elem_of_singleton.
      split; [now left|]. congruence.
Qed.

Lemma pushTopK_second_offer_is_idle_witness :
  collectorOK (offerAll 1 [Candidate 20 pickQ]) /\
  pushTopK (pushTopK (offerAll 1 [Candidate 20 pickQ]) (Candidate 10 pickP) (Fin 1))
    (Candidate 10 pickP) (Fin 1) =
  pushTopK (offerAll 1 [Candidate 20 pickQ]) (Candidate 10 pickP) (Fin 1).
Proof.
  assert (H : collectorOK (offerAll 1 [Candidate 20 pickQ])) by apply offerAll_ok.
  split; [exact H|].
  exact (pushTopK_second_offer_is_idle _ (Candidate 10 pickP) (Fin 1) H).
Defined.

(** The list after the offer of a fresh key under a bound that was
    respected so far. *)
Lemma pushTopK_fresh_take (st : state) (c : candidate) (K : nat) :
  keyOf c ∉ seenKeys st -> (length (topList st) <= K)%nat ->
  topList (pushTopK st c (ofNat K)) =
  take K (stableSort bySumDesc (topList st ++ [c])).
Proof.
  intros Hf Hlen. rewrite pushTopK_fresh by exact Hf. cbv zeta.
  set (list1 := stableSort bySumDesc (topList st ++ [c])).
  assert (Hl : length list1 = S (length (topList st))).
  { unfold list1. rewrite stableSort_length, length_app. cbn. lia. }
  destruct (gtb (ofNat (length list1)) (ofNat K)) eqn:Egt.
  - apply ofNat_ltb in Egt.
    destruct (pop list1) as [[removed list2]|] eqn:Epop.
    + apply pop_Some in Epop. cbn [topList]. rewrite Epop.
      rewrite Epop, length_app in Egt, Hl. cbn in Egt, Hl.
      rewrite take_app_length'; [reflexivity|lia].
    + apply pop_None in Epop. rewrite Epop in Hl. discriminate.
  - apply ofNat_gtb_false in Egt. cbn [topList].
    now rewrite take_ge by exact Egt.
Qed.

Lemma offerAll_offered (K : nat) (cands : list candidate) (e : candidate) :
  e ∈ topList (offerAll K cands) -> e ∈ cands.
Proof.
  induction cands as [|c pre IH] using rev_ind.
  - intros H. inversion H.
  - rewrite offerAll_snoc. intros H.
    apply pushTopK_elem in H as [H| ->]; apply elem_of_app.
    + left. now apply IH.
    + right. now apply list_elem_of_singleton.
Qed.

(** X5 (pushTopK). When candidates with the same key carry the same sum,
    a smaller bound gives a prefix: the list kept under the bound [K] is
    the first [K] entries of the list kept under any larger bound on the
    same offers. *)
Theorem smaller_bound_keeps_a_prefix (K K' : nat) (cands : list candidate) :
  (K <= K')%nat -> keyDeterminesSum cands ->
  topList (offerAll K cands) = take K (topList (offerAll K' cands)).
Proof.
  intros HK. induction cands as [|c pre IH] using rev_ind; intros Hkey.
  - unfold offerAll. cbn. now rewrite take_nil.
  - specialize (IH (keyDeterminesSum_prefix pre c Hkey)).
    rewrite !offerAll_snoc.
    destruct (offerAll_ok K pre) as [Hok Hlen].
    destruct (offerAll_ok K' pre) as [Hok' Hlen'].
    set (s := offerAll K pre) in *. set (s' := offerAll K' pre) in *.
    assert (Hsub : forall k, k ∈ seenKeys s -> k ∈ seenKeys s').
    { intros k Hk. apply (ok_seen s' Hok'). apply (ok_seen s Hok) in Hk.
      rewrite IH in Hk. apply elem_of_map in Hk as (e & -> & He).
      apply elem_of_map. exists e. split; [reflexivity|].
      rewrite <- (take_drop K (topList s')). apply elem_of_app. now left. }
    destruct (decide (keyOf c ∈ seenKeys s')) as [Hin'|Hf'].
    + rewrite (pushTopK_dup s' c _ Hin').
      destruct (decide (keyOf c ∈ seenKeys s)) as [Hin|Hf].
      * now rewrite (pushTopK_dup s c _ Hin).
      * rewrite (pushTopK_fresh_take s c K Hf Hlen).
        apply (ok_seen s' Hok') in Hin'.
        apply elem_of_map in Hin' as (e & Ek & He).
        apply list_elem_of_lookup in He as [i Hi].
        assert (HiK : (K <= i)%nat).
        { destruct (Nat.le_gt_cases K i) as [H|H]; [exact H|]. exfalso.
          apply Hf, (ok_seen s Hok). rewrite IH, Ek.
          apply elem_of_map. exists e. split; [reflexivity|].
          apply list_elem_of_lookup. exists i. rewrite lookup_take_lt by exact H.
          exact Hi. }
        assert (Hfull : length (topList s) = K).
        { rewrite IH, length_take. apply lookup_lt_Some in Hi. lia. }
        assert (Hsum : (sum c == sum e)%Q).
        { apply Hkey; [| |exact Ek].
          - apply elem_of_app. right. now apply list_elem_of_singleton.
          - apply elem_of_app. left. apply (offerAll_offered K').
            apply list_elem_of_lookup. now exists i. }
        rewrite stableSort_id.
        -- rewrite take_app_length'; [exact IH|now symmetry].
        -- apply StronglySorted_app_2; [|exact (ok_sorted s Hok)|repeat constructor].
           intros y c0 Hy Hc0. apply list_elem_of_singleton in Hc0 as ->.
              apply bySumDesc_le. rewrite Hsum.
              rewrite IH in Hy. apply list_elem_of_lookup in Hy as [j Hj].
              assert (j < K)%nat as HjK.
              { apply lookup_lt_Some in Hj. rewrite length_take in Hj. lia. }
              rewrite lookup_take_lt in Hj by exact HjK.
              apply bySumDesc_le.
              apply (StronglySorted_lookup _ _ (ok_sorted s' Hok') j i y e Hj Hi). lia.
    + assert (Hf : keyOf c ∉ seenKeys s) by (intros H; apply Hf', Hsub, H).
      rewrite (pushTopK_fresh_take s c K Hf Hlen).
      rewrite (pushTopK_fresh_take s' c K' Hf' Hlen').
      rewrite take_take, Nat.min_l by exact HK.
      rewrite IH.
      apply (take_stableSort_snoc bySumDesc bySumDesc_trans).
      exact (ok_sorted s' Hok').
Qed.

Lemma smaller_bound_keeps_a_prefix_witness :
  (1 <= 2)%nat /\ keyDeterminesSum plainOffers /\
  topList (offerAll 1 plainOffers) = take 1 (topList (offerAll 2 plainOffers)).
Proof.
  assert (H1 : (1 <= 2)%nat) by lia.
  assert (H2 : keyDeterminesSum plainOffers)
    by (apply keyDeterminesSumb_sound; vm_compute; reflexivity).
  split; [exact H1|]. split; [exact H2|].
  exact (smaller_bound_keeps_a_prefix 1 2 plainOffers H1 H2).
Defined.

End CollectorLaws.

Section GroupContents.
Import JS TopK SolverCommon Vocabulary Notions.

Lemma fold_pushByType (items : list item) (g : groups) :
  fold_left pushByType items g =
  Groups (gA g ++ List.filter isA items) (gB g ++ List.filter isB items)
         (gC g ++ List.filter isOther items).
Proof.
  revert g. induction items as [|x items IH]; intros g.
  - cbn. rewrite !app_nil_r. now destruct g.
  - cbn [fold_left List.filter]. rewrite IH. unfold pushByType, isOther, isA, isB.
    destruct (bool_decide (type x = str "A")) eqn:EA.
    + apply bool_decide_eq_true in EA.
      rewrite (bool_decide_eq_false_2 (type x = str "B")) by (rewrite EA; discriminate).
      cbn. now rewrite <- app_assoc.
    + destruct (bool_decide (type x = str "B")); cbn; now rewrite <- app_assoc.
Qed.

Lemma buildItem_fields (fileAName fileBName : jsstr) (a : num) (t s : value)
    (c b r d : option jsstr) (x : item) :
  buildItem fileAName fileBName a t s c b r d = Some x ->
  isABC (type x) = true /\ (srcFile x = fileAName \/ srcFile x = fileBName).
Proof.
  unfold buildItem. destruct a as [| | |q]; try discriminate.
  destruct (Qle_bool q 0); [discriminate|].
  destruct (Normalize.normalizeType t) as [ty|]; [|discriminate].
  destruct (isABC ty) eqn:Ety; [|discriminate]. cbn [negb].
  destruct s as [| | | |src|]; try discriminate.
  destruct (bool_decide (src = fileAName)) eqn:EA.
  - cbn. intros [= <-]. cbn. apply bool_decide_eq_true in EA. auto.
  - destruct (bool_decide (src = fileBName)) eqn:EB; [|discriminate].
    cbn. intros [= <-]. cbn. apply bool_decide_eq_true in EB. auto.
Qed.

Lemma items_fields (candidates : list rawCandidate) (fileAName fileBName : jsstr)
    (x : item) :
  x ∈ Solver.items candidates fileAName fileBName ->
  isABC (type x) = true /\ (srcFile x = fileAName \/ srcFile x = fileBName).
Proof.
  unfold Solver.items. intros H. apply list_elem_of_omap in H as (it & _ & H).
  destruct it; try discriminate; cbn in H; eapply buildItem_fields; exact H.
Qed.

Lemma elem_of_filter_list {A} (f : A -> bool) (l : list A) (x : A) :
  x ∈ List.filter f l <-> x ∈ l /\ f x = true.
Proof. now rewrite !list_elem_of_In, filter_In. Qed.

(** What a group of the current revision holds. *)
Lemma byType_elem (candidates : list rawCandidate) (targetNum : num)
    (fileAName fileBName : jsstr) (x : item) :
  let g := Solver.byType candidates targetNum fileAName fileBName in
  let eligible :=
    x ∈ Solver.items candidates fileAName fileBName /\
    leb (Fin (area x)) targetNum = true in
  (x ∈ gA g <-> eligible /\ type x = str "A") /\
  (x ∈ gB g <-> eligible /\ type x = str "B") /\
  (x ∈ gC g <-> eligible /\ type x = str "C").
Proof.
  cbv zeta. unfold Solver.byType, Solver.underTarget, groupAndSort.
  cbv zeta. rewrite fold_pushByType. cbn [gA gB gC app].
  unfold sortByArea, sortBy.
  rewrite !elem_of_filter_list, !stableSort_elem, !elem_of_filter_list.
  unfold isOther, isA, isB. rewrite andb_true_iff, !negb_true_iff.
  rewrite !bool_decide_eq_true, !bool_decide_eq_false.
  repeat split; try tauto.
  - destruct H as [[Hin [HA HB]] _].
    apply (items_fields candidates fileAName fileBName) in Hin as [Hin _].
    unfold isABC in Hin. rewrite !orb_true_iff, !bool_decide_eq_true in Hin. tauto.
  - destruct H as [_ ->]. discriminate.
  - destruct H as [_ ->]. discriminate.
Qed.

End GroupContents.

Section SearchSites.
Import JS TopK SolverCommon Vocabulary Notions.

Variable prune : bool.
Variables (candidates : list rawCandidate) (targetNum : num)
  (fileAName fileBName : jsstr) (topK : num)
  (disallowDominant : bool) (dominantMoreThan othersLessThan : num).

Local Abbreviation byType := (Solver.byType candidates targetNum fileAName fileBName).
Local Abbreviation tryCollect :=
  (Solver.tryCollect targetNum fileAName fileBName topK
     disallowDominant dominantMoreThan othersLessThan).
Local Abbreviation loopB :=
  (Solver.loopB prune candidates targetNum fileAName fileBName topK
     disallowDominant dominantMoreThan othersLessThan).
Local Abbreviation loopA :=
  (Solver.loopA prune candidates targetNum fileAName fileBName topK
     disallowDominant dominantMoreThan othersLessThan).
Local Abbreviation loopY :=
  (Solver.loopY prune targetNum fileAName fileBName topK
     disallowDominant dominantMoreThan othersLessThan).
Local Abbreviation loopJ :=
  (Solver.loopJ prune targetNum fileAName fileBName topK
     disallowDominant dominantMoreThan othersLessThan).
Local Abbreviation loopI :=
  (Solver.loopI prune targetNum fileAName fileBName topK
     disallowDominant dominantMoreThan othersLessThan).
Local Abbreviation search :=
  (Solver.search prune candidates targetNum fileAName fileBName topK
     disallowDominant dominantMoreThan othersLessThan).

Lemma pick_elem (arr : list item) (r : num) (x : item) :
  Bisect.pickBestUnderOrEqual arr r = Some x -> x ∈ arr.
Proof.
  unfold Bisect.pickBestUnderOrEqual.
  destruct (Bisect.bisectRightByArea arr r) as [[|idx]|]; try discriminate.
  intros H. apply list_elem_of_lookup. now exists idx.
Qed.

(** A property of the collector that [tryCollect] keeps whenever it is
    called on a combination of the groups is kept by the search: the loops
    call [tryCollect] on combinations only. *)
Section Sites.
Variable P : state -> Prop.
Hypothesis P_collect : forall st picked sum,
  (forall s, sum = Fin s -> combination byType picked s) ->
  P st -> P (tryCollect st picked sum).

Lemma loopB_site (a : item) (n : nat) (st : state) :
  a ∈ gA byType -> P st -> P (loopB a n st).
Proof.
  intros Ha. revert st. induction n as [|ib IH]; intros st H; [exact H|].
  cbn [Solver.loopB]. destruct (_ !! ib) as [b|] eqn:Eb; [|exact H].
  destruct (gtb _ _); [apply IH, H|].
  destruct (prune && _); [exact H|].
  apply IH. destruct (Bisect.pickBestUnderOrEqual _ _) as [c|] eqn:Ec; [|exact H].
  apply P_collect; [|exact H]. intros s Es.
  apply threeRows; [exact Ha| | |exact Es].
  - apply list_elem_of_lookup. now exists ib.
  - now apply pick_elem in Ec.
Qed.

Lemma loopA_site (n : nat) (st : state) : P st -> P (loopA n st).
Proof.
  revert st. induction n as [|ia IH]; intros st H; [exact H|].
  cbn [Solver.loopA]. destruct (_ !! ia) as [a|] eqn:Ea; [|exact H].
  apply IH, loopB_site; [|exact H].
  apply list_elem_of_lookup. now exists ia.
Qed.

Lemma loopY_site (X Y Z : list item) (i j : nat) (xi xj : item) (n : nat) (st : state) :
  doubled byType X Y Z -> X !! i = Some xi -> X !! j = Some xj -> (j < i)%nat ->
  P st -> P (loopY Y Z xi xj (add (Fin (area xi)) (Fin (area xj))) n st).
Proof.
  intros Hd Hi Hj Hji. revert st. induction n as [|iy IH]; intros st H; [exact H|].
  cbn [Solver.loopY]. destruct (_ !! iy) as [y|] eqn:Ey; [|exact H].
  destruct (gtb _ _); [apply IH, H|].
  destruct (prune && _); [exact H|].
  apply IH. destruct (Bisect.pickBestUnderOrEqual _ _) as [z|] eqn:Ez; [|exact H].
  apply P_collect; [|exact H]. intros s Es.
  apply (fourRows byType X Y Z i j); auto.
  - apply list_elem_of_lookup. now exists iy.
  - now apply pick_elem in Ez.
Qed.

Lemma loopJ_site (X Y Z : list item) (i : nat) (xi : item) (n : nat) (st : state) :
  doubled byType X Y Z -> X !! i = Some xi -> (n <= i)%nat ->
  P st -> P (loopJ X Y Z xi n st).
Proof.
  intros Hd Hi. revert st. induction n as [|j IH]; intros st Hn H; [exact H|].
  cbn [Solver.loopJ]. destruct (_ !! j) as [xj|] eqn:Ej; [|exact H].
  destruct (gtb _ _); [apply IH; [lia|exact H]|].
  apply IH; [lia|]. apply (loopY_site X Y Z i j); auto.
Qed.

Lemma loopI_site (X Y Z : list item) (n : nat) (st : state) :
  doubled byType X Y Z -> P st -> P (loopI X Y Z n st).
Proof.
  intros Hd. revert st. induction n as [|i IH]; intros st H; [exact H|].
  cbn [Solver.loopI]. destruct (_ !! S i) as [xi|] eqn:Ei; [|exact H].
  apply IH. apply (loopJ_site X Y Z (S i)); auto.
Qed.

Lemma search_site : P empty -> P search.
Proof.
  intros H. unfold Solver.search, Solver.enumFour, Solver.enumThree. cbv zeta.
  apply loopI_site; [right; right; auto|].
  apply loopI_site; [right; left; auto|].
  apply loopI_site; [left; auto|].
  apply loopA_site, H.
Qed.

End Sites.

(** Every entry of the list is a combination of the groups, under the
    total of its areas. *)
Lemma search_combination (e : candidate) :
  e ∈ topList search -> combination byType (picked e) (sum e).
Proof.
  revert e.
  apply (search_site (fun st => forall e, e ∈ topList st ->
           combination byType (picked e) (sum e))).
  - intros st picked sum Hc H e He.
    destruct (tryCollect_cases targetNum fileAName fileBName topK
                disallowDominant dominantMoreThan othersLessThan st picked sum)
      as [E | (s & Es & _ & _ & _ & _ & E)]; rewrite E in He; [apply H, He|].
    apply pushTopK_elem in He as [He | ->]; [apply H, He|]. now apply Hc.
  - intros e He. inversion He.
Qed.

End SearchSites.

Section CombinationFacts.
Import JS TopK SolverCommon Vocabulary Notions.

Variables (candidates : list rawCandidate) (targetNum : num)
  (fileAName fileBName : jsstr).

Local Abbreviation byType := (Solver.byType candidates targetNum fileAName fileBName).

Lemma group_types (x : item) :
  (x ∈ gA byType -> type x = str "A") /\
  (x ∈ gB byType -> type x = str "B") /\
  (x ∈ gC byType -> type x = str "C").
Proof.
  destruct (byType_elem candidates targetNum fileAName fileBName x) as (HA & HB & HC).
  repeat split; intros H; [apply HA in H|apply HB in H|apply HC in H]; tauto.
Qed.

Lemma group_eligible (x : item) :
  inGroups byType x ->
  x ∈ Solver.items candidates fileAName fileBName /\
  leb (Fin (area x)) targetNum = true.
Proof.
  destruct (byType_elem candidates targetNum fileAName fileBName x) as (HA & HB & HC).
  intros [H|[H|H]]; [apply HA in H|apply HB in H|apply HC in H]; tauto.
Qed.

Lemma doubled_groups (X Y Z : list item) :
  doubled byType X Y Z ->
  exists tx ty tz,
    [tx; tx; ty; tz] ∈ shapes /\
    (forall x, x ∈ X -> type x = tx /\ inGroups byType x) /\
    (forall y, y ∈ Y -> type y = ty /\ inGroups byType y) /\
    (forall z, z ∈ Z -> type z = tz /\ inGroups byType z).
Proof.
  unfold inGroups, shapes.
  intros [(-> & -> & ->)|[(-> & -> & ->)|(-> & -> & ->)]].
  - exists (str "A"), (str "B"), (str "C").
    split; [set_solver|].
    repeat split; try (now apply group_types); tauto.
  - exists (str "B"), (str "A"), (str "C").
    split; [set_solver|].
    repeat split; try (now apply group_types); tauto.
  - exists (str "C"), (str "A"), (str "B").
    split; [set_solver|].
    repeat split; try (now apply group_types); tauto.
Qed.

(** The total of areas that are not below zero is not below zero. *)
Lemma total_nonneg (areas : list Q) :
  (forall a, a ∈ areas -> (0 <= a)%Q) -> leb (Fin 0) (total areas) = true.
Proof.
  destruct areas as [|a rest]; [reflexivity|]. intros H. cbn [total].
  assert (H0 : leb (Fin 0) (Fin a) = true) by (apply Qle_bool_iff, H; left).
  assert (Hrest : forall x, x ∈ rest -> (0 <= x)%Q) by (intros x Hx; apply H; now right).
  clear H. revert H0. generalize (Fin a). induction rest as [|x rest IH]; intros acc H0;
    [exact H0|].
  cbn [fold_left]. apply IH.
  - intros y Hy. apply Hrest. now right.
  - apply add_nonneg; [exact H0|]. apply Hrest. left.
Qed.

Lemma combination_facts (picked : list item) (s : Q) :
  combination byType picked s ->
  map type picked ∈ shapes /\
  total (map area picked) = Fin s /\
  (forall x, x ∈ picked -> inGroups byType x).
Proof.
  intros [a b c s' Ha Hb Hc Es | X Y Z i j xi xj y z s' Hd Hi Hj Hji Hy Hz Es].
  - split; [|split].
    + cbn [map]. rewrite (proj1 (group_types a) Ha).
      rewrite (proj1 (proj2 (group_types b)) Hb).
      rewrite (proj2 (proj2 (group_types c)) Hc).
      unfold shapes. set_solver.
    + exact Es.
    + unfold inGroups. intros x Hx.
      apply elem_of_cons in Hx as [->|Hx]; [tauto|].
      apply elem_of_cons in Hx as [->|Hx]; [tauto|].
      apply list_elem_of_singleton in Hx as ->. tauto.
  - destruct (doubled_groups X Y Z Hd) as (tx & ty & tz & Hs & HX & HY & HZ).
    assert (Hxi : xi ∈ X) by (apply list_elem_of_lookup; now exists i).
    assert (Hxj : xj ∈ X) by (apply list_elem_of_lookup; now exists j).
    split; [|split].
    + cbn [map]. rewrite (proj1 (HX xi Hxi)), (proj1 (HX xj Hxj)).
      rewrite (proj1 (HY y Hy)), (proj1 (HZ z Hz)). exact Hs.
    + exact Es.
    + intros x Hx.
      apply elem_of_cons in Hx as [->|Hx]; [now apply HX|].
      apply elem_of_cons in Hx as [->|Hx]; [now apply HX|].
      apply elem_of_cons in Hx as [->|Hx]; [now apply HY|].
      apply list_elem_of_singleton in Hx as ->. now apply HZ.
Qed.

End CombinationFacts.

Section GroupContract.
Import JS TopK SolverCommon Vocabulary Notions.

Lemma filter_perm {A} (f : A -> bool) (l1 l2 : list A) :
  l1 ≡ₚ l2 -> List.filter f l1 ≡ₚ List.filter f l2.
Proof.
  induction 1 as [|x l1 l2 _ IH|x y l|l1 l2 l3 _ IH1 _ IH2]; cbn.
  - reflexivity.
  - destruct (f x); [now constructor|exact IH].
  - destruct (f x), (f y); try reflexivity. apply perm_swap.
  - now transitivity (List.filter f l2).
Qed.

Lemma filter_filter_list {A} (f g : A -> bool) (l : list A) :
  List.filter f (List.filter g l) = List.filter (fun x => g x && f x) l.
Proof.
  induction l as [|x l IH]; [reflexivity|]. cbn.
  destruct (g x); cbn; [destruct (f x)|]; now rewrite IH.
Qed.

(** X6 (bestTopKCombos, the groups). The three groups that the search
    runs over are in ascending order of area, and each holds the rows that
    passed the guards on rows, have its category and are not above the
    target, every row as often as the input has it. *)
Theorem groups_hold_eligible_rows (candidates : list rawCandidate) (targetNum : num)
    (fileAName fileBName : jsstr) :
  let g := Solver.byType candidates targetNum fileAName fileBName in
  let rows := Solver.items candidates fileAName fileBName in
  let within := fun x : item => leb (Fin (area x)) targetNum in
  (ascending (gA g) /\ ascending (gB g) /\ ascending (gC g)) /\
  gA g ≡ₚ List.filter (fun x => bool_decide (type x = str "A") && within x) rows /\
  gB g ≡ₚ List.filter (fun x => bool_decide (type x = str "B") && within x) rows /\
  gC g ≡ₚ List.filter (fun x => bool_decide (type x = str "C") && within x) rows.
Proof.
  cbv zeta. split; [apply byType_ascending|].
  unfold Solver.byType, Solver.underTarget, groupAndSort. cbv zeta.
  rewrite fold_pushByType. cbn [gA gB gC app]. unfold sortByArea, sortBy.
  repeat split.
  - rewrite (filter_perm _ _ _ (stableSort_perm _ _)). now rewrite filter_filter_list.
  - rewrite (filter_perm _ _ _ (stableSort_perm _ _)). now rewrite filter_filter_list.
  - rewrite (filter_perm _ _ _ (stableSort_perm _ _)). rewrite filter_filter_list.
    assert (E : forall x, x ∈ Solver.items candidates fileAName fileBName ->
              isOther x && leb (Fin (area x)) targetNum =
              bool_decide (type x = str "C") && leb (Fin (area x)) targetNum).
    { intros x Hx. f_equal.
      apply (items_fields candidates fileAName fileBName) in Hx as [Hty _].
      unfold isABC in Hty. unfold isOther, isA, isB.
      destruct (bool_decide (type x = str "A")) eqn:EA.
      - apply bool_decide_eq_true in EA. rewrite EA. reflexivity.
      - destruct (bool_decide (type x = str "B")) eqn:EB.
        + apply bool_decide_eq_true in EB. rewrite EB. reflexivity.
        + cbn [orb] in Hty. rewrite Hty. reflexivity. }
    induction (Solver.items candidates fileAName fileBName) as [|x l IH];
      [reflexivity|].
    cbn [List.filter]. rewrite E by (apply elem_of_cons; now left).
    destruct (_ && _); [constructor|]; apply IH; intros y Hy; apply E, elem_of_cons;
      now right.
Qed.

End GroupContract.

Section RoundingFacts.
Import JS.

Lemma roundHalfUp6_mono (a b : Q) : (a <= b)%Q -> (roundHalfUp6 a <= roundHalfUp6 b)%Q.
Proof.
  intros H. unfold roundHalfUp6. rewrite !Qred_correct.
  assert (Hf : (Qfloor (a * 1000000 + (1 # 2)) <= Qfloor (b * 1000000 + (1 # 2)))%Z)
    by (apply Qfloor_resp_le; lra).
  rewrite Zle_Qle in Hf.
  unfold Qdiv. change (/ 1000000)%Q with (1 # 1000000)%Q. lra.
Qed.

Lemma roundHalfUp6_nonneg (a : Q) : (0 <= a)%Q -> (0 <= roundHalfUp6 a)%Q.
Proof.
  intros H. unfold roundHalfUp6. rewrite Qred_correct.
  assert (Hf : (Qfloor 0 <= Qfloor (a * 1000000 + (1 # 2)))%Z)
    by (apply Qfloor_resp_le; lra).
  change (Qfloor 0) with 0%Z in Hf. rewrite Zle_Qle in Hf.
  unfold Qdiv. change (/ 1000000)%Q with (1 # 1000000)%Q.
  change (inject_Z 0) with 0%Q in Hf. lra.
Qed.

(** Rounding to six decimals keeps the order. *)
Lemma toFixed6Q_mono (a b : Q) : (a <= b)%Q -> (toFixed6Q a <= toFixed6Q b)%Q.
Proof.
  intros H. unfold toFixed6Q.
  destruct (Qltb a 0) eqn:Ea; destruct (Qltb b 0) eqn:Eb;
    rewrite ?Qred_correct;
    try apply Qltb_lt in Ea; try apply Qltb_lt in Eb;
    try apply Qltb_ge in Ea; try apply Qltb_ge in Eb.
  - assert (roundHalfUp6 (- b) <= roundHalfUp6 (- a))%Q
      by (apply roundHalfUp6_mono; lra). lra.
  - assert (0 <= roundHalfUp6 (- a))%Q by (apply roundHalfUp6_nonneg; lra).
    assert (0 <= roundHalfUp6 b)%Q by (apply roundHalfUp6_nonneg; lra). lra.
  - lra.
  - now apply roundHalfUp6_mono.
Qed.

Lemma toFixed6Q_nonneg (a : Q) : (0 <= a)%Q -> (0 <= toFixed6Q a)%Q.
Proof.
  intros H. unfold toFixed6Q.
  destruct (Qltb a 0) eqn:Ea.
  - apply Qltb_lt in Ea. lra.
  - now apply roundHalfUp6_nonneg.
Qed.

(** Rounding does not look at the fraction that carries a value. *)
Lemma toFixed6Q_comp (a b : Q) : (a == b)%Q -> toFixed6Q a = toFixed6Q b.
Proof.
  intros H. unfold toFixed6Q, roundHalfUp6, Qltb.
  assert (E1 : Qle_bool 0 a = Qle_bool 0 b).
  { apply eq_true_iff_eq. rewrite !Qle_bool_iff. now rewrite H. }
  rewrite E1. destruct (negb (Qle_bool 0 b)).
  - apply Qred_complete. apply Qopp_comp. rewrite !Qred_correct.
    assert (Qfloor (- a * 1000000 + (1 # 2)) = Qfloor (- b * 1000000 + (1 # 2))) as ->
      by (apply Qfloor_comp; now rewrite H).
    reflexivity.
  - apply Qred_complete.
    assert (Qfloor (a * 1000000 + (1 # 2)) = Qfloor (b * 1000000 + (1 # 2))) as ->
      by (apply Qfloor_comp; now rewrite H).
    reflexivity.
Qed.

End RoundingFacts.

Section BoundFacts.
Import JS SolverCommon Notions.

(** The bound after [Math.max(1, Math.floor(Number(topK) || 1))]. *)
Lemma normalizeTopK_Fin (q : Q) :
  normalizeTopK (Fin q) = Fin (inject_Z (Z.max 1 (Qfloor q))).
Proof.
  unfold normalizeTopK, or, truthy.
  destruct (Qeq_bool q 0) eqn:E0; cbn [negb floor max].
  - apply Qeq_bool_eq in E0.
    assert (Qfloor q = 0%Z) as -> by (rewrite (Qfloor_comp q 0 E0); reflexivity).
    reflexivity.
  - unfold leb. destruct (Qle_bool 1 (inject_Z (Qfloor q))) eqn:E.
    + apply Qle_bool_iff in E. change 1%Q with (inject_Z 1) in E.
      rewrite <- Zle_Qle in E. now rewrite Z.max_r.
    + apply Qle_bool_gt in E. change 1%Q with (inject_Z 1) in E.
      rewrite <- Zlt_Qlt in E. rewrite Z.max_l by lia. reflexivity.
Qed.

Lemma normalizeTopK_allowed (topK : num) :
  match allowed topK with
  | Some n => normalizeTopK topK = ofNat n /\ (1 <= n)%nat
  | None => normalizeTopK topK = PInf
  end.
Proof.
  destruct topK as [| | |q]; cbn [allowed]; try (split; [reflexivity|lia]);
    [reflexivity|].
  rewrite normalizeTopK_Fin. unfold ofNat. rewrite Z2Nat.id by lia.
  split; [reflexivity|lia].
Qed.

End BoundFacts.

Section ResultContract.
Import JS TopK SolverCommon Vocabulary Notions.

Variables (candidates : list rawCandidate) (target : num)
  (fileAName fileBName : jsstr) (topK : num)
  (disallowDominant : bool) (dominantMoreThan othersLessThan : num).

Local Abbreviation results :=
  (Solver.bestTopKCombos candidates target fileAName fileBName topK
     disallowDominant dominantMoreThan othersLessThan).
Local Abbreviation entries :=
  (topList (Solver.search true candidates target fileAName fileBName
              (normalizeTopK topK) disallowDominant dominantMoreThan othersLessThan)).
Local Abbreviation byType := (Solver.byType candidates target fileAName fileBName).

(** The array returned is the formatted list, or empty. *)
Lemma results_entries :
  exists kept, results = map (Solver.format target fileBName) kept /\
    (kept = [] \/ kept = entries).
Proof.
  unfold Solver.bestTopKCombos, Solver.searchResults.
  destruct (anyEmpty _).
  - exists []. split; [reflexivity|now left].
  - exists entries. split; [reflexivity|now right].
Qed.

Lemma result_entry (r : resultEntry) :
  r ∈ results -> exists e, e ∈ entries /\ r = Solver.format target fileBName e.
Proof.
  intros Hr. unfold Solver.bestTopKCombos, Solver.searchResults in Hr.
  destruct (anyEmpty _); [inversion Hr|].
  apply elem_of_map in Hr as (e & -> & He). now exists e.
Qed.


(** Every pick of an entry is a row of the input that is not above the
    target. *)
Lemma entry_picks (e : candidate) (x : item) :
  e ∈ entries -> x ∈ picked e ->
  (exists it, it ∈ candidates /\ Solver.toItem fileAName fileBName it = Some x) /\
  leb (Fin (area x)) target = true.
Proof.
  intros He Hx.
  pose proof (search_combination _ _ _ _ _ _ _ _ _ e He) as Hc.
  destruct (combination_facts _ _ _ _ _ _ Hc) as (_ & _ & Hin).
  destruct (group_eligible _ _ _ _ x (Hin x Hx)) as [Hitem Hle].
  split; [|exact Hle].
  unfold Solver.items in Hitem. apply list_elem_of_omap in Hitem as (it & Hit & E).
  now exists it.
Qed.

(** The sum of an entry is a total of positive areas. *)
Lemma entry_sum_nonneg (e : candidate) : e ∈ entries -> (0 <= sum e)%Q.
Proof.
  intros He.
  pose proof (search_combination _ _ _ _ _ _ _ _ _ e He) as Hc.
  destruct (combination_facts _ _ _ _ _ _ Hc) as (_ & Hsum & Hin).
  assert (H : leb (Fin 0) (total (map area (picked e))) = true).
  { apply total_nonneg. intros a Ha. apply list_elem_of_fmap in Ha as (x & -> & Hx).
    destruct (byType_positive _ _ _ _ x (Hin x Hx)). lra. }
  rewrite Hsum in H. now apply Qle_bool_iff in H.
Qed.

(** X8 (bestTopKCombos, eligibility). Every pick of every result is a
    row of the input that passed the three guards on rows: it has a
    positive area that is not above the target, its category is A, B or
    C, and its source is one of the two file names. *)
Theorem results_pick_eligible_rows (r : resultEntry) :
  r ∈ results ->
  exists e,
    r = Solver.format target fileBName e /\
    forall x, x ∈ picked e ->
      (exists it, it ∈ candidates /\ Solver.toItem fileAName fileBName it = Some x) /\
      (0 < area x)%Q /\ leb (Fin (area x)) target = true /\
      (type x = str "A" \/ type x = str "B" \/ type x = str "C") /\
      (srcFile x = fileAName \/ srcFile x = fileBName).
Proof.
  intros Hr. destruct (result_entry r Hr) as (e & He & ->).
  exists e. split; [reflexivity|]. intros x Hx.
  destruct (entry_picks e x He Hx) as [(it & Hit & E) Hle].
  assert (Hitem : x ∈ Solver.items candidates fileAName fileBName).
  { unfold Solver.items. apply list_elem_of_omap. now exists it. }
  destruct (items_fields _ _ _ x Hitem) as [Hty Hsrc].
  split; [now exists it|]. split; [|split; [exact Hle|split; [|exact Hsrc]]].
  - now apply (items_positive candidates fileAName fileBName).
  - unfold isABC in Hty. rewrite !orb_true_iff, !bool_decide_eq_true in Hty. tauto.
Qed.

Lemma hasAtLeastOneFromB_true (picked : list item) :
  hasAtLeastOneFromB fileBName picked = true ->
  exists x, x ∈ picked /\ srcFile x = fileBName.
Proof.
  unfold hasAtLeastOneFromB. intros H. apply existsb_exists in H as (x & Hx & E).
  exists x. split; [now apply list_elem_of_In|now apply bool_decide_eq_true in E].
Qed.

(** Every entry has a pick from the must-include file. *)
Lemma entry_from_file_B (e : candidate) :
  e ∈ entries ->
  exists x, x ∈ picked e /\ srcFile x = fileBName /\
    x ∈ Solver.items candidates fileAName fileBName.
Proof.
  intros He.
  pose proof (search_passedGuards _ _ _ _ _ _ _ _ _ e He) as (_ & HB & _).
  apply hasAtLeastOneFromB_true in HB as (x & Hx & Esrc).
  exists x. split; [exact Hx|]. split; [exact Esrc|].
  pose proof (search_combination _ _ _ _ _ _ _ _ _ e He) as Hc.
  destruct (combination_facts _ _ _ _ _ _ Hc) as (_ & _ & Hin).
  now apply (group_eligible candidates target fileAName fileBName x (Hin x Hx)).
Qed.

Lemma no_file_B_no_result :
  (forall x, x ∈ Solver.items candidates fileAName fileBName ->
     srcFile x <> fileBName) ->
  results = [].
Proof.
  intros Hno. destruct results as [|r rest] eqn:E; [reflexivity|].
  exfalso. destruct (result_entry r) as (e & He & _).
  - rewrite E. apply elem_of_cons. now left.
  - destruct (entry_from_file_B e He) as (x & _ & Esrc & Hx).
    exact (Hno x Hx Esrc).
Qed.

(** X9 (bestTopKCombos, provenance). Every result has a pick whose source
    is the must-include file; so rows among which none passes the guards
    with that source give no result at all. *)
Theorem results_include_file_B :
  (forall r, r ∈ results ->
     exists e x, r = Solver.format target fileBName e /\
       x ∈ picked e /\ srcFile x = fileBName) /\
  ((forall x, x ∈ Solver.items candidates fileAName fileBName ->
      srcFile x <> fileBName) ->
   results = []).
Proof.
  split; [|exact no_file_B_no_result].
  intros r Hr. destruct (result_entry r Hr) as (e & He & ->).
  destruct (entry_from_file_B e He) as (x & Hx & Esrc & _). now exists e, x.
Qed.

Lemma search_within_bound :
  gtb (ofNat (length entries)) (normalizeTopK topK) = false.
Proof.
  apply (search_kept true candidates target fileAName fileBName (normalizeTopK topK)
           disallowDominant dominantMoreThan othersLessThan
           (fun st => gtb (ofNat (length (topList st))) (normalizeTopK topK) = false)).
  - intros st picked sum H.
    destruct (tryCollect_cases target fileAName fileBName (normalizeTopK topK)
                disallowDominant dominantMoreThan othersLessThan st picked sum)
      as [E | (s & _ & _ & _ & _ & _ & E)]; rewrite E; [exact H|].
    now apply pushTopK_length.
  - pose proof (normalizeTopK_allowed topK) as H.
    destruct (allowed topK) as [n|].
    + destruct H as [-> Hn]. apply ofNat_gtb_false. cbn. lia.
    + rewrite H. reflexivity.
Qed.

(** The list behind the returned array. *)
Lemma results_kept :
  exists kept,
    results = map (Solver.format target fileBName) kept /\
    (forall n, allowed topK = Some n -> (length kept <= n)%nat) /\
    NoDup (map keyOf kept) /\
    descending kept.
Proof.
  pose proof (search_ok true candidates target fileAName fileBName (normalizeTopK topK)
                disallowDominant dominantMoreThan othersLessThan) as Hok.
  pose proof search_within_bound as Hlen.
  destruct results_entries as (kept & E & Hkept).
  exists kept. split; [exact E|]. split; [|split].
  - intros n Hn. destruct Hkept as [->| ->]; [cbn; lia|].
    pose proof (normalizeTopK_allowed topK) as H. rewrite Hn in H.
    destruct H as [H _]. apply ofNat_gtb_false. rewrite <- H. exact Hlen.
  - destruct Hkept as [->| ->]; [constructor|exact (ok_nodup _ Hok)].
  - destruct Hkept as [->| ->].
    + intros i j x y Hi. now rewrite lookup_nil in Hi.
    + apply sorted_descending. exact (ok_sorted _ Hok).
Qed.

(** X10 (bestTopKCombos, the returned array). The array has at most
    [max(1, floor(topK))] entries (one entry when [topK] is NaN), it is
    the formatted image of a list of candidates with pairwise distinct
    keys in descending order of sum, and its reported sums never increase
    from one entry to the next. *)
Theorem results_bounded_distinct_sorted :
  exists kept,
    results = map (Solver.format target fileBName) kept /\
    (forall n, allowed topK = Some n -> (length results <= n)%nat) /\
    NoDup (map keyOf kept) /\
    descending kept /\
    (forall i j r r', results !! i = Some r -> results !! j = Some r' -> (i <= j)%nat ->
       (兑换面积 r' <= 兑换面积 r)%Q).
Proof.
  destruct results_kept as (kept & E & Hl & Hnd & Hdesc).
  exists kept. split; [exact E|]. rewrite E.
  split; [|split; [exact Hnd|split; [exact Hdesc|]]].
  - intros n Hn. rewrite length_map. now apply Hl.
  - intros i j r r' Hi Hj Hij.
    rewrite list_lookup_fmap in Hi, Hj.
    destruct (kept !! i) as [x|] eqn:Ex; [|discriminate].
    destruct (kept !! j) as [y|] eqn:Ey; [|discriminate].
    cbn in Hi, Hj. injection Hi as <-. injection Hj as <-.
    cbn [Solver.format 兑换面积]. apply toFixed6Q_mono.
    exact (Hdesc i j x y Ex Ey Hij).
Qed.

End ResultContract.

Section GapFacts.
Import JS TopK SolverCommon Vocabulary Notions.

(** The sum that a result is kept under, read back from its six
    decimals, under a target that is a double: a double again, within a
    unit of the sixth decimal above the target. *)
Lemma number_toFixed (t s : Q) :
  isDouble t = true -> (0 <= s)%Q -> (s <= t)%Q ->
  exists d,
    number (toFixed6Q s) = Fin d /\ (0 <= d)%Q /\ (d <= t + (1 # 1000000))%Q /\
    ((s <= t - (1 # 2000000))%Q -> (d <= t)%Q).
Proof.
  intros Ht H0 Hs. destruct (isDouble_spec t Ht) as (Hrep & _ & _ & Hlo & Hhi).
  pose proof (double_below_top t Hrep Hhi) as Htop.
  pose proof (toFixed6Q_nonneg s H0) as S0.
  destruct (toFixed6Q_near s) as [_ Sup].
  set (S := toFixed6Q s) in *.
  pose proof (round_nonneg S S0) as R0.
  assert (Rup : (round S <= t + (1 # 1000000))%Q).
  { destruct (Qlt_le_dec t S) as [H|H].
    - pose proof (round_nearest S t Hrep) as N. revert N.
      apply Qabs_case; intros; revert N; apply Qabs_case; intros; lra.
    - pose proof (round_le S t Hrep H). lra. }
  exists (round S). split; [|split; [exact R0|split; [exact Rup|]]].
  - pose proof (pow2_pos 1024).
    destruct (number_cases S) as [[_ B]|[[_ B]|[E _]]]; [lra|lra|exact E].
  - intros Hm. apply round_le; [exact Hrep|lra].
Qed.

(** The gap that [format] reports for a sum within a target that is a
    double: not below -0.000001, and not below zero when the sum stays half
    a unit of the sixth decimal below the target. *)
Lemma gap_of (t s : Q) :
  isDouble t = true -> (0 <= s)%Q -> (s <= t)%Q ->
  exists g,
    toFixed6 (sub (Fin t) (number (toFixed6Q s))) = Fin g /\
    (- (1 # 1000000) <= g)%Q /\
    ((s <= t - (1 # 2000000))%Q -> (0 <= g)%Q).
Proof.
  intros Ht H0 Hs. destruct (number_toFixed t s Ht H0 Hs) as (d & -> & D0 & Dup & Dm).
  destruct (isDouble_spec t Ht) as (Hrep & Hid & _ & Hlo & Hhi).
  cbn [sub].
  assert (Rlo : (round (- (1 # 1000000)) <= round (t - d))%Q) by (apply round_mono; lra).
  assert (Rhi : (round (t - d) <= t)%Q) by (apply round_le; [exact Hrep|lra]).
  assert (Clo : (- pow2 1024 < round (- (1 # 1000000)))%Q) by (vm_compute; reflexivity).
  exists (toFixed6Q (round (t - d))). split; [|split].
  - destruct (number_cases (t - d)) as [[_ B]|[[_ B]|[-> _]]]; [lra|lra|reflexivity].
  - assert (C : toFixed6Q (round (- (1 # 1000000))) = (- (1 # 1000000))%Q)
      by (vm_compute; reflexivity).
    rewrite <- C. now apply toFixed6Q_mono.
  - intros Hm. apply toFixed6Q_nonneg, round_nonneg. specialize (Dm Hm). lra.
Qed.

(** A larger sum is reported with a smaller gap, or the same. *)
Lemma gap_mono (t s1 s2 : Q) :
  (s2 <= s1)%Q ->
  leb (toFixed6 (sub (Fin t) (number (toFixed6Q s1))))
      (toFixed6 (sub (Fin t) (number (toFixed6Q s2)))) = true.
Proof.
  intros H. apply toFixed6_mono, sub_antitone, number_mono.
  now apply toFixed6Q_mono.
Qed.

End GapFacts.

Section GapContract.
Import JS TopK SolverCommon Vocabulary Notions.

Variables (candidates : list rawCandidate) (t : Q)
  (fileAName fileBName : jsstr) (topK : num)
  (disallowDominant : bool) (dominantMoreThan othersLessThan : num).

Local Abbreviation results :=
  (Solver.bestTopKCombos candidates (Fin t) fileAName fileBName topK
     disallowDominant dominantMoreThan othersLessThan).

(** What holds of every result for a target [t] that is a finite double:
    the sum of the retained combination is within [t]; the reported sum is
    that sum rounded and may exceed [t] by half a unit of the sixth
    decimal; the reported gap is not below -0.000001. *)
Lemma budget_up_to_rounding (r : resultEntry) :
  isDouble t = true ->
  r ∈ results ->
  exists e gap,
    r = Solver.format (Fin t) fileBName e /\
    (sum e <= t)%Q /\
    兑换面积 r = toFixed6Q (sum e) /\
    (兑换面积 r <= t + (1 # 2000000))%Q /\
    浪费面积 r = Fin gap /\
    (- (1 # 1000000) <= gap)%Q.
Proof.
  intros Ht Hr. destruct (result_entry _ _ _ _ _ _ _ _ r Hr) as (e & He & ->).
  pose proof (search_passedGuards _ _ _ _ _ _ _ _ _ e He) as (Hsum & _).
  apply Qltb_ge in Hsum.
  destruct (gap_of t (sum e) Ht (entry_sum_nonneg _ _ _ _ _ _ _ _ e He) Hsum)
    as (g & Eg & Hg & _).
  exists e, g. split; [reflexivity|]. split; [exact Hsum|].
  cbn [Solver.format 兑换面积 浪费面积].
  destruct (toFixed6Q_near (sum e)) as [_ Hup].
  split; [reflexivity|]. split; [lra|]. split; [exact Eg|exact Hg].
Qed.

(** The reported sum of a result is within half a unit of the sixth
    decimal above a finite target. *)
Lemma reported_within (r : resultEntry) :
  r ∈ results -> (兑换面积 r <= t + (1 # 2000000))%Q.
Proof.
  intros Hr. destruct (result_entry _ _ _ _ _ _ _ _ r Hr) as (e & He & ->).
  pose proof (search_passedGuards _ _ _ _ _ _ _ _ _ e He) as (Hsum & _).
  apply Qltb_ge in Hsum. cbn [Solver.format 兑换面积].
  destruct (toFixed6Q_near (sum e)) as [_ Hup]. lra.
Qed.

(** X11 (bestTopKCombos, the reported numbers). For a target that is a
    finite double every result reports that target; its reported gap is
    the difference, rounded to a double, of the target and the reported
    sum read back as a double, rounded to six decimals; the gap is not
    negative as soon as the sum of the picks is half a unit of the sixth
    decimal below the target, and is never below -0.000001; and the gaps
    never decrease from one entry to the next. *)
Theorem reported_gaps (r : resultEntry) :
  isDouble t = true ->
  r ∈ results ->
  (exists e gap,
     r = Solver.format (Fin t) fileBName e /\
     (sum e <= t)%Q /\
     目标面积 r = Fin t /\
     浪费面积 r = Fin gap /\
     Fin gap = toFixed6 (sub (Fin t) (number (兑换面积 r))) /\
     (- (1 # 1000000) <= gap)%Q /\
     ((sum e <= t - (1 # 2000000))%Q -> (0 <= gap)%Q)) /\
  (forall i j r1 r2,
     results !! i = Some r1 -> results !! j = Some r2 -> (i <= j)%nat ->
     leb (浪费面积 r1) (浪费面积 r2) = true).
Proof.
  intros Ht Hr. split.
  - destruct (result_entry _ _ _ _ _ _ _ _ r Hr) as (e & He & ->).
    pose proof (search_passedGuards _ _ _ _ _ _ _ _ _ e He) as (Hsum & _).
    apply Qltb_ge in Hsum.
    destruct (gap_of t (sum e) Ht (entry_sum_nonneg _ _ _ _ _ _ _ _ e He) Hsum)
      as (g & Eg & Hg & Hm).
    exists e, g. cbn [Solver.format 兑换面积 目标面积 浪费面积].
    repeat split; try reflexivity; auto.
  - destruct (results_kept candidates (Fin t) fileAName fileBName
                topK disallowDominant dominantMoreThan othersLessThan)
      as (kept & E & _ & _ & Hdesc).
    intros i j r1 r2 Hi Hj Hij.
    rewrite E, list_lookup_fmap in Hi, Hj.
    destruct (kept !! i) as [x|] eqn:Ex; [|discriminate].
    destruct (kept !! j) as [y|] eqn:Ey; [|discriminate].
    cbn in Hi, Hj. injection Hi as <-. injection Hj as <-.
    cbn [Solver.format 浪费面积].
    apply gap_mono. exact (Hdesc i j x y Ex Ey Hij).
Qed.

End GapContract.

Section OfferFacts.
Import JS TopK SolverCommon Vocabulary Notions.

Variables (candidates : list rawCandidate) (targetNum : num)
  (fileAName fileBName : jsstr) (topK : num)
  (disallowDominant : bool) (dominantMoreThan othersLessThan : num).

Local Abbreviation byType := (Solver.byType candidates targetNum fileAName fileBName).
Local Abbreviation tryCollect :=
  (Solver.tryCollect targetNum fileAName fileBName topK
     disallowDominant dominantMoreThan othersLessThan).
Local Abbreviation loopB :=
  (Solver.loopB false candidates targetNum fileAName fileBName topK
     disallowDominant dominantMoreThan othersLessThan).
Local Abbreviation loopA :=
  (Solver.loopA false candidates targetNum fileAName fileBName topK
     disallowDominant dominantMoreThan othersLessThan).
Local Abbreviation loopY :=
  (Solver.loopY false targetNum fileAName fileBName topK
     disallowDominant dominantMoreThan othersLessThan).
Local Abbreviation loopJ :=
  (Solver.loopJ false targetNum fileAName fileBName topK
     disallowDominant dominantMoreThan othersLessThan).
Local Abbreviation loopI :=
  (Solver.loopI false targetNum fileAName fileBName topK
     disallowDominant dominantMoreThan othersLessThan).
Local Abbreviation closing := (Offers.closing targetNum).
Local Abbreviation guardsPass :=
  (Offers.guardsPass targetNum fileAName fileBName
     disallowDominant dominantMoreThan othersLessThan).

(** One attempt handed to [tryCollect]. *)
Local Abbreviation step := (fun st c => tryCollect st (picked c) (Fin (sum c))).

(** [tryCollect] leaves the collector alone on a sum that is no finite
    number. *)
Lemma tryCollect_not_finite (st : state) (picked : list item) (sum : num) :
  isFinite sum = false -> tryCollect st picked sum = st.
Proof.
  intros H. unfold Solver.tryCollect.
  destruct (gtb _ _); [reflexivity|]. destruct (negb _); [reflexivity|].
  destruct (_ <=? _)%nat; [reflexivity|].
  destruct (dominantWithSmallOthers _ _ _ _); [reflexivity|].
  now destruct sum.
Qed.

Lemma closing_fold (Z front : list item) (partial : num) (st : state) :
  fold_left step (closing Z front partial) st =
  if gtb partial targetNum then st
  else
    match Bisect.pickBestUnderOrEqual Z (sub targetNum partial) with
    | Some z => tryCollect st (front ++ [z]) (add partial (Fin (area z)))
    | None => st
    end.
Proof.
  unfold Offers.closing. destruct (gtb _ _); [reflexivity|].
  destruct (Bisect.pickBestUnderOrEqual _ _) as [z|]; [|reflexivity].
  destruct (add partial (Fin (area z))) eqn:E; try reflexivity;
    now rewrite tryCollect_not_finite.
Qed.

Lemma rev_take_S {A} (l : list A) (n : nat) (x : A) :
  l !! n = Some x -> rev (take (S n) l) = x :: rev (take n l).
Proof.
  intros H. rewrite (take_S_r l n x H), rev_app_distr. reflexivity.
Qed.

Lemma loopB_fold (a : item) (n : nat) (st : state) :
  (n <= length (gB byType))%nat ->
  loopB a n st =
  fold_left step
    (flat_map (fun b => closing (gC byType) [a; b] (total [area a; area b]))
       (rev (take n (gB byType)))) st.
Proof.
  revert st. induction n as [|ib IH]; intros st Hn; [reflexivity|].
  destruct (lookup_lt_is_Some_2 (gB byType) ib) as [b Hb]; [lia|].
  rewrite (rev_take_S _ ib b Hb). cbn [flat_map]. rewrite fold_left_app, closing_fold.
  cbn [Solver.loopB]. rewrite Hb. cbn [andb].
  destruct (gtb _ _); apply IH; lia.
Qed.

Lemma loopA_fold (n : nat) (st : state) :
  (n <= length (gA byType))%nat ->
  loopA n st =
  fold_left step
    (flat_map
       (fun a => flat_map (fun b => closing (gC byType) [a; b] (total [area a; area b]))
                   (rev (gB byType)))
       (rev (take n (gA byType)))) st.
Proof.
  revert st. induction n as [|ia IH]; intros st Hn; [reflexivity|].
  destruct (lookup_lt_is_Some_2 (gA byType) ia) as [a Ha]; [lia|].
  rewrite (rev_take_S _ ia a Ha). cbn [flat_map]. rewrite fold_left_app.
  cbn [Solver.loopA]. rewrite Ha.
  rewrite loopB_fold by lia. rewrite firstn_all. apply IH. lia.
Qed.

Lemma loopY_fold (Y Z : list item) (xi xj : item) (n : nat) (st : state) :
  (n <= length Y)%nat ->
  loopY Y Z xi xj (total [area xi; area xj]) n st =
  fold_left step
    (flat_map (fun y => closing Z [xi; xj; y] (total [area xi; area xj; area y]))
       (rev (take n Y))) st.
Proof.
  revert st. induction n as [|iy IH]; intros st Hn; [reflexivity|].
  destruct (lookup_lt_is_Some_2 Y iy) as [y Hy]; [lia|].
  rewrite (rev_take_S _ iy y Hy). cbn [flat_map]. rewrite fold_left_app, closing_fold.
  cbn [Solver.loopY]. rewrite Hy. cbn [andb].
  destruct (gtb _ _); apply IH; lia.
Qed.

Lemma loopJ_fold (X Y Z : list item) (xi : item) (n : nat) (st : state) :
  (n <= length X)%nat ->
  loopJ X Y Z xi n st =
  fold_left step
    (flat_map
       (fun xj =>
          if gtb (total [area xi; area xj]) targetNum then []
          else flat_map
                 (fun y => closing Z [xi; xj; y] (total [area xi; area xj; area y]))
                 (rev Y))
       (rev (take n X))) st.
Proof.
  revert st. induction n as [|j IH]; intros st Hn; [reflexivity|].
  destruct (lookup_lt_is_Some_2 X j) as [xj Hj]; [lia|].
  rewrite (rev_take_S _ j xj Hj). cbn [flat_map]. rewrite fold_left_app.
  cbn [Solver.loopJ]. rewrite Hj.
  destruct (gtb _ _); [apply IH; lia|].
  rewrite loopY_fold by lia. rewrite firstn_all. apply IH. lia.
Qed.

Lemma loopI_fold (X Y Z : list item) (n : nat) (st : state) :
  (n <= length X - 1)%nat ->
  loopI X Y Z n st =
  fold_left step
    (flat_map
       (fun i =>
          match X !! i with
          | Some xi =>
              flat_map
                (fun xj =>
                   if gtb (total [area xi; area xj]) targetNum then []
                   else flat_map
                          (fun y => closing Z [xi; xj; y] (total [area xi; area xj; area y]))
                          (rev Y))
                (rev (take i X))
          | None => []
          end)
       (rev (seq 1 n))) st.
Proof.
  revert st. induction n as [|i IH]; intros st Hn; [reflexivity|].
  destruct (lookup_lt_is_Some_2 X (S i)) as [xi Hi]; [lia|].
  rewrite seq_S, rev_app_distr. cbn [rev app flat_map Nat.add].
  rewrite Hi, fold_left_app.
  cbn [Solver.loopI]. rewrite Hi.
  rewrite loopJ_fold by lia. apply IH. lia.
Qed.

Lemma enumFour_fold (X Y Z : list item) (st : state) :
  Solver.enumFour false targetNum fileAName fileBName topK
    disallowDominant dominantMoreThan othersLessThan X Y Z st =
  fold_left step (Offers.four targetNum X Y Z) st.
Proof. unfold Solver.enumFour, Offers.four. now apply loopI_fold. Qed.

(** The enumeration without the cut hands the attempts to [tryCollect]
    one after the other. *)
Lemma search_fold :
  Solver.search false candidates targetNum fileAName fileBName topK
    disallowDominant dominantMoreThan othersLessThan =
  fold_left step (Offers.attempts candidates targetNum fileAName fileBName) empty.
Proof.
  unfold Solver.search, Offers.attempts. cbv zeta.
  rewrite !fold_left_app, !enumFour_fold.
  unfold Solver.enumThree, Offers.three.
  rewrite loopA_fold by lia. now rewrite firstn_all.
Qed.

Lemma step_guard (st : state) (c : candidate) :
  step st c = if guardsPass c then pushTopK st c topK else st.
Proof.
  unfold Solver.tryCollect, Offers.guardsPass.
  destruct (gtb _ _); [reflexivity|].
  destruct (hasAtLeastOneFromB _ _); [|reflexivity].
  destruct (2 <=? _)%nat; [reflexivity|].
  destruct (dominantWithSmallOthers _ _ _ _); [reflexivity|].
  cbn. now destruct c.
Qed.

Lemma fold_step_offers (l : list candidate) (st : state) :
  fold_left step l st =
  fold_left (fun st c => pushTopK st c topK) (List.filter guardsPass l) st.
Proof.
  revert st. induction l as [|c l IH]; intros st; [reflexivity|].
  cbn [fold_left List.filter]. rewrite step_guard.
  destruct (guardsPass c); cbn [fold_left]; apply IH.
Qed.

(** The search is the collector run on the offers. *)
Lemma search_offers :
  Solver.search true candidates targetNum fileAName fileBName topK
    disallowDominant dominantMoreThan othersLessThan =
  fold_left (fun st c => pushTopK st c topK)
    (Offers.offers candidates targetNum fileAName fileBName
       disallowDominant dominantMoreThan othersLessThan) empty.
Proof.
  rewrite search_cut, search_fold. unfold Offers.offers. apply fold_step_offers.
Qed.

End OfferFacts.

Section HighestOffers.
Import JS TopK SolverCommon Vocabulary Notions.

Lemma offerAll_holdsHighest (K : nat) (cands : list candidate) :
  keyDeterminesSum cands -> holdsHighest K cands (offerAll K cands).
Proof.
  induction cands as [|c pre IH] using rev_ind; intros Hkey.
  - split; [intros e He; inversion He|intros c Hc; inversion Hc].
  - rewrite offerAll_snoc. destruct (offerAll_ok K pre) as [Hok Hlen].
    apply holdsHighest_step; auto.
    apply IH. exact (keyDeterminesSum_prefix pre c Hkey).
Qed.

Lemma combination_needs_all_groups (g : groups) (picked : list item) (s : Q) :
  combination g picked s -> anyEmpty g = false.
Proof.
  assert (Hne : forall (l : list item) x, x ∈ l -> l <> []).
  { intros l x Hx ->. inversion Hx. }
  intros [a b c s' Ha Hb Hc _ | X Y Z i j xi xj y z s' Hd Hi Hj Hji Hy Hz _].
  - unfold anyEmpty. apply Hne in Ha, Hb, Hc.
    destruct (gA g); [contradiction|]. destruct (gB g); [contradiction|].
    destruct (gC g); [contradiction|]. reflexivity.
  - assert (Hx : xi ∈ X) by (apply list_elem_of_lookup; now exists i).
    apply Hne in Hx, Hy, Hz. unfold anyEmpty.
    destruct Hd as [(-> & -> & ->)|[(-> & -> & ->)|(-> & -> & ->)]];
      destruct (gA g); try contradiction; destruct (gB g); try contradiction;
      destruct (gC g); try contradiction; reflexivity.
Qed.

Variables (candidates : list rawCandidate) (target : num)
  (fileAName fileBName : jsstr)
  (disallowDominant : bool) (dominantMoreThan othersLessThan : num).

Local Abbreviation offered :=
  (Offers.offers candidates target fileAName fileBName
     disallowDominant dominantMoreThan othersLessThan).

(** With an empty group the search keeps nothing. *)
Lemma search_empty_group (prune : bool) (topK : num) :
  anyEmpty (Solver.byType candidates target fileAName fileBName) = true ->
  Solver.search prune candidates target fileAName fileBName topK
    disallowDominant dominantMoreThan othersLessThan = empty.
Proof.
  intros Hempty.
  apply (search_site prune candidates target fileAName fileBName topK
           disallowDominant dominantMoreThan othersLessThan (fun st => st = empty));
    [|reflexivity].
  intros st picked sm Hc Hst.
  destruct sm as [| | |s0];
    [now rewrite tryCollect_not_finite..|].
  specialize (Hc s0 eq_refl). apply combination_needs_all_groups in Hc. congruence.
Qed.


End HighestOffers.

Section HighestOffersWitness.
Import JS TopK SolverCommon Vocabulary Notions.


(** The rounded residual decides what is offered. The areas 81.79, 59.31
    and 121.17 add up to 262.27 as decimals; as doubles the first two add
    up to 141.10000000000002, which leaves 121.16999999999996 of the target
    262.27, below the third area: nothing is offered and nothing returned.
    Under the target 262.28 the combination is returned. *)
Example rounded_residual_misses_the_exact_fit :
  Offers.offers exactFitRows (Fin (round 262.27))
    Data.FILE_A_NAME Data.FILE_B_NAME false NaN NaN = [] /\
  Solver.bestTopKCombos exactFitRows (Fin (round 262.27))
    Data.FILE_A_NAME Data.FILE_B_NAME (Fin 3) false NaN NaN = [] /\
  map (fun r => (兑换面积 r, 浪费面积 r))
    (Solver.bestTopKCombos exactFitRows (Fin (round 262.28))
       Data.FILE_A_NAME Data.FILE_B_NAME (Fin 3) false NaN NaN) =
  [ (262.27, Fin 0.01) ]%Q.
Proof. repeat split; vm_compute; reflexivity. Qed.

End HighestOffersWitness.

(** ** The two revisions *)

Section FirstOfferFacts.
Import JS TopK SolverCommon Vocabulary Notions.

Variables (candidates : list rawCandidate) (targetNum : num)
  (fileAName fileBName : jsstr) (topK : num)
  (disallowDominant : bool) (dominantMoreThan othersLessThan : num).

Local Abbreviation byType1 := (SolverV1.byType candidates fileAName fileBName).
Local Abbreviation tryCollect1 :=
  (SolverV1.tryCollect targetNum fileBName topK
     disallowDominant dominantMoreThan othersLessThan).
Local Abbreviation closing := (Offers.closing targetNum).
Local Abbreviation guardsPass1 :=
  (OffersV1.guardsPass targetNum fileBName
     disallowDominant dominantMoreThan othersLessThan).

(** One attempt handed to the first [tryCollect]. *)
Local Abbreviation step1 := (fun st c => tryCollect1 st (picked c) (Fin (sum c))).

Lemma fold_flat_map {A B C} (f : A -> B -> A) (g : C -> list B) (l : list C) (a : A) :
  fold_left f (flat_map g l) a = fold_left (fun a x => fold_left f (g x) a) l a.
Proof.
  revert a. induction l as [|x l IH]; intros a; [reflexivity|].
  cbn [flat_map fold_left]. now rewrite fold_left_app, IH.
Qed.

Lemma fold_left_ext_in {A B} (f g : A -> B -> A) (l : list B) (a : A) :
  (forall a x, x ∈ l -> f a x = g a x) -> fold_left f l a = fold_left g l a.
Proof.
  revert a. induction l as [|x l IH]; intros a H; [reflexivity|].
  cbn [fold_left]. rewrite (H a x) by (apply elem_of_cons; now left).
  apply IH. intros a' y Hy. apply H, elem_of_cons. now right.
Qed.

Lemma tryCollect1_not_finite (st : state) (picked : list item) (sum : num) :
  isFinite sum = false -> tryCollect1 st picked sum = st.
Proof.
  intros H. unfold SolverV1.tryCollect.
  destruct (gtb _ _); [reflexivity|]. destruct (negb _); [reflexivity|].
  destruct (dominantWithSmallOthers _ _ _ _); [reflexivity|].
  now destruct sum.
Qed.

Lemma closing_fold1 (Z front : list item) (partial : num) (st : state) :
  fold_left step1 (closing Z front partial) st =
  if gtb partial targetNum then st
  else
    match Bisect.pickBestUnderOrEqual Z (sub targetNum partial) with
    | Some z => tryCollect1 st (front ++ [z]) (add partial (Fin (area z)))
    | None => st
    end.
Proof.
  unfold Offers.closing. destruct (gtb _ _); [reflexivity|].
  destruct (Bisect.pickBestUnderOrEqual _ _) as [z|]; [|reflexivity].
  destruct (add partial (Fin (area z))) eqn:E; try reflexivity;
    now rewrite tryCollect1_not_finite.
Qed.

Lemma enumThree1_fold (st : state) :
  SolverV1.enumThree candidates targetNum fileAName fileBName topK
    disallowDominant dominantMoreThan othersLessThan st =
  fold_left step1 (OffersV1.three candidates targetNum fileAName fileBName) st.
Proof.
  unfold SolverV1.enumThree, OffersV1.three. rewrite fold_flat_map.
  apply fold_left_ext_in. intros st' a _. rewrite fold_flat_map.
  apply fold_left_ext_in. intros st'' b _. now rewrite closing_fold1.
Qed.

Lemma enumFour1_fold (X Y Z : list item) (st : state) :
  SolverV1.enumFour targetNum fileBName topK
    disallowDominant dominantMoreThan othersLessThan X Y Z st =
  fold_left step1 (OffersV1.four targetNum X Y Z) st.
Proof.
  revert st. induction X as [|xi rest IH]; intros st; [reflexivity|].
  cbn [SolverV1.enumFour OffersV1.four]. rewrite fold_left_app, IH. f_equal.
  rewrite fold_flat_map. apply fold_left_ext_in. intros st' xj _.
  unfold SolverV1.pairThen. cbv zeta. cbn [total fold_left].
  destruct (gtb _ _); [reflexivity|].
  rewrite fold_flat_map. apply fold_left_ext_in. intros st'' y _.
  now rewrite closing_fold1.
Qed.

Lemma step1_guard (st : state) (c : candidate) :
  step1 st c = if guardsPass1 c then pushTopK st c topK else st.
Proof.
  unfold SolverV1.tryCollect, OffersV1.guardsPass.
  destruct (gtb _ _); [reflexivity|].
  destruct (hasAtLeastOneFromB _ _); [|reflexivity].
  destruct (dominantWithSmallOthers _ _ _ _); [reflexivity|].
  cbn. now destruct c.
Qed.

(** The first revision is the collector run on its offers. *)
Lemma search1_offers :
  SolverV1.search candidates targetNum fileAName fileBName topK
    disallowDominant dominantMoreThan othersLessThan =
  fold_left (fun st c => pushTopK st c topK)
    (OffersV1.offers candidates targetNum fileAName fileBName
       disallowDominant dominantMoreThan othersLessThan) empty.
Proof.
  unfold SolverV1.search, OffersV1.offers, OffersV1.attempts. cbv zeta.
  rewrite !enumFour1_fold, enumThree1_fold, <- !fold_left_app.
  generalize (OffersV1.three candidates targetNum fileAName fileBName ++
              OffersV1.four targetNum (gA byType1) (gB byType1) (gC byType1) ++
              OffersV1.four targetNum (gB byType1) (gA byType1) (gC byType1) ++
              OffersV1.four targetNum (gC byType1) (gA byType1) (gB byType1)).
  intros l. generalize empty. induction l as [|c l IH]; intros st; [reflexivity|].
  cbn [fold_left List.filter]. rewrite step1_guard.
  destruct (guardsPass1 c); cbn [fold_left]; apply IH.
Qed.

End FirstOfferFacts.

Section SameOffers.
Import JS TopK SolverCommon Vocabulary Notions.

Lemma sameOffers_sym (o1 o2 : list candidate) : sameOffers o1 o2 -> sameOffers o2 o1.
Proof.
  intros [H1 H2]. split.
  - intros c Hc. destruct (H2 c Hc) as (d & Hd & Ek & Es). exists d. split; [exact Hd|].
    split; [now symmetry|]. now symmetry.
  - intros d Hd. destruct (H1 d Hd) as (c & Hc & Ek & Es). exists c. split; [exact Hc|].
    split; [now symmetry|]. now symmetry.
Qed.

Lemma sameOffers_key (o1 o2 : list candidate) :
  sameOffers o1 o2 -> keyDeterminesSum o1 -> keyDeterminesSum o2.
Proof.
  intros [_ H2] Hkey c d Hc Hd E.
  destruct (H2 c Hc) as (c' & Hc' & Ekc & Esc).
  destruct (H2 d Hd) as (d' & Hd' & Ekd & Esd).
  rewrite <- Esc, <- Esd. apply Hkey; try assumption.
  unfold keyOf in *. congruence.
Qed.

(** Two collectors that hold the highest of the same offers. *)
Section Two.
Variables (K : nat) (o1 o2 : list candidate) (st1 st2 : state).
Hypothesis same : sameOffers o1 o2.
Hypothesis key2 : keyDeterminesSum o2.
Hypothesis ok1 : collectorOK st1.
Hypothesis ok2 : collectorOK st2.
Hypothesis high1 : holdsHighest K o1 st1.
Hypothesis high2 : holdsHighest K o2 st2.
Hypothesis len2 : (length (topList st2) <= K)%nat.

(** An entry of the first list above an entry of the second has its key
    in the second. *)
Lemma entry_found (e1 e2 : candidate) :
  e1 ∈ topList st1 -> e2 ∈ topList st2 -> (sum e2 < sum e1)%Q ->
  exists e', e' ∈ topList st2 /\ keyOf e' = keyOf e1 /\ (sum e' == sum e1)%Q.
Proof.
  intros H1 H2 Hlt. destruct high1 as [Hfrom1 _]. destruct high2 as [Hfrom2 Hbest2].
  destruct same as [Hs _].
  destruct (Hs e1 (Hfrom1 e1 H1)) as (d & Hd & Ek & Es).
  destruct (Hbest2 d Hd) as [(e' & He' & Ek')|[_ Hall]].
  - exists e'. split; [exact He'|]. split; [unfold keyOf in *; congruence|].
    rewrite Es. apply key2; [now apply Hfrom2|exact Hd|exact Ek'].
  - specialize (Hall e2 H2). lra.
Qed.

Lemma length_le : (length (topList st2) <= length (topList st1))%nat.
Proof.
  destruct (le_lt_dec (length (topList st2)) (length (topList st1))) as [H|H];
    [exact H|].
  destruct high1 as [_ Hbest1]. destruct high2 as [Hfrom2 _]. destruct same as [_ Hs].
  assert (Hsub : forall k, k ∈ map keyOf (topList st2) -> k ∈ map keyOf (topList st1)).
  { intros k Hk. apply list_elem_of_fmap in Hk as (e2 & -> & He2).
    destruct (Hs e2 (Hfrom2 e2 He2)) as (c & Hc & Ek & _).
    destruct (Hbest1 c Hc) as [(e & He & Eke)|[Hl _]]; [|lia].
    apply list_elem_of_fmap. exists e. split; [|exact He]. unfold keyOf in *. congruence. }
  pose proof (submseteq_length _ _
                (NoDup_submseteq _ _ (ok_nodup _ ok2) Hsub)) as Hl.
  rewrite !length_map in Hl. exact Hl.
Qed.

Lemma sums_le (i : nat) (e1 e2 : candidate) :
  topList st1 !! i = Some e1 -> topList st2 !! i = Some e2 -> (sum e1 <= sum e2)%Q.
Proof.
  intros H1 H2. apply Qnot_lt_le. intros Hlt.
  pose proof (sorted_descending _ (ok_sorted _ ok1)) as D1.
  pose proof (sorted_descending _ (ok_sorted _ ok2)) as D2.
  assert (Hsub : forall k, k ∈ map keyOf (take (S i) (topList st1)) ->
                           k ∈ map keyOf (take i (topList st2))).
  { intros k Hk. apply list_elem_of_fmap in Hk as (e & -> & He).
    apply list_elem_of_lookup in He as [j Hj].
    apply lookup_take_Some in Hj as [Hj Hji].
    assert (Hge : (sum e1 <= sum e)%Q) by (apply (D1 j i e e1 Hj H1); lia).
    destruct (entry_found e e2) as (e' & He' & Ek & Es).
    { apply list_elem_of_lookup. now exists j. }
    { apply list_elem_of_lookup. now exists i. }
    { lra. }
    apply list_elem_of_fmap. exists e'. split; [now symmetry|].
    apply list_elem_of_lookup in He' as [j' Hj'].
    apply list_elem_of_lookup. exists j'. apply lookup_take_Some. split; [exact Hj'|].
    destruct (le_lt_dec i j') as [Hc|Hc]; [|exact Hc].
    pose proof (D2 i j' e2 e' H2 Hj' Hc). lra. }
  assert (Hnd : NoDup (map keyOf (take (S i) (topList st1)))).
  { rewrite <- firstn_map. apply (sublist_NoDup _ _ (ok_nodup _ ok1)), sublist_take. }
  pose proof (submseteq_length _ _ (NoDup_submseteq _ _ Hnd Hsub)) as Hl.
  rewrite !length_map, !length_take in Hl.
  apply lookup_lt_Some in H1. lia.
Qed.

End Two.

(** The collector keeps lists of the same sums on lists of offers that
    hold the same combinations, in whatever order these are offered and
    their picks are listed. *)
Lemma offerAll_same_sums (K : nat) (o1 o2 : list candidate) :
  sameOffers o1 o2 -> keyDeterminesSum o1 ->
  Forall2 (fun a b => (sum a == sum b)%Q)
    (topList (offerAll K o1)) (topList (offerAll K o2)).
Proof.
  intros Hsame Hkey1.
  pose proof (sameOffers_key _ _ Hsame Hkey1) as Hkey2.
  pose proof (sameOffers_sym _ _ Hsame) as Hsame'.
  destruct (offerAll_ok K o1) as [Hok1 Hlen1]. destruct (offerAll_ok K o2) as [Hok2 Hlen2].
  pose proof (offerAll_holdsHighest K o1 Hkey1) as Hh1.
  pose proof (offerAll_holdsHighest K o2 Hkey2) as Hh2.
  apply Forall2_same_length_lookup_2.
  - apply Nat.le_antisymm.
    + exact (length_le K o2 o1 _ _ Hsame' Hok1 Hh2 Hh1 Hlen1).
    + exact (length_le K o1 o2 _ _ Hsame Hok2 Hh1 Hh2 Hlen2).
  - intros i e1 e2 H1 H2. apply Qle_antisym.
    + exact (sums_le K o1 o2 _ _ Hsame Hkey2 Hok1 Hok2 Hh1 Hh2 Hlen2 i e1 e2 H1 H2).
    + exact (sums_le K o2 o1 _ _ Hsame' Hkey1 Hok2 Hok1 Hh2 Hh1 Hlen1 i e2 e1 H2 H1).
Qed.

End SameOffers.

Section PrefixFacts.
Import JS Bisect TopK SolverCommon Vocabulary Notions.

(** The rows within a bound are the first rows of an ascending array. *)
Lemma within_is_prefix (arr : list item) (T : num) :
  ascending arr ->
  exists n, List.filter (fun x => leb (Fin (area x)) T) arr = take n arr /\
    (n <= length arr)%nat /\
    (forall i x, arr !! i = Some x -> leb (Fin (area x)) T = true -> (i < n)%nat).
Proof.
  intros Hasc.
  destruct (bisectRightByArea_spec arr T Hasc) as (pos & _ & Hlen & Hlo & Hhi).
  exists pos. split; [apply (filter_split_at _ arr pos Hlo Hhi)|]. split; [exact Hlen|].
  intros i x Hi Hx. destruct (le_lt_dec pos i) as [Hc|Hc]; [|exact Hc].
  rewrite (Hhi i x Hc Hi) in Hx. discriminate.
Qed.

Lemma ascending_take (arr : list item) (n : nat) : ascending arr -> ascending (take n arr).
Proof.
  intros Hasc i j x y Hi Hj Hij.
  apply lookup_take_Some in Hi as [Hi _]. apply lookup_take_Some in Hj as [Hj _].
  exact (Hasc i j x y Hi Hj Hij).
Qed.

(** The best-fit row for a residual within the bound is found among the
    rows within the bound. *)
Lemma pick_within (arr : list item) (r T : num) :
  ascending arr -> leb r T = true ->
  pickBestUnderOrEqual (List.filter (fun x => leb (Fin (area x)) T) arr) r =
  pickBestUnderOrEqual arr r.
Proof.
  intros Hasc HrT.
  destruct (within_is_prefix arr T Hasc) as (n & -> & Hn & Hin).
  destruct (bisectRightByArea_spec arr r Hasc) as (p1 & E1 & Hl1 & Hlo1 & Hhi1).
  destruct (bisectRightByArea_spec (take n arr) r (ascending_take arr n Hasc))
    as (p2 & E2 & Hl2 & Hlo2 & Hhi2).
  rewrite length_take in Hl2.
  assert (H1n : (p1 <= n)%nat).
  { destruct (le_lt_dec p1 n) as [Hc|Hc]; [exact Hc|].
    destruct (lookup_lt_is_Some_2 arr n) as [x Hx]; [lia|].
    pose proof (Hin n x Hx (leb_trans _ _ _ (Hlo1 n x Hc Hx) HrT)). lia. }
  assert (E : p2 = p1).
  { destruct (lt_eq_lt_dec p1 p2) as [[Hc|Hc]|Hc]; [|now symmetry|].
    - destruct (lookup_lt_is_Some_2 arr p1) as [x Hx]; [lia|].
      assert (Hx2 : take n arr !! p1 = Some x)
        by (apply lookup_take_Some; split; [exact Hx|lia]).
      pose proof (Hlo2 p1 x Hc Hx2). pose proof (Hhi1 p1 x (Nat.le_refl _) Hx). congruence.
    - destruct (lookup_lt_is_Some_2 arr p2) as [x Hx]; [lia|].
      assert (Hx2 : take n arr !! p2 = Some x)
        by (apply lookup_take_Some; split; [exact Hx|lia]).
      pose proof (Hhi2 p2 x (Nat.le_refl _) Hx2). pose proof (Hlo1 p2 x Hc Hx). congruence. }
  unfold pickBestUnderOrEqual. rewrite E1, E2, E. destruct p1 as [|idx]; [reflexivity|].
  rewrite lookup_take. destruct (decide (idx < n)%nat); [reflexivity|lia].
Qed.

End PrefixFacts.

Section AttemptFacts.
Import JS Bisect TopK SolverCommon Vocabulary Notions.

Lemma elem_of_flat_map {A B} (f : A -> list B) (l : list A) (y : B) :
  y ∈ flat_map f l <-> exists x, x ∈ l /\ y ∈ f x.
Proof.
  rewrite list_elem_of_In, in_flat_map. split; intros (x & Hx & Hy); exists x;
    [rewrite !list_elem_of_In|rewrite <- !list_elem_of_In]; auto.
Qed.

Lemma elem_of_rev {A} (l : list A) (x : A) : x ∈ rev l <-> x ∈ l.
Proof. rewrite !list_elem_of_In. symmetry. apply in_rev. Qed.

Lemma add_commutes (a b : Q) : add (Fin a) (Fin b) = add (Fin b) (Fin a).
Proof. simpl. apply number_comp. ring. Qed.

(** A double that is part of a sum within the target is within the
    target. *)
Lemma part_within (p : num) (a t : Q) :
  isDouble a = true -> leb (Fin 0) p = true ->
  gtb (add p (Fin a)) (Fin t) = false -> leb (Fin a) (Fin t) = true.
Proof.
  intros Ha Hp H. apply isDouble_spec in Ha as (Hr & Ea & _ & Hb).
  destruct p as [| | |r]; try discriminate. simpl in Hp. apply Qle_bool_iff in Hp.
  simpl in H. pose proof (round_ge (r + a) a Hr ltac:(lra)) as G.
  destruct (number_cases (r + a)) as [[E _]|[[E B]|[E _]]]; rewrite E in H.
  - discriminate.
  - exfalso. pose proof (pow2_pos 1024). lra.
  - simpl in H. apply Qltb_ge in H. apply Qle_bool_iff. lra.
Qed.

Lemma closing_elem (T : num) (Z front : list item) (p : num) (c : candidate) :
  c ∈ Offers.closing T Z front p <->
  gtb p T = false /\
  exists z s, pickBestUnderOrEqual Z (sub T p) = Some z /\
    add p (Fin (area z)) = Fin s /\ c = Candidate s (front ++ [z]).
Proof.
  unfold Offers.closing. destruct (gtb p T).
  - split; [intros H; inversion H|intros [H _]; discriminate].
  - destruct (pickBestUnderOrEqual Z (sub T p)) as [z|].
    + destruct (add p (Fin (area z))) as [| | |s] eqn:E.
      1-3: split; [intros H; inversion H|intros (_ & z' & s' & [= <-] & E' & _); congruence].
      rewrite list_elem_of_singleton. split.
      * intros ->. split; [reflexivity|]. exists z, s. auto.
      * intros (_ & z' & s' & [= <-] & E' & ->). congruence.
    + split; [intros H; inversion H|intros (_ & z' & s' & H & _); discriminate].
Qed.

(** The residual of a partial sum that is not below zero is within a
    target that is a double. *)
Lemma residual_within (t : Q) (p : num) :
  isDouble t = true -> leb (Fin 0) p = true -> gtb p (Fin t) = false ->
  leb (sub (Fin t) p) (Fin t) = true.
Proof.
  intros Ht Hp Hg. apply isDouble_spec in Ht as (_ & Et & En & _).
  destruct p as [| | |r]; try discriminate. simpl in Hp. apply Qle_bool_iff in Hp.
  simpl. apply (leb_trans _ (number t)); [apply number_mono; lra|].
  rewrite En. apply leb_Fin. lra.
Qed.

Lemma closing_within (t : Q) (Z front : list item) (p : num) :
  isDouble t = true -> ascending Z -> leb (Fin 0) p = true ->
  Offers.closing (Fin t) (List.filter (fun x => leb (Fin (area x)) (Fin t)) Z) front p =
  Offers.closing (Fin t) Z front p.
Proof.
  intros Ht Hasc Hp. unfold Offers.closing.
  destruct (gtb p (Fin t)) eqn:Hg; [reflexivity|].
  rewrite pick_within; [reflexivity|exact Hasc|now apply residual_within].
Qed.

Section Enumerations.
Variable T : num.

Lemma four1_elem (X Y Z : list item) (c : candidate) :
  c ∈ OffersV1.four T X Y Z <->
  exists i j xi xj y, (i < j)%nat /\ X !! i = Some xi /\ X !! j = Some xj /\
    gtb (total [area xi; area xj]) T = false /\ y ∈ Y /\
    c ∈ Offers.closing T Z [xi; xj; y] (total [area xi; area xj; area y]).
Proof.
  induction X as [|x0 rest IH].
  - split; [intros H; inversion H|intros (i & j & xi & xj & y & _ & H & _); discriminate].
  - cbn [OffersV1.four]. rewrite elem_of_app, elem_of_flat_map, IH. split.
    + intros [(xj & Hxj & Hc)|(i & j & xi & xj & y & Hij & Hi & Hj & Hg & Hy & Hc)].
      * apply list_elem_of_lookup in Hxj as [j Hj].
        destruct (gtb (total [area x0; area xj]) T) eqn:Hg; [inversion Hc|].
        apply elem_of_flat_map in Hc as (y & Hy & Hc).
        exists 0%nat, (S j), x0, xj, y. repeat split; auto. lia.
      * exists (S i), (S j), xi, xj, y. repeat split; auto. lia.
    + intros (i & j & xi & xj & y & Hij & Hi & Hj & Hg & Hy & Hc).
      destruct j as [|j]; [lia|]. destruct i as [|i].
      * left. injection Hi as <-. exists xj. split; [apply list_elem_of_lookup; eauto|].
        rewrite Hg. apply elem_of_flat_map. eauto.
      * right. exists i, j, xi, xj, y. repeat split; auto. lia.
Qed.

Lemma four_elem (X Y Z : list item) (c : candidate) :
  c ∈ Offers.four T X Y Z <->
  exists i j xi xj y, (j < i)%nat /\ X !! i = Some xi /\ X !! j = Some xj /\
    gtb (total [area xi; area xj]) T = false /\ y ∈ Y /\
    c ∈ Offers.closing T Z [xi; xj; y] (total [area xi; area xj; area y]).
Proof.
  unfold Offers.four. rewrite elem_of_flat_map. split.
  - intros (i & Hi & Hc). destruct (X !! i) as [xi|] eqn:Exi; [|inversion Hc].
    apply elem_of_flat_map in Hc as (xj & Hxj & Hc).
    rewrite elem_of_rev in Hxj. apply list_elem_of_lookup in Hxj as [j Hj].
    apply lookup_take_Some in Hj as [Hj Hji].
    destruct (gtb (total [area xi; area xj]) T) eqn:Hg; [inversion Hc|].
    apply elem_of_flat_map in Hc as (y & Hy & Hc). rewrite elem_of_rev in Hy.
    exists i, j, xi, xj, y. repeat split; auto.
  - intros (i & j & xi & xj & y & Hji & Hi & Hj & Hg & Hy & Hc).
    exists i. split.
    + rewrite elem_of_rev, elem_of_seq. apply lookup_lt_Some in Hi. lia.
    + rewrite Hi. apply elem_of_flat_map. exists xj. split.
      * rewrite elem_of_rev. apply list_elem_of_lookup. exists j. apply lookup_take_Some. auto.
      * rewrite Hg. apply elem_of_flat_map. exists y. split; [now rewrite elem_of_rev|exact Hc].
Qed.

End Enumerations.

End AttemptFacts.

Section SwapFacts.
Import JS Bisect TopK SolverCommon Vocabulary Notions.

Lemma swapped_sym (c d : candidate) : swapped c d -> swapped d c.
Proof.
  intros (Es & x1 & x2 & rest & Ec & Ed). split; [now symmetry|].
  exists x2, x1, rest. auto.
Qed.

Lemma swapped_key (c d : candidate) : swapped c d -> keyOf c = keyOf d.
Proof.
  intros (_ & x1 & x2 & rest & Ec & Ed). unfold keyOf, makeKey. rewrite Ec, Ed.
  f_equal. apply sortDefault_perm. cbn [map]. apply perm_swap.
Qed.

Lemma swapped_largeQCount (fileAName : jsstr) (c d : candidate) :
  swapped c d ->
  Solver.largeQCount fileAName (picked c) = Solver.largeQCount fileAName (picked d).
Proof.
  intros (_ & x1 & x2 & rest & -> & ->). unfold Solver.largeQCount. cbn [fold_left].
  rewrite !largeQCount_from. lia.
Qed.

Lemma swapped_guards (T : num) (fileBName : jsstr) (disallowDominant : bool)
    (dominantMoreThan othersLessThan : num) (c d : candidate) :
  swapped c d ->
  OffersV1.guardsPass T fileBName disallowDominant dominantMoreThan othersLessThan c =
  OffersV1.guardsPass T fileBName disallowDominant dominantMoreThan othersLessThan d.
Proof.
  intros (Es & x1 & x2 & rest & Ec & Ed). unfold OffersV1.guardsPass.
  rewrite Es, Ec, Ed. f_equal; [f_equal|f_equal].
  - unfold hasAtLeastOneFromB. cbn [existsb].
    destruct (bool_decide (srcFile x1 = fileBName)), (bool_decide (srcFile x2 = fileBName));
      reflexivity.
  - unfold dominantWithSmallOthers.
    destruct (disallowDominant && isFinite dominantMoreThan && isFinite othersLessThan);
      [|reflexivity].
    cbv zeta. cbn [map List.filter].
    destruct (gtb (Fin (area x1)) dominantMoreThan), (gtb (Fin (area x2)) dominantMoreThan),
      (leb (Fin (area x1)) dominantMoreThan), (leb (Fin (area x2)) dominantMoreThan);
      cbn [length]; try reflexivity;
      match goal with |- context [(?n =? 1)%nat] => destruct (n =? 1)%nat end;
      try reflexivity; cbn [forallb];
      destruct (ltb (Fin (area x1)) othersLessThan), (ltb (Fin (area x2)) othersLessThan);
      reflexivity.
Qed.

Lemma guards_split (T : num) (fileAName fileBName : jsstr) (disallowDominant : bool)
    (dominantMoreThan othersLessThan : num) (c : candidate) :
  Offers.guardsPass T fileAName fileBName disallowDominant dominantMoreThan othersLessThan c =
  OffersV1.guardsPass T fileBName disallowDominant dominantMoreThan othersLessThan c &&
  negb (2 <=? Solver.largeQCount fileAName (picked c))%nat.
Proof.
  unfold Offers.guardsPass, OffersV1.guardsPass.
  destruct (negb (gtb _ _)), (hasAtLeastOneFromB _ _), (negb (2 <=? _)%nat),
    (negb (dominantWithSmallOthers _ _ _ _)); reflexivity.
Qed.

Lemma closing_swapped (T : num) (Z : list item) (xi xj y : item) (c : candidate) :
  c ∈ Offers.closing T Z [xi; xj; y] (total [area xi; area xj; area y]) ->
  exists d, d ∈ Offers.closing T Z [xj; xi; y] (total [area xj; area xi; area y]) /\
    swapped c d.
Proof.
  assert (E : total [area xj; area xi; area y] = total [area xi; area xj; area y])
    by (cbn [total fold_left]; now rewrite add_commutes).
  rewrite E. intros Hc. apply closing_elem in Hc as (Hg & z & s & Hz & Hs & ->).
  exists (Candidate s ([xj; xi; y] ++ [z])). split.
  - apply closing_elem. split; [exact Hg|]. exists z, s. auto.
  - split; [reflexivity|]. exists xi, xj, [y; z]. auto.
Qed.

End SwapFacts.

Section ItemFacts.
Import JS Bisect TopK SolverCommon Vocabulary Notions.

Lemma items_same (candidates : list rawCandidate) (fileAName fileBName : jsstr) :
  forallb isArrayRow candidates = true ->
  Solver.items candidates fileAName fileBName =
  SolverV1.items candidates fileAName fileBName.
Proof.
  unfold Solver.items, SolverV1.items.
  induction candidates as [|it l IH]; intros H; [reflexivity|].
  cbn [forallb] in H. apply andb_true_iff in H as [Hit Hl].
  cbn [omap list_omap]. rewrite (IH Hl). now destruct it.
Qed.

Lemma buildItem_area (fileAName fileBName : jsstr) (a : num) (t s : value)
    (c b r d : option jsstr) (x : item) :
  buildItem fileAName fileBName a t s c b r d = Some x -> a = Fin (area x).
Proof.
  unfold buildItem. destruct a as [| | |q]; try discriminate.
  destruct (Qle_bool q 0); [discriminate|].
  destruct (Normalize.normalizeType t) as [ty|]; [|discriminate].
  destruct (negb (isABC ty)); [discriminate|].
  destruct s; try discriminate.
  destruct (_ && _); [discriminate|].
  now intros [= <-].
Qed.

Lemma items_double (candidates : list rawCandidate) (fileAName fileBName : jsstr)
    (x : item) :
  forallb hasDoubleArea candidates = true ->
  x ∈ Solver.items candidates fileAName fileBName -> isDouble (area x) = true.
Proof.
  intros Hd Hx. unfold Solver.items in Hx.
  apply list_elem_of_omap in Hx as (it & Hit & Hx).
  rewrite forallb_forall in Hd. apply list_elem_of_In, Hd in Hit.
  destruct it; try discriminate; cbn [Solver.toItem] in Hx;
    apply buildItem_area in Hx; subst; exact Hit.
Qed.

End ItemFacts.

Section RevisionsAgree.
Import JS Bisect TopK SolverCommon Vocabulary Notions.

Variables (candidates : list rawCandidate) (t : Q)
  (fileAName fileBName : jsstr)
  (disallowDominant : bool) (dominantMoreThan othersLessThan : num).

Hypothesis target_double : isDouble t = true.
Hypothesis rows_arrays : forallb isArrayRow candidates = true.
Hypothesis rows_double : forallb hasDoubleArea candidates = true.

Local Abbreviation g1 := (SolverV1.byType candidates fileAName fileBName).
Local Abbreviation g2 := (Solver.byType candidates (Fin t) fileAName fileBName).
Local Abbreviation within := (List.filter (fun x : item => leb (Fin (area x)) (Fin t))).

Lemma groups_within :
  gA g2 = within (gA g1) /\ gB g2 = within (gB g1) /\ gC g2 = within (gC g1).
Proof.
  unfold Solver.byType, SolverV1.byType, Solver.underTarget.
  rewrite (items_same _ _ _ rows_arrays). cbv zeta. cbn [gA gB gC]. auto.
Qed.

Lemma groups_sound : positiveDoubles (gA g1) /\ positiveDoubles (gB g1) /\ positiveDoubles (gC g1).
Proof.
  assert (H : forall x, inGroups g1 x ->
                (0 < area x)%Q /\ isDouble (area x) = true).
  { intros x Hx. apply groupAndSort_elem in Hx.
    rewrite <- (items_same _ _ _ rows_arrays) in Hx.
    split; [exact (items_positive _ _ _ _ Hx)|exact (items_double _ _ _ _ rows_double Hx)]. }
  assert (S : forall l, l = gA g1 \/ l = gB g1 \/ l = gC g1 -> positiveDoubles l).
  { intros l Hl. split.
    - unfold SolverV1.byType, groupAndSort in Hl. cbv zeta in Hl. cbn [gA gB gC] in Hl.
      destruct Hl as [->|[->| ->]]; apply sorted_ascending, sortByArea_sorted.
    - intros x Hx. apply H. unfold inGroups.
      destruct Hl as [->|[->| ->]]; auto. }
  split; [|split]; apply S; auto.
Qed.

Lemma elem_within (l : list item) (x : item) :
  x ∈ within l <-> x ∈ l /\ leb (Fin (area x)) (Fin t) = true.
Proof. now rewrite !list_elem_of_In, filter_In. Qed.

Lemma first_nonneg (x : item) (l : list item) :
  positiveDoubles l -> x ∈ l -> leb (Fin 0) (Fin (area x)) = true.
Proof. intros [_ H] Hx. apply leb_Fin. destruct (H x Hx). lra. Qed.

(** The 3-item attempts of the two revisions are the same. *)
Lemma three_same (c : candidate) :
  c ∈ OffersV1.three candidates (Fin t) fileAName fileBName <->
  c ∈ Offers.three candidates (Fin t) fileAName fileBName.
Proof.
  destruct groups_within as (EA & EB & EC).
  destruct groups_sound as (SA & SB & SC).
  unfold OffersV1.three, Offers.three. rewrite EA, EB, EC.
  rewrite !elem_of_flat_map. split.
  - intros (a & Ha & Hc). apply elem_of_flat_map in Hc as (b & Hb & Hc).
    pose proof Hc as Hc'. apply closing_elem in Hc' as (Hg & _).
    cbn [total fold_left] in Hg.
    destruct (proj2 SA a Ha) as [Pa Da]. destruct (proj2 SB b Hb) as [Pb Db].
    exists a. split.
    + rewrite elem_of_rev. apply elem_within. split; [exact Ha|].
      rewrite add_commutes in Hg. apply (part_within (Fin (area b))); auto.
      apply leb_Fin. lra.
    + apply elem_of_flat_map. exists b. split.
      * rewrite elem_of_rev. apply elem_within. split; [exact Hb|].
        apply (part_within (Fin (area a))); auto. apply leb_Fin. lra.
      * rewrite closing_within; auto; [apply SC|].
        cbn [total fold_left]. apply add_nonneg; [apply leb_Fin|]; lra.
  - intros (a & Ha & Hc). apply elem_of_flat_map in Hc as (b & Hb & Hc).
    rewrite elem_of_rev in Ha, Hb. apply elem_within in Ha as [Ha _], Hb as [Hb _].
    destruct (proj2 SA a Ha) as [Pa Da]. destruct (proj2 SB b Hb) as [Pb Db].
    exists a. split; [exact Ha|]. apply elem_of_flat_map. exists b. split; [exact Hb|].
    rewrite closing_within in Hc; auto; [apply SC|].
    cbn [total fold_left]. apply add_nonneg; [apply leb_Fin|]; lra.
Qed.

Lemma four_forth (X Y Z : list item) (c : candidate) :
  positiveDoubles X -> positiveDoubles Y -> positiveDoubles Z ->
  c ∈ OffersV1.four (Fin t) X Y Z ->
  exists d, d ∈ Offers.four (Fin t) (within X) (within Y) (within Z) /\ swapped c d.
Proof.
  intros SX SY SZ Hc.
  apply four1_elem in Hc as (i & j & xi & xj & y & Hij & Hi & Hj & Hg & Hy & Hc).
  assert (Hxi : xi ∈ X) by (apply list_elem_of_lookup; eauto).
  assert (Hxj : xj ∈ X) by (apply list_elem_of_lookup; eauto).
  destruct (proj2 SX xi Hxi) as [Pi Di]. destruct (proj2 SX xj Hxj) as [Pj Dj].
  destruct (proj2 SY y Hy) as [Py Dy].
  pose proof Hc as Hc'. apply closing_elem in Hc' as (Hg3 & _).
  cbn [total fold_left] in Hg, Hg3.
  assert (Ti : leb (Fin (area xi)) (Fin t) = true).
  { rewrite add_commutes in Hg. apply (part_within (Fin (area xj))); auto. apply leb_Fin. lra. }
  assert (Tj : leb (Fin (area xj)) (Fin t) = true).
  { apply (part_within (Fin (area xi))); auto. apply leb_Fin. lra. }
  assert (N2 : leb (Fin 0) (add (Fin (area xi)) (Fin (area xj))) = true)
    by (apply add_nonneg; [apply leb_Fin|]; lra).
  assert (Ty : leb (Fin (area y)) (Fin t) = true)
    by (apply (part_within (add (Fin (area xi)) (Fin (area xj)))); auto).
  destruct (closing_swapped _ _ _ _ _ _ Hc) as (d & Hd & Hsw).
  exists d. split; [|exact Hsw].
  destruct (within_is_prefix X (Fin t) (proj1 SX)) as (n & En & Hn & Hin).
  apply four_elem. exists j, i, xj, xi, y. split; [exact Hij|].
  rewrite En. split; [apply lookup_take_Some; split; [exact Hj|now apply (Hin j xj)]|].
  split; [apply lookup_take_Some; split; [exact Hi|now apply (Hin i xi)]|].
  split; [cbn [total fold_left]; now rewrite add_commutes|].
  split; [now apply elem_within|].
  rewrite closing_within; auto; [apply SZ|].
  cbn [total fold_left]. rewrite (add_commutes (area xj)).
  apply add_nonneg; [exact N2|lra].
Qed.

Lemma four_back (X Y Z : list item) (d : candidate) :
  positiveDoubles X -> positiveDoubles Y -> positiveDoubles Z ->
  d ∈ Offers.four (Fin t) (within X) (within Y) (within Z) ->
  exists c, c ∈ OffersV1.four (Fin t) X Y Z /\ swapped c d.
Proof.
  intros SX SY SZ Hd.
  apply four_elem in Hd as (i & j & xi & xj & y & Hji & Hi & Hj & Hg & Hy & Hd).
  destruct (within_is_prefix X (Fin t) (proj1 SX)) as (n & En & Hn & Hin).
  rewrite En in Hi, Hj.
  apply lookup_take_Some in Hi as [Hi _]. apply lookup_take_Some in Hj as [Hj _].
  apply elem_within in Hy as [Hy _].
  assert (Hxi : xi ∈ X) by (apply list_elem_of_lookup; eauto).
  assert (Hxj : xj ∈ X) by (apply list_elem_of_lookup; eauto).
  destruct (proj2 SX xi Hxi) as [Pi Di]. destruct (proj2 SX xj Hxj) as [Pj Dj].
  destruct (proj2 SY y Hy) as [Py Dy].
  rewrite closing_within in Hd; auto; [|apply SZ|].
  2:{ cbn [total fold_left]. apply add_nonneg; [|lra].
      apply add_nonneg; [apply leb_Fin|]; lra. }
  destruct (closing_swapped _ _ _ _ _ _ Hd) as (c & Hc & Hsw).
  exists c. split; [|now apply swapped_sym].
  apply four1_elem. exists j, i, xj, xi, y. repeat split; auto.
  cbn [total fold_left] in *. now rewrite add_commutes.
Qed.

Local Abbreviation attempts1 := (OffersV1.attempts candidates (Fin t) fileAName fileBName).
Local Abbreviation attempts2 := (Offers.attempts candidates (Fin t) fileAName fileBName).

Lemma attempts_forth (c : candidate) :
  c ∈ attempts1 -> exists d, d ∈ attempts2 /\ (c = d \/ swapped c d).
Proof.
  destruct groups_within as (EA & EB & EC).
  destruct groups_sound as (SA & SB & SC).
  unfold OffersV1.attempts, Offers.attempts. rewrite EA, EB, EC, !elem_of_app.
  intros [H|[H|[H|H]]].
  - exists c. rewrite !elem_of_app. split; [left; now apply three_same|now left].
  - destruct (four_forth _ _ _ c SA SB SC H) as (d & Hd & Hsw). exists d.
    rewrite !elem_of_app. tauto.
  - destruct (four_forth _ _ _ c SB SA SC H) as (d & Hd & Hsw). exists d.
    rewrite !elem_of_app. tauto.
  - destruct (four_forth _ _ _ c SC SA SB H) as (d & Hd & Hsw). exists d.
    rewrite !elem_of_app. tauto.
Qed.

Lemma attempts_back (d : candidate) :
  d ∈ attempts2 -> exists c, c ∈ attempts1 /\ (c = d \/ swapped c d).
Proof.
  destruct groups_within as (EA & EB & EC).
  destruct groups_sound as (SA & SB & SC).
  unfold OffersV1.attempts, Offers.attempts. rewrite EA, EB, EC, !elem_of_app.
  intros [H|[H|[H|H]]].
  - exists d. rewrite !elem_of_app. split; [left; now apply three_same|now left].
  - destruct (four_back _ _ _ d SA SB SC H) as (c & Hc & Hsw). exists c.
    rewrite !elem_of_app. tauto.
  - destruct (four_back _ _ _ d SB SA SC H) as (c & Hc & Hsw). exists c.
    rewrite !elem_of_app. tauto.
  - destruct (four_back _ _ _ d SC SA SB H) as (c & Hc & Hsw). exists c.
    rewrite !elem_of_app. tauto.
Qed.

Local Abbreviation offers1 :=
  (OffersV1.offers candidates (Fin t) fileAName fileBName
     disallowDominant dominantMoreThan othersLessThan).
Local Abbreviation offers2 :=
  (Offers.offers candidates (Fin t) fileAName fileBName
     disallowDominant dominantMoreThan othersLessThan).

Hypothesis one_large :
  forallb (fun c => negb (2 <=? Solver.largeQCount fileAName (picked c))%nat) offers1 = true.

(** The two revisions offer the same combinations to the collector. *)
Lemma offers_same : sameOffers offers1 offers2.
Proof.
  split.
  - intros c Hc. pose proof Hc as Hl.
    rewrite forallb_forall in one_large. apply list_elem_of_In, one_large in Hl.
    unfold OffersV1.offers in Hc. apply list_elem_of_In, filter_In in Hc as [Hc Hg].
    apply list_elem_of_In, attempts_forth in Hc as (d & Hd & [<-|Hsw]).
    + exists c. split; [|split; reflexivity].
      apply list_elem_of_In, filter_In. split; [now apply list_elem_of_In|].
      now rewrite guards_split, Hg, Hl.
    + exists d. split; [|split; [now apply swapped_key|now rewrite (proj1 Hsw)]].
      apply list_elem_of_In, filter_In. split; [now apply list_elem_of_In|].
      rewrite guards_split, <- (swapped_guards _ _ _ _ _ c d Hsw), Hg.
      now rewrite <- (swapped_largeQCount fileAName c d Hsw), Hl.
  - intros d Hd.
    unfold Offers.offers in Hd. apply list_elem_of_In, filter_In in Hd as [Hd Hg].
    rewrite guards_split in Hg. apply andb_true_iff in Hg as [Hg _].
    apply list_elem_of_In, attempts_back in Hd as (c & Hc & [->|Hsw]).
    + exists d. split; [|split; reflexivity].
      apply list_elem_of_In, filter_In. split; [now apply list_elem_of_In|exact Hg].
    + exists c. split; [|split; [now apply swapped_key|now rewrite (proj1 Hsw)]].
      apply list_elem_of_In, filter_In. split; [now apply list_elem_of_In|].
      now rewrite (swapped_guards _ _ _ _ _ c d Hsw).
Qed.

End RevisionsAgree.

Section RevisionResults.
Import JS Bisect TopK SolverCommon Vocabulary Notions.

Lemma figures_of_sums (T : num) (fileBName : jsstr) (l1 l2 : list candidate) :
  Forall2 (fun a b => (sum a == sum b)%Q) l1 l2 ->
  map figures (map (Solver.format T fileBName) l2) =
  map figures (map (SolverV1.format T fileBName) l1).
Proof.
  induction 1 as [|a b l1 l2 E _ IH]; [reflexivity|].
  cbn [map]. rewrite IH. f_equal.
  unfold figures, Solver.format, SolverV1.format. cbv zeta. cbn [兑换面积 目标面积 浪费面积].
  now rewrite (toFixed6Q_comp _ _ E).
Qed.

Lemma anyEmpty_within (f : item -> bool) (g : groups) :
  anyEmpty g = true ->
  anyEmpty (Groups (List.filter f (gA g)) (List.filter f (gB g)) (List.filter f (gC g))) = true.
Proof.
  unfold anyEmpty. cbn [gA gB gC].
  destruct (gA g) as [|a la]; [reflexivity|]. destruct (gB g) as [|b lb].
  - intros _. now destruct (List.filter f (a :: la)).
  - destruct (gC g) as [|c lc]; [|discriminate]. intros _.
    destruct (List.filter f (a :: la)); [reflexivity|].
    now destruct (List.filter f (b :: lb)).
Qed.

Variables (candidates : list rawCandidate) (target : num)
  (fileAName fileBName : jsstr)
  (disallowDominant : bool) (dominantMoreThan othersLessThan : num).

(** What the two revisions return, in terms of their offers. *)
Lemma bestTopKCombos_offers (topK : num) (K : nat) :
  allowed topK = Some K ->
  Solver.bestTopKCombos candidates target fileAName fileBName topK
    disallowDominant dominantMoreThan othersLessThan =
  map (Solver.format target fileBName)
    (topList (offerAll K (Offers.offers candidates target fileAName fileBName
                            disallowDominant dominantMoreThan othersLessThan))).
Proof.
  intros HK. pose proof (normalizeTopK_allowed topK) as Hn. rewrite HK in Hn.
  destruct Hn as [Hn _].
  assert (E : Solver.search true candidates target fileAName fileBName
                (normalizeTopK topK) disallowDominant dominantMoreThan othersLessThan
              = offerAll K (Offers.offers candidates target fileAName fileBName
                              disallowDominant dominantMoreThan othersLessThan)).
  { rewrite Hn. apply search_offers. }
  unfold Solver.bestTopKCombos, Solver.searchResults.
  destruct (anyEmpty _) eqn:Hempty; [|now rewrite E].
  rewrite <- E, (search_empty_group _ _ _ _ _ _ _ true _ Hempty). reflexivity.
Qed.

Lemma search1_offerAll (topK : num) (K : nat) :
  allowed topK = Some K ->
  SolverV1.search candidates target fileAName fileBName (normalizeTopK topK)
    disallowDominant dominantMoreThan othersLessThan =
  offerAll K (OffersV1.offers candidates target fileAName fileBName
                disallowDominant dominantMoreThan othersLessThan).
Proof.
  intros HK. pose proof (normalizeTopK_allowed topK) as Hn. rewrite HK in Hn.
  destruct Hn as [Hn _]. rewrite Hn. apply search1_offers.
Qed.

End RevisionResults.

Section RevisionsReport.
Import JS Bisect TopK SolverCommon Vocabulary Notions.

(** On rows that both revisions read, the two revisions report the same
    sums, targets and gaps. *)
Lemma revisions_agree (candidates : list rawCandidate) (t : Q)
    (fileAName fileBName : jsstr) (topK : num) (K : nat)
    (disallowDominant : bool) (dominantMoreThan othersLessThan : num) :
  isDouble t = true -> allowed topK = Some K ->
  forallb isArrayRow candidates = true ->
  forallb hasDoubleArea candidates = true ->
  forallb (fun c => negb (2 <=? Solver.largeQCount fileAName (picked c))%nat)
    (OffersV1.offers candidates (Fin t) fileAName fileBName
       disallowDominant dominantMoreThan othersLessThan) = true ->
  keyDeterminesSum
    (OffersV1.offers candidates (Fin t) fileAName fileBName
       disallowDominant dominantMoreThan othersLessThan) ->
  map figures
    (Solver.bestTopKCombos candidates (Fin t) fileAName fileBName topK
       disallowDominant dominantMoreThan othersLessThan) =
  map figures
    (SolverV1.bestTopKCombos candidates (Fin t) fileAName fileBName topK
       disallowDominant dominantMoreThan othersLessThan).
Proof.
  intros Ht HK Harr Hdbl Hlarge Hkey.
  unfold SolverV1.bestTopKCombos, SolverV1.searchResults.
  destruct (anyEmpty (SolverV1.byType candidates fileAName fileBName)) eqn:Hempty.
  - unfold Solver.bestTopKCombos, Solver.searchResults, Solver.byType, Solver.underTarget.
    rewrite (items_same _ _ _ Harr). cbv zeta.
    fold (SolverV1.byType candidates fileAName fileBName).
    now rewrite anyEmpty_within.
  - rewrite (bestTopKCombos_offers _ _ _ _ _ _ _ topK K HK),
      (search1_offerAll _ _ _ _ _ _ _ topK K HK).
    apply figures_of_sums, offerAll_same_sums; [|exact Hkey].
    now apply offers_same.
Qed.

End RevisionsReport.

Section CutContract.
Import JS TopK SolverCommon Vocabulary Notions.

(** C4, as the code has it. For every pool, target and bound, the
    enumeration with the cut returns the same array as the same
    size-descending enumeration run to the end without the cut. The reason
    is the second part: on a collector that is full, a combination whose sum
    does not exceed the sum of the last entry leaves the list and the key
    set as they are, and that is the case of every combination that a
    [break] skips.

    The exhaustive enumeration of the source is the first revision, which
    is the collector run on the offers of its ascending loops (third part).
    It lists the two picks of one group in the other order, has no rule on
    picks above 100 and reads arrays only. The two revisions report the same
    sums, with the same target and gap, rank by rank (fourth part), when
    the target and the areas are doubles, every row is an array, no
    combination that the first revision offers has two picks above 100 from
    file A, and offers with the same key carry the same sum. *)
Theorem cut_keeps_result_of_descending_enumeration
    (candidates : list rawCandidate) (target : num) (fileAName fileBName : jsstr)
    (topK : num) (disallowDominant : bool) (dominantMoreThan othersLessThan : num) :
  Solver.bestTopKCombos candidates target fileAName fileBName topK
    disallowDominant dominantMoreThan othersLessThan =
  Solver.bestTopKCombosExhaustive candidates target fileAName fileBName topK
    disallowDominant dominantMoreThan othersLessThan /\
  (forall st picked sum0 worst,
     collectorOK st ->
     geb (ofNat (length (topList st))) (normalizeTopK topK) = true ->
     last (topList st) = Some worst ->
     leb sum0 (Fin (sum worst)) = true ->
     Solver.tryCollect target fileAName fileBName (normalizeTopK topK)
       disallowDominant dominantMoreThan othersLessThan st picked sum0 = st) /\
  (forall K,
     allowed topK = Some K ->
     SolverV1.search candidates target fileAName fileBName (normalizeTopK topK)
       disallowDominant dominantMoreThan othersLessThan =
     offerAll K (OffersV1.offers candidates target fileAName fileBName
                   disallowDominant dominantMoreThan othersLessThan)) /\
  (forall t K,
     target = Fin t -> isDouble t = true -> allowed topK = Some K ->
     forallb isArrayRow candidates = true ->
     forallb hasDoubleArea candidates = true ->
     forallb (fun c => negb (2 <=? Solver.largeQCount fileAName (picked c))%nat)
       (OffersV1.offers candidates target fileAName fileBName
          disallowDominant dominantMoreThan othersLessThan) = true ->
     keyDeterminesSum
       (OffersV1.offers candidates target fileAName fileBName
          disallowDominant dominantMoreThan othersLessThan) ->
     map figures
       (Solver.bestTopKCombos candidates target fileAName fileBName topK
          disallowDominant dominantMoreThan othersLessThan) =
     map figures
       (SolverV1.bestTopKCombos candidates target fileAName fileBName topK
          disallowDominant dominantMoreThan othersLessThan)).
Proof.
  split.
  { unfold Solver.bestTopKCombos, Solver.bestTopKCombosExhaustive, Solver.searchResults.
    rewrite search_cut. reflexivity. }
  split; [intros st picked sum0 worst; apply tryCollect_no_gain|].
  split; [intros K; apply search1_offerAll|].
  intros t K -> Ht HK Harr Hdbl Hlarge Hkey. now apply (revisions_agree _ _ _ _ _ K).
Qed.

(** An instance of the fourth part: the rows of [decimalRows] under the
    target 262.27 and the bound 3; and one of the second part: the
    collector holds the entry of sum 20 under the bound 1, and a
    combination of sum 10 is offered. *)
Lemma cut_keeps_result_of_descending_enumeration_witness :
  (isDouble (round 262.27) = true /\
   allowed (Fin 3) = Some 3%nat /\
   forallb isArrayRow decimalRows = true /\
   forallb hasDoubleArea decimalRows = true /\
   forallb (fun c => negb (2 <=? Solver.largeQCount Data.FILE_A_NAME (picked c))%nat)
     (OffersV1.offers decimalRows (Fin (round 262.27))
        Data.FILE_A_NAME Data.FILE_B_NAME false NaN NaN) = true /\
   keyDeterminesSum
     (OffersV1.offers decimalRows (Fin (round 262.27))
        Data.FILE_A_NAME Data.FILE_B_NAME false NaN NaN) /\
   map figures
     (Solver.bestTopKCombos decimalRows (Fin (round 262.27))
        Data.FILE_A_NAME Data.FILE_B_NAME (Fin 3) false NaN NaN) =
   map figures
     (SolverV1.bestTopKCombos decimalRows (Fin (round 262.27))
        Data.FILE_A_NAME Data.FILE_B_NAME (Fin 3) false NaN NaN)) /\
  (collectorOK (offerAll 1 [Candidate 20 pickQ]) /\
   Solver.tryCollect (Fin 40) (str "p") (str "q") (normalizeTopK (Fin 1))
     false NaN NaN (offerAll 1 [Candidate 20 pickQ]) pickP (Fin 10) =
   offerAll 1 [Candidate 20 pickQ]).
Proof.
  split.
  - assert (H1 : isDouble (round 262.27) = true) by (vm_compute; reflexivity).
    assert (H2 : allowed (Fin 3) = Some 3%nat) by reflexivity.
    assert (H3 : forallb isArrayRow decimalRows = true) by reflexivity.
    assert (H4 : forallb hasDoubleArea decimalRows = true) by (vm_compute; reflexivity).
    assert (H5 : forallb
                   (fun c => negb (2 <=? Solver.largeQCount Data.FILE_A_NAME (picked c))%nat)
                   (OffersV1.offers decimalRows (Fin (round 262.27))
                      Data.FILE_A_NAME Data.FILE_B_NAME false NaN NaN) = true)
      by (vm_compute; reflexivity).
    assert (H6 : keyDeterminesSum
                   (OffersV1.offers decimalRows (Fin (round 262.27))
                      Data.FILE_A_NAME Data.FILE_B_NAME false NaN NaN))
      by (apply keyDeterminesSumb_sound; vm_compute; reflexivity).
    repeat (split; [assumption|]).
    exact (proj2 (proj2 (proj2 (cut_keeps_result_of_descending_enumeration
                    decimalRows (Fin (round 262.27)) Data.FILE_A_NAME Data.FILE_B_NAME
                    (Fin 3) false NaN NaN)))
             (round 262.27) 3%nat eq_refl H1 H2 H3 H4 H5 H6).
  - split; [apply offerAll_ok|].
    apply (proj1 (proj2 (cut_keeps_result_of_descending_enumeration
                    [] (Fin 40) (str "p") (str "q") (Fin 1) false NaN NaN))
             (offerAll 1 [Candidate 20 pickQ]) pickP (Fin 10) (Candidate 20 pickQ)).
    + apply offerAll_ok.
    + vm_compute. reflexivity.
    + vm_compute. reflexivity.
    + vm_compute. reflexivity.
Defined.

(** C4, against the claim as stated: what the enumeration with the cut
    returns is not what the exhaustive enumeration of the first revision
    returns.
    - On the rows of [tiedRows] with target 35 and bound 1, two combinations
      reach the sum 35. The ascending loops meet the areas 10, 20, 5 first
      and keep them; the descending loops keep 20, 10, 5.
    - On the rows of [pairRows] with target 43 the one best combination
      takes both A-rows: the first revision lists them as 10, 20, the
      current one as 20, 10.
    - On the rows of [largeRows] with target 300 the first revision returns
      the combination of sum 250; the current one drops it for its two picks
      above 100 from file A and returns nothing.
    - On the rows of [objectRows] with target 40 the first revision reads
      no row and returns nothing; the current one returns the combination
      of sum 23. *)
Lemma cut_differs_from_ascending_enumeration :
  (map outline
     (Solver.bestTopKCombos tiedRows (Fin 35) Data.FILE_A_NAME Data.FILE_B_NAME
        (Fin 1) false NaN NaN) = [ ([20; 10; 5], 35, Fin 0) ]%Q /\
   map outline
     (SolverV1.bestTopKCombos tiedRows (Fin 35) Data.FILE_A_NAME Data.FILE_B_NAME
        (Fin 1) false NaN NaN) = [ ([10; 20; 5], 35, Fin 0) ]%Q) /\
  (map outline
     (Solver.bestTopKCombos pairRows (Fin 43) Data.FILE_A_NAME Data.FILE_B_NAME
        (Fin 1) false NaN NaN) = [ ([20; 10; 5; 8], 43, Fin 0) ]%Q /\
   map outline
     (SolverV1.bestTopKCombos pairRows (Fin 43) Data.FILE_A_NAME Data.FILE_B_NAME
        (Fin 1) false NaN NaN) = [ ([10; 20; 5; 8], 43, Fin 0) ]%Q) /\
  (Solver.bestTopKCombos largeRows (Fin 300) Data.FILE_A_NAME Data.FILE_B_NAME
     (Fin 1) false NaN NaN = [] /\
   map outline
     (SolverV1.bestTopKCombos largeRows (Fin 300) Data.FILE_A_NAME Data.FILE_B_NAME
        (Fin 1) false NaN NaN) = [ ([120; 110; 20], 250, Fin 50) ]%Q) /\
  (map outline
     (Solver.bestTopKCombos objectRows (Fin 40) Data.FILE_A_NAME Data.FILE_B_NAME
        (Fin 1) false NaN NaN) = [ ([10; 5; 8], 23, Fin 17) ]%Q /\
   SolverV1.bestTopKCombos objectRows (Fin 40) Data.FILE_A_NAME Data.FILE_B_NAME
     (Fin 1) false NaN NaN = []) /\
  Solver.bestTopKCombos tiedRows (Fin 35) Data.FILE_A_NAME Data.FILE_B_NAME
    (Fin 1) false NaN NaN <>
  SolverV1.bestTopKCombos tiedRows (Fin 35) Data.FILE_A_NAME Data.FILE_B_NAME
    (Fin 1) false NaN NaN.
Proof.
  repeat (split; [split; vm_compute; reflexivity|]).
  vm_compute. discriminate.
Qed.

End CutContract.

Section RangeFacts.
Import JS Ranges Notions.
Context {T : Type} (area : T -> Q).

Lemma boundLoop_O (test : T -> bool) (arr : list T) (l r : nat) :
  boundLoop 0 test arr l r = if (l <? r)%nat then None else Some l.
Proof. reflexivity. Qed.

Lemma boundLoop_S (fuel : nat) (test : T -> bool) (arr : list T) (l r : nat) :
  boundLoop (S fuel) test arr l r =
  if (l <? r)%nat then
    match arr !! Nat.shiftr (l + r) 1 with
    | Some x =>
        if test x then boundLoop fuel test arr (Nat.shiftr (l + r) 1 + 1) r
        else boundLoop fuel test arr l (Nat.shiftr (l + r) 1)
    | None => None
    end
  else Some l.
Proof. reflexivity. Qed.

(** On an array along which [test] never turns from false to true, the
    loop ends at the first index where [test] fails. *)
Lemma boundLoop_spec (test : T -> bool) (arr : list T) :
  (forall i j x y, arr !! i = Some x -> arr !! j = Some y -> (i <= j)%nat ->
     test y = true -> test x = true) ->
  forall fuel l r,
    (l <= r <= length arr)%nat -> (r - l <= fuel)%nat ->
    (forall i x, (i < l)%nat -> arr !! i = Some x -> test x = true) ->
    (forall i x, (r <= i)%nat -> arr !! i = Some x -> test x = false) ->
    exists pos, boundLoop fuel test arr l r = Some pos /\
      (pos <= length arr)%nat /\
      (forall i x, (i < pos)%nat -> arr !! i = Some x -> test x = true) /\
      (forall i x, (pos <= i)%nat -> arr !! i = Some x -> test x = false).
Proof.
  intros Hmono fuel. induction fuel as [|fuel IH]; intros l r Hlr Hfuel Hlo Hhi.
  - rewrite boundLoop_O. destruct (Nat.ltb_spec l r); [lia|].
    assert (l = r) by lia. subst. exists r. repeat split; auto; lia.
  - rewrite boundLoop_S. destruct (Nat.ltb_spec l r) as [Hlt|Hge].
    + pose proof (shiftr1_bounds l r Hlt) as Hm.
      set (m := Nat.shiftr (l + r) 1) in *.
      destruct (lookup_lt_is_Some_2 arr m) as [x Hx]; [lia|].
      rewrite Hx. destruct (test x) eqn:Ht.
      * apply IH; [lia|lia| |exact Hhi].
        intros i y Hi Hy. apply (Hmono i m y x Hy Hx); [lia|exact Ht].
      * apply IH; [lia|lia|exact Hlo|].
        intros i y Hi Hy. destruct (test y) eqn:Hty; [|reflexivity].
        rewrite (Hmono m i x y Hx Hy) in Ht; [discriminate|lia|exact Hty].
    + assert (l = r) by lia. subst. exists r. repeat split; auto; lia.
Qed.

Lemma filter_by_index (f : T -> bool) (arr : list T) :
  forall s e,
    (forall i x, arr !! i = Some x -> f x = (s <=? i)%nat && (i <? e)%nat) ->
    List.filter f arr = take (e - s) (drop s arr).
Proof.
  induction arr as [|x arr IH]; intros s e H.
  - now rewrite drop_nil, take_nil.
  - cbn [List.filter]. rewrite (H 0%nat x eq_refl).
    destruct s as [|s].
    + destruct e as [|e]; cbn.
      * rewrite (IH 0%nat 0%nat); [reflexivity|].
        intros i y Hy. rewrite (H (S i) y Hy). reflexivity.
      * f_equal. rewrite (IH 0%nat e); [now rewrite Nat.sub_0_r|].
        intros i y Hy. rewrite (H (S i) y Hy). reflexivity.
    + cbn. rewrite (IH s (e - 1)%nat).
      * f_equal. lia.
      * intros i y Hy. rewrite (H (S i) y Hy).
        destruct e as [|e]; cbn; [now rewrite andb_false_r|].
        now rewrite Nat.sub_0_r.
Qed.

Lemma ltb_Fin_antitone (a b : Q) (m : num) :
  (a <= b)%Q -> ltb (Fin b) m = true -> ltb (Fin a) m = true.
Proof.
  destruct m as [| | |q]; cbn; auto.
  rewrite !Qltb_lt. intros. lra.
Qed.

Lemma lowerBound_spec (arr : list T) (min : num) :
  ascendingBy area arr ->
  exists pos, lowerBound area arr (Some min) = Some pos /\
    (pos <= length arr)%nat /\
    (forall i x, (i < pos)%nat -> arr !! i = Some x -> ltb (Fin (area x)) min = true) /\
    (forall i x, (pos <= i)%nat -> arr !! i = Some x -> ltb (Fin (area x)) min = false).
Proof.
  intros Hasc. unfold lowerBound.
  apply (boundLoop_spec (fun x => ltb (Fin (area x)) min)).
  - intros i j x y Hx Hy Hij. apply ltb_Fin_antitone. exact (Hasc i j x y Hx Hy Hij).
  - lia.
  - lia.
  - intros; lia.
  - intros i x Hi Hx. apply lookup_lt_Some in Hx. lia.
Qed.

Lemma upperBound_spec (arr : list T) (max : num) :
  ascendingBy area arr ->
  exists pos, upperBound area arr (Some max) = Some pos /\
    (pos <= length arr)%nat /\
    (forall i x, (i < pos)%nat -> arr !! i = Some x -> leb (Fin (area x)) max = true) /\
    (forall i x, (pos <= i)%nat -> arr !! i = Some x -> leb (Fin (area x)) max = false).
Proof.
  intros Hasc. unfold upperBound.
  apply (boundLoop_spec (fun x => leb (Fin (area x)) max)).
  - intros i j x y Hx Hy Hij. apply leb_Fin_mono. exact (Hasc i j x y Hx Hy Hij).
  - lia.
  - lia.
  - intros; lia.
  - intros i x Hi Hx. apply lookup_lt_Some in Hx. lia.
Qed.

(** The start index in terms of the test, [undefined] included. *)
Lemma lowerBound_index (arr : list T) (min : option num) :
  ascendingBy area arr ->
  exists s, lowerBound area arr min = Some s /\ (s <= length arr)%nat /\
    forall i x, arr !! i = Some x ->
      match min with Some m => negb (ltb (Fin (area x)) m) | None => true end
      = (s <=? i)%nat.
Proof.
  intros Hasc. destruct min as [m|].
  - destruct (lowerBound_spec arr m Hasc) as (s & Hs & Hlen & Hlo & Hhi).
    exists s. split; [exact Hs|]. split; [exact Hlen|].
    intros i x Hx. destruct (Nat.leb_spec s i).
    + now rewrite (Hhi i x).
    + now rewrite (Hlo i x).
  - exists 0%nat. split; [reflexivity|]. split; [lia|]. intros. reflexivity.
Qed.

Lemma upperBound_index (arr : list T) (max : option num) :
  ascendingBy area arr ->
  exists e, upperBound area arr max = Some e /\ (e <= length arr)%nat /\
    forall i x, arr !! i = Some x ->
      match max with Some m => leb (Fin (area x)) m | None => true end
      = (i <? e)%nat.
Proof.
  intros Hasc. destruct max as [m|].
  - destruct (upperBound_spec arr m Hasc) as (e & He & Hlen & Hlo & Hhi).
    exists e. split; [exact He|]. split; [exact Hlen|].
    intros i x Hx. destruct (Nat.ltb_spec i e).
    + now rewrite (Hlo i x).
    + now rewrite (Hhi i x).
  - exists (length arr). split; [reflexivity|]. split; [lia|].
    intros i x Hx. apply lookup_lt_Some in Hx.
    symmetry. apply Nat.ltb_lt. exact Hx.
Qed.

(** On an ascending array the slice is the array filtered by the range. *)
Lemma sliceRange_filter (arr : list T) (min max : option num) :
  ascendingBy area arr ->
  sliceRange area arr min max =
  Some (List.filter (fun x => withinRange min max (area x)) arr).
Proof.
  intros Hasc. unfold sliceRange.
  destruct (lowerBound_index arr min Hasc) as (s & -> & Hs & Hlo).
  destruct (upperBound_index arr max Hasc) as (e & -> & He & Hhi).
  assert (List.filter (fun x => withinRange min max (area x)) arr
          = take (e - s) (drop s arr)) as ->.
  { apply filter_by_index. intros i x Hx. unfold withinRange.
    now rewrite (Hlo i x Hx), (Hhi i x Hx). }
  destruct (Nat.leb_spec e s) as [Hle|Hlt]; [|reflexivity].
  replace (e - s)%nat with 0%nat by lia. reflexivity.
Qed.

(** X13 (lowerBound, upperBound, sliceRange). On an array in ascending
    order of area the two binary searches end, and the slice between the
    indices they return holds exactly the rows whose area lies in the
    closed range from [min] to [max], in the order of the array; a bound
    that is [undefined] does not restrict, and a slice taken with bounds
    that exclude each other is empty. *)
Theorem sliceRange_keeps_rows_in_range (arr : list T) (min max : option num) :
  ascendingBy area arr ->
  exists start end_ slice,
    lowerBound area arr min = Some start /\
    upperBound area arr max = Some end_ /\
    sliceRange area arr min max = Some slice /\
    slice = List.filter (fun x => withinRange min max (area x)) arr /\
    (forall x, x ∈ slice <-> x ∈ arr /\ withinRange min max (area x) = true) /\
    ((end_ <= start)%nat -> slice = []).
Proof.
  intros Hasc.
  destruct (lowerBound_index arr min Hasc) as (s & Es & _ & _).
  destruct (upperBound_index arr max Hasc) as (e & Ee & _ & _).
  exists s, e, (List.filter (fun x => withinRange min max (area x)) arr).
  split; [exact Es|]. split; [exact Ee|].
  pose proof (sliceRange_filter arr min max Hasc) as E.
  split; [exact E|]. split; [reflexivity|]. split.
  - intros x. now rewrite list_elem_of_In, filter_In, <- list_elem_of_In.
  - intros Hle. unfold sliceRange in E. rewrite Es, Ee in E.
    apply Nat.leb_le in Hle. rewrite Hle in E. now injection E.
Qed.

End RangeFacts.

Section FilterAgreement.
Import JS Ranges AreaFilter Notions.
Context {T : Type} (area : T -> Q).

Lemma keeps_withinRange (min max : option num) (x : T) :
  (forall m, min = Some m -> isFinite m = true) ->
  (forall m, max = Some m -> isFinite m = true) ->
  keeps (fun x => Fin (area x)) min max x = withinRange min max (area x).
Proof.
  intros Hmin Hmax. unfold keeps, withinRange. cbn [isFinite negb].
  destruct min as [[| | |lo]|]; try (now specialize (Hmin _ eq_refl));
    destruct max as [[| | |hi]|]; try (now specialize (Hmax _ eq_refl));
    cbn [ltb gtb leb]; unfold Qltb;
    repeat match goal with |- context [Qle_bool ?a ?b] => destruct (Qle_bool a b) end;
    reflexivity.
Qed.

(** X14 (sliceRange and applyAreaFilter). The slicing by binary search
    of the current revision selects what the linear filter of the first
    revision selects: on an array in ascending order of area, with bounds
    that are finite numbers or [undefined], [sliceRange] returns the rows
    that [applyAreaFilter] keeps, in the same order. *)
Theorem sliceRange_agrees_with_applyAreaFilter (arr : list T) (min max : option num) :
  ascendingBy area arr ->
  (forall m, min = Some m -> isFinite m = true) ->
  (forall m, max = Some m -> isFinite m = true) ->
  sliceRange area arr min max =
  Some (applyAreaFilter (fun x => Fin (area x)) min max arr).
Proof.
  intros Hasc Hmin Hmax. rewrite (sliceRange_filter area arr min max Hasc).
  f_equal. unfold applyAreaFilter. apply List.filter_ext.
  intros x. symmetry. now apply keeps_withinRange.
Qed.

End FilterAgreement.

Section DataLayerFacts.
Import JS TopK SolverCommon Vocabulary Notions.

Local Abbreviation rowArea := DataLayer.area.

Lemma sortRows_ascending (l : list DataLayer.areaTypeRow) :
  ascendingBy rowArea (DataLayer.sortRows l).
Proof.
  set (le := fun p q : DataLayer.areaTypeRow => Qle_bool (rowArea p - rowArea q) 0).
  assert (Hle : forall p q, le p q = true <-> (rowArea p <= rowArea q)%Q).
  { intros p q. unfold le. rewrite Qle_bool_iff. split; intros; lra. }
  assert (Hs : StronglySorted (fun p q => le p q = true) (DataLayer.sortRows l)).
  { apply (stableSort_sorted le).
    - intros p q. rewrite !Hle.
      destruct (Qlt_le_dec (rowArea q) (rowArea p)); [right|left]; lra.
    - intros p q r. rewrite !Hle. intros; lra. }
  intros i j x y Hi Hj Hij.
  destruct (decide (i = j)) as [->|Hne].
  - rewrite Hi in Hj. injection Hj as <-. lra.
  - apply Hle. apply (StronglySorted_lookup _ _ Hs i j); [assumption|assumption|lia].
Qed.

Lemma pushRow_elem (rows : list DataLayer.areaTypeRow) (g : DataLayer.rowGroups)
    (x : DataLayer.areaTypeRow) :
  x ∈ DataLayer.A (fold_left DataLayer.pushRow rows g) \/
  x ∈ DataLayer.B (fold_left DataLayer.pushRow rows g) \/
  x ∈ DataLayer.C (fold_left DataLayer.pushRow rows g) ->
  x ∈ rows \/ x ∈ DataLayer.A g \/ x ∈ DataLayer.B g \/ x ∈ DataLayer.C g.
Proof.
  revert g. induction rows as [|y rows IH]; intros g H; [right; exact H|].
  cbn [fold_left] in H. apply IH in H as [H|H]; [left; apply elem_of_cons; now right|].
  unfold DataLayer.pushRow in H.
  destruct (bool_decide _); [|destruct (bool_decide _)]; cbn in H;
    rewrite elem_of_app, list_elem_of_singleton in H;
    rewrite elem_of_cons; tauto.
Qed.

(** The three groups of a sheet are ascending and hold rows of the
    sheet. *)
Lemma groupAndSortByType_spec (rows : list DataLayer.areaTypeRow) :
  let g := DataLayer.groupAndSortByType rows in
  ascendingBy rowArea (DataLayer.A g) /\
  ascendingBy rowArea (DataLayer.B g) /\
  ascendingBy rowArea (DataLayer.C g) /\
  forall x, x ∈ DataLayer.A g \/ x ∈ DataLayer.B g \/ x ∈ DataLayer.C g -> x ∈ rows.
Proof.
  cbv zeta. unfold DataLayer.groupAndSortByType. cbv zeta.
  cbn [DataLayer.A DataLayer.B DataLayer.C].
  repeat split; try apply sortRows_ascending.
  intros x H. unfold DataLayer.sortRows, sortBy in H. rewrite !stableSort_elem in H.
  apply pushRow_elem in H as [H|H]; [exact H|].
  cbn in H. destruct H as [H|[H|H]]; inversion H.
Qed.

(** The merged slices of a sheet: they exist, and hold rows of the sheet
    within the range. *)
Lemma slices_spec (rows : list DataLayer.areaTypeRow) (lower upper : option num) :
  exists flt,
    DataLayer.slices (DataLayer.groupAndSortByType rows) lower upper = Some flt /\
    forall x, x ∈ flt -> x ∈ rows /\ withinRange lower upper (rowArea x) = true.
Proof.
  destruct (groupAndSortByType_spec rows) as (HA & HB & HC & Hin).
  set (g := DataLayer.groupAndSortByType rows) in *.
  unfold DataLayer.slices.
  rewrite (sliceRange_filter rowArea _ lower upper HA).
  rewrite (sliceRange_filter rowArea _ lower upper HB).
  rewrite (sliceRange_filter rowArea _ lower upper HC).
  eexists. split; [reflexivity|].
  intros x. rewrite !elem_of_app, !elem_of_filter_list.
  intros [[H ?]|[[H ?]|[H ?]]]; (split; [apply Hin; tauto|assumption]).
Qed.

Lemma extractRow_community (r : DataLayer.sheetRow) (x : DataLayer.areaTypeRow) :
  DataLayer.extractRow true r = Some x ->
  DataLayer.community x = Some (DataLayer.cellText (DataLayer.小区 r)).
Proof.
  unfold DataLayer.extractRow.
  destruct (DataLayer.建筑面积 r) as [| | |a]; try discriminate.
  destruct (Qle_bool a 0); [discriminate|].
  destruct (Normalize.normalizeType _) as [ty|]; [|discriminate].
  destruct (negb (isABC ty)); [discriminate|].
  now intros [= <-].
Qed.

Lemma inSelection_true (sel : list jsstr) (r : DataLayer.sheetRow) :
  DataLayer.inSelection sel r = true ->
  DataLayer.cellText (DataLayer.小区 r) ∈ sel /\
  DataLayer.cellText (DataLayer.小区 r) <> [].
Proof.
  unfold DataLayer.inSelection, DataLayer.cellText.
  destruct (DataLayer.小区 r) as [| |b|n|s|]; try discriminate;
    rewrite andb_true_iff, bool_decide_eq_true; intros [Hne Hin];
    (split; [exact Hin|]); intros E; rewrite E in Hne; discriminate.
Qed.

Variables (data : DataLayer.dataset) (target : num) (opts : DataLayer.options).

Local Abbreviation lower := (DataLayer.finalBound (DataLayer.minArea opts)).
Local Abbreviation upper :=
  (DataLayer.upperA target (DataLayer.finalBound (DataLayer.maxArea opts))).

(** The rows of the second sheet that stand behind [Bgroup]. *)
Lemma Bgroup_rows :
  exists rowsB,
    DataLayer.Bgroup data opts = DataLayer.groupAndSortByType rowsB /\
    (DataLayer.communityKey data = true ->
     DataLayer.xfSel (DataLayer.xfCommunities opts) <> [] ->
     forall x, x ∈ rowsB ->
       exists name, DataLayer.community x = Some name /\
         name ∈ DataLayer.xfSel (DataLayer.xfCommunities opts) /\ name <> []).
Proof.
  unfold DataLayer.Bgroup. cbv zeta.
  destruct (DataLayer.xfSel (DataLayer.xfCommunities opts)) as [|s sel] eqn:Esel;
    destruct (DataLayer.communityKey data);
    (eexists; split; [reflexivity|]); intros Hck Hsel x Hx; try congruence.
  unfold DataLayer.extractAreaTypeRowsWithCommunity in Hx.
  apply list_elem_of_omap in Hx as (r & Hr & Ex).
  apply elem_of_filter_list in Hr as [_ Hr].
  apply inSelection_true in Hr as [Hin Hne].
  exists (DataLayer.cellText (DataLayer.小区 r)).
  split; [now apply extractRow_community|]. split; assumption.
Qed.

(** The candidates of a request: the selection ends, and every candidate
    is a row within the range, from the first sheet under the first
    source name or from the second sheet under the second. *)
Lemma selectCandidates_spec :
  exists candidates,
    DataLayer.selectCandidates data target opts = Some candidates /\
    forall it, it ∈ candidates ->
      exists x, withinRange lower upper (rowArea x) = true /\
        ((it = DataLayer.fromA x /\ DataLayer.source opts <> str "B") \/
         (it = DataLayer.fromB x /\ DataLayer.source opts <> str "A" /\
          (DataLayer.communityKey data = true ->
           DataLayer.xfSel (DataLayer.xfCommunities opts) <> [] ->
           exists name, DataLayer.community x = Some name /\
             name ∈ DataLayer.xfSel (DataLayer.xfCommunities opts) /\ name <> []))).
Proof.
  unfold DataLayer.selectCandidates. cbv zeta.
  unfold DataLayer.getDerivedGroupedSorted.
  destruct (slices_spec (DataLayer.extractAreaTypeRows (DataLayer.qifangRows data))
              lower upper) as (fltA & -> & HA).
  destruct Bgroup_rows as (rowsB & -> & Hsel).
  destruct (slices_spec rowsB lower upper) as (fltB & -> & HB).
  eexists. split; [reflexivity|]. intros it Hit.
  assert (HfromA : it ∈ map DataLayer.fromA fltA ->
                   exists x, it = DataLayer.fromA x /\
                     withinRange lower upper (rowArea x) = true).
  { intros H. apply elem_of_map in H as (x & -> & Hx). exists x.
    split; [reflexivity|]. now apply HA. }
  assert (HfromB : it ∈ map DataLayer.fromB fltB ->
                   exists x, it = DataLayer.fromB x /\
                     withinRange lower upper (rowArea x) = true /\ x ∈ rowsB).
  { intros H. apply elem_of_map in H as (x & -> & Hx). exists x.
    split; [reflexivity|]. split; now apply HB. }
  destruct (bool_decide (DataLayer.source opts = str "A")) eqn:EA.
  - apply bool_decide_eq_true in EA. destruct (HfromA Hit) as (x & -> & Hw).
    exists x. split; [exact Hw|]. left. split; [reflexivity|]. rewrite EA. discriminate.
  - apply bool_decide_eq_false in EA.
    destruct (bool_decide (DataLayer.source opts = str "B")) eqn:EB.
    + destruct (HfromB Hit) as (x & -> & Hw & Hx).
      exists x. split; [exact Hw|]. right. split; [reflexivity|]. split; [exact EA|].
      intros Hck Hne. now apply Hsel.
    + apply bool_decide_eq_false in EB. apply elem_of_app in Hit as [Hit|Hit].
      * destruct (HfromA Hit) as (x & -> & Hw).
        exists x. split; [exact Hw|]. left. split; [reflexivity|exact EB].
      * destruct (HfromB Hit) as (x & -> & Hw & Hx).
        exists x. split; [exact Hw|]. right. split; [reflexivity|]. split; [exact EA|].
        intros Hck Hne. now apply Hsel.
Qed.

(** What [bestTopKCombos] copies from an object into an item. *)
Lemma toItem_object (a : num) (t : value) (src : jsstr) (c b r d : option jsstr)
    (x : item) :
  Solver.toItem Data.FILE_A_NAME Data.FILE_B_NAME (RawObject a t (VString src) c b r d)
    = Some x ->
  a = Fin (area x) /\ srcFile x = src /\ community x = c.
Proof.
  cbn [Solver.toItem]. unfold buildItem.
  destruct a as [| | |q]; try discriminate.
  destruct (Qle_bool q 0); [discriminate|].
  destruct (Normalize.normalizeType t) as [ty|]; [|discriminate].
  destruct (negb (isABC ty)); [discriminate|].
  destruct (_ && _); [discriminate|].
  intros [= <-]. auto.
Qed.

End DataLayerFacts.

Section RequestFilters.
Import JS TopK SolverCommon Vocabulary Notions.

Variables (data : DataLayer.dataset) (target finalTopK : num) (opts : DataLayer.options)
  (disallowDominant : bool) (dominantMoreThan othersLessThan : num).

Local Abbreviation lower := (DataLayer.finalBound (DataLayer.minArea opts)).
Local Abbreviation upper :=
  (DataLayer.upperA target (DataLayer.finalBound (DataLayer.maxArea opts))).
Local Abbreviation sel := (DataLayer.xfSel (DataLayer.xfCommunities opts)).
Local Abbreviation solved :=
  (DataLayer.solveTopK data target finalTopK opts
     disallowDominant dominantMoreThan othersLessThan).

(** Where the picks of a request come from. *)
Lemma solveTopK_picks :
  exists candidates,
    DataLayer.selectCandidates data target opts = Some candidates /\
    solved = Some (Solver.bestTopKCombos candidates target
                     Data.FILE_A_NAME Data.FILE_B_NAME finalTopK
                     disallowDominant dominantMoreThan othersLessThan) /\
    forall x, x ∈ Solver.items candidates Data.FILE_A_NAME Data.FILE_B_NAME ->
      withinRange lower upper (area x) = true /\
      ((srcFile x = Data.FILE_A_NAME /\ DataLayer.source opts <> str "B") \/
       (srcFile x = Data.FILE_B_NAME /\ DataLayer.source opts <> str "A" /\
        (DataLayer.communityKey data = true -> sel <> [] ->
         exists name, community x = Some name /\ name ∈ sel /\ name <> []))).
Proof.
  destruct (selectCandidates_spec data target opts) as (candidates & E & H).
  exists candidates. split; [exact E|]. split.
  - unfold DataLayer.solveTopK. now rewrite E.
  - intros x Hx. unfold Solver.items in Hx.
    apply list_elem_of_omap in Hx as (it & Hit & Ex).
    destruct (H it Hit) as (row & Hw & [[-> Hsrc]|(-> & Hsrc & Hsel)]);
      unfold DataLayer.fromA, DataLayer.fromB in Ex;
      apply toItem_object in Ex as (Ea & Es & Ec); injection Ea as Ea;
      rewrite <- Ea; (split; [exact Hw|]).
    + left. auto.
    + right. split; [exact Es|]. split; [exact Hsrc|].
      intros Hck Hne. rewrite Ec. now apply Hsel.
Qed.

Lemma entry_items (candidates : list rawCandidate) (e : candidate) (x : item) :
  e ∈ topList (Solver.search true candidates target Data.FILE_A_NAME Data.FILE_B_NAME
                 (normalizeTopK finalTopK)
                 disallowDominant dominantMoreThan othersLessThan) ->
  x ∈ picked e ->
  x ∈ Solver.items candidates Data.FILE_A_NAME Data.FILE_B_NAME /\
  leb (Fin (area x)) target = true.
Proof.
  intros He Hx.
  destruct (entry_picks _ _ _ _ _ _ _ _ e x He Hx) as [(it & Hit & E) Hle].
  split; [|exact Hle]. unfold Solver.items. apply list_elem_of_omap. now exists it.
Qed.

Lemma min_Fin_l (a t h : Q) :
  leb (Fin a) (DataLayer.min (Fin t) (Fin h)) = true -> (a <= t)%Q /\ (a <= h)%Q.
Proof.
  unfold DataLayer.min. destruct (leb (Fin t) (Fin h)) eqn:E.
  - apply leb_Fin in E. rewrite leb_Fin. intros; split; lra.
  - cbn in E. apply Qle_bool_gt in E. rewrite leb_Fin. intros; split; lra.
Qed.

(** X15 (solveTopK, the area range). The selection of the candidates
    ends, and every area listed in a result is within the target and
    within the range of the request: not below [minArea] and not above
    [maxArea], where these are finite numbers. *)
Theorem solveTopK_area_range :
  exists results,
    solved = Some results /\
    forall r a, r ∈ results -> a ∈ map fst (result r) ->
      leb (Fin a) target = true /\
      (forall lo, DataLayer.minArea opts = Some (Fin lo) -> (lo <= a)%Q) /\
      (forall hi, DataLayer.maxArea opts = Some (Fin hi) -> (a <= hi)%Q).
Proof.
  destruct solveTopK_picks as (candidates & _ & E & H).
  eexists. split; [exact E|]. intros r a Hr Ha.
  destruct (result_entry _ _ _ _ _ _ _ _ r Hr) as (e & He & ->).
  cbn [Solver.format result] in Ha. rewrite map_map in Ha. cbn [fst] in Ha.
  apply elem_of_map in Ha as (x & -> & Hx).
  destruct (entry_items candidates e x He Hx) as [Hitem Hle].
  destruct (H x Hitem) as [Hw _].
  split; [exact Hle|].
  unfold withinRange in Hw. apply andb_true_iff in Hw as [Hlo Hhi].
  split.
  - intros lo Emin. rewrite Emin in Hlo. cbn [DataLayer.finalBound] in Hlo.
    apply negb_true_iff, Qltb_ge in Hlo. exact Hlo.
  - intros hi Emax. rewrite Emax in Hhi. cbn [DataLayer.finalBound] in Hhi.
    unfold DataLayer.upperA in Hhi.
    destruct target as [| | |t]; cbn [isFinite] in Hhi; try discriminate.
    + now apply leb_Fin in Hhi.
    + now apply min_Fin_l in Hhi.
Qed.

(** X16 (solveTopK, the source). With the source A no result is ever
    returned, since a result needs a pick from the second sheet; with the
    source B every pick of every result is from the second sheet. *)
Theorem solveTopK_source_choice :
  exists results,
    solved = Some results /\
    (DataLayer.source opts = str "A" -> results = []) /\
    (DataLayer.source opts = str "B" ->
     forall r, r ∈ results ->
       exists e, r = Solver.format target Data.FILE_B_NAME e /\
         forall x, x ∈ picked e -> srcFile x = Data.FILE_B_NAME).
Proof.
  destruct solveTopK_picks as (candidates & _ & E & H).
  eexists. split; [exact E|]. split.
  - intros EA. apply no_file_B_no_result. intros x Hx.
    destruct (H x Hx) as [_ [[-> _]|(_ & Hsrc & _)]]; [discriminate|contradiction].
  - intros EB r Hr.
    destruct (result_entry _ _ _ _ _ _ _ _ r Hr) as (e & He & ->).
    exists e. split; [reflexivity|]. intros x Hx.
    destruct (entry_items candidates e x He Hx) as [Hitem _].
    destruct (H x Hitem) as [_ [[_ Hsrc]|(Hs & _)]]; [contradiction|exact Hs].
Qed.

(** X17 (solveTopK, the community selection). When the second sheet has
    a community column and the request selects communities, every pick
    from the second sheet carries one of the selected names. *)
Theorem solveTopK_community_selection :
  DataLayer.communityKey data = true -> sel <> [] ->
  exists results,
    solved = Some results /\
    forall r, r ∈ results ->
      exists e, r = Solver.format target Data.FILE_B_NAME e /\
        forall x, x ∈ picked e -> srcFile x = Data.FILE_B_NAME ->
          exists name, community x = Some name /\ name ∈ sel.
Proof.
  intros Hck Hsel.
  destruct solveTopK_picks as (candidates & _ & E & H).
  eexists. split; [exact E|]. intros r Hr.
  destruct (result_entry _ _ _ _ _ _ _ _ r Hr) as (e & He & ->).
  exists e. split; [reflexivity|]. intros x Hx Hsrc.
  destruct (entry_items candidates e x He Hx) as [Hitem _].
  destruct (H x Hitem) as [_ [[Es _]|(_ & _ & Hname)]].
  - rewrite Es in Hsrc. discriminate.
  - destruct (Hname Hck Hsel) as (name & ? & ? & _). now exists name.
Qed.

End RequestFilters.

Section ServedTarget.
Import JS TopK SolverCommon Vocabulary Notions Server.


End ServedTarget.

Section CommunityFacts.
Import JS Community.

Lemma find_all_false {A} (f : A -> bool) (l : list A) :
  (forall x, x ∈ l -> f x = false) -> List.find f l = None.
Proof.
  induction l as [|x l IH]; intros H; [reflexivity|]. cbn.
  rewrite H by (apply elem_of_cons; now left).
  apply IH. intros y Hy. apply H, elem_of_cons. now right.
Qed.

Lemma preferred_fuzzy (k : jsstr) : k ∈ preferred -> fuzzyTest k = true.
Proof.
  intros H. unfold preferred in H.
  repeat (apply elem_of_cons in H as [->|H]; [reflexivity|]). inversion H.
Qed.

(** X19 (detectCommunityKey). The column that is detected is a column
    of the first row whose name contains one of the three words; no
    column is detected exactly when no column name contains one of them;
    and when a preferred name is among the columns, the detected column is
    a preferred name, the first one of the list that is among the columns,
    whatever the order of the columns. *)
Theorem detectCommunityKey_spec (keys : list jsstr) :
  (forall k, detectCommunityKey keys = Some k -> k ∈ keys /\ fuzzyTest k = true) /\
  (detectCommunityKey keys = None <-> forall k, k ∈ keys -> fuzzyTest k = false) /\
  (forall before p after, preferred = before ++ p :: after ->
     p ∈ keys -> (forall q, q ∈ before -> q ∉ keys) ->
     detectCommunityKey keys = Some p).
Proof.
  assert (H1 : forall k, detectCommunityKey keys = Some k ->
                 k ∈ keys /\ fuzzyTest k = true).
  { intros k. unfold detectCommunityKey.
    destruct (List.find _ preferred) as [p|] eqn:Ep.
    - intros [= <-]. apply find_some in Ep as [Hin Hk].
      apply bool_decide_eq_true in Hk. split; [exact Hk|].
      apply preferred_fuzzy. now apply list_elem_of_In.
    - intros Hk. apply find_some in Hk as [Hin Hk].
      split; [now apply list_elem_of_In|exact Hk]. }
  split; [exact H1|]. split; [split|].
  - intros Hnone k Hk. unfold detectCommunityKey in Hnone.
    destruct (List.find _ preferred); [discriminate|].
    apply (find_none _ _ Hnone). now apply list_elem_of_In.
  - intros Hall. destruct (detectCommunityKey keys) as [k|] eqn:E; [|reflexivity].
    destruct (H1 k eq_refl) as [Hin Hk]. rewrite (Hall k Hin) in Hk. discriminate.
  - intros before p after E Hp Hbefore. unfold detectCommunityKey. rewrite E.
    assert (Hfind : List.find (fun k => bool_decide (k ∈ keys)) (before ++ p :: after)
                    = Some p).
    { clear E. induction before as [|q before IH]; cbn.
      - now rewrite bool_decide_eq_true_2.
      - rewrite bool_decide_eq_false_2 by (apply Hbefore, elem_of_cons; now left).
        apply IH. intros r Hr. apply Hbefore, elem_of_cons. now right. }
    now rewrite Hfind.
Qed.

End CommunityFacts.

Section PoolDispatch.
Import WorkerPool Notions.
Context {payload results : Type}.

Local Abbreviation pool := (WorkerPool.pool payload results).
Local Abbreviation event := (WorkerPool.event payload results).

Lemma dequeue_dispatched (subs : list payload) (st : pool) :
  (queue st <> [] -> (length (idle st) <= 1)%nat) ->
  map snd (posted st) ++ map fst (queue st) = subs ->
  dispatched subs (_dequeue st).
Proof.
  intros Hlen Hsubs. unfold _dequeue.
  destruct (queue st) as [|[p promise] rest] eqn:Eq.
  - split; [now rewrite Eq|now rewrite Eq].
  - destruct (TopK.pop (idle st)) as [[worker idle']|] eqn:Epop.
    + apply pop_Some in Epop. split; cbn.
      * intros _. rewrite Epop, length_app in Hlen. cbn in Hlen.
        destruct idle'; [reflexivity|]. cbn in Hlen. specialize (Hlen ltac:(discriminate)). lia.
      * rewrite map_app, <- app_assoc. exact Hsubs.
    + apply pop_None in Epop. split; [now intros _|now rewrite Eq].
Qed.

Lemma spawn_dispatched_empty (st : pool) :
  queue st = [] -> posted st = [] ->
  queue (_spawn st) = [] /\ posted (_spawn st) = [].
Proof. intros. split; assumption. Qed.

Lemma create_queue (size : nat) :
  queue (create (payload := payload) (results := results) size) = [] /\
  posted (create (payload := payload) (results := results) size) = [].
Proof.
  unfold create. induction (Nat.max 1 size) as [|n IH]; [split; reflexivity|].
  cbn [Nat.iter]. now apply spawn_dispatched_empty.
Qed.

Lemma settle_same (worker : nat) (o : outcome results) (st : pool) :
  idle (settle worker o st) = idle st /\
  queue (settle worker o st) = queue st /\
  posted (settle worker o st) = posted st.
Proof. unfold settle. destruct (_ !! _); repeat split. Qed.

Lemma length_removeFirst (w : nat) (l : list nat) :
  (length (removeFirst w l) <= length l)%nat.
Proof.
  induction l as [|x l IH]; [reflexivity|]. cbn.
  destruct (x =? w)%nat; cbn; lia.
Qed.

Lemma handle_dispatched (subs : list payload) (st : pool) (ev : event) :
  dispatched subs st ->
  dispatched (subs ++ match ev with RunTask p => [p] | _ => [] end) (handle st ev).
Proof.
  intros [Hidle Hsubs]. destruct ev as [p|w msg|w|w code]; cbn [handle].
  - unfold runTask. destruct (TopK.pop (idle st)) as [[worker idle']|] eqn:Epop.
    + apply pop_Some in Epop.
      assert (Eq : queue st = []).
      { destruct (queue st) as [|j q] eqn:Eq; [reflexivity|].
        rewrite Hidle in Epop by discriminate. now destruct idle'. }
      split; cbn.
      * now rewrite Eq.
      * rewrite Eq in *. cbn in *. rewrite app_nil_r in *.
        rewrite map_app. cbn. now rewrite Hsubs.
    + apply pop_None in Epop. split; cbn.
      * now intros _.
      * rewrite map_app, app_assoc. cbn. now rewrite Hsubs.
  - rewrite app_nil_r. unfold onMessage. cbv zeta.
    destruct (settle_same w (match msg with Done r => Resolved r | Failed => RejectedFailed end) st)
      as (Ei & Eq & Ep).
    apply dequeue_dispatched; cbn; rewrite ?Ei, ?Eq, ?Ep; [|exact Hsubs].
    intros Hq. rewrite (Hidle Hq). cbn. lia.
  - rewrite app_nil_r. unfold onError, _replace.
    destruct (settle_same w RejectedError st) as (Ei & Eq & Ep).
    apply dequeue_dispatched; cbn; rewrite ?Ei, ?Eq, ?Ep; [|exact Hsubs].
    intros Hq. rewrite (Hidle Hq). cbn. lia.
  - rewrite app_nil_r. unfold onExit, _replace.
    destruct (settle_same w (RejectedExit code) st) as (Ei & Eq & Ep).
    apply dequeue_dispatched; cbn; rewrite ?Ei, ?Eq, ?Ep; [|exact Hsubs].
    intros Hq. rewrite (Hidle Hq). cbn. lia.
Qed.

Lemma submitted_snoc (events : list event) (ev : event) :
  submitted (events ++ [ev]) =
  submitted events ++ match ev with RunTask p => [p] | _ => [] end.
Proof.
  unfold submitted. rewrite omap_app. f_equal. now destruct ev.
Qed.

End PoolDispatch.

Section PoolLedger.
Import WorkerPool Notions.
Context {payload results : Type}.

Local Abbreviation pool := (WorkerPool.pool payload results).
Local Abbreviation event := (WorkerPool.event payload results).

Lemma ledger_same (st st' : pool) :
  queue st' = queue st -> currentTasks st' = currentTasks st ->
  settled st' = settled st -> promises st' = promises st ->
  ledger st -> ledger st'.
Proof.
  intros Eq Ec Es Ep [H1 H2 H3 H4].
  constructor; rewrite ?Eq, ?Ec, ?Es, ?Ep; assumption.
Qed.

Lemma run_ledger (worker : nat) (p : payload) (promise : nat) (st : pool) :
  ledger st ->
  promise ∉ map snd (queue st) ++ map fst (settled st) ->
  (forall w, currentTasks st !! w <> Some promise) ->
  (promise < promises st)%nat ->
  ledger (_run worker p promise st).
Proof.
  intros [H1 H2 H3 H4] Hfresh Hnew Hlt. constructor; cbn.
  - exact H1.
  - intros w q Hq. destruct (decide (w = worker)) as [->|Hne].
    + rewrite lookup_insert_eq in Hq. now injection Hq as <-.
    + rewrite lookup_insert_ne in Hq by congruence. now apply (H2 w).
  - intros w w' q Hq Hq'.
    destruct (decide (w = worker)) as [->|Hne];
      destruct (decide (w' = worker)) as [->|Hne']; try reflexivity.
    + rewrite lookup_insert_eq in Hq. injection Hq as <-.
      rewrite lookup_insert_ne in Hq' by congruence. now apply Hnew in Hq'.
    + rewrite lookup_insert_eq in Hq'. injection Hq' as <-.
      rewrite lookup_insert_ne in Hq by congruence. now apply Hnew in Hq.
    + rewrite lookup_insert_ne in Hq, Hq' by congruence. now apply (H3 w w' q).
  - intros q [Hq|[w Hq]]; [apply H4; now left|].
    destruct (decide (w = worker)) as [->|Hne].
    + rewrite lookup_insert_eq in Hq. now injection Hq as <-.
    + rewrite lookup_insert_ne in Hq by congruence. apply H4. right. now exists w.
Qed.

Lemma dequeue_ledger (st : pool) : ledger st -> ledger (_dequeue st).
Proof.
  intros Hl. unfold _dequeue.
  destruct (queue st) as [|[p promise] rest] eqn:Eq; [exact Hl|].
  destruct (TopK.pop (idle st)) as [[worker idle']|]; [|exact Hl].
  destruct Hl as [H1 H2 H3 H4]. rewrite Eq in *. cbn [map snd app] in *.
  apply NoDup_cons in H1 as [Hhead H1].
  apply run_ledger; cbn.
  - constructor; cbn.
    + exact H1.
    + intros w q Hq Hin. apply (H2 w q Hq). apply elem_of_cons. now right.
    + exact H3.
    + intros q [Hq|Hq]; apply H4; [left; apply elem_of_cons; now right|now right].
  - exact Hhead.
  - intros w Hw. apply (H2 w promise Hw). apply elem_of_cons. now left.
  - apply H4. left. apply elem_of_cons. now left.
Qed.

Lemma settle_ledger (worker : nat) (o : outcome results) (st : pool) :
  ledger st -> ledger (settle worker o st).
Proof.
  intros Hl. unfold settle.
  destruct (currentTasks st !! worker) as [promise|] eqn:Ew; [|exact Hl].
  destruct Hl as [H1 H2 H3 H4]. constructor; cbn.
  - rewrite map_app, app_assoc. cbn. apply NoDup_app. split; [exact H1|]. split.
    + intros q Hq Hq'. apply list_elem_of_singleton in Hq' as ->.
      exact (H2 worker promise Ew Hq).
    + apply NoDup_singleton.
  - intros w q Hq. rewrite map_app, app_assoc. cbn.
    destruct (decide (w = worker)) as [->|Hne]; [now rewrite lookup_delete_eq in Hq|].
    rewrite lookup_delete_ne in Hq by congruence.
    rewrite elem_of_app, list_elem_of_singleton. intros [Hin| ->].
    + exact (H2 w q Hq Hin).
    + apply Hne. exact (H3 w worker promise Hq Ew).
  - intros w w' q Hq Hq'.
    destruct (decide (w = worker)) as [->|Hne]; [now rewrite lookup_delete_eq in Hq|].
    destruct (decide (w' = worker)) as [->|Hne']; [now rewrite lookup_delete_eq in Hq'|].
    rewrite lookup_delete_ne in Hq, Hq' by congruence. now apply (H3 w w' q).
  - intros q. rewrite map_app, app_assoc. cbn.
    rewrite elem_of_app, list_elem_of_singleton.
    intros [[Hq| ->]|[w Hq]].
    + apply H4. now left.
    + apply H4. right. now exists worker.
    + destruct (decide (w = worker)) as [->|Hne]; [now rewrite lookup_delete_eq in Hq|].
      rewrite lookup_delete_ne in Hq by congruence. apply H4. right. now exists w.
Qed.

Lemma replace_ledger (w : nat) (st : pool) : ledger st -> ledger (_replace w st).
Proof.
  intros Hl. unfold _replace. apply dequeue_ledger.
  now apply (ledger_same st).
Qed.

Lemma new_promise (st : pool) :
  ledger st ->
  (promises st ∉ map snd (queue st) ++ map fst (settled st)) /\
  (forall w, currentTasks st !! w <> Some (promises st)).
Proof.
  intros [_ _ _ H4]. split.
  - intros Hin. specialize (H4 (promises st) (or_introl Hin)). lia.
  - intros w Hw. specialize (H4 (promises st) (or_intror (ex_intro _ w Hw))). lia.
Qed.

Lemma handle_ledger (st : pool) (ev : event) : ledger st -> ledger (handle st ev).
Proof.
  intros Hl. destruct ev as [p|w msg|w|w code]; cbn [handle].
  - destruct (new_promise st Hl) as [Hfresh Hnew].
    unfold runTask. cbv zeta.
    destruct (TopK.pop (idle st)) as [[worker idle']|].
    + apply run_ledger; cbn; [|exact Hfresh|exact Hnew|lia].
      destruct Hl as [H1 H2 H3 H4]. constructor; cbn; auto.
      intros q Hq. specialize (H4 q Hq). lia.
    + destruct Hl as [H1 H2 H3 H4]. constructor; cbn.
      * rewrite map_app. cbn. rewrite <- app_assoc. cbn.
        apply NoDup_app in H1 as (Hq & Hdisj & Hs).
        apply NoDup_app. split; [exact Hq|]. split.
        -- intros q Hq1 Hq2. apply elem_of_cons in Hq2 as [->|Hq2].
           ++ apply Hfresh. apply elem_of_app. now left.
           ++ exact (Hdisj q Hq1 Hq2).
        -- apply NoDup_cons. split; [|exact Hs].
           intros Hin. apply Hfresh. apply elem_of_app. now right.
      * intros w q Hq. rewrite map_app. cbn. rewrite <- app_assoc. cbn.
        rewrite elem_of_app, elem_of_cons. intros [Hin|[->|Hin]].
        -- apply (H2 w q Hq). apply elem_of_app. now left.
        -- now apply (Hnew w).
        -- apply (H2 w q Hq). apply elem_of_app. now right.
      * exact H3.
      * intros q. rewrite map_app. cbn. rewrite <- app_assoc. cbn.
        rewrite elem_of_app, elem_of_cons. intros [[Hin|[->|Hin]]|Hin].
        -- enough (q < promises st)%nat by lia. apply H4. left. apply elem_of_app. now left.
        -- lia.
        -- enough (q < promises st)%nat by lia. apply H4. left. apply elem_of_app. now right.
        -- enough (q < promises st)%nat by lia. apply H4. now right.
  - unfold onMessage. cbv zeta. apply dequeue_ledger.
    apply (ledger_same (settle w (match msg with Done r => Resolved r | Failed => RejectedFailed end) st));
      try reflexivity.
    now apply settle_ledger.
  - unfold onError. now apply replace_ledger, settle_ledger.
  - unfold onExit. now apply replace_ledger, settle_ledger.
Qed.

Lemma create_ledger (size : nat) :
  ledger (create (payload := payload) (results := results) size).
Proof.
  unfold create. induction (Nat.max 1 size) as [|n IH].
  - constructor; cbn.
    + constructor.
    + intros w p Hp. now rewrite lookup_empty in Hp.
    + intros w w' p Hp. now rewrite lookup_empty in Hp.
    + intros p [Hp|[w Hp]]; [inversion Hp|now rewrite lookup_empty in Hp].
  - cbn [Nat.iter]. now apply (ledger_same (Nat.iter n _spawn (Pool [] [] ∅ 0 0 [] []))).
Qed.

Lemma after_ledger (size : nat) (events : list event) : ledger (after size events).
Proof.
  induction events as [|ev events IH] using rev_ind.
  - apply create_ledger.
  - unfold after in *. rewrite fold_left_app. cbn [fold_left]. now apply handle_ledger.
Qed.

End PoolLedger.

Section PoolContract.
Import WorkerPool Notions.
Context {payload results : Type}.

Local Abbreviation pool := (WorkerPool.pool payload results).
Local Abbreviation event := (WorkerPool.event payload results).

Lemma dequeue_promises (st : pool) : promises (_dequeue st) = promises st.
Proof.
  unfold _dequeue. destruct (queue st) as [|[p promise] rest]; [reflexivity|].
  destruct (TopK.pop (idle st)) as [[worker idle']|]; reflexivity.
Qed.

Lemma settle_promises (w : nat) (o : outcome results) (st : pool) :
  promises (settle w o st) = promises st.
Proof. unfold settle. destruct (_ !! _); reflexivity. Qed.

Lemma after_promises (size : nat) (events : list event) :
  promises (after size events) = length (submitted events).
Proof.
  induction events as [|ev events IH] using rev_ind.
  - unfold after, create. cbn. induction (Nat.max 1 size) as [|n IHn]; [reflexivity|].
    cbn [Nat.iter]. exact IHn.
  - unfold after in *. rewrite fold_left_app, submitted_snoc, length_app.
    cbn [fold_left]. set (st := fold_left handle events (create size)) in *.
    destruct ev as [p|w msg|w|w code]; cbn [handle length].
    + unfold runTask. cbv zeta.
      destruct (TopK.pop (idle st)) as [[worker idle']|]; cbn; lia.
    + unfold onMessage. cbv zeta. rewrite dequeue_promises. cbn.
      rewrite settle_promises. lia.
    + unfold onError, _replace. rewrite dequeue_promises. cbn.
      rewrite settle_promises. lia.
    + unfold onExit, _replace. rewrite dequeue_promises. cbn.
      rewrite settle_promises. lia.
Qed.

(** X20 (WorkerPool, dispatch). After any sequence of [runTask] calls
    and worker events on a new pool, no job waits while a worker is idle,
    and the payloads posted to the workers, followed by those of the
    waiting jobs, are the payloads submitted, in the order of submission:
    no job is lost, posted twice or overtaken. *)
Theorem pool_dispatches_in_order (size : nat) (events : list event) :
  let st := after size events in
  (queue st <> [] -> idle st = []) /\
  map snd (posted st) ++ map fst (queue st) = submitted events.
Proof.
  change (dispatched (submitted events) (after size events)).
  induction events as [|ev events IH] using rev_ind.
  - destruct (create_queue (payload := payload) (results := results) size) as [Eq Ep].
    unfold after. cbn. split; [now rewrite Eq|now rewrite Eq, Ep].
  - unfold after in *. rewrite fold_left_app, submitted_snoc. cbn [fold_left].
    now apply handle_dispatched.
Qed.

(** X21 (WorkerPool, settlement). After any sequence of [runTask] calls
    and worker events on a new pool, no promise was settled twice; every
    settled promise was handed out by [runTask]; and a settled promise
    belongs to no waiting job and to no running task. *)
Theorem pool_settles_each_promise_once (size : nat) (events : list event) :
  let st := after size events in
  NoDup (map fst (settled st)) /\
  (forall p, p ∈ map fst (settled st) ->
     (p < length (submitted events))%nat /\
     (p ∉ map snd (queue st)) /\
     (forall w, currentTasks st !! w <> Some p)).
Proof.
  cbv zeta. destruct (after_ledger size events) as [H1 H2 H3 H4].
  split; [now apply NoDup_app in H1 as (_ & _ & ?)|].
  intros p Hp. split; [|split].
  - rewrite <- (after_promises size). apply H4. left. apply elem_of_app. now right.
  - intros Hq. apply NoDup_app in H1 as (_ & Hdisj & _). exact (Hdisj p Hq Hp).
  - intros w Hw. apply (H2 w p Hw). apply elem_of_app. now right.
Qed.

Lemma dequeue_workers (st : pool) : workers (_dequeue st) = workers st.
Proof.
  unfold _dequeue. destruct (queue st) as [|[p promise] rest]; [reflexivity|].
  destruct (TopK.pop (idle st)) as [[worker idle']|]; reflexivity.
Qed.

Lemma settle_workers (w : nat) (o : outcome results) (st : pool) :
  workers (settle w o st) = workers st.
Proof. unfold settle. destruct (_ !! _); reflexivity. Qed.

(** X22 (WorkerPool, replacement). Every error event and every exit
    event creates a worker, whether or not the worker it comes from was
    replaced before, and nothing else does after the pool was set up: the
    number of workers created is the size of the pool plus the number of
    error and exit events. A worker that fails with an error event
    followed by its exit event is so replaced twice. *)
Theorem pool_spawns_on_every_failure (size : nat) (events : list event) :
  workers (after size events) = (Nat.max 1 size + failures events)%nat.
Proof.
  induction events as [|ev events IH] using rev_ind.
  - unfold after, create, failures. cbn [fold_left List.filter length].
    rewrite Nat.add_0_r. induction (Nat.max 1 size) as [|n IHn]; [reflexivity|].
    rewrite Nat.iter_succ. cbn [_spawn workers]. f_equal. exact IHn.
  - unfold after, failures in *. rewrite fold_left_app, List.filter_app, length_app.
    cbn [fold_left]. set (st := fold_left handle events (create size)) in *.
    destruct ev as [p|w msg|w|w code]; cbn [handle List.filter length].
    + unfold runTask. cbv zeta.
      destruct (TopK.pop (idle st)) as [[worker idle']|]; cbn; lia.
    + unfold onMessage. cbv zeta. rewrite dequeue_workers. cbn.
      rewrite settle_workers. lia.
    + unfold onError, _replace. rewrite dequeue_workers. cbn.
      rewrite settle_workers. lia.
    + unfold onExit, _replace. rewrite dequeue_workers. cbn.
      rewrite settle_workers. lia.
Qed.

End PoolContract.

Section PoolWitness.
Import WorkerPool Notions.

Lemma pool_dispatches_in_order_witness :
  queue (after (results := nat) 1 [RunTask 7%nat; RunTask 8%nat]) <> [] /\
  idle (after (results := nat) 1 [RunTask 7%nat; RunTask 8%nat]) = [].
Proof.
  assert (H : queue (after (results := nat) 1 [RunTask 7%nat; RunTask 8%nat]) <> [])
    by (vm_compute; discriminate).
  split; [exact H|].
  exact (proj1 (pool_dispatches_in_order 1 [RunTask 7%nat; RunTask 8%nat]) H).
Defined.

Lemma pool_settles_each_promise_once_witness :
  0%nat ∈ map fst (settled (after 1
      [RunTask 7%nat; RunTask 8%nat; Message 0 (Done 70%nat)])) /\
  (0 < length (submitted (results := nat)
      [RunTask 7%nat; RunTask 8%nat; Message 0 (Done 70%nat)]))%nat.
Proof.
  assert (H : 0%nat ∈ map fst (settled (after 1
      [RunTask 7%nat; RunTask 8%nat; Message 0 (Done 70%nat)])))
    by (vm_compute; apply list_elem_of_here).
  split; [exact H|].
  exact (proj1 (proj2 (pool_settles_each_promise_once 1
      [RunTask 7%nat; RunTask 8%nat; Message 0 (Done 70%nat)]) 0%nat H)).
Defined.

End PoolWitness.

Section CliFacts.
Import JS Cli Notions.

Lemma parseFrom_written (o : jsstr * option jsstr) (rest : list jsstr)
    (args : gmap (list N) arg) :
  wellWritten o = true ->
  (match rest with [] => True | k :: _ => startsWithDashes k = true end) ->
  parseFrom (written o ++ rest) args = parseFrom rest (<[ fst o := meaning o ]> args).
Proof.
  destruct o as [key [v|]]; unfold wellWritten, meaning; cbn [fst snd written];
    rewrite andb_true_iff, negb_true_iff, bool_decide_eq_false; intros [Hkey Hv] Hrest.
  - unfold isValue in Hv. destruct v as [|c v]; [discriminate|].
    cbn [app parseFrom]. change (startsWithDashes (str "--" ++ key)) with true.
    cbn [negb]. rewrite Hv. unfold assign.
    change (drop 2 (str "--" ++ key)) with key.
    now rewrite bool_decide_eq_false_2 by exact Hkey.
  - cbn [app]. destruct rest as [|k rest].
    + cbn [parseFrom]. change (startsWithDashes (str "--" ++ key)) with true.
      cbn [negb]. unfold assign. change (drop 2 (str "--" ++ key)) with key.
      now rewrite bool_decide_eq_false_2 by exact Hkey.
    + cbn [parseFrom]. change (startsWithDashes (str "--" ++ key)) with true.
      cbn [negb]. unfold assign. change (drop 2 (str "--" ++ key)) with key.
      rewrite bool_decide_eq_false_2 by exact Hkey.
      destruct k as [|c k]; [discriminate|]. rewrite Hrest. reflexivity.
Qed.

Lemma written_head (o : jsstr * option jsstr) (rest : list jsstr) :
  match written o ++ rest with [] => True | k :: _ => startsWithDashes k = true end.
Proof. destruct o as [key [v|]]; reflexivity. Qed.

Lemma parseFrom_options (opts : list (jsstr * option jsstr)) (args : gmap (list N) arg) :
  forallb wellWritten opts = true ->
  parseFrom (flat_map written opts) args =
  fold_left (fun m o => <[ fst o := meaning o ]> m) opts args.
Proof.
  revert args. induction opts as [|o opts IH]; intros args H; [reflexivity|].
  cbn [forallb] in H. apply andb_true_iff in H as [Ho H].
  cbn [flat_map fold_left]. rewrite parseFrom_written; [now apply IH|exact Ho|].
  destruct opts as [|o' opts]; [exact I|]. cbn [flat_map]. apply written_head.
Qed.

Local Abbreviation assignAll :=
  (fold_left (fun (m : gmap (list N) arg) o => <[ fst o := meaning o ]> m)).

Lemma assignAll_other (opts : list (jsstr * option jsstr)) (m : gmap (list N) arg)
    (k : jsstr) :
  k ∉ map fst opts -> assignAll opts m !! k = m !! k.
Proof.
  revert m. induction opts as [|o opts IH]; intros m Hk; [reflexivity|].
  cbn [fold_left]. rewrite IH.
  - apply lookup_insert_ne. intros E. apply Hk. cbn. rewrite E.
    apply elem_of_cons. now left.
  - intros H. apply Hk. cbn. apply elem_of_cons. now right.
Qed.

Lemma assignAll_lookup (opts : list (jsstr * option jsstr)) (m : gmap (list N) arg)
    (o : jsstr * option jsstr) :
  NoDup (map fst opts) -> o ∈ opts -> assignAll opts m !! fst o = Some (meaning o).
Proof.
  revert m. induction opts as [|o' opts IH]; intros m Hnd Ho; [inversion Ho|].
  cbn [map] in Hnd. apply NoDup_cons in Hnd as [Hfresh Hnd].
  cbn [fold_left]. apply elem_of_cons in Ho as [->|Ho].
  - rewrite assignAll_other by exact Hfresh. apply lookup_insert_eq.
  - now apply IH.
Qed.

Lemma parseArgs_options (node script : jsstr) (opts : list (jsstr * option jsstr)) :
  forallb wellWritten opts = true ->
  parseArgs (node :: script :: flat_map written opts) = assignAll opts ∅.
Proof. intros H. unfold parseArgs. cbn [drop]. now apply parseFrom_options. Qed.

(** X23 (parseArgs). The options written on a command line, each as
    [--key value] or as [--key] alone, are read back as written: the
    arguments object is built by assigning every key its value, or [true]
    for a key alone, in the order of the line, a later assignment of a key
    replacing an earlier one. So a key that is not written is absent, and
    when no key is written twice every key has the value written with it.
    The two leading tokens are not read. *)
Theorem parseArgs_reads_options_back (node script : jsstr)
    (opts : list (jsstr * option jsstr)) :
  forallb wellWritten opts = true ->
  let args := parseArgs (node :: script :: flat_map written opts) in
  args = fold_left (fun m o => <[ fst o := meaning o ]> m) opts ∅ /\
  (forall k, k ∉ map fst opts -> args !! k = None) /\
  (NoDup (map fst opts) -> forall o, o ∈ opts -> args !! fst o = Some (meaning o)).
Proof.
  intros H. cbv zeta. rewrite (parseArgs_options node script opts H).
  split; [reflexivity|]. split.
  - intros k Hk. rewrite assignAll_other by exact Hk. apply lookup_empty.
  - intros Hnd o Ho. now apply assignAll_lookup.
Qed.

End CliFacts.

Section RunFacts.
Import JS Cli CliRun Notions.

(** X24 (run). The run takes its target from [--target] or, without
    it, from [--t]: written with a value, the option gives the number of
    that value, and the run goes on with it when it is finite and above
    zero and exits with the code 1 otherwise, whatever [--t] says beside
    [--target]. Written without a value the option is [true], which counts
    as the number 1: the run does not stop with the usage text but goes on
    with the target 1. When neither option is written the run exits with
    the code 1. *)
Theorem run_target_without_value (toNumber : jsstr -> num) (node script : jsstr)
    (opts : list (jsstr * option jsstr)) :
  forallb wellWritten opts = true -> NoDup (map fst opts) ->
  let started := targetOf toNumber (node :: script :: flat_map written opts) in
  let checked (target : num) : num + nat :=
    if negb (isFinite target) || leb target (Fin 0) then inr 1%nat else inl target in
  (forall v, (str "target", Some v) ∈ opts -> started = checked (toNumber v)) /\
  (forall v, str "target" ∉ map fst opts -> (str "t", Some v) ∈ opts ->
     started = checked (toNumber v)) /\
  ((str "target", None) ∈ opts -> started = inl (Fin 1)) /\
  (str "target" ∉ map fst opts -> (str "t", None) ∈ opts -> started = inl (Fin 1)) /\
  (str "target" ∉ map fst opts -> str "t" ∉ map fst opts -> started = inr 1%nat).
Proof.
  intros Hw Hnd. cbv zeta. unfold targetOf, targetArg.
  rewrite (parseArgs_options node script opts Hw).
  split; [|split; [|split; [|split]]].
  - intros v Hin.
    rewrite (assignAll_lookup opts ∅ (str "target", Some v) Hnd Hin). reflexivity.
  - intros v Hno Hin. rewrite (assignAll_other opts ∅ (str "target") Hno), lookup_empty.
    rewrite (assignAll_lookup opts ∅ (str "t", Some v) Hnd Hin). reflexivity.
  - intros Hin.
    rewrite (assignAll_lookup opts ∅ (str "target", None) Hnd Hin). reflexivity.
  - intros Hno Hin. rewrite (assignAll_other opts ∅ (str "target") Hno), lookup_empty.
    rewrite (assignAll_lookup opts ∅ (str "t", None) Hnd Hin). reflexivity.
  - intros Hno Hno'.
    rewrite (assignAll_other opts ∅ (str "target") Hno), lookup_empty.
    rewrite (assignAll_other opts ∅ (str "t") Hno'), lookup_empty. reflexivity.
Qed.

End RunFacts.

Section ExportFacts.
Import JS TopK SolverCommon Vocabulary Notions ExcelExport.

(** X25 (exportToExcel on the results of the search). The sheet has one
    line for every result, in the order of the results; a line has eleven
    cells and shows every pick of its result, area and label, in the order
    of the picks: the four slots are enough, and only the fourth may be
    blank. *)
Theorem export_shows_every_pick
    (candidates : list rawCandidate) (target : num) (fileAName fileBName : jsstr)
    (topK : num) (disallowDominant : bool) (dominantMoreThan othersLessThan : num) :
  let results :=
    Solver.bestTopKCombos candidates target fileAName fileBName topK
      disallowDominant dominantMoreThan othersLessThan in
  length (rows results) = length results /\
  forall i r, results !! i = Some r ->
    exists line, rows results !! i = Some line /\
      length line = 11%nat /\
      line = flat_map (fun p => [Num (Fin (fst p)); Str (snd p)]) (result r) ++
             (if (length (result r) =? 3)%nat then [Blank; Blank] else []) ++
             [Num (Fin (兑换面积 r)); Num (目标面积 r); Num (浪费面积 r)].
Proof.
  cbv zeta. split; [apply length_map|]. intros i r Hi.
  exists (toRow r). split; [unfold rows; now rewrite list_lookup_fmap, Hi|].
  assert (Hr : r ∈ Solver.bestTopKCombos candidates target fileAName fileBName topK
                 disallowDominant dominantMoreThan othersLessThan)
    by (apply list_elem_of_lookup; now exists i).
  destruct (result_entry _ _ _ _ _ _ _ _ r Hr) as (e & He & ->).
  pose proof (search_combination _ _ _ _ _ _ _ _ _ e He) as Hc.
  unfold toRow. cbn [Solver.format result].
  destruct e as [se pe]. cbn [picked sum] in *.
  inversion Hc; subst; split; reflexivity.
Qed.

End ExportFacts.

(** ** Instances *)

Section SearchInstances.
Import JS TopK SolverCommon Vocabulary Notions.

Local Abbreviation resultsOfScenarioA :=
  (Solver.bestTopKCombos (scenarioA false false false false) (Fin 40)
     Data.FILE_A_NAME Data.FILE_B_NAME (Fin 5) false NaN NaN).

Lemma resultOfScenarioA_returned : resultOfScenarioA ∈ resultsOfScenarioA.
Proof. apply list_elem_of_lookup. exists 0%nat. vm_compute. reflexivity. Qed.

Local Abbreviation resultsOfNearTie :=
  (Solver.bestTopKCombos nearTieRows (Fin 4)
     Data.FILE_A_NAME Data.FILE_B_NAME (Fin 5) false NaN NaN).

Lemma resultOfNearTie_returned : resultOfNearTie ∈ resultsOfNearTie.
Proof. apply list_elem_of_lookup. exists 0%nat. vm_compute. reflexivity. Qed.

(** The rounding of the first addition decides the sixth decimal: the
    loops total 385/128 = 3.0078125, reported as 3.007813, where the exact
    total of the three areas would be reported as 3.007812. *)
Example total_is_rounded_at_every_step :
  total (map fst (result resultOfNearTie)) = Fin (385 # 128) /\
  兑换面积 resultOfNearTie = 3.007813%Q /\
  (toFixed6Q (1.0078125 - (1 # 4503599627370496) + 1 + 1) == 3.007812)%Q.
Proof. repeat split; vm_compute; reflexivity. Qed.


(** Its picks are rows of scenario A. *)
Lemma results_pick_eligible_rows_witness :
  resultOfScenarioA ∈ resultsOfScenarioA /\
  exists e,
    resultOfScenarioA = Solver.format (Fin 40) Data.FILE_B_NAME e /\
    forall x, x ∈ picked e ->
      (exists it, it ∈ scenarioA false false false false /\
         Solver.toItem Data.FILE_A_NAME Data.FILE_B_NAME it = Some x) /\
      (0 < area x)%Q /\ leb (Fin (area x)) (Fin 40) = true /\
      (type x = str "A" \/ type x = str "B" \/ type x = str "C") /\
      (srcFile x = Data.FILE_A_NAME \/ srcFile x = Data.FILE_B_NAME).
Proof.
  split; [exact resultOfScenarioA_returned|].
  exact (results_pick_eligible_rows _ _ _ _ _ _ _ _ _ resultOfScenarioA_returned).
Defined.

Lemma rowsOfFileA_sources (x : item) :
  x ∈ Solver.items rowsOfFileA Data.FILE_A_NAME Data.FILE_B_NAME ->
  srcFile x <> Data.FILE_B_NAME.
Proof.
  intros Hx. apply list_elem_of_In in Hx. vm_compute in Hx.
  destruct Hx as [<-|[<-|[<-|[]]]]; discriminate.
Qed.

(** Rows of the first file alone give no result. *)
Lemma results_include_file_B_witness :
  (forall x, x ∈ Solver.items rowsOfFileA Data.FILE_A_NAME Data.FILE_B_NAME ->
     srcFile x <> Data.FILE_B_NAME) /\
  Solver.bestTopKCombos rowsOfFileA (Fin 40) Data.FILE_A_NAME Data.FILE_B_NAME
    (Fin 5) false NaN NaN = [].
Proof.
  split; [exact rowsOfFileA_sources|].
  exact (proj2 (results_include_file_B rowsOfFileA (Fin 40)
                  Data.FILE_A_NAME Data.FILE_B_NAME (Fin 5) false NaN NaN)
           rowsOfFileA_sources).
Defined.

(** Scenario A under the bound 5: no more than five results. *)
Lemma results_bounded_distinct_sorted_witness :
  allowed (Fin 5) = Some 5%nat /\
  exists kept,
    resultsOfScenarioA = map (Solver.format (Fin 40) Data.FILE_B_NAME) kept /\
    (length resultsOfScenarioA <= 5)%nat.
Proof.
  assert (H : allowed (Fin 5) = Some 5%nat) by reflexivity.
  split; [exact H|].
  destruct (results_bounded_distinct_sorted (scenarioA false false false false) (Fin 40)
              Data.FILE_A_NAME Data.FILE_B_NAME (Fin 5) false NaN NaN)
    as (kept & E & Hlen & _).
  exists kept. split; [exact E|exact (Hlen 5%nat H)].
Defined.

Local Abbreviation resultsOfGapRows :=
  (Solver.bestTopKCombos gapRows (Fin gapTarget)
     Data.FILE_A_NAME Data.FILE_B_NAME (Fin 5) false NaN NaN).

Lemma resultOfGapRows_returned : resultOfGapRows ∈ resultsOfGapRows.
Proof. apply list_elem_of_lookup. exists 0%nat. vm_compute. reflexivity. Qed.

(** The subtraction of doubles decides the sixth decimal of the gap: it
    is reported as 7070769/40000 = 176.769225, where the difference of the
    two values rounds to 176.769224. *)
Example gap_is_a_difference_of_doubles :
  (兑换面积 resultOfGapRows == 127.530894)%Q /\
  浪费面积 resultOfGapRows = Fin (7070769 # 40000) /\
  (7070769 # 40000 == 176.769225)%Q /\
  (toFixed6Q (gapTarget - 127.530894) == 176.769224)%Q.
Proof. repeat split; vm_compute; reflexivity. Qed.

(** The result of the rows of [gapRows] reports its target and the gap
    176.769225. *)
Lemma reported_gaps_witness :
  isDouble gapTarget = true /\
  resultOfGapRows ∈ resultsOfGapRows /\
  exists e gap,
    resultOfGapRows = Solver.format (Fin gapTarget) Data.FILE_B_NAME e /\
    (sum e <= gapTarget)%Q /\
    目标面积 resultOfGapRows = Fin gapTarget /\
    浪费面积 resultOfGapRows = Fin gap /\
    Fin gap = toFixed6 (sub (Fin gapTarget) (number (兑换面积 resultOfGapRows))) /\
    (- (1 # 1000000) <= gap)%Q /\
    ((sum e <= gapTarget - (1 # 2000000))%Q -> (0 <= gap)%Q).
Proof.
  assert (H : isDouble gapTarget = true) by (vm_compute; reflexivity).
  split; [exact H|]. split; [exact resultOfGapRows_returned|].
  exact (proj1 (reported_gaps _ _ _ _ _ _ _ _ _ H resultOfGapRows_returned)).
Defined.

End SearchInstances.

Section RangeInstances.
Import JS Ranges Vocabulary Notions.

(** The rows of the sample group between 5 and 15. *)
Lemma sliceRange_keeps_rows_in_range_witness :
  ascendingBy area sampleGroup /\
  exists start end_ slice,
    lowerBound area sampleGroup (Some (Fin 5)) = Some start /\
    upperBound area sampleGroup (Some (Fin 15)) = Some end_ /\
    sliceRange area sampleGroup (Some (Fin 5)) (Some (Fin 15)) = Some slice /\
    slice = List.filter (fun x => withinRange (Some (Fin 5)) (Some (Fin 15)) (area x))
              sampleGroup /\
    (forall x, x ∈ slice <->
       x ∈ sampleGroup /\ withinRange (Some (Fin 5)) (Some (Fin 15)) (area x) = true) /\
    ((end_ <= start)%nat -> slice = []).
Proof.
  assert (H : ascendingBy area sampleGroup) by (apply ascendingb_sound; reflexivity).
  split; [exact H|].
  exact (sliceRange_keeps_rows_in_range area sampleGroup (Some (Fin 5)) (Some (Fin 15)) H).
Defined.

(** On the sample group the slice between 5 and 15 is what the filter of
    the first revision keeps. *)
Lemma sliceRange_agrees_with_applyAreaFilter_witness :
  ascendingBy area sampleGroup /\
  sliceRange area sampleGroup (Some (Fin 5)) (Some (Fin 15)) =
  Some (AreaFilter.applyAreaFilter (fun x => Fin (area x))
          (Some (Fin 5)) (Some (Fin 15)) sampleGroup).
Proof.
  assert (H : ascendingBy area sampleGroup) by (apply ascendingb_sound; reflexivity).
  assert (H5 : forall m, Some (Fin 5) = Some m -> isFinite m = true)
    by (intros m [= <-]; reflexivity).
  assert (H15 : forall m, Some (Fin 15) = Some m -> isFinite m = true)
    by (intros m [= <-]; reflexivity).
  split; [exact H|].
  exact (sliceRange_agrees_with_applyAreaFilter area sampleGroup
           (Some (Fin 5)) (Some (Fin 15)) H H5 H15).
Defined.

End RangeInstances.

Section RequestInstances.
Import JS TopK SolverCommon Vocabulary Notions Server.

(** The sample request: two results, all areas up to 25. *)
Lemma solveTopK_area_range_witness :
  exists results,
    DataLayer.solveTopK sampleSheets (Fin 40) (Fin 5) (sampleRequest "AB") false NaN NaN
      = Some results /\
    length results = 2%nat /\
    forall r a, r ∈ results -> a ∈ map fst (result r) -> (a <= 25)%Q.
Proof.
  destruct (solveTopK_area_range sampleSheets (Fin 40) (Fin 5) (sampleRequest "AB")
              false NaN NaN) as (results & E & H).
  exists results. split; [exact E|]. split.
  - vm_compute in E. injection E as <-. reflexivity.
  - intros r a Hr Ha. exact (proj2 (proj2 (H r a Hr Ha)) 25%Q eq_refl).
Defined.

(** The sample request with the source A: no result. *)
Lemma solveTopK_source_choice_witness :
  DataLayer.source (sampleRequest "A") = str "A" /\
  DataLayer.solveTopK sampleSheets (Fin 40) (Fin 5) (sampleRequest "A") false NaN NaN
    = Some [].
Proof.
  assert (H : DataLayer.source (sampleRequest "A") = str "A") by reflexivity.
  split; [exact H|].
  destruct (solveTopK_source_choice sampleSheets (Fin 40) (Fin 5) (sampleRequest "A")
              false NaN NaN) as (results & E & HA & _).
  rewrite E. f_equal. exact (HA H).
Defined.

(** The sample request selects the first community. *)
Lemma solveTopK_community_selection_witness :
  DataLayer.communityKey sampleSheets = true /\
  DataLayer.xfSel (DataLayer.xfCommunities (sampleRequest "AB")) <> [] /\
  exists results,
    DataLayer.solveTopK sampleSheets (Fin 40) (Fin 5) (sampleRequest "AB") false NaN NaN
      = Some results /\
    forall r, r ∈ results ->
      exists e, r = Solver.format (Fin 40) Data.FILE_B_NAME e /\
        forall x, x ∈ picked e -> srcFile x = Data.FILE_B_NAME ->
          exists name, community x = Some name /\
            name ∈ DataLayer.xfSel (DataLayer.xfCommunities (sampleRequest "AB")).
Proof.
  assert (H1 : DataLayer.communityKey sampleSheets = true) by reflexivity.
  assert (H2 : DataLayer.xfSel (DataLayer.xfCommunities (sampleRequest "AB")) <> [])
    by (vm_compute; discriminate).
  split; [exact H1|]. split; [exact H2|].
  exact (solveTopK_community_selection sampleSheets (Fin 40) (Fin 5) (sampleRequest "AB")
           false NaN NaN H1 H2).
Defined.


(** The served target is a sum of doubles: for the target 121.73 and the
    gift area 15 it is 136.73000000000002, not the double written
    136.73. *)
Example served_target_is_a_rounded_sum :
  add (Fin (round 121.73)) (Fin 15) = Fin (round 136.73000000000002) /\
  numToString (round 136.73000000000002) = str "136.73000000000002" /\
  Qeq_bool (round 136.73000000000002) (round 136.73) = false.
Proof. repeat split; vm_compute; reflexivity. Qed.

End RequestInstances.

Section LineInstances.
Import JS Cli ExcelExport Vocabulary Notions.

(** The sample line is read back. *)
Lemma parseArgs_reads_options_back_witness :
  forallb wellWritten sampleLine = true /\
  parseArgs (str "node" :: str "index.js" :: flat_map written sampleLine) =
  fold_left (fun m o => <[ fst o := meaning o ]> m) sampleLine ∅.
Proof.
  assert (H : forallb wellWritten sampleLine = true) by (vm_compute; reflexivity).
  split; [exact H|].
  exact (proj1 (parseArgs_reads_options_back (str "node") (str "index.js") sampleLine H)).
Defined.

(** The line of the best result of scenario A. *)
Lemma export_shows_every_pick_witness :
  exists r line,
    Solver.bestTopKCombos (scenarioA false false false false) (Fin 40)
      Data.FILE_A_NAME Data.FILE_B_NAME (Fin 5) false NaN NaN !! 0%nat = Some r /\
    rows (Solver.bestTopKCombos (scenarioA false false false false) (Fin 40)
            Data.FILE_A_NAME Data.FILE_B_NAME (Fin 5) false NaN NaN) !! 0%nat
      = Some line /\
    length line = 11%nat.
Proof.
  assert (H : Solver.bestTopKCombos (scenarioA false false false false) (Fin 40)
                Data.FILE_A_NAME Data.FILE_B_NAME (Fin 5) false NaN NaN !! 0%nat
              = Some resultOfScenarioA) by (vm_compute; reflexivity).
  destruct (proj2 (export_shows_every_pick (scenarioA false false false false) (Fin 40)
                     Data.FILE_A_NAME Data.FILE_B_NAME (Fin 5) false NaN NaN)
              0%nat resultOfScenarioA H) as (line & E & Hlen & _).
  exists resultOfScenarioA, line. split; [exact H|]. split; [exact E|exact Hlen].
Defined.

(** Among the sample columns the second preferred name is detected,
    although the fifth comes first in the sheet. *)
Lemma detectCommunityKey_spec_witness :
  [23567; 21306]%N ∈ sampleColumns /\
  Community.detectCommunityKey sampleColumns = Some [23567; 21306]%N.
Proof.
  assert (H : [23567; 21306]%N ∈ sampleColumns)
    by (apply list_elem_of_lookup; exists 2%nat; reflexivity).
  assert (Hb : forall q, q ∈ [ [23567; 21306; 21517; 31216]%N ] -> q ∉ sampleColumns).
  { intros q Hq. apply list_elem_of_singleton in Hq as ->. intros Hin.
    apply list_elem_of_In in Hin. vm_compute in Hin.
    destruct Hin as [E|[E|[E|[]]]]; discriminate E. }
  split; [exact H|].
  exact (proj2 (proj2 (detectCommunityKey_spec sampleColumns))
           [ [23567; 21306; 21517; 31216]%N ] [23567; 21306]%N
           [ [23567; 21306; 21517]%N; [39033; 30446; 21517; 31216]%N;
             [27004; 30424; 21517; 31216]%N ]
           eq_refl H Hb).
Defined.

(** The sample line starts a run with the target that it writes; a line
    whose target has no value starts a run with the target 1. *)
Lemma run_target_without_value_witness :
  forallb wellWritten sampleLine = true /\
  NoDup (map fst sampleLine) /\
  CliRun.targetOf (fun _ => number 318.64)
    (str "node" :: str "index.js" :: flat_map written sampleLine)
  = inl (number 318.64) /\
  CliRun.targetOf (fun _ => NaN)
    (str "node" :: str "index.js" :: flat_map written lineWithoutTarget)
  = inl (Fin 1).
Proof.
  assert (H1 : forallb wellWritten sampleLine = true) by (vm_compute; reflexivity).
  assert (H2 : NoDup (map fst sampleLine)).
  { repeat (apply NoDup_cons; split;
            [intros Hin; repeat (apply elem_of_cons in Hin as [Hin|Hin];
                                 [discriminate Hin|]); inversion Hin|]).
    apply NoDup_nil. exact I. }
  assert (H3 : (str "target", Some (str "318.64")) ∈ sampleLine)
    by (apply list_elem_of_lookup; exists 0%nat; reflexivity).
  assert (G1 : forallb wellWritten lineWithoutTarget = true) by (vm_compute; reflexivity).
  assert (G2 : NoDup (map fst lineWithoutTarget)).
  { apply NoDup_cons. split.
    - intros Hin. apply list_elem_of_singleton in Hin. discriminate Hin.
    - apply NoDup_singleton. }
  assert (G3 : (str "target", None) ∈ lineWithoutTarget)
    by (apply list_elem_of_lookup; exists 0%nat; reflexivity).
  split; [exact H1|]. split; [exact H2|]. split.
  - rewrite (proj1 (run_target_without_value (fun _ => number 318.64) (str "node")
                      (str "index.js") sampleLine H1 H2) (str "318.64") H3).
    vm_compute. reflexivity.
  - exact (proj1 (proj2 (proj2 (run_target_without_value (fun _ => NaN) (str "node")
                                  (str "index.js") lineWithoutTarget G1 G2))) G3).
Defined.

End LineInstances.
